(** * GraphLab: trace generators, playback and comparison, verified

    A shallow embedding of the animation library of GraphLab
    ([src/lib/animations/*.ts]) and of the two playback components
    ([GraphAnimation.tsx], [CompareMST.tsx]).

    Conventions of the embedding.
    - A JavaScript [number] is a [Z]: every sample graph carries integer
      weights, far below 2^53, where double arithmetic is exact.
    - A JavaScript object used as a record ([Record<string, V>]) is an
      association list in insertion order, and a [Set<string>] is a
      duplicate-free list in insertion order: the generators enumerate both
      ([Object.keys(graph.adj)], [for (key in parent)], [new Set(visited)]).
    - A generator returns an [outcome]: the Step array, or the reason why
      the call did not return one. *)

From Stdlib Require Import List String Ascii ZArith Lia Bool Arith.
From Stdlib Require Import DecimalString.
From Stdlib Require Import Sorted Permutation.
Import ListNotations.
Local Open Scope string_scope.
Local Open Scope list_scope.

(** ** JavaScript values *)

Module Js.

(** Why a call returned no value.  [TypeError] is the exception thrown by
    the runtime (iterating [undefined], reading a property of [undefined]).
    [OutOfFuel] is the embedding's own bound on a loop being exceeded.
    [OffModel] marks an execution that reads [undefined] where the source
    declares a string or a number: the source goes on with that value, the
    embedding stops and claims nothing about it. *)
Inductive error : Type := TypeError | OutOfFuel | OffModel.

Inductive outcome (A : Type) : Type :=
| Returned (a : A)
| Failed (e : error).
Arguments Returned {A} a.
Arguments Failed {A} e.

Definition bind {A B : Type} (c : outcome A) (k : A -> outcome B) : outcome B :=
  match c with
  | Returned a => k a
  | Failed e => Failed e
  end.

Definition orThrow {A : Type} (e : error) (o : option A) : outcome A :=
  match o with
  | Some a => Returned a
  | None => Failed e
  end.

(** [String(n)] and [`${n}`] on an integer. *)
Definition string_of_Z (n : Z) : string := NilZero.string_of_int (Z.to_int n).
Definition string_of_nat (n : nat) : string := string_of_Z (Z.of_nat n).

(** A template literal: its pieces, concatenated. *)
Definition template (parts : list string) : string := String.concat "" parts.

(** [Array.prototype.join]. *)
Fixpoint join (sep : string) (l : list string) : string :=
  match l with
  | [] => ""
  | [s] => s
  | s :: rest => (s ++ sep ++ join sep rest)%string
  end.

(** *** Records: objects keyed by strings, in insertion order *)

Definition record (V : Type) : Type := list (string * V).

Fixpoint get {V : Type} (r : record V) (k : string) : option V :=
  match r with
  | [] => None
  | (k', v) :: r' => if k' =? k then Some v else get r' k
  end.

(** [r[k] = v]: an existing key keeps its place, a new key goes last. *)
Fixpoint set {V : Type} (r : record V) (k : string) (v : V) : record V :=
  match r with
  | [] => [(k, v)]
  | (k', v') :: r' => if k' =? k then (k, v) :: r' else (k', v') :: set r' k v
  end.

(** [delete r[k]]. *)
Fixpoint remove {V : Type} (r : record V) (k : string) : record V :=
  match r with
  | [] => []
  | (k', v') :: r' => if k' =? k then r' else (k', v') :: remove r' k
  end.

(** [Object.keys(r)]. *)
Definition keys {V : Type} (r : record V) : list string := map fst r.

(** *** Sets of strings, in insertion order *)

Definition has (s : list string) (x : string) : bool := existsb (String.eqb x) s.

Definition add (s : list string) (x : string) : list string :=
  if has s x then s else s ++ [x].

(** [Array.prototype.includes]. *)
Definition includes (l : list string) (x : string) : bool := existsb (String.eqb x) l.

(** *** [Array.prototype.sort] with a numeric comparator

    [l.sort((a, b) => key(a) - key(b))] is stable: elements with equal
    keys keep their relative order. *)
Section Sort.
Context {A : Type} (key : A -> Z).

(** [x] goes before the first element with a strictly larger key. *)
Fixpoint insert (x : A) (l : list A) : list A :=
  match l with
  | [] => [x]
  | y :: l' => if (key x <? key y)%Z then x :: y :: l' else y :: insert x l'
  end.

Definition sortBy (l : list A) : list A :=
  fold_left (fun acc x => insert x acc) l [].
End Sort.

End Js.

Export Js.

Declare Scope outcome_scope.
Delimit Scope outcome_scope with outcome.
Notation "x <- c ;; k" := (bind c (fun x => k))
  (at level 61, c at next level, right associativity) : outcome_scope.
Notation "' p <- c ;; k" := (bind c (fun x => let p := x in k))
  (at level 61, p pattern, c at next level, right associativity) : outcome_scope.
Local Open Scope outcome_scope.

(** ** The trace model ([types.ts]) *)

Module Types.

Record Node : Type := { id : string; x : Z; y : Z }.

Record Edge : Type := { from : string; to : string; weight : Z }.

(** [edges] and [directed] are optional in the source.  The [layout] and
  [grid] fields belong to the grid problems, which are not embedded. *)
Record GraphData : Type := {
nodes : list Node;
adj : record (list string);
edges : option (list Edge);
directed : option bool
}.

(** A distance is a number or the sentinel ['∞']. *)
Inductive distance : Type :=
| Num (n : Z)
| Infinite.

(** The facets of a Step that the embedded generators write.  [None] is an
  absent optional field, except in [currentNode], where it is [null];
  [neighbor] may be absent or [null]. *)
Record Step : Type := {
description : string;
currentNode : option string;
neighbor : option (option string);
dataStructure : option (list string);
visited : option (list string);
distances : option (record distance);
highlightedEdge : option Edge;
mstEdges : option (list string);
nodeSets : option (record string);
highlightedPath : option (list string);
flows : option (record Z);
supernodes : option (record (list string));
graphData : option GraphData
}.

(** A Step with the two mandatory fields only. *)
Definition bareStep (desc : string) (current : option string) : Step :=
{| description := desc; currentNode := current; neighbor := None;
   dataStructure := None; visited := None; distances := None;
   highlightedEdge := None; mstEdges := None; nodeSets := None;
   highlightedPath := None; flows := None; supernodes := None;
   graphData := None |}.

End Types.

Export Types.

(** ** Helpers of the generators ([utils.ts]) *)

(** [`${v}`] on a value of the type. *)
Class ToString (T : Type) : Type := toString : T -> string.

#[export] Instance string_ToString : ToString string := fun s => s.

(** An object has no [toString] of its own. *)
#[export] Instance Edge_ToString : ToString Edge := fun _ => "[object Object]".

Module PriorityQueue.

Section Elements.
Context {T : Type} `{ToString T}.

Record item : Type := { element : T; priority : Z }.

(** The [elements] array of the class. *)
Definition t : Type := list item.

Definition empty : t := [].

(** [push] then [sort((a, b) => a.priority - b.priority)]. *)
Definition enqueue (q : t) (e : T) (p : Z) : t :=
  sortBy priority (q ++ [ {| element := e; priority := p |} ]).

(** [shift]: the removed item and the rest, or [undefined]. *)
Definition dequeue (q : t) : option (item * t) :=
  match q with
  | [] => None
  | it :: q' => Some (it, q')
  end.

Definition isEmpty (q : t) : bool :=
  match q with
  | [] => true
  | _ :: _ => false
  end.

Definition toStringArray (q : t) : list string :=
  map (fun it => template [toString (element it); "("; string_of_Z (priority it); ")"]) q.
End Elements.

Arguments item T : clear implicits.
Arguments t T : clear implicits.

End PriorityQueue.

Module DisjointSet.

(** The [parent] record of the class. *)
Definition t : Type := record string.

(** [elements.forEach(e => (this.parent[e] = e))]. *)
Definition make (elements : list string) : t :=
  fold_left (fun parent e => set parent e e) elements [].

(** [find(i)], with path compression: the root and the updated [parent].
    The recursion follows parent links, one unit of fuel per link.  An
    element that is not a key reads [undefined]. *)
Fixpoint find_fuel (fuel : nat) (parent : t) (i : string) : outcome (string * t) :=
  match fuel with
  | O => Failed OutOfFuel
  | S fuel' =>
      p <- orThrow OffModel (get parent i) ;;
      if p =? i then Returned (i, parent)
      else
        ' (root, parent') <- find_fuel fuel' parent p ;;
        Returned (root, set parent' i root)
  end.

(** A chain of links without a cycle visits each key at most once. *)
Definition find (parent : t) (i : string) : outcome (string * t) :=
  find_fuel (S (List.length parent)) parent i.

Definition union (parent : t) (i j : string) : outcome t :=
  ' (rootI, parent1) <- find parent i ;;
  ' (rootJ, parent2) <- find parent1 j ;;
  if negb (rootI =? rootJ) then Returned (set parent2 rootJ rootI)
  else Returned parent2.

(** [for (const key in this.parent) sets[key] = this.find(key)]: the
    keys are those of [parent] when the loop starts; [find] rewrites
    values only. *)
Fixpoint getSets_from (ks : list string) (parent : t) (sets : record string)
    : outcome (record string * t) :=
  match ks with
  | [] => Returned (sets, parent)
  | key :: ks' =>
      ' (root, parent') <- find parent key ;;
      getSets_from ks' parent' (set sets key root)
  end.

Definition getSets (parent : t) : outcome (record string * t) :=
  getSets_from (keys parent) parent [].

End DisjointSet.

(** ** Breadth-first search ([bfs.ts]) *)

Module Bfs.

(** The object literal pushed at each of the four places. *)
Definition snapshot (queue visited : list string) (current : option string)
    (nb : option string) (desc : string) : Step :=
  {| description := desc; currentNode := current; neighbor := Some nb;
     dataStructure := Some queue; visited := Some visited; distances := None;
     highlightedEdge := None; mstEdges := None; nodeSets := None;
     highlightedPath := None; flows := None; supernodes := None;
     graphData := None |}.

Record state : Type := {
  queue : list string;
  seen : list string;
  steps : list Step
}.

(** [for (const neighbor of neighbors) { if (!visited.has(neighbor)) ... }] *)
Fixpoint explore (currentNode : string) (neighbors : list string) (s : state) : state :=
  match neighbors with
  | [] => s
  | nb :: rest =>
      if has (seen s) nb then explore currentNode rest s
      else
        let visited' := add (seen s) nb in
        let queue' := queue s ++ [nb] in
        explore currentNode rest
          {| queue := queue'; seen := visited';
             steps := steps s ++
               [snapshot queue' visited' (Some currentNode) (Some nb)
                  (template ["Node "; currentNode; " explores neighbor "; nb;
                             ". Add "; nb; " to queue and mark as visited."])] |}
  end.

(** [while (queue.length > 0)]: one unit of fuel per dequeued node. *)
Fixpoint loop (fuel : nat) (graph : GraphData) (s : state) : outcome state :=
  match queue s with
  | [] => Returned s
  | currentNode :: queue' =>
      match fuel with
      | O => Failed OutOfFuel
      | S fuel' =>
          let s1 := {| queue := queue'; seen := seen s;
                       steps := steps s ++
                         [snapshot queue' (seen s) (Some currentNode) None
                            (template ["Dequeue "; currentNode; " to process it."])] |} in
          neighbors <- orThrow TypeError (get (adj graph) currentNode) ;;
          loop fuel' graph (explore currentNode neighbors s1)
      end
  end.

Definition start (startNode : string) : state :=
  {| queue := [startNode]; seen := add [] startNode;
     steps := [snapshot [startNode] (add [] startNode) None None
                 (template ["Start BFS from node "; startNode;
                            ". Add it to the queue and mark as visited."])] |}.

Definition finish (s : state) : list Step :=
  steps s ++ [snapshot [] (seen s) None None "Queue is empty. BFS traversal complete."].

Definition generateSteps_fuel (fuel : nat) (graph : GraphData) (startNode : string)
    : outcome (list Step) :=
  s <- loop fuel graph (start startNode) ;;
  Returned (finish s).

(** Every dequeued node that does not throw is a key of [adj], and no
    node is enqueued twice. *)
Definition generateSteps (graph : GraphData) (startNode : string) : outcome (list Step) :=
  generateSteps_fuel (S (List.length (adj graph))) graph startNode.

(** The sample graph of the module. *)
Definition graphData : GraphData :=
  {| nodes := [ {| id := "A"; x := 100; y := 200 |};
                {| id := "B"; x := 250; y := 100 |};
                {| id := "C"; x := 250; y := 300 |};
                {| id := "D"; x := 400; y := 100 |};
                {| id := "E"; x := 400; y := 300 |};
                {| id := "F"; x := 550; y := 200 |} ];
     adj := [ ("A", ["B"; "C"]); ("B", ["A"; "D"]); ("C", ["A"; "E"]);
              ("D", ["B"; "F"]); ("E", ["C"; "F"]); ("F", ["D"; "E"]) ];
     edges := None;
     directed := None |}.

End Bfs.

(** ** Shortest paths in an unweighted graph ([shortest-path-unweighted.ts]) *)

Module ShortestPathUnweighted.

Definition snapshot (queue visited : list string) (current : option string)
    (nb : option string) (desc : string) (dist : record distance)
    (edge : option Edge) : Step :=
  {| description := desc; currentNode := current; neighbor := Some nb;
     dataStructure := Some queue; visited := Some visited;
     distances := Some dist; highlightedEdge := edge; mstEdges := None;
     nodeSets := None; highlightedPath := None; flows := None;
     supernodes := None; graphData := None |}.

Record state : Type := {
  queue : list string;
  seen : list string;
  dist : record distance;
  steps : list Step
}.

Definition showDistance (d : option distance) : string :=
  match d with
  | Some (Num n) => string_of_Z n
  | Some Infinite => "∞"
  | None => "undefined"
  end.

Fixpoint explore (currentNode : string) (neighbors : list string) (s : state)
    : outcome state :=
  match neighbors with
  | [] => Returned s
  | nb :: rest =>
      if has (seen s) nb then explore currentNode rest s
      else
        let visited' := add (seen s) nb in
        let queue' := queue s ++ [nb] in
        currentDist <- match get (dist s) currentNode with
                       | Some (Num n) => Returned n
                       | _ => Failed OffModel
                       end ;;
        let dist' := set (dist s) nb (Num (currentDist + 1)) in
        explore currentNode rest
          {| queue := queue'; seen := visited'; dist := dist';
             steps := steps s ++
               [snapshot queue' visited' (Some currentNode) (Some nb)
                  (template ["Visit "; nb; ". Distance = ";
                             showDistance (get dist' nb); ". Add to queue."])
                  dist'
                  (Some {| from := currentNode; to := nb; weight := 1 |})] |}
  end.

Fixpoint loop (fuel : nat) (graph : GraphData) (s : state) : outcome state :=
  match queue s with
  | [] => Returned s
  | currentNode :: queue' =>
      match fuel with
      | O => Failed OutOfFuel
      | S fuel' =>
          let s1 := {| queue := queue'; seen := seen s; dist := dist s;
                       steps := steps s ++
                         [snapshot queue' (seen s) (Some currentNode) None
                            (template ["Dequeue "; currentNode; " to process it."])
                            (dist s) None] |} in
          neighbors <- orThrow TypeError (get (adj graph) currentNode) ;;
          s2 <- explore currentNode neighbors s1 ;;
          loop fuel' graph s2
      end
  end.

Definition start (graph : GraphData) (startNode : string) : state :=
  let dist0 :=
    set (fold_left (fun d node => set d (id node) Infinite) (nodes graph) [])
        startNode (Num 0) in
  {| queue := [startNode]; seen := add [] startNode; dist := dist0;
     steps := [snapshot [startNode] (add [] startNode) None None
                 (template ["Start BFS from node "; startNode; ". Distance is 0."])
                 dist0 None] |}.

Definition finish (startNode : string) (s : state) : list Step :=
  steps s ++
  [snapshot [] (seen s) None None
     (template ["Queue is empty. Shortest paths from "; startNode; " found."])
     (dist s) None].

Definition generateSteps_fuel (fuel : nat) (graph : GraphData) (startNode : string)
    : outcome (list Step) :=
  s <- loop fuel graph (start graph startNode) ;;
  Returned (finish startNode s).

Definition generateSteps (graph : GraphData) (startNode : string) : outcome (list Step) :=
  generateSteps_fuel (S (List.length (adj graph))) graph startNode.

(** The sample graph of the module: the one of [bfs.ts]. *)
Definition graphData : GraphData := Bfs.graphData.

End ShortestPathUnweighted.

(** [graph.edges!.find(e => (e.from === a && e.to === b) || (e.from === b && e.to === a))] *)
Definition findEdge (es : list Edge) (a b : string) : option Edge :=
  List.find (fun e => ((from e =? a) && (to e =? b)) || ((from e =? b) && (to e =? a)))%string es.

(** [[edge.from, edge.to].sort().join('-')]: the default sort compares the
    strings by code units, which is the byte order on the ASCII
    identifiers of the sample graphs. *)
Definition getEdgeKey (edge : Edge) : string :=
  if (to edge <? from edge)%string then join "-" [to edge; from edge]
  else join "-" [from edge; to edge].

(** ** Dijkstra's algorithm (the Dijkstra module) *)

Module Dijkstra.

Definition snapshot (pq : PriorityQueue.t string) (visited : list string)
    (current nb : option string) (desc : string) (dist : record distance)
    (edge : option Edge) : Step :=
  {| description := desc; currentNode := current; neighbor := Some nb;
     dataStructure := Some (PriorityQueue.toStringArray pq);
     visited := Some visited; distances := Some dist;
     highlightedEdge := edge; mstEdges := None; nodeSets := None;
     highlightedPath := None; flows := None; supernodes := None;
     graphData := None |}.

Record state : Type := {
  pq : PriorityQueue.t string;
  seen : list string;
  dist : record distance;
  steps : list Step
}.

(** [neighborDist === '∞' || newDist < neighborDist]; a comparison with
    [undefined] is false. *)
Definition improves (newDist : Z) (neighborDist : option distance) : bool :=
  match neighborDist with
  | Some Infinite => true
  | Some (Num d) => (newDist <? d)%Z
  | None => false
  end.

Fixpoint relax (graph : GraphData) (currentNode : string) (neighbors : list string)
    (s : state) : outcome state :=
  match neighbors with
  | [] => Returned s
  | nb :: rest =>
      if has (seen s) nb then relax graph currentNode rest s
      else
        es <- orThrow TypeError (edges graph) ;;
        currentDist <- match get (dist s) currentNode with
                       | Some (Num n) => Returned n
                       | _ => Failed OffModel
                       end ;;
        edge <- orThrow TypeError (findEdge es currentNode nb) ;;
        let newDist := (currentDist + weight edge)%Z in
        if improves newDist (get (dist s) nb) then
          let dist' := set (dist s) nb (Num newDist) in
          let pq' := PriorityQueue.enqueue (pq s) nb newDist in
          relax graph currentNode rest
            {| pq := pq'; seen := seen s; dist := dist';
               steps := steps s ++
                 [snapshot pq' (seen s) (Some currentNode) (Some nb)
                    (template ["Shorter path to "; nb; " found! Update distance to ";
                               string_of_Z newDist; "."])
                    dist' (Some edge)] |}
        else relax graph currentNode rest s
  end.

(** [while (!pq.isEmpty())]: one unit of fuel per dequeued entry. *)
Fixpoint loop (fuel : nat) (graph : GraphData) (s : state) : outcome state :=
  match PriorityQueue.dequeue (pq s) with
  | None => Returned s
  | Some (it, pq') =>
      match fuel with
      | O => Failed OutOfFuel
      | S fuel' =>
          let currentNode := PriorityQueue.element it in
          if has (seen s) currentNode then
            loop fuel' graph {| pq := pq'; seen := seen s; dist := dist s; steps := steps s |}
          else
            let visited' := add (seen s) currentNode in
            let s1 := {| pq := pq'; seen := visited'; dist := dist s;
                         steps := steps s ++
                           [snapshot pq' visited' (Some currentNode) None
                              (template ["Extract node "; currentNode;
                                         " with the smallest distance from the Priority Queue."])
                              (dist s) None] |} in
            neighbors <- orThrow TypeError (get (adj graph) currentNode) ;;
            s2 <- relax graph currentNode neighbors s1 ;;
            loop fuel' graph s2
      end
  end.

Definition start (graph : GraphData) (startNode : string) : state :=
  let dist0 :=
    set (fold_left (fun d node => set d (id node) Infinite) (nodes graph) [])
        startNode (Num 0) in
  let pq0 := PriorityQueue.enqueue PriorityQueue.empty startNode 0 in
  {| pq := pq0; seen := []; dist := dist0;
     steps := [snapshot pq0 [] None None
                 "Initialize distances. Start node distance is 0, others are infinity."
                 dist0 None] |}.

Definition finish (startNode : string) (s : state) : list Step :=
  steps s ++
  [snapshot PriorityQueue.empty (seen s) None None
     (template ["Priority Queue is empty. Shortest paths from "; startNode; " found."])
     (dist s) None].

Definition generateSteps_fuel (fuel : nat) (graph : GraphData) (startNode : string)
    : outcome (list Step) :=
  s <- loop fuel graph (start graph startNode) ;;
  Returned (finish startNode s).

(** An entry is enqueued at the start and once per relaxed neighbour of a
    finalized node; a node is finalized once. *)
Definition degreeSum (graph : GraphData) : nat :=
  list_sum (map (fun kv => List.length (snd kv)) (adj graph)).

Definition generateSteps (graph : GraphData) (startNode : string) : outcome (list Step) :=
  generateSteps_fuel (S (degreeSum graph)) graph startNode.

(** The sample graph of the module. *)
Definition graphData : GraphData :=
  {| nodes := [ {| id := "A"; x := 100; y := 200 |};
                {| id := "B"; x := 250; y := 100 |};
                {| id := "C"; x := 250; y := 300 |};
                {| id := "D"; x := 450; y := 100 |};
                {| id := "E"; x := 450; y := 300 |};
                {| id := "F"; x := 600; y := 200 |} ];
     adj := [ ("A", ["B"; "C"]); ("B", ["A"; "D"; "C"]); ("C", ["A"; "B"; "E"]);
              ("D", ["B"; "F"]); ("E", ["C"; "F"]); ("F", ["D"; "E"]) ];
     edges := Some [ {| from := "A"; to := "B"; weight := 4 |};
                     {| from := "A"; to := "C"; weight := 2 |};
                     {| from := "B"; to := "C"; weight := 1 |};
                     {| from := "B"; to := "D"; weight := 5 |};
                     {| from := "C"; to := "E"; weight := 3 |};
                     {| from := "D"; to := "F"; weight := 3 |};
                     {| from := "E"; to := "F"; weight := 1 |} ];
     directed := None |}.

End Dijkstra.

(** The sample graph shared by [kruskal.ts] and the Prim's module. *)
Definition mstSample : GraphData :=
  {| nodes := [ {| id := "A"; x := 100; y := 100 |};
                {| id := "B"; x := 300; y := 50 |};
                {| id := "C"; x := 250; y := 250 |};
                {| id := "D"; x := 500; y := 100 |};
                {| id := "E"; x := 450; y := 300 |};
                {| id := "F"; x := 600; y := 200 |} ];
     adj := [ ("A", ["B"; "C"]); ("B", ["A"; "C"; "D"]); ("C", ["A"; "B"; "E"]);
              ("D", ["B"; "F"]); ("E", ["C"; "F"]); ("F", ["D"; "E"]) ];
     edges := Some [ {| from := "A"; to := "B"; weight := 3 |};
                     {| from := "A"; to := "C"; weight := 2 |};
                     {| from := "B"; to := "C"; weight := 1 |};
                     {| from := "B"; to := "D"; weight := 6 |};
                     {| from := "C"; to := "E"; weight := 8 |};
                     {| from := "D"; to := "F"; weight := 4 |};
                     {| from := "E"; to := "F"; weight := 5 |} ];
     directed := None |}.

(** ** Kruskal's algorithm ([kruskal.ts]) *)

Module Kruskal.

Definition showEdge (e : Edge) : string :=
  template [from e; "-"; to e; " ("; string_of_Z (weight e); ")"].

Definition snapshot (sortedEdges : list Edge) (desc : string)
    (sets : record string) (edge : option Edge) (mst : list string) : Step :=
  {| description := desc; currentNode := None; neighbor := Some None;
     dataStructure := Some (map showEdge sortedEdges); visited := Some [];
     distances := None; highlightedEdge := edge; mstEdges := Some mst;
     nodeSets := Some sets; highlightedPath := None; flows := None;
     supernodes := None; graphData := None |}.

Record state : Type := {
  dsu : DisjointSet.t;
  mst : list string;
  steps : list Step
}.

(** Appends a Step; [dsu.getSets()] compresses paths on the way. *)
Definition emit (sortedEdges : list Edge) (desc : string) (edge : option Edge)
    (s : state) : outcome state :=
  ' (sets, dsu') <- DisjointSet.getSets (dsu s) ;;
  Returned {| dsu := dsu'; mst := mst s;
              steps := steps s ++ [snapshot sortedEdges desc sets edge (mst s)] |}.

(** The body of [for (const edge of sortedEdges)]. *)
Definition consider (sortedEdges : list Edge) (edge : Edge) (s : state) : outcome state :=
  s1 <- emit sortedEdges
          (template ["Considering edge "; from edge; "-"; to edge; " with weight ";
                     string_of_Z (weight edge); "."])
          (Some edge) s ;;
  ' (rootFrom, d1) <- DisjointSet.find (dsu s1) (from edge) ;;
  ' (rootTo, d2) <- DisjointSet.find d1 (to edge) ;;
  if negb (rootFrom =? rootTo)%string then
    d3 <- DisjointSet.union d2 (from edge) (to edge) ;;
    emit sortedEdges
      (template ["No cycle formed. Add "; from edge; "-"; to edge;
                 " to MST and union their sets."])
      (Some edge)
      {| dsu := d3; mst := add (mst s1) (getEdgeKey edge); steps := steps s1 |}
  else
    emit sortedEdges
      (template ["Edge "; from edge; "-"; to edge; " would form a cycle. Discard it."])
      (Some edge)
      {| dsu := d2; mst := mst s1; steps := steps s1 |}.

Fixpoint forEdges (sortedEdges rest : list Edge) (s : state) : outcome state :=
  match rest with
  | [] => Returned s
  | edge :: rest' =>
      s' <- consider sortedEdges edge s ;;
      forEdges sortedEdges rest' s'
  end.

Definition generateSteps (graph : GraphData) : outcome (list Step) :=
  es <- orThrow TypeError (edges graph) ;;
  let sortedEdges := sortBy weight es in
  let dsu0 := DisjointSet.make (map id (nodes graph)) in
  s0 <- emit sortedEdges
          "Start with all nodes in their own set. Sort all edges by weight."
          None {| dsu := dsu0; mst := []; steps := [] |} ;;
  s1 <- forEdges sortedEdges sortedEdges s0 ;;
  s2 <- emit sortedEdges "Finished. Minimum Spanning Tree is complete." None s1 ;;
  Returned (steps s2).

Definition graphData : GraphData := mstSample.

End Kruskal.

(** ** Prim's algorithm (the Prim's module) *)

Module Prims.

Definition snapshot (desc : string) (current : option string) (edge : option Edge)
    (ds : list string) (visited mst : list string) : Step :=
  {| description := desc; currentNode := current; neighbor := None;
     dataStructure := Some ds; visited := Some visited; distances := None;
     highlightedEdge := edge; mstEdges := Some mst; nodeSets := None;
     highlightedPath := None; flows := None; supernodes := None;
     graphData := None |}.

Record state : Type := {
  pq : PriorityQueue.t Edge;
  seen : list string;
  mst : list string;
  steps : list Step
}.

(** The [forEach] of [addEdges]. *)
Fixpoint enqueueEdges (graph : GraphData) (nodeId : string) (neighbors : list string)
    (q : PriorityQueue.t Edge) : outcome (PriorityQueue.t Edge) :=
  match neighbors with
  | [] => Returned q
  | neighborId :: rest =>
      es <- orThrow TypeError (edges graph) ;;
      match findEdge es nodeId neighborId with
      | Some edge => enqueueEdges graph nodeId rest (PriorityQueue.enqueue q edge (weight edge))
      | None => enqueueEdges graph nodeId rest q
      end
  end.

(** [addEdges(nodeId)], reading [graph.adj[nodeId] || []]. *)
Definition addEdges (graph : GraphData) (nodeId : string) (s : state) : outcome state :=
  let neighbors := match get (adj graph) nodeId with Some l => l | None => [] end in
  q <- enqueueEdges graph nodeId neighbors (pq s) ;;
  Returned {| pq := q; seen := add (seen s) nodeId; mst := mst s; steps := steps s |}.

Definition push (st : Step) (s : state) : state :=
  {| pq := pq s; seen := seen s; mst := mst s; steps := steps s ++ [st] |}.

(** [while (!pq.isEmpty() && visited.size < graph.nodes.length)] *)
Fixpoint loop (fuel : nat) (graph : GraphData) (s : state) : outcome state :=
  match PriorityQueue.dequeue (pq s) with
  | None => Returned s
  | Some (it, pq') =>
      if negb (List.length (seen s) <? List.length (nodes graph))%nat then Returned s
      else
        match fuel with
        | O => Failed OutOfFuel
        | S fuel' =>
            let edge := PriorityQueue.element it in
            let s1 := push (snapshot
                              (template ["Extract edge "; from edge; "-"; to edge;
                                         " (weight "; string_of_Z (weight edge); ") from PQ."])
                              None (Some edge) (PriorityQueue.toStringArray pq')
                              (seen s) (mst s))
                           {| pq := pq'; seen := seen s; mst := mst s; steps := steps s |} in
            let fromVisited := has (seen s1) (from edge) in
            let toVisited := has (seen s1) (to edge) in
            if fromVisited && toVisited then
              loop fuel' graph
                (push (snapshot "Both nodes are already in the MST. Discard edge."
                         None (Some edge) (PriorityQueue.toStringArray (pq s1))
                         (seen s1) (mst s1)) s1)
            else
              let mst' := add (mst s1) (getEdgeKey edge) in
              let newNode := if fromVisited then to edge else from edge in
              let s2 := push (snapshot
                                (template ["Add edge "; from edge; "-"; to edge;
                                           " to the MST. Visit new node "; newNode; "."])
                                (Some newNode) (Some edge)
                                (PriorityQueue.toStringArray (pq s1)) (seen s1) mst')
                             {| pq := pq s1; seen := seen s1; mst := mst'; steps := steps s1 |} in
              s3 <- addEdges graph newNode s2 ;;
              loop fuel' graph
                (push (snapshot
                         (template ["Add all new edges from "; newNode;
                                    " to the priority queue."])
                         (Some newNode) None (PriorityQueue.toStringArray (pq s3))
                         (seen s3) (mst s3)) s3)
        end
  end.

Definition generateSteps_fuel (fuel : nat) (graph : GraphData) (startNode : string)
    : outcome (list Step) :=
  let s0 := push (snapshot (template ["Start Prim's algorithm from node "; startNode; "."])
                    (Some startNode) None (PriorityQueue.toStringArray (@PriorityQueue.empty Edge))
                    [] [])
                 {| pq := PriorityQueue.empty; seen := []; mst := []; steps := [] |} in
  s1 <- addEdges graph startNode s0 ;;
  let s2 := push (snapshot (template ["Add all edges from "; startNode;
                                      " to the priority queue."])
                    (Some startNode) None (PriorityQueue.toStringArray (pq s1))
                    (seen s1) (mst s1)) s1 in
  s3 <- loop fuel graph s2 ;;
  Returned (steps s3 ++
            [snapshot "Algorithm complete. Minimum Spanning Tree found."
               None None [] (seen s3) (mst s3)]).

(** An edge is enqueued once per neighbour of a node entering the tree. *)
Definition generateSteps (graph : GraphData) (startNode : string) : outcome (list Step) :=
  generateSteps_fuel (S (Dijkstra.degreeSum graph)) graph startNode.

Definition graphData : GraphData := mstSample.

End Prims.

(** ** Flow networks: Ford-Fulkerson ([ford-fulkerson.ts]) *)

(** [`${from}->${to}`] *)
Definition getDirectedEdgeKey (a b : string) : string := template [a; "->"; b].

(** [[...(graph.adj[u] || []), ...Object.keys(graph.adj).filter(n => graph.adj[n].includes(u))]] *)
Definition residualNeighbors (graph : GraphData) (u : string) : list string :=
  (match get (adj graph) u with Some l => l | None => [] end) ++
  map fst (filter (fun kv => includes (snd kv) u) (adj graph)).

Module FordFulkerson.

Definition snapshot (desc : string) (path : option (list string))
    (fl : record Z) (totalFlow : Z) : Step :=
  {| description := desc; currentNode := None; neighbor := None;
     dataStructure := Some [string_of_Z totalFlow]; visited := None;
     distances := None; highlightedEdge := None; mstEdges := None;
     nodeSets := None; highlightedPath := path; flows := Some fl;
     supernodes := None; graphData := None |}.

(** The two [forEach] over [graph.edges] that fill [flows] and [capacities]. *)
Definition initFlows (es : list Edge) : record Z :=
  fold_left (fun fl e =>
               set (set fl (getDirectedEdgeKey (from e) (to e)) 0%Z)
                   (getDirectedEdgeKey (to e) (from e)) 0%Z) es [].

Definition initCapacities (es : list Edge) : record Z :=
  fold_left (fun c e => set c (getDirectedEdgeKey (from e) (to e)) (weight e)) es [].

(** [r[k] || 0] *)
Definition orZero (r : record Z) (k : string) : Z :=
  match get r k with Some n => n | None => 0%Z end.

Definition residual (capacities fl : record Z) (u v : string) : Z :=
  (orZero capacities (getDirectedEdgeKey u v) - orZero fl (getDirectedEdgeKey u v))%Z.

(** The state of one search for an augmenting path. *)
Record search : Type := {
  parent : record string;
  queue : list string;
  seen : list string
}.

(** The [for] over the neighbours of [u]; the flag tells that the loop
    left through [break pathFinding]. *)
Fixpoint scan (capacities fl : record Z) (endNode u : string) (vs : list string)
    (s : search) : search * bool :=
  match vs with
  | [] => (s, false)
  | v :: rest =>
      if negb (has (seen s) v) && (residual capacities fl u v >? 0)%Z then
        let s' := {| parent := set (parent s) v u;
                     queue := queue s ++ [v];
                     seen := add (seen s) v |} in
        if (v =? endNode)%string then (s', true)
        else scan capacities fl endNode u rest s'
      else scan capacities fl endNode u rest s
  end.

(** [while (queue.length > 0)], one unit of fuel per dequeued node. *)
Fixpoint bfs (fuel : nat) (graph : GraphData) (capacities fl : record Z)
    (endNode : string) (s : search) : outcome search :=
  match queue s with
  | [] => Returned s
  | u :: queue' =>
      match fuel with
      | O => Failed OutOfFuel
      | S fuel' =>
          let '(s', found) :=
            scan capacities fl endNode u (residualNeighbors graph u)
                 {| parent := parent s; queue := queue'; seen := seen s |} in
          if found then Returned s'
          else bfs fuel' graph capacities fl endNode s'
      end
  end.

(** [while (curr !== startNode) { path.unshift(curr); curr = parent[curr]; }]
    followed by [path.unshift(startNode)]. *)
Fixpoint reconstruct (fuel : nat) (par : record string) (startNode curr : string)
    (path : list string) : outcome (list string) :=
  if (curr =? startNode)%string then Returned (startNode :: path)
  else
    match fuel with
    | O => Failed OutOfFuel
    | S fuel' =>
        p <- orThrow OffModel (get par curr) ;;
        reconstruct fuel' par startNode p (curr :: path)
    end.

(** [Math.min] over the edges of the path, from [Infinity] ([None]). *)
Fixpoint bottleneckOf (capacities fl : record Z) (path : list string) (b : option Z)
    : option Z :=
  match path with
  | u :: (v :: _) as rest =>
      let r := residual capacities fl u v in
      bottleneckOf capacities fl rest
        (Some (match b with Some m => Z.min m r | None => r end))
  | _ => b
  end.

(** [flows[k] += d]; on a missing key the source stores [NaN]. *)
Definition addTo (fl : record Z) (k : string) (d : Z) : outcome (record Z) :=
  f <- orThrow OffModel (get fl k) ;;
  Returned (set fl k (f + d)%Z).

Fixpoint augment (fl : record Z) (path : list string) (b : Z) : outcome (record Z) :=
  match path with
  | u :: (v :: _) as rest =>
      fl1 <- addTo fl (getDirectedEdgeKey u v) b ;;
      fl2 <- addTo fl1 (getDirectedEdgeKey v u) (- b)%Z ;;
      augment fl2 rest b
  | _ => Returned fl
  end.

Record state : Type := {
  fl : record Z;
  totalFlow : Z;
  steps : list Step
}.

(** A non-empty string is truthy. *)
Definition truthy (o : option string) : bool :=
  match o with
  | Some s => negb (s =? "")%string
  | None => false
  end.

Definition showPath (path : list string) : string := join " → " path.

(** [while (true)], one unit of fuel per augmenting path. *)
Fixpoint loop (fuel searchFuel : nat) (graph : GraphData) (capacities : record Z)
    (startNode endNode : string) (s : state) : outcome state :=
  found <- bfs searchFuel graph capacities (fl s) endNode
             {| parent := []; queue := [startNode]; seen := add [] startNode |} ;;
  if negb (truthy (get (parent found) endNode)) then
    Returned {| fl := fl s; totalFlow := totalFlow s;
                steps := steps s ++
                  [snapshot "No more augmenting paths can be found. The flow is maximized."
                     None (fl s) (totalFlow s)] |}
  else
    match fuel with
    | O => Failed OutOfFuel
    | S fuel' =>
        path <- reconstruct (List.length (seen found)) (parent found)
                  startNode endNode [] ;;
        let steps1 := steps s ++
          [snapshot (template ["Found augmenting path: "; showPath path; " via BFS."])
             (Some path) (fl s) (totalFlow s)] in
        bottleneck <- orThrow OffModel (bottleneckOf capacities (fl s) path None) ;;
        let steps2 := steps1 ++
          [snapshot (template ["Path bottleneck is "; string_of_Z bottleneck;
                               ". Pushing flow."])
             (Some path) (fl s) (totalFlow s)] in
        fl' <- augment (fl s) path bottleneck ;;
        let total' := (totalFlow s + bottleneck)%Z in
        loop fuel' searchFuel graph capacities startNode endNode
          {| fl := fl'; totalFlow := total';
             steps := steps2 ++
               [snapshot (template ["Flow augmented by "; string_of_Z bottleneck;
                                    ". Total flow is now "; string_of_Z total'; "."])
                  (Some path) fl' total'] |}
    end.

(** The residual capacity out of the source, over its distinct
    neighbours.  An augmenting path leaves the source once and never comes
    back to it, so each augmentation lowers this sum by the bottleneck, which
    is at least one unit. *)
Definition sourceResidual (graph : GraphData) (capacities fl : record Z)
    (startNode : string) : Z :=
  fold_right (fun v acc => (Z.max 0 (residual capacities fl startNode v) + acc)%Z) 0%Z
             (fold_left add (residualNeighbors graph startNode) []).

(** A search dequeues each node once: the start node, a key of [adj] or
    an entry of an adjacency list. *)
Definition nodeBound (graph : GraphData) : nat :=
  S (List.length (adj graph) + Dijkstra.degreeSum graph).

Definition run_fuel (fuel : nat) (graph : GraphData) (startNode endNode : string)
    : outcome state :=
  es <- orThrow TypeError (edges graph) ;;
  let fl0 := initFlows es in
  let capacities := initCapacities es in
  loop fuel (nodeBound graph) graph capacities startNode endNode
    {| fl := fl0; totalFlow := 0;
       steps := [snapshot "Start Ford-Fulkerson. All flows are 0." None fl0 0] |}.

Definition run (graph : GraphData) (startNode endNode : string) : outcome state :=
  match edges graph with
  | Some es =>
      run_fuel (Z.to_nat (sourceResidual graph (initCapacities es) (initFlows es) startNode))
               graph startNode endNode
  | None => Failed TypeError
  end.

Definition generateSteps (graph : GraphData) (startNode endNode : string)
    : outcome (list Step) :=
  s <- run graph startNode endNode ;;
  Returned (steps s).

(** The sample network of the module. *)
Definition graphData : GraphData :=
  {| nodes := [ {| id := "S"; x := 100; y := 200 |};
                {| id := "A"; x := 275; y := 100 |};
                {| id := "B"; x := 275; y := 300 |};
                {| id := "C"; x := 450; y := 100 |};
                {| id := "D"; x := 450; y := 300 |};
                {| id := "T"; x := 600; y := 200 |} ];
     adj := [ ("S", ["A"; "B"]); ("A", ["C"; "D"]); ("B", ["D"]);
              ("C", ["T"]); ("D", ["T"]); ("T", []) ];
     edges := Some [ {| from := "S"; to := "A"; weight := 10 |};
                     {| from := "S"; to := "B"; weight := 10 |};
                     {| from := "A"; to := "C"; weight := 8 |};
                     {| from := "A"; to := "D"; weight := 4 |};
                     {| from := "B"; to := "D"; weight := 9 |};
                     {| from := "C"; to := "T"; weight := 10 |};
                     {| from := "D"; to := "T"; weight := 10 |} ];
     directed := Some true |}.

End FordFulkerson.

(** ** Minimum s-t cut, phase 2 (the min-cut module)

    The module reruns the augmenting-path loop on the Ford-Fulkerson
    network and then derives the cut from the final flows. *)

Module MinCut.

(** [new Set] of the neighbours: duplicates dropped, first occurrence kept. *)
Definition potentialNeighbors (graph : GraphData) (u : string) : list string :=
  fold_left add (residualNeighbors graph u) [].

(** [(capacities[k] || 0) - flows[k] > 0]; with [flows[k]] undefined the
    difference is [NaN] and the test fails. *)
Definition hasResidual (capacities fl : record Z) (u v : string) : bool :=
  match get fl (getDirectedEdgeKey u v) with
  | Some f => (FordFulkerson.orZero capacities (getDirectedEdgeKey u v) - f >? 0)%Z
  | None => false
  end.

Fixpoint grow (capacities fl : record Z) (u : string) (vs : list string)
    (queue sSet : list string) : list string * list string :=
  match vs with
  | [] => (queue, sSet)
  | v :: rest =>
      if negb (has sSet v) && hasResidual capacities fl u v
      then grow capacities fl u rest (queue ++ [v]) (add sSet v)
      else grow capacities fl u rest queue sSet
  end.

Fixpoint reach (fuel : nat) (graph : GraphData) (capacities fl : record Z)
    (queue sSet : list string) : outcome (list string) :=
  match queue with
  | [] => Returned sSet
  | u :: queue' =>
      match fuel with
      | O => Failed OutOfFuel
      | S fuel' =>
          let '(q, sset) := grow capacities fl u (potentialNeighbors graph u) queue' sSet in
          reach fuel' graph capacities fl q sset
      end
  end.

(** The nodes reachable from [startNode] in the residual graph. *)
Definition sSet (graph : GraphData) (capacities fl : record Z) (startNode : string)
    : outcome (list string) :=
  reach (FordFulkerson.nodeBound graph) graph capacities fl [startNode] (add [] startNode).

(** [cutValue]: the capacities of the edges leaving the S-set. *)
Definition cutValue (es : list Edge) (sset : list string) : Z :=
  fold_left (fun acc edge =>
               if has sset (from edge) && negb (has sset (to edge))
               then (acc + weight edge)%Z else acc) es 0%Z.

End MinCut.

(** ** Karger's randomized min-cut (the Karger module)

    The generator keeps its supernode arrays and its edge objects on the
    heap and mutates them in place, while the Steps it has already pushed
    hold references to some of them.  The embedding therefore keeps a
    store, and a Step under construction ([stepRef]) holds addresses; the
    Step a consumer sees is the [stepRef] read through the store of the
    moment. *)

Module Karger.

(** The sample graph of the module. *)
Definition sample : GraphData :=
  {| nodes := [ {| id := "A"; x := 150; y := 100 |};
                {| id := "B"; x := 350; y := 100 |};
                {| id := "C"; x := 150; y := 300 |};
                {| id := "D"; x := 350; y := 300 |};
                {| id := "E"; x := 250; y := 200 |} ];
     adj := [ ("A", ["B"; "C"; "E"]); ("B", ["A"; "D"; "E"]);
              ("C", ["A"; "D"; "E"]); ("D", ["B"; "C"; "E"]);
              ("E", ["A"; "B"; "C"; "D"]) ];
     edges := Some [ {| from := "A"; to := "B"; weight := 1 |};
                     {| from := "A"; to := "C"; weight := 3 |};
                     {| from := "A"; to := "E"; weight := 2 |};
                     {| from := "B"; to := "D"; weight := 2 |};
                     {| from := "B"; to := "E"; weight := 4 |};
                     {| from := "C"; to := "D"; weight := 1 |};
                     {| from := "C"; to := "E"; weight := 5 |};
                     {| from := "D"; to := "E"; weight := 3 |} ];
     directed := None |}.

Definition addr : Type := nat.

Record store : Type := {
  arrays : list (list string);  (** the supernode arrays, by address *)
  objects : list Edge           (** the edge objects, by address *)
}.

(** A Step as the generator holds it: [highlightedEdge] and the values of
    [supernodes] are references, [graphData] is a deep copy. *)
Record stepRef : Type := {
  refDescription : string;
  refHighlightedEdge : option addr;
  refGraphData : GraphData;
  refSupernodes : record addr;
  refDataStructure : list string
}.

Record state : Type := {
  nodes : list Node;
  edges : list addr;          (** the [edges] array: references to edge objects *)
  supernodes : record addr;
  heap : store;
  steps : list stepRef;
  calls : nat;                (** how many times [Math.random] was called *)
  rounds : nat                (** completed iterations of the [while] loop *)
}.

Fixpoint update {A : Type} (l : list A) (a : addr) (v : A) : list A :=
  match l, a with
  | [], _ => []
  | _ :: l', O => v :: l'
  | w :: l', S a' => w :: update l' a' v
  end.

Definition derefAll {A : Type} (mem : list A) (refs : list addr) : outcome (list A) :=
  fold_right (fun a acc =>
                l <- acc ;;
                v <- orThrow OffModel (nth_error mem a) ;;
                Returned (v :: l)) (Returned []) refs.

(** [createStep(desc, highlightedEdge)] *)
Definition createStep (desc : string) (highlighted : option addr) (s : state)
    : outcome state :=
  es <- derefAll (objects (heap s)) (edges s) ;;
  Returned
    {| nodes := nodes s; edges := edges s; supernodes := supernodes s;
       heap := heap s;
       steps := steps s ++
         [ {| refDescription := desc;
              refHighlightedEdge := highlighted;
              refGraphData := {| Types.nodes := nodes s; adj := [];
                                 Types.edges := Some es; directed := None |};
              refSupernodes := supernodes s;
              refDataStructure := [string_of_nat (List.length (nodes s))] |} ];
       calls := calls s; rounds := rounds s |}.

(** [edges.forEach(e => { if (e.from === v) e.from = u; if (e.to === v) e.to = u; })] *)
Definition redirect (u v : string) (e : Edge) : Edge :=
  let from' := if (from e =? v)%string then u else from e in
  let to' := if (to e =? v)%string then u else to e in
  {| from := from'; to := to'; weight := weight e |}.

Fixpoint redirectAll (u v : string) (refs : list addr) (objs : list Edge)
    : outcome (list Edge) :=
  match refs with
  | [] => Returned objs
  | a :: rest =>
      e <- orThrow OffModel (nth_error objs a) ;;
      redirectAll u v rest (update objs a (redirect u v e))
  end.

(** One iteration of the [while] loop, on the edge at [edgeIndex]. *)
Definition contract (edgeIndex : nat) (s : state) : outcome state :=
  a <- orThrow TypeError (nth_error (edges s) edgeIndex) ;;
  edgeToContract <- orThrow OffModel (nth_error (objects (heap s)) a) ;;
  s1 <- createStep (template ["Randomly select edge "; from edgeToContract; "-";
                              to edgeToContract; " to contract."]) (Some a) s ;;
  let u := from edgeToContract in
  let v := to edgeToContract in
  let nodes' := filter (fun n => negb (id n =? v)%string) (nodes s1) in
  (* supernodes[u].push(...supernodes[v]) *)
  au <- orThrow TypeError (get (supernodes s1) u) ;;
  av <- orThrow TypeError (get (supernodes s1) v) ;;
  groupU <- orThrow OffModel (nth_error (arrays (heap s1)) au) ;;
  groupV <- orThrow OffModel (nth_error (arrays (heap s1)) av) ;;
  let arrays' := update (arrays (heap s1)) au (groupU ++ groupV) in
  let supernodes' := remove (supernodes s1) v in
  objects' <- redirectAll u v (edges s1) (objects (heap s1)) ;;
  let edges' :=
    filter (fun r => match nth_error objects' r with
                     | Some e => negb (from e =? to e)%string
                     | None => true
                     end) (edges s1) in
  (* supernodes[u].join(', ') *)
  au' <- orThrow TypeError (get supernodes' u) ;;
  merged <- orThrow OffModel (nth_error arrays' au') ;;
  createStep (template ["Merge "; v; " into "; u; ". The new supernode is [";
                        join ", " merged; "]."]) (Some a)
    {| nodes := nodes'; edges := edges'; supernodes := supernodes';
       heap := {| arrays := arrays'; objects := objects' |};
       steps := steps s1; calls := S (calls s1); rounds := S (rounds s1) |}.

(** A value of [Math.random()]: the rational [num / den], in [0, 1) when
    [num < den]. *)
Record draw : Type := { num : nat; den : nat }.

Definition unitInterval (d : draw) : Prop := num d < den d.

(** [Math.floor(Math.random() * edges.length)] *)
Definition floorTimes (d : draw) (len : nat) : nat := (num d * len) / den d.

Definition running (s : state) : bool :=
  (2 <? List.length (nodes s))%nat && (0 <? List.length (edges s))%nat.

(** [while (nodes.length > 2 && edges.length > 0)]: the contracted edge
    becomes a self-loop and is dropped, so an iteration costs an edge. *)
Fixpoint loop (fuel : nat) (random : nat -> draw) (s : state) : outcome state :=
  if running s then
    match fuel with
    | O => Failed OutOfFuel
    | S fuel' =>
        s' <- contract (floorTimes (random (calls s)) (List.length (edges s))) s ;;
        loop fuel' random s'
    end
  else Returned s.

(** The state after the deep copies and the first [createStep]. *)
Definition start : outcome state :=
  es <- orThrow TypeError (Types.edges sample) ;;
  createStep "Start with the original undirected graph." None
    {| nodes := Types.nodes sample;
       edges := seq 0 (List.length es);
       supernodes := combine (map id (Types.nodes sample)) (seq 0 (List.length (Types.nodes sample)));
       heap := {| arrays := map (fun n => [id n]) (Types.nodes sample); objects := es |};
       steps := []; calls := 0; rounds := 0 |}.

(** The code after the loop: [cutValue] and the last [createStep]. *)
Definition finish (s1 : state) : outcome state :=
  es <- derefAll (objects (heap s1)) (edges s1) ;;
  let cutValue := fold_left (fun sum e => (sum + weight e)%Z) es 0%Z in
  createStep (template ["Contraction complete. The cut has a value of ";
                        string_of_Z cutValue; "."])
             (match edges s1 with a :: _ => Some a | [] => None end) s1.

Definition run (random : nat -> draw) : outcome state :=
  s0 <- start ;;
  s1 <- loop (List.length (edges s0)) random s0 ;;
  finish s1.

(** What a consumer reads in a pushed Step, through the store [st]. *)
Definition resolve (st : store) (r : stepRef) : outcome Step :=
  edge <- match refHighlightedEdge r with
          | Some a => e <- orThrow OffModel (nth_error (objects st) a) ;; Returned (Some e)
          | None => Returned None
          end ;;
  groups <- derefAll (arrays st) (map snd (refSupernodes r)) ;;
  Returned
    {| description := refDescription r; currentNode := None; neighbor := None;
       dataStructure := Some (refDataStructure r); visited := None;
       distances := None; highlightedEdge := edge; mstEdges := None;
       nodeSets := None; highlightedPath := None; flows := None;
       Types.supernodes := Some (combine (map fst (refSupernodes r)) groups);
       graphData := Some (refGraphData r) |}.

Definition resolveAll (st : store) (rs : list stepRef) : outcome (list Step) :=
  fold_right (fun r acc => l <- acc ;; x <- resolve st r ;; Returned (x :: l))
             (Returned []) rs.

(** The trace as it stands in state [s]. *)
Definition observe (s : state) : outcome (list Step) := resolveAll (heap s) (steps s).

(** The Step array the caller receives. *)
Definition generateSteps (random : nat -> draw) : outcome (list Step) :=
  s <- run random ;;
  observe s.

Definition graphData : GraphData := sample.

End Karger.

(** ** The playback controller ([GraphAnimation.tsx]) *)

(** [steps[i]]: [undefined] outside the array. *)
Definition at_index {A : Type} (steps : list A) (i : Z) : option A :=
  if (i <? 0)%Z then None else nth_error steps (Z.to_nat i).

(** [steps.length] *)
Definition len {A : Type} (steps : list A) : Z := Z.of_nat (List.length steps).

Module GraphAnimation.

(** The three [useState] cells.  Under external control [step] is the
    [externalStep] prop and [setStep] the [onStepChange] prop. *)
Record state : Type := {
  step : Z;
  isPlaying : bool;
  speed : Z
}.

Definition initial : state := {| step := 0; isPlaying := false; speed := 1500 |}.

Section Controller.
(** [steps.length] *)
Variable length : Z.

Definition resetAnimation (s : state) : state :=
  {| step := 0; isPlaying := false; speed := speed s |}.

Definition handleNext (s : state) : state :=
  {| step := if (step s <? length - 1)%Z then (step s + 1)%Z else step s;
     isPlaying := false; speed := speed s |}.

Definition handlePrev (s : state) : state :=
  {| step := if (step s >? 0)%Z then (step s - 1)%Z else step s;
     isPlaying := false; speed := speed s |}.

(** The Play/Pause button: [setIsPlaying(!isPlaying)]. *)
Definition togglePlay (s : state) : state :=
  {| step := step s; isPlaying := negb (isPlaying s); speed := speed s |}.

(** The slider: [setSpeed(3200 - Number(e.target.value))]. *)
Definition changeSpeed (value : Z) (s : state) : state :=
  {| step := step s; isPlaying := isPlaying s; speed := (3200 - value)%Z |}.

(** The auto-advance effect, when its timer fires or, at the last
    index, as soon as it runs. *)
Definition autoAdvance (s : state) : state :=
  if isPlaying s then
    if (step s <? length - 1)%Z
    then {| step := (step s + 1)%Z; isPlaying := isPlaying s; speed := speed s |}
    else {| step := step s; isPlaying := false; speed := speed s |}
  else s.

Inductive event : Type :=
| Next | Prev | Reset | PlayPause | Timer | Speed (value : Z).

Definition react (s : state) (e : event) : state :=
  match e with
  | Next => handleNext s
  | Prev => handlePrev s
  | Reset => resetAnimation s
  | PlayPause => togglePlay s
  | Timer => autoAdvance s
  | Speed v => changeSpeed v s
  end.

Definition after (events : list event) : state := fold_left react events initial.
End Controller.

(** [steps[step] || steps[steps.length - 1]] *)
Definition currentStep {A : Type} (steps : list A) (step : Z) : option A :=
  match at_index steps step with
  | Some st => Some st
  | None => at_index steps (len steps - 1)
  end.

End GraphAnimation.

(** ** The synchronization layer ([CompareMST.tsx]) *)

Module CompareMST.

Section Pair.
Context {A : Type}.
(** [prims.steps] and [kruskals.steps] *)
Variables prims kruskals : list A.

Definition maxSteps : Z := Z.max (len prims) (len kruskals).

(** The component keeps the same three cells and the same handlers as
    the controller, bounded by [maxSteps]. *)
Definition react : GraphAnimation.state -> GraphAnimation.event -> GraphAnimation.state :=
  GraphAnimation.react maxSteps.

Definition after (events : list GraphAnimation.event) : GraphAnimation.state :=
  fold_left react events GraphAnimation.initial.

(** [externalStep={Math.min(step, steps.length - 1)}] *)
Definition externalStep (steps : list A) (step : Z) : Z := Z.min step (len steps - 1).

(** The Step each externally controlled child draws. *)
Definition rendered (steps : list A) (step : Z) : option A :=
  GraphAnimation.currentStep steps (externalStep steps step).
End Pair.

End CompareMST.

(** ** The Prim's / Kruskal's comparison (the MST comparison module) *)

Module MstComparison.

Definition graphData : GraphData :=
  {| nodes := [ {| id := "A"; x := 100; y := 200 |};
                {| id := "B"; x := 250; y := 100 |};
                {| id := "C"; x := 250; y := 300 |};
                {| id := "D"; x := 450; y := 100 |};
                {| id := "E"; x := 450; y := 300 |};
                {| id := "F"; x := 600; y := 200 |} ];
     adj := [ ("A", ["B"; "C"]); ("B", ["A"; "D"; "C"]); ("C", ["A"; "B"; "E"]);
              ("D", ["B"; "F"]); ("E", ["C"; "F"]); ("F", ["D"; "E"]) ];
     edges := Some [ {| from := "A"; to := "B"; weight := 4 |};
                     {| from := "A"; to := "C"; weight := 2 |};
                     {| from := "B"; to := "C"; weight := 1 |};
                     {| from := "B"; to := "D"; weight := 5 |};
                     {| from := "C"; to := "E"; weight := 3 |};
                     {| from := "D"; to := "F"; weight := 6 |};
                     {| from := "E"; to := "F"; weight := 1 |} ];
     directed := None |}.

(** [generatePrimsSteps(graphData, 'A')] and [generateKruskalsSteps(graphData)] *)
Definition prims : outcome (list Step) := Prims.generateSteps graphData "A".
Definition kruskals : outcome (list Step) := Kruskal.generateSteps graphData.

End MstComparison.

(** ** Reference definitions the generators are checked against *)

(** The final Step of a trace. *)
Definition finalStep (steps : list Step) : option Step :=
  List.last (map Some steps) None.

(** The order in which nodes are marked visited along a trace: the order
    in which they first show up in the [visited] snapshots. *)
Definition markOrder (steps : list Step) : list string :=
  fold_left (fun order st =>
               match visited st with
               | Some v => fold_left add v order
               | None => order
               end) steps [].

Module Reference.

(** *** Hop distance, by level sets

    [within graph k s] is the set of nodes at most [k] edges away from
    [s]; the hop distance of [v] is the least such [k]. *)
Definition successors (graph : GraphData) (u : string) : list string :=
  match get (adj graph) u with Some l => l | None => [] end.

Fixpoint within (graph : GraphData) (k : nat) (s : string) : list string :=
  match k with
  | O => [s]
  | S k' =>
      let near := within graph k' s in
      fold_left add (flat_map (successors graph) near) near
  end.

Fixpoint least (p : nat -> bool) (from count : nat) : option nat :=
  match count with
  | O => None
  | S count' => if p from then Some from else least p (S from) count'
  end.

Definition hops (graph : GraphData) (s v : string) : option nat :=
  least (fun k => has (within graph k s) v) 0 (S (List.length (nodes graph))).

Fixpoint nondecreasing (l : list (option nat)) : bool :=
  match l with
  | Some a :: ((Some b :: _) as rest) => (a <=? b)%nat && nondecreasing rest
  | [Some _] => true
  | [] => true
  | _ => false
  end.

(** *** Weighted distance, over walks

    A walk uses the edges of an undirected graph in either direction. *)
Definition joins (e : Edge) (u v : string) : Prop :=
  (from e = u /\ to e = v) \/ (from e = v /\ to e = u).

Inductive walk (es : list Edge) (s : string) : string -> Z -> Prop :=
| walk_here : walk es s s 0
| walk_on (u v : string) (cost : Z) (e : Edge) :
    walk es s u cost -> In e es -> joins e u v ->
    walk es s v (cost + weight e).

(** [d] is the cost of some walk from [s] to [v] and of no cheaper one. *)
Definition shortest (es : list Edge) (s v : string) (d : Z) : Prop :=
  walk es s v d /\ forall c, walk es s v c -> (d <= c)%Z.

(** The same distance computed by rounds of relaxation over the edge
    list (Bellman-Ford), [None] standing for unreached. *)
Definition relaxEdge (dist : record Z) (u v : string) (w : Z) : record Z :=
  match get dist u with
  | Some du =>
      match get dist v with
      | Some dv => if (du + w <? dv)%Z then set dist v (du + w)%Z else dist
      | None => set dist v (du + w)%Z
      end
  | None => dist
  end.

Definition relaxRound (es : list Edge) (dist : record Z) : record Z :=
  fold_left (fun d e => relaxEdge (relaxEdge d (from e) (to e) (weight e))
                                  (to e) (from e) (weight e)) es dist.

Fixpoint relaxRounds (n : nat) (es : list Edge) (dist : record Z) : record Z :=
  match n with
  | O => dist
  | S n' => relaxRounds n' es (relaxRound es dist)
  end.

Definition bellmanFord (graph : GraphData) (s : string) : record Z :=
  match edges graph with
  | Some es => relaxRounds (List.length (nodes graph) - 1) es [(s, 0%Z)]
  | None => [(s, 0%Z)]
  end.

(** *** Minimum spanning weight, by enumeration *)
Fixpoint sublists {A : Type} (l : list A) : list (list A) :=
  match l with
  | [] => [[]]
  | a :: l' => let r := sublists l' in map (cons a) r ++ r
  end.

Definition totalWeight (es : list Edge) : Z :=
  fold_right (fun e acc => (weight e + acc)%Z) 0%Z es.

(** One round of growing a set of nodes along undirected edges. *)
Definition spread (es : list Edge) (comp : list string) : list string :=
  fold_left (fun c e =>
               if has c (from e) then add c (to e)
               else if has c (to e) then add c (from e) else c) es comp.

Fixpoint component (n : nat) (es : list Edge) (comp : list string) : list string :=
  match n with
  | O => comp
  | S n' => component n' es (spread es comp)
  end.

(** The edges [es] connect all the nodes of the graph. *)
Definition spans (graph : GraphData) (es : list Edge) : bool :=
  match nodes graph with
  | [] => true
  | n :: _ =>
      let comp := component (List.length (nodes graph)) es [id n] in
      forallb (fun m => has comp (id m)) (nodes graph)
  end.

Definition minimum (l : list Z) : option Z :=
  match l with
  | [] => None
  | a :: l' => Some (fold_left Z.min l' a)
  end.

(** The least total weight of a set of edges that connects all nodes;
    with positive weights such a set is a spanning tree. *)
Definition minSpanningWeight (graph : GraphData) : option Z :=
  match edges graph with
  | Some es => minimum (map totalWeight (filter (spans graph) (sublists es)))
  | None => None
  end.

(** The weight of the edges of the graph whose keys are in [keys]. *)
Definition weightOfKeys (graph : GraphData) (keys : list string) : Z :=
  match edges graph with
  | Some es => totalWeight (filter (fun e => has keys (getEdgeKey e)) es)
  | None => 0%Z
  end.

End Reference.

(** ** Minimum s-t cut, the whole generator (the min-cut module)

    Phase 1 is the module's own augmenting-path loop: its search goes over
    the [Set] of potential neighbours, tests the flow entry without a
    default, and leaves through the [pathFound] flag; the bottleneck and the
    update walk the parent links back from the sink.  Phase 2 and the cut
    value are those of [MinCut]. *)

Module MinCutTrace.

(** The facets of a Step that this generator writes; [highlightedEdge]
    is absent ([None]), [null] ([Some None]) or an edge. *)
Record CutStep : Type := {
  description : string;
  currentNode : option string;
  flows : option (record Z);
  cutSetS : option (list string);
  highlightedPath : option (list string);
  highlightedEdge : option (option Edge);
  dataStructure : list string
}.

(** The [for] over [potentialNeighbors]; the flag is [pathFound]. *)
Fixpoint scan (capacities fl : record Z) (endNode u : string) (vs : list string)
    (s : FordFulkerson.search) : FordFulkerson.search * bool :=
  match vs with
  | [] => (s, false)
  | v :: rest =>
      if negb (has (FordFulkerson.seen s) v) && MinCut.hasResidual capacities fl u v then
        let s' := {| FordFulkerson.parent := set (FordFulkerson.parent s) v u;
                     FordFulkerson.queue := FordFulkerson.queue s ++ [v];
                     FordFulkerson.seen := add (FordFulkerson.seen s) v |} in
        if (v =? endNode)%string then (s', true)
        else scan capacities fl endNode u rest s'
      else scan capacities fl endNode u rest s
  end.

(** [while (queue.length > 0)], one unit of fuel per dequeued node. *)
Fixpoint bfs (fuel : nat) (graph : GraphData) (capacities fl : record Z)
    (endNode : string) (s : FordFulkerson.search)
    : outcome (FordFulkerson.search * bool) :=
  match FordFulkerson.queue s with
  | [] => Returned (s, false)
  | u :: queue' =>
      match fuel with
      | O => Failed OutOfFuel
      | S fuel' =>
          let '(s', found) :=
            scan capacities fl endNode u (MinCut.potentialNeighbors graph u)
                 {| FordFulkerson.parent := FordFulkerson.parent s;
                    FordFulkerson.queue := queue';
                    FordFulkerson.seen := FordFulkerson.seen s |} in
          if found then Returned (s', true)
          else bfs fuel' graph capacities fl endNode s'
      end
  end.

(** The first [while (curr !== startNode)]: [Math.min] over the parent
    links, from [Infinity] ([None]).  A missing link or flow entry
    ([undefined], [NaN]) leaves the model. *)
Fixpoint bottleneck (fuel : nat) (capacities fl : record Z) (par : record string)
    (startNode curr : string) (b : option Z) : outcome (option Z) :=
  if (curr =? startNode)%string then Returned b
  else
    match fuel with
    | O => Failed OutOfFuel
    | S fuel' =>
        p <- orThrow OffModel (get par curr) ;;
        f <- orThrow OffModel (get fl (getDirectedEdgeKey p curr)) ;;
        let r := (FordFulkerson.orZero capacities (getDirectedEdgeKey p curr) - f)%Z in
        bottleneck fuel' capacities fl par startNode p
          (Some (match b with Some m => Z.min m r | None => r end))
    end.

(** The second [while (curr !== startNode)]: [+=] on the link, [-=] on
    its reverse. *)
Fixpoint augment (fuel : nat) (fl : record Z) (par : record string)
    (startNode curr : string) (b : Z) : outcome (record Z) :=
  if (curr =? startNode)%string then Returned fl
  else
    match fuel with
    | O => Failed OutOfFuel
    | S fuel' =>
        p <- orThrow OffModel (get par curr) ;;
        fl1 <- FordFulkerson.addTo fl (getDirectedEdgeKey p curr) b ;;
        fl2 <- FordFulkerson.addTo fl1 (getDirectedEdgeKey curr p) (- b)%Z ;;
        augment fuel' fl2 par startNode p b
    end.

Record state : Type := {
  fl : record Z;
  totalFlow : Z
}.

(** [while (true)], one unit of fuel per augmenting path. *)
Fixpoint loop (fuel searchFuel : nat) (graph : GraphData) (capacities : record Z)
    (startNode endNode : string) (s : state) : outcome state :=
  r <- bfs searchFuel graph capacities (fl s) endNode
         {| FordFulkerson.parent := []; FordFulkerson.queue := [startNode];
            FordFulkerson.seen := add [] startNode |} ;;
  let '(found, pathFound) := r in
  if negb pathFound then Returned s
  else
    match fuel with
    | O => Failed OutOfFuel
    | S fuel' =>
        let walk := List.length (FordFulkerson.seen found) in
        m <- bottleneck walk capacities (fl s) (FordFulkerson.parent found)
               startNode endNode None ;;
        b <- orThrow OffModel m ;;
        fl' <- augment walk (fl s) (FordFulkerson.parent found) startNode endNode b ;;
        loop fuel' searchFuel graph capacities startNode endNode
          {| fl := fl'; totalFlow := (totalFlow s + b)%Z |}
    end.

(** [cutEdges]: the edges that leave the S-set, in the order of [edges]. *)
Definition cutEdges (es : list Edge) (sSet : list string) : list Edge :=
  filter (fun edge => has sSet (from edge) && negb (has sSet (to edge))) es.

Definition generateSteps_fuel (fuel : nat) (graph : GraphData)
    (startNode endNode : string) : outcome (list CutStep) :=
  es <- orThrow TypeError (edges graph) ;;
  let capacities := FordFulkerson.initCapacities es in
  let step1 :=
    {| description := "Phase 1: Find the maximum flow using Ford-Fulkerson.";
       currentNode := None; flows := None; cutSetS := None;
       highlightedPath := None; highlightedEdge := None;
       dataStructure := [string_of_Z 0] |} in
  s <- loop fuel (FordFulkerson.nodeBound graph) graph capacities startNode endNode
         {| fl := FordFulkerson.initFlows es; totalFlow := 0 |} ;;
  let total := string_of_Z (totalFlow s) in
  let step2 :=
    {| description := template ["Max flow found: "; total; ". Now, find the min cut."];
       currentNode := None; flows := Some (fl s); cutSetS := None;
       highlightedPath := None; highlightedEdge := None;
       dataStructure := [total] |} in
  let step3 :=
    {| description := "Phase 2: Find all nodes reachable from S in the residual graph.";
       currentNode := Some startNode; flows := None;
       cutSetS := Some (add [] startNode);
       highlightedPath := None; highlightedEdge := None;
       dataStructure := [total] |} in
  sSet <- MinCut.sSet graph capacities (fl s) startNode ;;
  let step4 :=
    {| description :=
         "The S-set (blue) contains all reachable nodes. The rest form the T-set (orange).";
       currentNode := None; flows := None; cutSetS := Some sSet;
       highlightedPath := None; highlightedEdge := None;
       dataStructure := [total] |} in
  let cutValue := string_of_Z (MinCut.cutValue es sSet) in
  let step5 :=
    {| description := template ["The edges crossing the cut are highlighted. Min cut value = ";
                                cutValue; "."];
       currentNode := None; flows := None; cutSetS := Some sSet;
       highlightedPath := Some (flat_map (fun e => [from e; to e]) (cutEdges es sSet));
       highlightedEdge := Some (List.hd_error (cutEdges es sSet));
       dataStructure := [template [total; " / "; cutValue]] |} in
  Returned [step1; step2; step3; step4; step5].

(** The flow never exceeds the capacity that leaves the source, and every
    augmenting path adds at least one unit. *)
Definition generateSteps (graph : GraphData) (startNode endNode : string)
    : outcome (list CutStep) :=
  match edges graph with
  | Some es =>
      generateSteps_fuel (Z.to_nat (MinCut.cutValue es (add [] startNode)))
                         graph startNode endNode
  | None => Failed TypeError
  end.

(** The sample network of the module, the one of Ford-Fulkerson. *)
Definition graphData : GraphData :=
  {| nodes := [ {| id := "S"; x := 100; y := 200 |};
                {| id := "A"; x := 275; y := 100 |};
                {| id := "B"; x := 275; y := 300 |};
                {| id := "C"; x := 450; y := 100 |};
                {| id := "D"; x := 450; y := 300 |};
                {| id := "T"; x := 600; y := 200 |} ];
     adj := [ ("S", ["A"; "B"]); ("A", ["C"; "D"]); ("B", ["D"]);
              ("C", ["T"]); ("D", ["T"]); ("T", []) ];
     edges := Some [ {| from := "S"; to := "A"; weight := 10 |};
                     {| from := "S"; to := "B"; weight := 10 |};
                     {| from := "A"; to := "C"; weight := 8 |};
                     {| from := "A"; to := "D"; weight := 4 |};
                     {| from := "B"; to := "D"; weight := 9 |};
                     {| from := "C"; to := "T"; weight := 10 |};
                     {| from := "D"; to := "T"; weight := 10 |} ];
     directed := Some true |}.

End MinCutTrace.

(** ** Cycle detection with colours (the cycle-detection module)

    A depth-first search over [adj]; [colors], the [path] array of the
    current root, [cycleFound] and [steps] are shared by all the calls of
    [dfs]. *)

Module CycleDetection.

Inductive color : Type := white | gray | black.

(** The facets of a Step that this generator writes; [neighbor] is [null]
    ([None]) or a node, [highlightedCycle] is absent ([None]) or an array. *)
Record ColorStep : Type := {
  dataStructure : list string;
  visited : list string;
  currentNode : option string;
  neighbor : option string;
  description : string;
  nodeColors : record color;
  highlightedPath : list string;
  highlightedCycle : option (list string)
}.

Record state : Type := {
  colors : record color;
  path : list string;
  cycleFound : bool;
  steps : list ColorStep
}.

(** [createStep]: the path and the colours are copied. *)
Definition createStep (s : state) (desc : string) (current nb : option string)
    (cycle : option (list string)) : state :=
  {| colors := colors s; path := path s; cycleFound := cycleFound s;
     steps := steps s ++
       [{| dataStructure := path s; visited := []; currentNode := current;
           neighbor := nb; description := desc; nodeColors := colors s;
           highlightedPath := path s; highlightedCycle := cycle |}] |}.

(** [Array.prototype.indexOf]. *)
Fixpoint indexOf (l : list string) (x : string) : Z :=
  match l with
  | [] => (-1)%Z
  | y :: rest =>
      if (y =? x)%string then 0%Z
      else let i := indexOf rest x in if (i <? 0)%Z then (-1)%Z else (i + 1)%Z
  end.

(** [Array.prototype.slice] with one argument; a negative start counts
    from the end. *)
Definition slice (l : list string) (start : Z) : list string :=
  if (start <? 0)%Z then skipn (List.length l - Z.to_nat (- start)) l
  else skipn (Z.to_nat start) l.

(** [colors[u] = 'gray'; path.push(u); createStep(...)]. *)
Definition enter (u : string) (s : state) : state :=
  createStep {| colors := set (colors s) u gray; path := path s ++ [u];
                cycleFound := cycleFound s; steps := steps s |}
             (template ["Visiting "; u; ". Color changes to Gray."]) (Some u) None None.

(** [cycleFound = true] and the Step with the slice of the path. *)
Definition detect (u v : string) (s : state) : state :=
  createStep {| colors := colors s; path := path s; cycleFound := true;
                steps := steps s |}
             (template ["Cycle detected! Neighbor "; v; " is already Gray."])
             (Some u) (Some v) (Some (slice (path s) (indexOf (path s) v))).

(** [colors[u] = 'black'; path.pop(); createStep(...)]. *)
Definition leave (u : string) (s : state) : state :=
  createStep {| colors := set (colors s) u black; path := removelast (path s);
                cycleFound := cycleFound s; steps := steps s |}
             (template ["Finished exploring "; u; ". Color changes to Black."])
             (Some u) None None.

(** The [for] over [graph.adj[u]] inside [dfs]; [call] is the recursive
    call, and the flag tells that the loop left through a [return]. *)
Fixpoint each (call : string -> state -> outcome state) (u : string)
    (vs : list string) (s : state) : outcome (state * bool) :=
  match vs with
  | [] => Returned (s, false)
  | v :: rest =>
      if cycleFound s then Returned (s, true)
      else
        let s' := createStep s (template ["Exploring neighbor "; v; " of "; u; "."])
                    (Some u) (Some v) None in
        match get (colors s') v with
        | Some gray => Returned (detect u v s', true)
        | Some white =>
            s'' <- call v s' ;;
            if cycleFound s'' then Returned (s'', true)
            else each call u rest s''
        | _ => each call u rest s'
        end
  end.

(** [dfs(u, path)], one unit of fuel per nested call. *)
Fixpoint dfs (fuel : nat) (graph : GraphData) (u : string) (s : state)
    : outcome state :=
  match fuel with
  | O => Failed OutOfFuel
  | S fuel' =>
      if cycleFound s then Returned s
      else
        let s1 := enter u s in
        nbs <- orThrow TypeError (get (adj graph) u) ;;
        r <- each (dfs fuel' graph) u nbs s1 ;;
        let '(s2, returned) := r in
        if returned then Returned s2 else Returned (leave u s2)
  end.

(** The [for] over [graph.nodes]; each root starts a new path array. *)
Fixpoint roots (fuel : nat) (graph : GraphData) (ns : list Node) (s : state)
    : outcome state :=
  match ns with
  | [] => Returned s
  | node :: rest =>
      match get (colors s) (id node) with
      | Some white =>
          if negb (cycleFound s) then
            s' <- dfs fuel graph (id node)
                    {| colors := colors s; path := []; cycleFound := cycleFound s;
                       steps := steps s |} ;;
            roots fuel graph rest s'
          else roots fuel graph rest s
      | _ => roots fuel graph rest s
      end
  end.

Definition run (graph : GraphData) : outcome state :=
  let colors0 := fold_left (fun c node => set c (id node) white) (nodes graph) [] in
  let s0 := createStep {| colors := colors0; path := []; cycleFound := false; steps := [] |}
              "Start. All nodes are white (unvisited)." None None None in
  s <- roots (S (List.length colors0)) graph (nodes graph) s0 ;;
  if negb (cycleFound s) then
    Returned (createStep {| colors := colors s; path := []; cycleFound := cycleFound s;
                            steps := steps s |}
                "Traversal complete. No cycles found." None None None)
  else Returned s.

Definition generateSteps (graph : GraphData) : outcome (list ColorStep) :=
  s <- run graph ;;
  Returned (steps s).

(** The sample graph of the module. *)
Definition graphData : GraphData :=
  {| nodes := [ {| id := "A"; x := 100; y := 100 |};
                {| id := "B"; x := 300; y := 100 |};
                {| id := "C"; x := 300; y := 300 |};
                {| id := "D"; x := 100; y := 300 |};
                {| id := "E"; x := 500; y := 200 |} ];
     adj := [ ("A", ["B"]); ("B", ["C"]); ("C", ["D"; "E"]); ("D", ["B"]); ("E", []) ];
     edges := None;
     directed := Some true |}.

End CycleDetection.

(** ** Walks with k edges (the count-walks module)

    The adjacency matrix is built from [edges] through [nodeIndexMap], which
    knows the three nodes of the sample graph only; its powers are shown up
    to [K = 4]. *)

Module CountWalks.

(** The facets of a Step that this generator writes. *)
Record MatrixStep : Type := {
  description : string;
  currentNode : option string;
  distanceMatrix : list (list Z);
  dataStructure : list string
}.

Definition nodeIndexMap : record nat := [("A", 0%nat); ("B", 1%nat); ("C", 2%nat)].

(** [sum += m1[i][k] * m2[k][j]] over [k].  A row of [m2] that is
    missing throws; an entry that is missing is [undefined], the product
    [NaN], which leaves the model. *)
Fixpoint dot (ks : list nat) (row : list Z) (m2 : list (list Z)) (j : nat) (sum : Z)
    : outcome Z :=
  match ks with
  | [] => Returned sum
  | k :: rest =>
      r2 <- orThrow TypeError (nth_error m2 k) ;;
      a <- orThrow OffModel (nth_error row k) ;;
      b <- orThrow OffModel (nth_error r2 j) ;;
      dot rest row m2 j (sum + a * b)%Z
  end.

(** The [for] over [j]: one row of the result. *)
Fixpoint cells (js ks : list nat) (row : list Z) (m2 : list (list Z))
    : outcome (list Z) :=
  match js with
  | [] => Returned []
  | j :: rest =>
      sum <- dot ks row m2 j 0%Z ;;
      more <- cells rest ks row m2 ;;
      Returned (sum :: more)
  end.

(** The [for] over [i]; [m2[0].length] is read for every row. *)
Fixpoint rows (m1 : list (list Z)) (ks : list nat) (m2 : list (list Z))
    : outcome (list (list Z)) :=
  match m1 with
  | [] => Returned []
  | row :: rest =>
      first <- orThrow TypeError (hd_error m2) ;;
      cs <- cells (seq 0 (List.length first)) ks row m2 ;;
      more <- rows rest ks m2 ;;
      Returned (cs :: more)
  end.

Definition multiplyMatrices (m1 m2 : list (list Z)) : outcome (list (list Z)) :=
  match m1 with
  | [] => Returned []
  | first :: _ => rows m1 (seq 0 (List.length first)) m2
  end.

(** [l[i] = v] inside the array. *)
Fixpoint setAt {A : Type} (l : list A) (i : nat) (v : A) : list A :=
  match l, i with
  | [], _ => []
  | _ :: rest, O => v :: rest
  | a :: rest, S i' => a :: setAt rest i' v
  end.

(** [adjMatrix[nodeIndexMap[edge.from]][nodeIndexMap[edge.to]] = 1]: a
    row that is missing throws, a column the map does not know sets a
    property that is no entry, a column past the row would extend it and
    leaves the model. *)
Definition mark (m : list (list Z)) (edge : Edge) : outcome (list (list Z)) :=
  match get nodeIndexMap (from edge) with
  | None => Failed TypeError
  | Some i =>
      row <- orThrow TypeError (nth_error m i) ;;
      match get nodeIndexMap (to edge) with
      | None => Returned m
      | Some j =>
          if (j <? List.length row)%nat then Returned (setAt m i (setAt row j 1%Z))
          else Failed OffModel
      end
  end.

Fixpoint markAll (m : list (list Z)) (es : list Edge) : outcome (list (list Z)) :=
  match es with
  | [] => Returned m
  | edge :: rest => m' <- mark m edge ;; markAll m' rest
  end.

(** The [for] over [k] from 2 to [K]. *)
Fixpoint powers (ks : list nat) (current adjMatrix : list (list Z))
    (steps : list MatrixStep) : outcome (list MatrixStep) :=
  match ks with
  | [] => Returned steps
  | k :: rest =>
      next <- multiplyMatrices current adjMatrix ;;
      powers rest next adjMatrix
        (steps ++
         [{| description := template ["Matrix A^"; string_of_nat k;
                                      ". A[i][j] = # of walks of length ";
                                      string_of_nat k; " from i to j."];
             currentNode := None; distanceMatrix := next;
             dataStructure := [template ["k="; string_of_nat k]] |}])
  end.

Definition generateSteps (graph : GraphData) : outcome (list MatrixStep) :=
  let V := List.length (nodes graph) in
  es <- orThrow TypeError (edges graph) ;;
  adjMatrix <- markAll (repeat (repeat 0%Z V) V) es ;;
  powers [2; 3; 4]%nat adjMatrix adjMatrix
    [{| description :=
          "Start with the adjacency matrix A (A^1). A[i][j] = # of walks of length 1 from i to j.";
        currentNode := None; distanceMatrix := adjMatrix;
        dataStructure := ["k=1"] |}].

(** The sample graph of the module. *)
Definition graphData : GraphData :=
  {| nodes := [ {| id := "A"; x := 150; y := 200 |};
                {| id := "B"; x := 325; y := 100 |};
                {| id := "C"; x := 325; y := 300 |} ];
     adj := [ ("A", ["B"; "C"]); ("B", ["C"]); ("C", ["A"]) ];
     edges := Some [ {| from := "A"; to := "B"; weight := 1 |};
                     {| from := "A"; to := "C"; weight := 1 |};
                     {| from := "B"; to := "C"; weight := 1 |};
                     {| from := "C"; to := "A"; weight := 1 |} ];
     directed := Some true |}.

End CountWalks.

(** ** The Eulerian path and circuit check ([eulerian-path-circuit.ts]) *)

Module EulerianPath.

(** [graph.nodes.forEach(n => degrees[n.id] = graph.adj[n.id].length)]:
    reading [length] of a missing adjacency list throws. *)
Fixpoint countDegrees (graph : GraphData) (ns : list Node) (degrees : record Z)
  : outcome (record Z) :=
  match ns with
  | [] => Returned degrees
  | n :: rest =>
      l <- orThrow TypeError (get (adj graph) (id n)) ;;
      countDegrees graph rest (set degrees (id n) (Z.of_nat (List.length l)))
  end.

(** [degrees[id] % 2 !== 0]. *)
Definition odd (degrees : record Z) (i : string) : bool :=
  match get degrees i with
  | Some d => negb (Z.rem d 2 =? 0)%Z
  | None => true
  end.

(** The degrees, as the [distances] facet holds them. *)
Definition asDistances (degrees : record Z) : record distance :=
  map (fun kv => (fst kv, Num (snd kv))) degrees.

Definition createStep (desc : string) (current : option string)
  (trail : option (list string)) (degrees : record Z) (count : option string) : Step :=
  {| description := desc; currentNode := current; neighbor := None;
     dataStructure := option_map (fun c => [c]) count; visited := None;
     distances := Some (asDistances degrees);
     highlightedEdge := None; mstEdges := None; nodeSets := None;
     highlightedPath := trail; flows := None; supernodes := None;
     graphData := None |}.

(** The path of the example graph, written out in the source. *)
Definition path : list string := ["A"; "D"; "B"; "E"; "C"; "B"; "A"].

(** [for (let i = 1; i < path.length; i++)], from [i] on for [n] rounds. *)
Fixpoint trace (degrees : record Z) (i n : nat) : outcome (list Step) :=
  match n with
  | O => Returned []
  | S n' =>
      a <- orThrow OffModel (nth_error path (i - 1)) ;;
      b <- orThrow OffModel (nth_error path i) ;;
      rest <- trace degrees (S i) n' ;;
      Returned (createStep (template ["Tracing path: ... → "; a; " → "; b])
                           (Some b) (Some (firstn (i + 1) path)) degrees (Some "2")
                :: rest)
  end.

Definition generateSteps (graph : GraphData) : outcome (list Step) :=
  degrees <- countDegrees graph (nodes graph) [] ;;
  let oddDegreeNodes := filter (odd degrees) (keys degrees) in
  let start := createStep "Start. Let's check the degree of each vertex."
                          None None degrees None in
  if (List.length oddDegreeNodes =? 0)%nat then
    Returned [ start;
               createStep "All vertices have even degrees. An Eulerian Circuit exists."
                          None None degrees (Some "0") ]
  else if (List.length oddDegreeNodes =? 2)%nat then
    hops <- trace degrees 1 (List.length path - 1) ;;
    Returned ([ start;
                createStep (template ["Nodes "; join " and " oddDegreeNodes;
                                      " have odd degrees. An Eulerian Path exists."])
                           None None degrees (Some "2") ]
              ++ hops
              ++ [ createStep "Path complete! Every edge was visited exactly once."
                              None (Some path) degrees (Some "2") ])
  else
    Returned [ start;
               createStep (template ["There are ";
                                     string_of_nat (List.length oddDegreeNodes);
                                     " odd-degree vertices. No Eulerian Path or Circuit exists."])
                          None None degrees
                          (Some (string_of_nat (List.length oddDegreeNodes))) ].

Definition graphData : GraphData :=
  {| nodes := [ {| id := "A"; x := 100; y := 150 |};
                {| id := "B"; x := 250; y := 150 |};
                {| id := "C"; x := 400; y := 150 |};
                {| id := "D"; x := 175; y := 250 |};
                {| id := "E"; x := 325; y := 250 |} ];
     adj := [ ("A", ["B"; "D"]); ("B", ["A"; "C"; "D"; "E"]); ("C", ["B"; "E"]);
              ("D", ["A"; "B"; "E"]); ("E", ["B"; "C"; "D"]) ];
     edges := Some [ {| from := "A"; to := "B"; weight := 1 |};
                     {| from := "A"; to := "D"; weight := 1 |};
                     {| from := "B"; to := "C"; weight := 1 |};
                     {| from := "B"; to := "D"; weight := 1 |};
                     {| from := "B"; to := "E"; weight := 1 |};
                     {| from := "C"; to := "E"; weight := 1 |};
                     {| from := "D"; to := "E"; weight := 1 |} ];
     directed := None |}.

End EulerianPath.

(** ** Dinic's algorithm (the Dinic's module)

    Phases of a breadth-first search that levels the nodes and of
    depth-first searches that push flow along the levels.  [flows] is shared
    by all the calls of [dfs]. *)

Module Dinic.

(** The numbers the searches compute with: an integer, [Infinity] or
    [NaN]. *)
Inductive num : Type := Fin (z : Z) | Infinity | NaN.

(** [`${n}`] *)
Definition showNum (n : num) : string :=
  match n with
  | Fin z => string_of_Z z
  | Infinity => "Infinity"
  | NaN => "NaN"
  end.

(** [n > 0] *)
Definition positive (n : num) : bool :=
  match n with
  | Fin z => (z >? 0)%Z
  | Infinity => true
  | NaN => false
  end.

(** [n === 0] *)
Definition isZero (n : num) : bool :=
  match n with
  | Fin z => (z =? 0)%Z
  | _ => false
  end.

(** A number as a condition: [0] and [NaN] are falsy. *)
Definition truthy (n : num) : bool :=
  match n with
  | Fin z => negb (z =? 0)%Z
  | Infinity => true
  | NaN => false
  end.

(** [Math.min(a, b)] *)
Definition min (a b : num) : num :=
  match a, b with
  | NaN, _ | _, NaN => NaN
  | Infinity, n | n, Infinity => n
  | Fin x, Fin y => Fin (Z.min x y)
  end.

(** [a + b], no operand being [-Infinity]. *)
Definition plus (a b : num) : num :=
  match a, b with
  | NaN, _ | _, NaN => NaN
  | Infinity, _ | _, Infinity => Infinity
  | Fin x, Fin y => Fin (x + y)
  end.

(** [(capacities[k] || 0) - flows[k]]: [NaN] where [flows] has no entry. *)
Definition residual (capacities fl : record Z) (u v : string) : num :=
  match get fl (getDirectedEdgeKey u v) with
  | Some f => Fin (FordFulkerson.orZero capacities (getDirectedEdgeKey u v) - f)
  | None => NaN
  end.

(** The [for] of the level search over the node ids: a node without a
    level that residual capacity reaches gets the level after that of [u]
    and joins the queue. *)
Fixpoint grow (capacities fl : record Z) (u : string) (vs : list string)
    (levels : record Z) (queue : list string) : outcome (record Z * list string) :=
  match vs with
  | [] => Returned (levels, queue)
  | v :: rest =>
      if negb (has (keys levels) v) && positive (residual capacities fl u v) then
        lu <- orThrow OffModel (get levels u) ;;
        grow capacities fl u rest (set levels v (lu + 1)%Z) (queue ++ [v])
      else grow capacities fl u rest levels queue
  end.

(** [while (head < queue.length)], one unit of fuel per node taken; the
    queue holds the nodes from [head] on. *)
Fixpoint bfs (fuel : nat) (ids : list string) (capacities fl : record Z)
    (levels : record Z) (queue : list string) : outcome (record Z) :=
  match queue with
  | [] => Returned levels
  | u :: queue' =>
      match fuel with
      | O => Failed OutOfFuel
      | S fuel' =>
          r <- grow capacities fl u ids levels queue' ;;
          bfs fuel' ids capacities fl (fst r) (snd r)
      end
  end.

(** [levels[v] !== levels[u] + 1]: a missing level differs from every
    number, and nothing equals [NaN]. *)
Definition offLevel (levels : record Z) (u v : string) : bool :=
  match get levels v, get levels u with
  | Some lv, Some lu => negb (lv =? lu + 1)%Z
  | _, _ => true
  end.

(** [flows[k] += tr] and [flows[k] -= tr]; an entry that would hold
    [Infinity] or [NaN] leaves the model. *)
Definition raise (fl : record Z) (k : string) (tr : num) : outcome (record Z) :=
  match tr with
  | Fin z => FordFulkerson.addTo fl k z
  | _ => Failed OffModel
  end.

Definition lower (fl : record Z) (k : string) (tr : num) : outcome (record Z) :=
  match tr with
  | Fin z => FordFulkerson.addTo fl k (- z)%Z
  | _ => Failed OffModel
  end.

(** The [for] of [dfs] over the node ids; [call] is the recursive call. *)
Fixpoint each (call : string -> num -> record Z -> outcome (num * record Z))
    (capacities levels : record Z) (u : string) (pushed : num) (vs : list string)
    (fl : record Z) : outcome (num * record Z) :=
  match vs with
  | [] => Returned (Fin 0, fl)
  | v :: rest =>
      let r := residual capacities fl u v in
      if offLevel levels u v || isZero r then
        each call capacities levels u pushed rest fl
      else
        res <- call v (min pushed r) fl ;;
        let tr := fst res in
        if positive tr then
          fl1 <- raise (snd res) (getDirectedEdgeKey u v) tr ;;
          fl2 <- lower fl1 (getDirectedEdgeKey v u) tr ;;
          Returned (tr, fl2)
        else each call capacities levels u pushed rest (snd res)
  end.

(** [dfs(u, pushed)], one unit of fuel per level of the recursion. *)
Fixpoint dfs (fuel : nat) (ids : list string) (capacities levels : record Z)
    (endNode u : string) (pushed : num) (fl : record Z) : outcome (num * record Z) :=
  if isZero pushed || (u =? endNode)%string then Returned (pushed, fl)
  else
    match fuel with
    | O => Failed OutOfFuel
    | S fuel' =>
        each (dfs fuel' ids capacities levels endNode) capacities levels u pushed ids fl
    end.

Record state : Type := {
  fl : record Z;
  totalFlow : num;
  phase : Z;
  steps : list Step
}.

(** [createStep]; no call passes a path. *)
Definition createStep (desc : string) (currentPhase : Z) (fl : record Z)
    (totalFlow : num) : Step :=
  {| description := desc; currentNode := None; neighbor := None;
     dataStructure := Some [string_of_Z currentPhase;
                            template ["Flow: "; showNum totalFlow]];
     visited := None; distances := None; highlightedEdge := None;
     mstEdges := None; nodeSets := None; highlightedPath := None;
     flows := Some fl; supernodes := None; graphData := None |}.

(** The recursion climbs one level per call. *)
Definition depth (levels : record Z) : nat :=
  S (Z.to_nat (fold_right Z.max 0%Z (map snd levels))).

(** [while (pushed = dfs(startNode, Infinity))], one unit of fuel per
    path. *)
Fixpoint blocking (fuel : nat) (ids : list string) (capacities levels : record Z)
    (startNode endNode : string) (s : state) : outcome state :=
  res <- dfs (depth levels) ids capacities levels endNode startNode Infinity (fl s) ;;
  let pushed := fst res in
  if truthy pushed then
    match fuel with
    | O => Failed OutOfFuel
    | S fuel' =>
        let total := plus (totalFlow s) pushed in
        blocking fuel' ids capacities levels startNode endNode
          {| fl := snd res; totalFlow := total; phase := phase s;
             steps := steps s ++
               [createStep (template ["Found path in level graph, pushed ";
                                      showNum pushed; " flow. Total: "; showNum total])
                           (phase s) (snd res) total] |}
    end
  else Returned {| fl := snd res; totalFlow := totalFlow s; phase := phase s;
                   steps := steps s |}.

(** [`${levels[endNode]}`] *)
Definition showLevel (levels : record Z) (v : string) : string :=
  match get levels v with
  | Some l => string_of_Z l
  | None => "undefined"
  end.

(** [while (true)], one unit of fuel per phase that reaches the sink. *)
Fixpoint phases (fuel pathFuel : nat) (ids : list string) (capacities : record Z)
    (startNode endNode : string) (s : state) : outcome state :=
  levels <- bfs (S (List.length ids)) ids capacities (fl s)
              (set [] startNode 0%Z) [startNode] ;;
  if negb (has (keys levels) endNode) then
    Returned {| fl := fl s; totalFlow := totalFlow s; phase := phase s;
                steps := steps s ++
                  [createStep "Sink is not reachable. Algorithm complete."
                              (phase s - 1)%Z (fl s) (totalFlow s)] |}
  else
    match fuel with
    | O => Failed OutOfFuel
    | S fuel' =>
        let built :=
          createStep (template ["Phase "; string_of_Z (phase s);
                                ": Built level graph. Sink is at level ";
                                showLevel levels endNode; "."])
                     (phase s) (fl s) (totalFlow s) in
        s1 <- blocking pathFuel ids capacities levels startNode endNode
                {| fl := fl s; totalFlow := totalFlow s; phase := phase s;
                   steps := steps s ++ [built] |} ;;
        phases fuel' pathFuel ids capacities startNode endNode
          {| fl := fl s1; totalFlow := totalFlow s1; phase := (phase s1 + 1)%Z;
             steps := steps s1 |}
    end.

Definition run_fuel (fuel : nat) (graph : GraphData) (startNode endNode : string)
    : outcome state :=
  es <- orThrow TypeError (edges graph) ;;
  phases fuel fuel (map id (nodes graph)) (FordFulkerson.initCapacities es)
         startNode endNode
         {| fl := FordFulkerson.initFlows es; totalFlow := Fin 0; phase := 1;
            steps := [] |}.

(** The flow never exceeds the capacity that leaves the source, and every
    path adds at least one unit. *)
Definition run (graph : GraphData) (startNode endNode : string) : outcome state :=
  match edges graph with
  | Some es =>
      run_fuel (Z.to_nat (MinCut.cutValue es (add [] startNode))) graph startNode endNode
  | None => Failed TypeError
  end.

Definition generateSteps (graph : GraphData) (startNode endNode : string)
    : outcome (list Step) :=
  s <- run graph startNode endNode ;;
  Returned (steps s).

(** The sample network of the module. *)
Definition graphData : GraphData :=
  {| nodes := [ {| id := "S"; x := 100; y := 200 |};
                {| id := "A"; x := 275; y := 100 |};
                {| id := "B"; x := 275; y := 300 |};
                {| id := "C"; x := 450; y := 100 |};
                {| id := "D"; x := 450; y := 300 |};
                {| id := "T"; x := 600; y := 200 |} ];
     adj := [ ("S", ["A"; "B"]); ("A", ["C"]); ("B", ["A"; "D"]);
              ("C", ["T"]); ("D", ["C"; "T"]); ("T", []) ];
     edges := Some [ {| from := "S"; to := "A"; weight := 10 |};
                     {| from := "S"; to := "B"; weight := 8 |};
                     {| from := "A"; to := "C"; weight := 5 |};
                     {| from := "B"; to := "A"; weight := 3 |};
                     {| from := "B"; to := "D"; weight := 10 |};
                     {| from := "C"; to := "T"; weight := 7 |};
                     {| from := "D"; to := "C"; weight := 4 |};
                     {| from := "D"; to := "T"; weight := 10 |} ];
     directed := Some true |}.

End Dinic.

(** ** The edge colours of [GraphAnimation] ([GraphAnimation.tsx])

    [getEdgeColor] reads the current Step and the [directed] flag of the
    current graph. *)

Module Render.

(** The facets of the current Step that [getEdgeColor] reads.  [None] is
    an absent facet, or [null] where the source allows it. *)
Record Frame : Type := {
  conflictingEdge : option Edge;
  highlightedCycle : option (list string);
  highlightedPath : option (list string);
  mstEdges : option (list string);
  flows : option (record Z);
  highlightedEdge : option Edge;
  currentNode : option string;
  neighbor : option string
}.

(** [(u === node1Id && v === node2Id) || (u === node2Id && v === node1Id)] *)
Definition matches (node1Id node2Id : string) (uv : string * string) : bool :=
  ((fst uv =? node1Id) && (snd uv =? node2Id))
  || ((fst uv =? node2Id) && (snd uv =? node1Id)).

(** The pairs [(cycle[i], cycle[(i + 1) % cycle.length])]. *)
Definition cyclePairs (cycle : list string) : list (string * string) :=
  match cycle with
  | [] => []
  | first :: rest => combine cycle (rest ++ [first])
  end.

(** The pairs [(path[i], path[i + 1])]. *)
Fixpoint pathPairs (path : list string) : list (string * string) :=
  match path with
  | u :: ((v :: _) as rest) => (u, v) :: pathPairs rest
  | _ => []
  end.

(** [o === s] for a facet that may be absent or [null]. *)
Definition same (o : option string) (s : string) : bool :=
  match o with
  | Some t => (t =? s)%string
  | None => false
  end.

Definition getEdgeColor (currentStep : Frame) (directed : option bool)
    (node1Id node2Id : string) : string :=
  let between := {| from := node1Id; to := node2Id; weight := 0 |} in
  if match conflictingEdge currentStep with
     | Some e => (getEdgeKey e =? getEdgeKey between)%string
     | None => false
     end
  then "#ef4444"
  else if match highlightedCycle currentStep with
          | Some cycle => existsb (matches node1Id node2Id) (cyclePairs cycle)
          | None => false
          end
  then "#ef4444"
  else if match highlightedPath currentStep with
          | Some path => existsb (matches node1Id node2Id) (pathPairs path)
          | None => false
          end
  then "#3b82f6"
  else
    let key := getEdgeKey between in
    let directedKey := getDirectedEdgeKey node1Id node2Id in
    if match mstEdges currentStep with Some mst => has mst key | None => false end
       || match flows currentStep with
          | Some fl => match get fl directedKey with
                       | Some f => (f >? 0)%Z
                       | None => false
                       end
          | None => false
          end
    then "#10b981"
    else
      let isHighlight :=
        match highlightedEdge currentStep with
        | Some e => (getEdgeKey e =? key)%string
                    || (match directed with Some d => d | None => false end
                        && (from e =? node1Id)%string && (to e =? node2Id)%string)
        | None => false
        end in
      let isExploring :=
        (same (currentNode currentStep) node1Id && same (neighbor currentStep) node2Id)
        || (same (currentNode currentStep) node2Id && same (neighbor currentStep) node1Id) in
      if isHighlight || isExploring then "#f97316" else "#9ca3af".

(** A Step of the shared kind, as the renderer reads it; [null] and an
    absent [neighbor] compare alike. *)
Definition ofStep (st : Step) : Frame :=
  {| conflictingEdge := None; highlightedCycle := None;
     highlightedPath := Types.highlightedPath st;
     mstEdges := Types.mstEdges st; flows := Types.flows st;
     highlightedEdge := Types.highlightedEdge st;
     currentNode := Types.currentNode st;
     neighbor := match Types.neighbor st with Some n => n | None => None end |}.

(** A Step of the min-cut generator. *)
Definition ofCutStep (st : MinCutTrace.CutStep) : Frame :=
  {| conflictingEdge := None; highlightedCycle := None;
     highlightedPath := MinCutTrace.highlightedPath st;
     mstEdges := None; flows := MinCutTrace.flows st;
     highlightedEdge := match MinCutTrace.highlightedEdge st with
                        | Some e => e
                        | None => None
                        end;
     currentNode := MinCutTrace.currentNode st;
     neighbor := None |}.

End Render.

(** * Properties *)

(** ** Playback: index safety *)

Section PlaybackFacts.
Import GraphAnimation.

Variable length : Z.
Hypothesis nonempty : (1 <= length)%Z.

Definition inRange (s : state) : Prop := (0 <= step s <= length - 1)%Z.

Lemma initial_inRange : inRange initial.
Proof. unfold inRange; simpl; lia. Qed.

Lemma react_inRange (s : state) (e : event) : inRange s -> inRange (react length s e).
Proof.
  unfold inRange; intros Hs.
  destruct e; simpl; unfold autoAdvance;
    repeat match goal with
           | |- context [if ?b then _ else _] => destruct b eqn:?
           end; simpl; lia.
Qed.

Lemma fold_react_inRange (events : list event) (s : state) :
  inRange s -> inRange (fold_left (react length) events s).
Proof.
  revert s; induction events as [|e events IH]; intros s Hs; simpl.
  - exact Hs.
  - apply IH, react_inRange, Hs.
Qed.

Lemma handleNext_clamped (s : state) :
  inRange s -> step (handleNext length s) = Z.min (step s + 1) (length - 1).
Proof.
  unfold inRange; intros Hs; simpl.
  destruct (step s <? length - 1)%Z eqn:E; lia.
Qed.

Lemma handlePrev_clamped (s : state) :
  inRange s -> step (handlePrev s) = Z.max (step s - 1) 0.
Proof.
  unfold inRange; intros Hs; simpl.
  destruct (step s >? 0)%Z eqn:E; lia.
Qed.
End PlaybackFacts.

(** C6.  With a non-empty trace of [length] Steps, after any finite
    sequence of controller events from the initial state (the [next], [prev]
    and [reset] buttons, and also play/pause, the timer and the speed
    slider) the index is in [[0, length - 1]]; [next] and [prev] move it
    by one, clamped to that range, and stop playing; [reset] sets it to 0
    and stops playing. *)
Theorem playback_index_safety (length : Z) (events : list GraphAnimation.event) :
  (1 <= length)%Z ->
  let s := GraphAnimation.after length events in
  (0 <= GraphAnimation.step s <= length - 1)%Z
  /\ (GraphAnimation.step (GraphAnimation.handleNext length s)
        = Z.min (GraphAnimation.step s + 1) (length - 1)
      /\ GraphAnimation.isPlaying (GraphAnimation.handleNext length s) = false)
  /\ (GraphAnimation.step (GraphAnimation.handlePrev s)
        = Z.max (GraphAnimation.step s - 1) 0
      /\ GraphAnimation.isPlaying (GraphAnimation.handlePrev s) = false)
  /\ (GraphAnimation.step (GraphAnimation.resetAnimation s) = 0%Z
      /\ GraphAnimation.isPlaying (GraphAnimation.resetAnimation s) = false).
Proof.
  intros Hlen s.
  assert (Hs : inRange length s).
  { apply fold_react_inRange; [exact Hlen | apply initial_inRange; exact Hlen]. }
  split; [exact Hs|].
  split; [split; [apply handleNext_clamped; assumption | reflexivity]|].
  split; [split; [apply handlePrev_clamped with (length := length); assumption | reflexivity]|].
  split; reflexivity.
Qed.

Lemma playback_index_safety_witness :
  let s := GraphAnimation.after 3
             [GraphAnimation.Next; GraphAnimation.Next; GraphAnimation.Next;
              GraphAnimation.Prev; GraphAnimation.Reset; GraphAnimation.Next] in
  (0 <= GraphAnimation.step s <= 3 - 1)%Z
  /\ (GraphAnimation.step (GraphAnimation.handleNext 3 s)
        = Z.min (GraphAnimation.step s + 1) (3 - 1)
      /\ GraphAnimation.isPlaying (GraphAnimation.handleNext 3 s) = false)
  /\ (GraphAnimation.step (GraphAnimation.handlePrev s)
        = Z.max (GraphAnimation.step s - 1) 0
      /\ GraphAnimation.isPlaying (GraphAnimation.handlePrev s) = false)
  /\ (GraphAnimation.step (GraphAnimation.resetAnimation s) = 0%Z
      /\ GraphAnimation.isPlaying (GraphAnimation.resetAnimation s) = false).
Proof.
  apply (playback_index_safety 3); lia.
Defined.

(** ** Synchronization: clamping of the shared index *)

Section CompareFacts.
Context {A : Type}.

Lemma len_nonneg (steps : list A) : (0 <= len steps)%Z.
Proof. unfold len; lia. Qed.

Lemma len_pos (steps : list A) : steps <> [] -> (1 <= len steps)%Z.
Proof. destruct steps; [congruence | unfold len; simpl; lia]. Qed.

Lemma at_index_inside (steps : list A) (i : Z) :
  (0 <= i < len steps)%Z -> exists st, at_index steps i = Some st.
Proof.
  unfold at_index, len; intros Hi.
  destruct (i <? 0)%Z eqn:E; [lia|].
  destruct (nth_error steps (Z.to_nat i)) eqn:N; [eauto|].
  apply nth_error_None in N; lia.
Qed.

(** Inside the array the fallback of [currentStep] is not taken. *)
Lemma currentStep_inside (steps : list A) (i : Z) :
  (0 <= i < len steps)%Z -> GraphAnimation.currentStep steps i = at_index steps i.
Proof.
  intros Hi; unfold GraphAnimation.currentStep.
  destruct (at_index_inside steps i Hi) as [st ->]; reflexivity.
Qed.

Lemma rendered_clamped (steps : list A) (i : Z) :
  steps <> [] -> (0 <= i)%Z ->
  CompareMST.rendered steps i = at_index steps (Z.min i (len steps - 1)).
Proof.
  intros Hne Hi; unfold CompareMST.rendered, CompareMST.externalStep.
  apply currentStep_inside. pose proof (len_pos steps Hne). lia.
Qed.

(** Past its last index a trace shows its final Step. *)
Lemma rendered_exhausted (steps : list A) (i : Z) :
  steps <> [] -> (len steps - 1 <= i)%Z ->
  CompareMST.rendered steps i = at_index steps (len steps - 1).
Proof.
  intros Hne Hi. pose proof (len_pos steps Hne).
  rewrite rendered_clamped by (assumption || lia).
  f_equal; lia.
Qed.

(** Up to its last index a trace shows the Step at the shared index. *)
Lemma rendered_advancing (steps : list A) (i : Z) :
  steps <> [] -> (0 <= i <= len steps - 1)%Z ->
  CompareMST.rendered steps i = at_index steps i.
Proof.
  intros Hne Hi.
  rewrite rendered_clamped by (assumption || lia).
  f_equal; lia.
Qed.
End CompareFacts.

(** C7.  For two non-empty traces behind one shared index: after any
    sequence of events the shared index is in [[0, max(lenA, lenB) - 1]];
    each trace draws the Step at [min(shared, ownLength - 1)]; and for every
    shared index beyond the last index of the shorter trace, the shorter
    trace draws its final Step while the longer one draws the Step at the
    shared index itself, a different position for each index. *)
Theorem comparison_clamping {A : Type} (prims kruskals : list A)
    (events : list GraphAnimation.event) :
  prims <> [] -> kruskals <> [] ->
  let shared := GraphAnimation.step (CompareMST.after prims kruskals events) in
  (0 <= shared <= Z.max (len prims) (len kruskals) - 1)%Z
  /\ CompareMST.rendered prims shared = at_index prims (Z.min shared (len prims - 1))
  /\ CompareMST.rendered kruskals shared
       = at_index kruskals (Z.min shared (len kruskals - 1))
  /\ (forall i, (len prims - 1 < i <= len kruskals - 1)%Z ->
        CompareMST.rendered prims i = at_index prims (len prims - 1)
        /\ CompareMST.rendered kruskals i = at_index kruskals i)
  /\ (forall i, (len kruskals - 1 < i <= len prims - 1)%Z ->
        CompareMST.rendered kruskals i = at_index kruskals (len kruskals - 1)
        /\ CompareMST.rendered prims i = at_index prims i).
Proof.
  intros Hp Hk shared.
  pose proof (len_pos prims Hp) as Lp. pose proof (len_pos kruskals Hk) as Lk.
  assert (Hs : (0 <= shared <= Z.max (len prims) (len kruskals) - 1)%Z).
  { subst shared. unfold CompareMST.after, CompareMST.react, CompareMST.maxSteps.
    apply fold_react_inRange; [lia | apply initial_inRange; lia]. }
  split; [exact Hs|].
  split; [apply rendered_clamped; [assumption | lia]|].
  split; [apply rendered_clamped; [assumption | lia]|].
  split; intros i Hi; split.
  - apply rendered_exhausted; [assumption | lia].
  - apply rendered_advancing; [assumption | lia].
  - apply rendered_exhausted; [assumption | lia].
  - apply rendered_advancing; [assumption | lia].
Qed.

Lemma comparison_clamping_witness :
  let prims := [1; 2; 3]%nat in
  let kruskals := [10; 20; 30; 40; 50]%nat in
  let shared := GraphAnimation.step
                  (CompareMST.after prims kruskals
                     [GraphAnimation.Next; GraphAnimation.Next; GraphAnimation.Next;
                      GraphAnimation.Next]) in
  shared = 4%Z
  /\ CompareMST.rendered prims shared = Some 3%nat
  /\ CompareMST.rendered kruskals shared = Some 50%nat.
Proof.
  destruct (comparison_clamping [1; 2; 3]%nat [10; 20; 30; 40; 50]%nat
              [GraphAnimation.Next; GraphAnimation.Next; GraphAnimation.Next;
               GraphAnimation.Next]) as (_ & Hp & Hk & _);
    [discriminate | discriminate |].
  cbv zeta. split; [reflexivity|]. split; [exact Hp | exact Hk].
Defined.

(** ** Breadth-first search on the sample graph *)

(** C4, the part the BFS generator contradicts: its Steps carry no
    [distances] facet, so its final Step does not hold the snapshot
    [{A:0, B:1, C:1, D:2, E:2, F:3}]. *)
Lemma bfs_final_step_has_no_distances :
  ~ (exists steps final,
       Bfs.generateSteps Bfs.graphData "A" = Returned steps
       /\ finalStep steps = Some final
       /\ distances final
          = Some [("A", Num 0); ("B", Num 1); ("C", Num 1);
                  ("D", Num 2); ("E", Num 2); ("F", Num 3)]).
Proof.
  intros (steps & final & Hrun & Hlast & Hdist).
  vm_compute in Hrun. injection Hrun as <-.
  vm_compute in Hlast. injection Hlast as <-.
  discriminate Hdist.
Qed.

(** C4, amended.  From [A] on the sample graph the BFS generator marks the
    nodes visited in the order A, B, C, D, E, F, which is non-decreasing in
    hop distance from [A], and none of its Steps has a [distances] facet;
    the unweighted shortest-path generator, the BFS that records distances,
    ends on the same graph with the snapshot
    [{A:0, B:1, C:1, D:2, E:2, F:3}], the hop distance of every node. *)
Theorem bfs_layering :
  exists steps steps' final,
    Bfs.generateSteps Bfs.graphData "A" = Returned steps
    /\ markOrder steps = ["A"; "B"; "C"; "D"; "E"; "F"]
    /\ Reference.nondecreasing
         (map (Reference.hops Bfs.graphData "A") (markOrder steps)) = true
    /\ Forall (fun st => distances st = None) steps
    /\ ShortestPathUnweighted.generateSteps ShortestPathUnweighted.graphData "A"
       = Returned steps'
    /\ finalStep steps' = Some final
    /\ distances final
       = Some [("A", Num 0); ("B", Num 1); ("C", Num 1);
               ("D", Num 2); ("E", Num 2); ("F", Num 3)]
    /\ forall node, In node (nodes Bfs.graphData) ->
         exists d, Reference.hops Bfs.graphData "A" (id node) = Some d
                   /\ option_map (fun r => get r (id node)) (distances final)
                      = Some (Some (Num (Z.of_nat d))).
Proof.
  do 3 eexists.
  split; [vm_compute; reflexivity|].
  split; [vm_compute; reflexivity|].
  split; [vm_compute; reflexivity|].
  split; [repeat constructor|].
  split; [vm_compute; reflexivity|].
  split; [vm_compute; reflexivity|].
  split; [reflexivity|].
  intros node Hin; simpl in Hin.
  repeat (destruct Hin as [<- | Hin]; [eexists; split; vm_compute; reflexivity|]).
  contradiction.
Qed.

(** ** Dijkstra on the sample graph *)

Section WalkBounds.
Import Reference.

Variable es : list Edge.
Variable s : string.
(** A potential: zero at the source, and no edge drops it by more than
    its weight in either direction. *)
Variable potential : string -> Z.
Hypothesis source : (potential s <= 0)%Z.
Hypothesis feasible : forall e, In e es ->
  (potential (to e) <= potential (from e) + weight e)%Z
  /\ (potential (from e) <= potential (to e) + weight e)%Z.

Lemma walk_lower_bound (v : string) (c : Z) : walk es s v c -> (potential v <= c)%Z.
Proof.
  induction 1 as [|u v cost e Hw IH He [[<- <-] | [<- <-]]].
  - exact source.
  - destruct (feasible e He); lia.
  - destruct (feasible e He); lia.
Qed.
End WalkBounds.

Lemma walk_extend (es : list Edge) (s u v : string) (c c' : Z) (e : Edge) :
  Reference.walk es s u c -> In e es -> Reference.joins e u v ->
  c' = (c + weight e)%Z -> Reference.walk es s v c'.
Proof. intros Hw He Hj ->. eapply Reference.walk_on; eassumption. Qed.

(** The final distances of the sample run, as a potential. *)
Definition dijkstraPotential (v : string) : Z :=
  match get (Reference.bellmanFord Dijkstra.graphData "A") v with
  | Some d => d
  | None => 0%Z
  end.

Lemma dijkstraPotential_feasible (e : Edge) :
  In e [ {| from := "A"; to := "B"; weight := 4 |};
         {| from := "A"; to := "C"; weight := 2 |};
         {| from := "B"; to := "C"; weight := 1 |};
         {| from := "B"; to := "D"; weight := 5 |};
         {| from := "C"; to := "E"; weight := 3 |};
         {| from := "D"; to := "F"; weight := 3 |};
         {| from := "E"; to := "F"; weight := 1 |} ] ->
  (dijkstraPotential (to e) <= dijkstraPotential (from e) + weight e)%Z
  /\ (dijkstraPotential (from e) <= dijkstraPotential (to e) + weight e)%Z.
Proof.
  intros Hin; simpl in Hin.
  repeat (destruct Hin as [<- | Hin]; [vm_compute; split; discriminate|]).
  contradiction.
Qed.

(** C5.  On the 6-node weighted sample graph (weights 4, 2, 1, 5, 3, 3, 1)
    the Dijkstra generator run from [A] returns a trace whose final Step
    gives every node a numeric distance [d] that is the true shortest-path
    distance from [A]: some walk costs [d], no walk costs less, and the
    Bellman-Ford reference computes the same [d].  The run exercises lazy
    deletion: once [B] is finalized at distance 3 its stale entry [B(4)] is
    still at the head of the queue, and the next Step extracts [E]. *)
Theorem dijkstra_shortest_paths :
  exists steps final dist es,
    Dijkstra.generateSteps Dijkstra.graphData "A" = Returned steps
    /\ finalStep steps = Some final
    /\ distances final = Some dist
    /\ edges Dijkstra.graphData = Some es
    /\ (exists stale next,
          nth_error steps 8 = Some stale /\ nth_error steps 9 = Some next
          /\ visited stale = Some ["A"; "C"; "B"]
          /\ dataStructure stale = Some ["B(4)"; "E(5)"; "D(8)"]
          /\ currentNode next = Some "E"
          /\ dataStructure next = Some ["D(8)"])
    /\ forall node, In node (nodes Dijkstra.graphData) ->
         exists d, get dist (id node) = Some (Num d)
                   /\ Reference.shortest es "A" (id node) d
                   /\ get (Reference.bellmanFord Dijkstra.graphData "A") (id node) = Some d.
Proof.
  do 4 eexists.
  split; [vm_compute; reflexivity|].
  split; [vm_compute; reflexivity|].
  split; [reflexivity|].
  split; [reflexivity|].
  split; [do 2 eexists; repeat split; reflexivity|].
  assert (Hlow : forall v c,
             Reference.walk
               [ {| from := "A"; to := "B"; weight := 4 |};
                 {| from := "A"; to := "C"; weight := 2 |};
                 {| from := "B"; to := "C"; weight := 1 |};
                 {| from := "B"; to := "D"; weight := 5 |};
                 {| from := "C"; to := "E"; weight := 3 |};
                 {| from := "D"; to := "F"; weight := 3 |};
                 {| from := "E"; to := "F"; weight := 1 |} ] "A" v c ->
             (dijkstraPotential v <= c)%Z).
  { intros v c. apply walk_lower_bound.
    - vm_compute; discriminate.
    - apply dijkstraPotential_feasible. }
  intros node Hin; simpl in Hin.
  destruct Hin as [<- | [<- | [<- | [<- | [<- | [<- | []]]]]]]; simpl id.
  - exists 0%Z. split; [reflexivity|]. split; [|reflexivity].
    split; [apply Reference.walk_here | intros c Hc; apply (Hlow _ _ Hc)].
  - exists 3%Z. split; [reflexivity|]. split; [|reflexivity].
    split; [| intros c Hc; apply (Hlow _ _ Hc)].
    eapply walk_extend with (u := "C") (c := 2%Z)
                            (e := {| from := "B"; to := "C"; weight := 1 |});
      [ eapply walk_extend with (u := "A") (c := 0%Z)
                                (e := {| from := "A"; to := "C"; weight := 2 |});
        [ apply Reference.walk_here | simpl; tauto
        | unfold Reference.joins; simpl; tauto | reflexivity ]
      | simpl; tauto | unfold Reference.joins; simpl; tauto | reflexivity ].
  - exists 2%Z. split; [reflexivity|]. split; [|reflexivity].
    split; [| intros c Hc; apply (Hlow _ _ Hc)].
    eapply walk_extend with (u := "A") (c := 0%Z)
                            (e := {| from := "A"; to := "C"; weight := 2 |});
      [ apply Reference.walk_here | simpl; tauto
      | unfold Reference.joins; simpl; tauto | reflexivity ].
  - exists 8%Z. split; [reflexivity|]. split; [|reflexivity].
    split; [| intros c Hc; apply (Hlow _ _ Hc)].
    eapply walk_extend with (u := "B") (c := 3%Z)
                            (e := {| from := "B"; to := "D"; weight := 5 |});
      [ eapply walk_extend with (u := "C") (c := 2%Z)
                                (e := {| from := "B"; to := "C"; weight := 1 |});
        [ eapply walk_extend with (u := "A") (c := 0%Z)
                                  (e := {| from := "A"; to := "C"; weight := 2 |});
          [ apply Reference.walk_here | simpl; tauto
          | unfold Reference.joins; simpl; tauto | reflexivity ]
        | simpl; tauto | unfold Reference.joins; simpl; tauto | reflexivity ]
      | simpl; tauto | unfold Reference.joins; simpl; tauto | reflexivity ].
  - exists 5%Z. split; [reflexivity|]. split; [|reflexivity].
    split; [| intros c Hc; apply (Hlow _ _ Hc)].
    eapply walk_extend with (u := "C") (c := 2%Z)
                            (e := {| from := "C"; to := "E"; weight := 3 |});
      [ eapply walk_extend with (u := "A") (c := 0%Z)
                                (e := {| from := "A"; to := "C"; weight := 2 |});
        [ apply Reference.walk_here | simpl; tauto
        | unfold Reference.joins; simpl; tauto | reflexivity ]
      | simpl; tauto | unfold Reference.joins; simpl; tauto | reflexivity ].
  - exists 6%Z. split; [reflexivity|]. split; [|reflexivity].
    split; [| intros c Hc; apply (Hlow _ _ Hc)].
    eapply walk_extend with (u := "E") (c := 5%Z)
                            (e := {| from := "E"; to := "F"; weight := 1 |});
      [ eapply walk_extend with (u := "C") (c := 2%Z)
                                (e := {| from := "C"; to := "E"; weight := 3 |});
        [ eapply walk_extend with (u := "A") (c := 0%Z)
                                  (e := {| from := "A"; to := "C"; weight := 2 |});
          [ apply Reference.walk_here | simpl; tauto
          | unfold Reference.joins; simpl; tauto | reflexivity ]
        | simpl; tauto | unfold Reference.joins; simpl; tauto | reflexivity ]
      | simpl; tauto | unfold Reference.joins; simpl; tauto | reflexivity ].
Qed.

(** ** Ford-Fulkerson on the sample network *)

(** C1, the part the code contradicts: the final total flow on the sample
    network is not 14. *)
Lemma ford_fulkerson_total_is_not_14 :
  ~ (exists s,
       FordFulkerson.run FordFulkerson.graphData "S" "T" = Returned s
       /\ FordFulkerson.totalFlow s = 14%Z).
Proof.
  intros (s & Hrun & Htotal).
  vm_compute in Hrun. injection Hrun as <-.
  discriminate Htotal.
Qed.

(** C1, amended.  On the sample network (S->A 10, S->B 10, A->C 8, A->D 4,
    B->D 9, C->T 10, D->T 10) the generator returns a trace whose final
    total flow is 18, shown as ["18"] in the final Step; the nodes
    reachable from [S] in the final residual graph are S, B, D and A, the
    sink is not among them, and the capacity of the edges leaving that set
    equals the total flow; no set of nodes with [S] and without [T] has a
    smaller capacity, so that cut is a minimum one. *)
Theorem ford_fulkerson_max_flow_min_cut :
  exists s es final sset,
    FordFulkerson.run FordFulkerson.graphData "S" "T" = Returned s
    /\ FordFulkerson.generateSteps FordFulkerson.graphData "S" "T"
       = Returned (FordFulkerson.steps s)
    /\ edges FordFulkerson.graphData = Some es
    /\ FordFulkerson.totalFlow s = 18%Z
    /\ finalStep (FordFulkerson.steps s) = Some final
    /\ dataStructure final = Some ["18"]
    /\ flows final = Some (FordFulkerson.fl s)
    /\ MinCut.sSet FordFulkerson.graphData (FordFulkerson.initCapacities es)
         (FordFulkerson.fl s) "S" = Returned sset
    /\ sset = ["S"; "B"; "D"; "A"]
    /\ has sset "T" = false
    /\ MinCut.cutValue es sset = FordFulkerson.totalFlow s
    /\ forall side, has side "S" = true -> has side "T" = false ->
         (MinCut.cutValue es sset <= MinCut.cutValue es side)%Z.
Proof.
  do 4 eexists.
  split; [vm_compute; reflexivity|].
  split; [vm_compute; reflexivity|].
  split; [reflexivity|].
  split; [reflexivity|].
  split; [vm_compute; reflexivity|].
  split; [reflexivity|].
  split; [reflexivity|].
  split; [vm_compute; reflexivity|].
  split; [reflexivity|].
  split; [reflexivity|].
  split; [reflexivity|].
  intros side HS HT.
  change (MinCut.cutValue _ ["S"; "B"; "D"; "A"]) with 18%Z.
  unfold MinCut.cutValue; simpl. rewrite HS, HT.
  destruct (has side "A"), (has side "B"), (has side "C"), (has side "D"); simpl; lia.
Qed.

(** ** Prim's and Kruskal's on the same graph *)

(** The [mstEdges] set of the final Step. *)
Definition finalMst (run : outcome (list Step)) : option (list string) :=
  match run with
  | Returned steps =>
      match finalStep steps with
      | Some final => mstEdges final
      | None => None
      end
  | Failed _ => None
  end.

(** C8.  On the 6-node sample graph that the Prim's and the Kruskal's
    modules share (weights 3, 2, 1, 6, 8, 4, 5), the final MST edge sets of
    the two generators have the same total weight, 18, which is the least
    weight of a set of edges connecting all nodes; the two sets hold the
    same edges in different orders.  The same holds, with weight 12, on the
    graph of the side-by-side comparison (weights 4, 2, 1, 5, 3, 6, 1). *)
Theorem mst_equivalence :
  (exists primEdges kruskalEdges,
     finalMst (Prims.generateSteps Prims.graphData "A") = Some primEdges
     /\ finalMst (Kruskal.generateSteps Kruskal.graphData) = Some kruskalEdges
     /\ Prims.graphData = Kruskal.graphData
     /\ Reference.weightOfKeys mstSample primEdges
        = Reference.weightOfKeys mstSample kruskalEdges
     /\ Reference.minSpanningWeight mstSample
        = Some (Reference.weightOfKeys mstSample primEdges)
     /\ Reference.weightOfKeys mstSample kruskalEdges = 18%Z
     /\ primEdges = ["A-C"; "B-C"; "B-D"; "D-F"; "E-F"]
     /\ kruskalEdges = ["B-C"; "A-C"; "D-F"; "E-F"; "B-D"])
  /\ (exists primEdges kruskalEdges,
        finalMst MstComparison.prims = Some primEdges
        /\ finalMst MstComparison.kruskals = Some kruskalEdges
        /\ Reference.weightOfKeys MstComparison.graphData primEdges
           = Reference.weightOfKeys MstComparison.graphData kruskalEdges
        /\ Reference.minSpanningWeight MstComparison.graphData
           = Some (Reference.weightOfKeys MstComparison.graphData primEdges)
        /\ Reference.weightOfKeys MstComparison.graphData kruskalEdges = 12%Z).
Proof.
  split.
  - do 2 eexists.
    split; [vm_compute; reflexivity|].
    split; [vm_compute; reflexivity|].
    repeat split; vm_compute; reflexivity.
  - do 2 eexists.
    split; [vm_compute; reflexivity|].
    split; [vm_compute; reflexivity|].
    repeat split; vm_compute; reflexivity.
Qed.

(** ** Karger's contraction on the sample graph *)

Section KargerFacts.
Import Karger.

(** A product of a draw in [0, 1) and a length stays below the length. *)
Lemma floorTimes_below (d : draw) (n : nat) :
  unitInterval d -> (0 < n)%nat -> (floorTimes d n < n)%nat.
Proof.
  unfold unitInterval, floorTimes; intros Hd Hn.
  apply Nat.Div0.div_lt_upper_bound. nia.
Qed.

(** [property] holds at the end of the loop whichever edge each round
    picks. *)
Fixpoint allChoices (fuel : nat) (property : state -> bool) (s : state) : bool :=
  if running s then
    match fuel with
    | O => false
    | S fuel' =>
        forallb (fun i => match contract i s with
                          | Returned s' => allChoices fuel' property s'
                          | Failed _ => false
                          end) (seq 0 (List.length (edges s)))
    end
  else property s.

Lemma allChoices_sound (random : nat -> draw) (property : state -> bool) :
  (forall k, unitInterval (random k)) ->
  forall fuel s, allChoices fuel property s = true ->
  exists s', loop fuel random s = Returned s' /\ property s' = true.
Proof.
  intros Hrandom. induction fuel as [|fuel IH]; intros s Hall; simpl in *.
  - destruct (running s); [discriminate | eauto].
  - destruct (running s) eqn:Hrun; [|eauto].
    rewrite forallb_forall in Hall.
    specialize (Hall (floorTimes (random (calls s)) (List.length (edges s)))).
    assert (Hpos : (0 < List.length (edges s))%nat).
    { unfold running in Hrun. apply andb_prop in Hrun as [_ H].
      apply Nat.ltb_lt in H. exact H. }
    pose proof (floorTimes_below (random (calls s)) _ (Hrandom _) Hpos) as Hlt.
    rewrite in_seq in Hall. specialize (Hall ltac:(lia)).
    destruct (contract _ s) as [s'|]; [|discriminate].
    simpl. apply IH, Hall.
Qed.

(** The end of a run: three rounds done, and a trace of eight Steps. *)
Definition threeRounds (s1 : state) : bool :=
  match finish s1 with
  | Returned s2 =>
      match observe s2 with
      | Returned trace => (rounds s2 =? 3)%nat && (List.length trace =? 8)%nat
      | Failed _ => false
      end
  | Failed _ => false
  end.

Lemma run_threeRounds (random : nat -> draw) :
  (forall k, unitInterval (random k)) ->
  exists s trace,
    run random = Returned s /\ rounds s = 3%nat
    /\ generateSteps random = Returned trace /\ List.length trace = 8%nat.
Proof.
  intros Hrandom.
  destruct start as [s0|] eqn:Hstart; [|vm_compute in Hstart; discriminate].
  assert (Hall : allChoices (List.length (edges s0)) threeRounds s0 = true).
  { vm_compute in Hstart. injection Hstart as <-. vm_compute. reflexivity. }
  destruct (allChoices_sound random threeRounds Hrandom _ _ Hall) as (s1 & Hloop & Hp).
  unfold threeRounds in Hp.
  destruct (finish s1) as [s2|] eqn:Hfin; [|discriminate].
  destruct (observe s2) as [trace|] eqn:Hobs; [|discriminate].
  apply andb_prop in Hp as [Hr Hl].
  apply Nat.eqb_eq in Hr. apply Nat.eqb_eq in Hl.
  exists s2, trace.
  assert (Hrun : run random = Returned s2).
  { unfold run. rewrite Hstart. simpl. rewrite Hloop. simpl. exact Hfin. }
  split; [exact Hrun|]. split; [exact Hr|].
  split; [|exact Hl].
  unfold generateSteps. rewrite Hrun. simpl. exact Hobs.
Qed.
End KargerFacts.


(** Two runs whose contents differ: always the first edge, always the last. *)
Definition alwaysFirst : nat -> Karger.draw := fun _ => {| Karger.num := 0; Karger.den := 1 |}.
Definition alwaysLast : nat -> Karger.draw := fun _ => {| Karger.num := 99; Karger.den := 100 |}.


Lemma karger_runs_differ :
  map description
      (match Karger.generateSteps alwaysFirst with Returned t => t | Failed _ => [] end)
  <> map description
      (match Karger.generateSteps alwaysLast with Returned t => t | Failed _ => [] end).
Proof. vm_compute. discriminate. Qed.

(** ** Snapshots: the Steps of the Karger generator are not immutable *)

(** C2 at the Karger generator, with [Math.random] returning 0 on every
    call.  The first Step is pushed with each supernode holding only
    itself.  The contractions then [push] onto the array of [A], which
    that Step shares through the shallow copy [{ ...supernodes }]: in the
    returned trace the same Step shows [A] with the nodes A, B, C and E.
    The [highlightedEdge] of the second Step, a reference to the edge being
    contracted, has likewise turned from A-B into the self-loop A-A. *)
Theorem karger_first_step_mutates :
  exists s0 emitted s trace first second,
    Karger.start = Returned s0
    /\ Karger.observe s0 = Returned [emitted]
    /\ Karger.run alwaysFirst = Returned s
    /\ firstn 1 (Karger.steps s) = Karger.steps s0
    /\ Karger.generateSteps alwaysFirst = Returned trace
    /\ nth_error trace 0 = Some first
    /\ nth_error trace 1 = Some second
    /\ supernodes emitted
       = Some [("A", ["A"]); ("B", ["B"]); ("C", ["C"]); ("D", ["D"]); ("E", ["E"])]
    /\ supernodes first
       = Some [("A", ["A"; "B"; "C"; "E"]); ("B", ["B"]); ("C", ["C"]);
               ("D", ["D"]); ("E", ["E"])]
    /\ emitted <> first
    /\ description second = "Randomly select edge A-B to contract."
    /\ highlightedEdge second = Some {| from := "A"; to := "A"; weight := 1 |}.
Proof.
  do 6 eexists.
  split; [vm_compute; reflexivity|].
  split; [vm_compute; reflexivity|].
  split; [vm_compute; reflexivity|].
  split; [reflexivity|].
  split; [vm_compute; reflexivity|].
  split; [reflexivity|].
  split; [reflexivity|].
  split; [reflexivity|].
  split; [reflexivity|].
  split; [discriminate|].
  split; reflexivity.
Qed.

(** ** Union-Find soundness *)


(** *** Records *)

Section RecordFacts.
Context {V : Type}.
Implicit Types (r : record V) (k : string) (v : V).

Lemma get_set_same r k v : get (set r k v) k = Some v.
Proof.
  induction r as [|[k' v'] r IH]; simpl.
  - now rewrite String.eqb_refl.
  - destruct (k' =? k)%string eqn:E; simpl.
    + now rewrite String.eqb_refl.
    + now rewrite E.
Qed.

Lemma get_set_other r k k' v : k' <> k -> get (set r k v) k' = get r k'.
Proof.
  intros Hne. induction r as [|[k0 v0] r IH]; simpl.
  - destruct (String.eqb_spec k k'); congruence.
  - destruct (String.eqb_spec k0 k) as [->|Hk]; simpl.
    + destruct (String.eqb_spec k k'); congruence.
    + destruct (String.eqb_spec k0 k'); auto.
Qed.

Lemma keys_set_present r k v w : get r k = Some w -> keys (set r k v) = keys r.
Proof.
  unfold keys. induction r as [|[k0 v0] r IH]; simpl; [discriminate|].
  destruct (String.eqb_spec k0 k) as [->|Hk]; simpl; intros H.
  - reflexivity.
  - now rewrite IH.
Qed.

Lemma get_Some_key r k v : get r k = Some v -> In k (keys r).
Proof.
  unfold keys. induction r as [|[k0 v0] r IH]; simpl; [discriminate|].
  destruct (String.eqb_spec k0 k) as [->|Hk]; auto.
Qed.

Lemma key_get_Some r k : In k (keys r) -> exists v, get r k = Some v.
Proof.
  unfold keys. induction r as [|[k0 v0] r IH]; simpl; [contradiction|].
  destruct (String.eqb_spec k0 k) as [->|Hk]; [eauto|].
  intros [H|H]; [congruence | auto].
Qed.

Lemma keys_set r k v x : In x (keys (set r k v)) <-> x = k \/ In x (keys r).
Proof.
  unfold keys. induction r as [|[k0 v0] r IH]; simpl.
  - intuition.
  - destruct (String.eqb_spec k0 k) as [->|Hk]; simpl.
    + intuition.
    + rewrite IH. intuition.
Qed.
End RecordFacts.

Lemma keys_length {V : Type} (r : record V) : List.length (keys r) = List.length r.
Proof. apply length_map. Qed.

(** *** The disjoint-set forest *)

Section ForestFacts.
Import DisjointSet.

(** [climbs p n x r]: from [x], [n] parent links lead to the root [r]. *)
Inductive climbs (p : t) : nat -> string -> string -> Prop :=
| climbs_root (x : string) : get p x = Some x -> climbs p 0 x x
| climbs_link (n : nat) (x y r : string) :
    get p x = Some y -> y <> x -> climbs p n y r -> climbs p (S n) x r.

(** Every key leads to a root: no cycle, no dangling parent. *)
Definition forest (p : t) : Prop :=
  forall x, In x (keys p) -> exists n r, climbs p n x r.

Lemma climbs_fun (p : t) (n m : nat) (x r r' : string) :
  climbs p n x r -> climbs p m x r' -> n = m /\ r = r'.
Proof.
  intros H; revert m r'.
  induction H as [x Hx | n x y r Hx Hne H IH]; intros m r' H'.
  - inversion H'; subst; [auto | congruence].
  - inversion H'; subst; [congruence|].
    assert (y0 = y) by congruence; subst.
    destruct (IH _ _ H2); subst; auto.
Qed.

Lemma climbs_ends_at_root (p : t) (n : nat) (x r : string) :
  climbs p n x r -> get p r = Some r.
Proof. induction 1; auto. Qed.

Lemma climbs_key (p : t) (n : nat) (x r : string) : climbs p n x r -> In x (keys p).
Proof. destruct 1; eapply get_Some_key; eauto. Qed.

(** The nodes on the way to the root are pairwise distinct keys. *)
Lemma climbs_path (p : t) (n : nat) (x r : string) :
  climbs p n x r ->
  exists l, List.length l = S n /\ NoDup l /\ incl l (keys p)
            /\ forall z, In z l -> exists k, (k <= n)%nat /\ climbs p k z r.
Proof.
  induction 1 as [x Hx | n x y r Hx Hne H (l & Hlen & Hnd & Hincl & Hl)].
  - exists [x]. repeat split.
    + constructor; [intros [] | constructor].
    + intros z [<-|[]]. eapply get_Some_key; eauto.
    + intros z [<-|[]]. exists 0%nat; split; [lia | now constructor].
  - exists (x :: l). repeat split.
    + simpl; lia.
    + constructor; [|exact Hnd].
      intros Hin. destruct (Hl _ Hin) as (k & Hk & Hc).
      assert (Hx' : climbs p (S n) x r) by (econstructor; eauto).
      destruct (climbs_fun _ _ _ _ _ _ Hc Hx'); lia.
    + intros z [<-|Hz]; [eapply get_Some_key; eauto | auto].
    + intros z [<-|Hz].
      * exists (S n); split; [lia | econstructor; eauto].
      * destruct (Hl _ Hz) as (k & Hk & Hc). exists k; split; [lia | exact Hc].
Qed.

Lemma climbs_depth (p : t) (n : nat) (x r : string) :
  climbs p n x r -> (n < List.length p)%nat.
Proof.
  intros H. destruct (climbs_path _ _ _ _ H) as (l & Hlen & Hnd & Hincl & _).
  pose proof (NoDup_incl_length Hnd Hincl) as Hle.
  rewrite keys_length in Hle. lia.
Qed.

(** [q] keeps the root of every element of [p]. *)
Definition keepsRoots (p q : t) : Prop :=
  forall y k r, climbs p k y r -> exists m, climbs q m y r.

Lemma keepsRoots_refl (p : t) : keepsRoots p p.
Proof. intros y k r H; eauto. Qed.

Lemma keepsRoots_trans (p q s : t) : keepsRoots p q -> keepsRoots q s -> keepsRoots p s.
Proof. intros H1 H2 y k r H. destruct (H1 _ _ _ H) as [m Hm]. eauto. Qed.

(** Pointing an element at its own root changes no root. *)
Lemma compress_keepsRoots (p : t) (m : nat) (x r : string) :
  climbs p m x r -> keepsRoots p (set p x r).
Proof.
  intros Hx y k r' H.
  induction H as [y Hy | k y y' r' Hy Hne H [m' IH]].
  - destruct (string_dec y x) as [->|Hyx].
    + assert (Hr : climbs p 0 x x) by now constructor.
      destruct (climbs_fun _ _ _ _ _ _ Hx Hr) as [_ ->].
      exists 0%nat. constructor. apply get_set_same.
    + exists 0%nat. constructor. now rewrite get_set_other.
  - destruct (string_dec y x) as [->|Hyx].
    + assert (Hr : climbs p (S k) x r') by (econstructor; eauto).
      destruct (climbs_fun _ _ _ _ _ _ Hx Hr) as [_ ->].
      pose proof (climbs_ends_at_root _ _ _ _ Hx) as Hroot.
      assert (r' <> x) by congruence.
      exists 1%nat. econstructor; [apply get_set_same | assumption |].
      constructor. now rewrite get_set_other.
    + exists (S m'). econstructor; [|exact Hne|exact IH].
      now rewrite get_set_other.
Qed.

Lemma find_fuel_spec (p : t) (n : nat) (x r : string) :
  climbs p n x r ->
  forall fuel, (n < fuel)%nat ->
  exists p', find_fuel fuel p x = Returned (r, p')
             /\ keys p' = keys p /\ keepsRoots p p'.
Proof.
  induction 1 as [x Hx | n x y r Hx Hne H IH]; intros fuel Hfuel;
    (destruct fuel as [|fuel]; [lia|]); simpl; rewrite Hx; simpl.
  - rewrite String.eqb_refl. exists p. auto using keepsRoots_refl.
  - destruct (String.eqb_spec y x) as [?|_]; [contradiction|].
    destruct (IH fuel ltac:(lia)) as (p1 & -> & Hkeys & Hkeep). simpl.
    exists (set p1 x r).
    assert (Hx1 : exists m, climbs p1 m x r).
    { apply (Hkeep x (S n) r). econstructor; eauto. }
    destruct Hx1 as [m Hx1].
    split; [reflexivity|]. split.
    + destruct (key_get_Some p1 x) as [w Hw].
      { rewrite Hkeys. eapply get_Some_key; eauto. }
      rewrite (keys_set_present _ _ _ _ Hw). exact Hkeys.
    + eapply keepsRoots_trans; [exact Hkeep|].
      eapply compress_keepsRoots; eauto.
Qed.

Lemma find_spec (p : t) (n : nat) (x r : string) :
  climbs p n x r ->
  exists p', find p x = Returned (r, p') /\ keys p' = keys p /\ keepsRoots p p'.
Proof.
  intros H. apply (find_fuel_spec _ _ _ _ H).
  pose proof (climbs_depth _ _ _ _ H). lia.
Qed.

Lemma keepsRoots_forest (p q : t) :
  forest p -> keys q = keys p -> keepsRoots p q -> forest q.
Proof.
  intros Hf Hk Hkeep x Hx. rewrite Hk in Hx.
  destruct (Hf x Hx) as (n & r & H). destruct (Hkeep _ _ _ H) as [m Hm]. eauto.
Qed.

(** Hanging the root [rj] under another root [ri]. *)
Lemma link_roots (p : t) (ri rj : string) :
  get p ri = Some ri -> get p rj = Some rj -> ri <> rj ->
  forall y n r, climbs p n y r ->
    exists m, climbs (set p rj ri) m y (if string_dec r rj then ri else r).
Proof.
  intros Hi Hj Hne y n r H.
  induction H as [y Hy | n y y' r Hy Hyne H [m IH]].
  - destruct (string_dec y rj) as [->|Hyj].
    + exists 1%nat. econstructor; [apply get_set_same | exact Hne |].
      constructor. now rewrite get_set_other.
    + exists 0%nat. constructor. now rewrite get_set_other.
  - assert (y <> rj) by congruence.
    exists (S m). econstructor; [|exact Hyne|exact IH]. now rewrite get_set_other.
Qed.
End ForestFacts.


Section UnionFacts.
Import DisjointSet.

(** The root [find] reports. *)
Definition rootOf (p : t) (x : string) : outcome string :=
  ' (r, _) <- find p x ;; Returned r.

Lemma rootOf_climbs (p : t) (n : nat) (x r : string) :
  climbs p n x r -> rootOf p x = Returned r.
Proof.
  intros H. unfold rootOf.
  destruct (find_spec _ _ _ _ H) as (p' & -> & _). reflexivity.
Qed.

Lemma union_spec (p : t) (a b : string) :
  forest p -> In a (keys p) -> In b (keys p) ->
  exists p' r n m,
    union p a b = Returned p' /\ keys p' = keys p /\ forest p'
    /\ climbs p' n a r /\ climbs p' m b r.
Proof.
  intros Hf Ha Hb.
  destruct (Hf a Ha) as (na & ra & Hca).
  destruct (find_spec _ _ _ _ Hca) as (p1 & Hfind1 & Hk1 & Hkeep1).
  assert (Hf1 : forest p1) by (eapply keepsRoots_forest; eauto).
  assert (Hb1 : In b (keys p1)) by now rewrite Hk1.
  destruct (Hf1 b Hb1) as (nb & rb & Hcb).
  destruct (find_spec _ _ _ _ Hcb) as (p2 & Hfind2 & Hk2 & Hkeep2).
  assert (Hf2 : forest p2) by (eapply keepsRoots_forest; eauto).
  destruct (Hkeep1 _ _ _ Hca) as (na1 & Hca1).
  destruct (Hkeep2 _ _ _ Hca1) as (na2 & Hca2).
  destruct (Hkeep2 _ _ _ Hcb) as (nb2 & Hcb2).
  unfold union. rewrite Hfind1. simpl. rewrite Hfind2. simpl.
  destruct (String.eqb_spec ra rb) as [->|Hne]; simpl.
  - exists p2, rb, na2, nb2. repeat split; auto. congruence.
  - pose proof (climbs_ends_at_root _ _ _ _ Hca2) as Hra.
    pose proof (climbs_ends_at_root _ _ _ _ Hcb2) as Hrb.
    pose proof (link_roots p2 ra rb Hra Hrb Hne) as Hlink.
    assert (Hk3 : keys (set p2 rb ra) = keys p2) by (eapply keys_set_present; eauto).
    destruct (Hlink _ _ _ Hca2) as (m1 & Hm1).
    destruct (Hlink _ _ _ Hcb2) as (m2 & Hm2).
    destruct (string_dec ra rb); [contradiction|].
    destruct (string_dec rb rb); [|contradiction].
    exists (set p2 rb ra), ra, m1, m2. repeat split; auto.
    + congruence.
    + intros x Hx. rewrite Hk3 in Hx.
      destruct (Hf2 x Hx) as (k & r0 & Hc). destruct (Hlink _ _ _ Hc) as [k0 Hk0]. eauto.
Qed.

Lemma get_make (elements : list string) (p0 : t) (x y : string) :
  get (fold_left (fun parent e => set parent e e) elements p0) x = Some y ->
  get p0 x = Some y \/ y = x.
Proof.
  revert p0. induction elements as [|e elements IH]; intros p0 H; simpl in H; [auto|].
  destruct (IH _ H) as [H'|H']; [|auto].
  destruct (string_dec x e) as [->|Hne].
  - rewrite get_set_same in H'. right; congruence.
  - rewrite get_set_other in H' by assumption. auto.
Qed.

Lemma keys_make (elements : list string) (p0 : t) (x : string) :
  In x (keys (fold_left (fun parent e => set parent e e) elements p0))
  <-> In x elements \/ In x (keys p0).
Proof.
  revert p0. induction elements as [|e elements IH]; intros p0; simpl; [tauto|].
  rewrite IH, keys_set. intuition.
Qed.

Lemma make_forest (elements : list string) : forest (make elements).
Proof.
  intros x Hx. destruct (key_get_Some _ _ Hx) as [y Hy].
  destruct (get_make _ _ _ _ Hy) as [H | ->]; [discriminate|].
  exists 0%nat, x. now constructor.
Qed.

Lemma getSets_from_spec (p : t) (ks : list string) (sets : record string) :
  forest p -> incl ks (keys p) ->
  exists sets' p', getSets_from ks p sets = Returned (sets', p')
                   /\ keys p' = keys p /\ keepsRoots p p'.
Proof.
  revert p sets. induction ks as [|k ks IH]; intros p sets Hf Hincl; simpl.
  - exists sets, p. auto using keepsRoots_refl.
  - destruct (Hf k (Hincl k (or_introl eq_refl))) as (n & r & Hc).
    destruct (find_spec _ _ _ _ Hc) as (p1 & -> & Hk1 & Hkeep1). simpl.
    destruct (IH p1 (set sets k r)) as (sets' & p' & -> & Hk & Hkeep).
    + eapply keepsRoots_forest; eauto.
    + rewrite Hk1. intros z Hz. apply Hincl. now right.
    + exists sets', p'. split; [reflexivity|]. split; [congruence|].
      eapply keepsRoots_trans; eauto.
Qed.

Lemma getSets_spec (p : t) :
  forest p ->
  exists sets p', getSets p = Returned (sets, p') /\ keys p' = keys p /\ keepsRoots p p'.
Proof. intros Hf. apply getSets_from_spec; [assumption | apply incl_refl]. Qed.

(** The states a [DisjointSet] over [elements] goes through. *)
Inductive built (elements : list string) : t -> Prop :=
| built_make : built elements (make elements)
| built_find (p p' : t) (i r : string) :
    built elements p -> In i elements -> find p i = Returned (r, p') ->
    built elements p'
| built_union (p p' : t) (i j : string) :
    built elements p -> In i elements -> In j elements ->
    union p i j = Returned p' -> built elements p'
| built_getSets (p p' : t) (sets : record string) :
    built elements p -> getSets p = Returned (sets, p') -> built elements p'.

Lemma built_forest (elements : list string) (p : t) :
  built elements p -> forest p /\ forall x, In x (keys p) <-> In x elements.
Proof.
  induction 1 as [| p p' i r Hb [Hf Hk] Hi Hfind
                  | p p' i j Hb [Hf Hk] Hi Hj Hun
                  | p p' sets Hb [Hf Hk] Hget ].
  - split; [apply make_forest|].
    intros x. unfold make. rewrite keys_make. simpl. tauto.
  - destruct (Hf i (proj2 (Hk i) Hi)) as (n & r0 & Hc).
    destruct (find_spec _ _ _ _ Hc) as (p1 & Hfind1 & Hk1 & Hkeep1).
    rewrite Hfind in Hfind1. injection Hfind1 as -> ->.
    split; [eapply keepsRoots_forest; eauto|].
    intros x. rewrite Hk1. apply Hk.
  - destruct (union_spec p i j Hf (proj2 (Hk i) Hi) (proj2 (Hk j) Hj))
      as (p1 & r & n & m & Hun1 & Hk1 & Hf1 & _).
    rewrite Hun in Hun1. injection Hun1 as ->.
    split; [assumption|]. intros x. rewrite Hk1. apply Hk.
  - destruct (getSets_spec p Hf) as (sets1 & p1 & Hget1 & Hk1 & Hkeep1).
    rewrite Hget in Hget1. injection Hget1 as -> ->.
    split; [eapply keepsRoots_forest; eauto|].
    intros x. rewrite Hk1. apply Hk.
Qed.
End UnionFacts.





(** ** Termination of the generators *)

(** *** Sets in insertion order *)

Lemma has_In (s : list string) (x : string) : has s x = true <-> In x s.
Proof.
  unfold has. rewrite existsb_exists. split.
  - intros (y & Hy & E). apply String.eqb_eq in E. now subst.
  - intros H. exists x. split; [assumption | apply String.eqb_refl].
Qed.

Lemma has_false (s : list string) (x : string) : has s x = false <-> ~ In x s.
Proof.
  rewrite <- has_In. destruct (has s x); split; congruence.
Qed.

Lemma add_NoDup (s : list string) (x : string) : NoDup s -> NoDup (add s x).
Proof.
  intros H. unfold add. destruct (has s x) eqn:E; [assumption|].
  apply has_false in E.
  apply NoDup_app; [assumption | constructor; [intros [] | constructor] |].
  intros y Hy [<-|[]]. contradiction.
Qed.

(** The adjacency lists that the traversals look up name keys of [adj]
    only, so the lookup of a dequeued node never yields [undefined]. *)
Definition closed (graph : GraphData) : Prop :=
  forall k l, get (adj graph) k = Some l -> incl l (keys (adj graph)).

Section BfsTermination.
Import Bfs.

Variable graph : GraphData.
Hypothesis graph_closed : closed graph.

(** The nodes seen are those dequeued so far followed by the queue. *)
Definition frontier (done : list string) (s : state) : Prop :=
  seen s = done ++ queue s /\ NoDup (seen s) /\ incl (seen s) (keys (adj graph)).

Lemma explore_frontier (c : string) (nbs done : list string) (s : state) :
  incl nbs (keys (adj graph)) -> frontier done s ->
  frontier done (explore c nbs s)
  /\ (List.length (steps s) <= List.length (steps (explore c nbs s)))%nat.
Proof.
  revert s. induction nbs as [|nb nbs IH]; intros s Hn Hs; simpl.
  - split; [assumption | lia].
  - assert (Hn' : incl nbs (keys (adj graph))) by (intros z Hz; apply Hn; now right).
    destruct (has (seen s) nb) eqn:E.
    + apply IH; assumption.
    + destruct Hs as (Hseen & Hnd & Hincl).
      match goal with |- context [explore c nbs ?s1] =>
        destruct (IH s1 Hn') as [Hf Hl] end.
      * unfold frontier; simpl. unfold add. rewrite E.
        split; [rewrite Hseen; now rewrite app_assoc|].
        split.
        -- pose proof (add_NoDup (seen s) nb Hnd) as H. unfold add in H.
           now rewrite E in H.
        -- intros z Hz. apply in_app_or in Hz as [Hz|[<-|[]]]; auto.
           apply Hn. now left.
      * split; [exact Hf|]. simpl in Hl. rewrite length_app in Hl. simpl in Hl. lia.
Qed.

Lemma bfs_loop_returns (fuel : nat) (done : list string) (s : state) :
  frontier done s ->
  (List.length (adj graph) < fuel + List.length done)%nat ->
  exists s', loop fuel graph s = Returned s'
             /\ (List.length (steps s) <= List.length (steps s'))%nat.
Proof.
  revert done s. induction fuel as [|fuel IH]; intros done s Hs Hfuel.
  - destruct Hs as (Hseen & Hnd & Hincl).
    pose proof (NoDup_incl_length Hnd Hincl) as Hle.
    rewrite Hseen, length_app in Hle. unfold keys in Hle. rewrite length_map in Hle.
    destruct (queue s) as [|c q] eqn:Hq; simpl.
    + rewrite Hq. eauto.
    + simpl in *. lia.
  - simpl. destruct (queue s) as [|c q] eqn:Hq; [eauto|].
    destruct Hs as (Hseen & Hnd & Hincl).
    assert (Hc : In c (keys (adj graph))).
    { apply Hincl. rewrite Hseen, Hq. apply in_or_app. right. simpl; auto. }
    destruct (key_get_Some _ _ Hc) as [nbs Hnbs]. rewrite Hnbs. simpl.
    assert (Hclosed : incl nbs (keys (adj graph))) by (eapply graph_closed; eauto).
    match goal with |- context [explore c nbs ?s1] =>
      assert (Hs1 : frontier (done ++ [c]) s1)
        by (unfold frontier; simpl; rewrite <- app_assoc; simpl;
            rewrite <- Hq; auto);
      destruct (explore_frontier c nbs (done ++ [c]) s1 Hclosed Hs1) as [Hf Hl]
    end.
    destruct (IH _ _ Hf) as (s' & Hs' & Hl').
    + rewrite length_app. simpl. lia.
    + exists s'. split; [assumption|].
      simpl in Hl. rewrite length_app in Hl. simpl in Hl. lia.
Qed.

Lemma bfs_returns (startNode : string) :
  In startNode (keys (adj graph)) ->
  exists trace, generateSteps graph startNode = Returned trace
                /\ (1 <= List.length trace)%nat.
Proof.
  intros Hstart. unfold generateSteps, generateSteps_fuel.
  destruct (bfs_loop_returns (S (List.length (adj graph))) [] (start startNode))
    as (s' & -> & Hl).
  - unfold frontier, start; simpl. split; [reflexivity|].
    split; [constructor; [intros [] | constructor]|].
    intros z [<-|[]]. assumption.
  - simpl. lia.
  - simpl. eexists. split; [reflexivity|].
    unfold finish. rewrite length_app. simpl. lia.
Qed.
End BfsTermination.



(** *** Sorting keeps the elements *)

Section SortFacts.
Context {A : Type} (key : A -> Z).

Lemma insert_In (x y : A) (l : list A) : In y (insert key x l) <-> y = x \/ In y l.
Proof.
  induction l as [|z l IH]; simpl.
  - intuition.
  - destruct (key x <? key z)%Z; simpl; [intuition|]. rewrite IH. intuition.
Qed.

Lemma insert_length (x : A) (l : list A) :
  List.length (insert key x l) = S (List.length l).
Proof.
  induction l as [|z l IH]; simpl; [reflexivity|].
  destruct (key x <? key z)%Z; simpl; [reflexivity | now rewrite IH].
Qed.

Lemma fold_insert_In (y : A) (l acc : list A) :
  In y (fold_left (fun acc x => insert key x acc) l acc) <-> In y l \/ In y acc.
Proof.
  revert acc. induction l as [|x l IH]; intros acc; simpl; [tauto|].
  rewrite IH, insert_In. intuition.
Qed.

Lemma sortBy_In (y : A) (l : list A) : In y (sortBy key l) <-> In y l.
Proof. unfold sortBy. rewrite fold_insert_In. simpl. tauto. Qed.

Lemma fold_insert_length (l acc : list A) :
  List.length (fold_left (fun acc x => insert key x acc) l acc)
  = (List.length l + List.length acc)%nat.
Proof.
  revert acc. induction l as [|x l IH]; intros acc; simpl; [reflexivity|].
  rewrite IH, insert_length. lia.
Qed.

Lemma sortBy_length (l : list A) : List.length (sortBy key l) = List.length l.
Proof. unfold sortBy. rewrite fold_insert_length. simpl. lia. Qed.
End SortFacts.

Section KruskalTermination.
Import Kruskal.

Variable graph : GraphData.
Variable es : list Edge.
Hypothesis graph_edges : edges graph = Some es.
(** The endpoints of the edges are nodes of the graph. *)
Hypothesis endpoints : forall e, In e es ->
  In (from e) (map id (nodes graph)) /\ In (to e) (map id (nodes graph)).

Let ids : list string := map id (nodes graph).

Definition sound (s : state) : Prop := built ids (dsu s).

Lemma emit_returns (sorted : list Edge) (desc : string) (edge : option Edge) (s : state) :
  sound s ->
  exists s', emit sorted desc edge s = Returned s' /\ sound s'
             /\ List.length (steps s') = S (List.length (steps s)).
Proof.
  intros Hs. unfold emit.
  destruct (built_forest _ _ Hs) as [Hf _].
  destruct (getSets_spec _ Hf) as (sets & p' & Hget & _). rewrite Hget. simpl.
  eexists. split; [reflexivity|]. split.
  - unfold sound; simpl. exact (built_getSets _ _ _ _ Hs Hget).
  - simpl. rewrite length_app. simpl. lia.
Qed.

Lemma consider_returns (sorted : list Edge) (edge : Edge) (s : state) :
  In edge es -> sound s ->
  exists s', consider sorted edge s = Returned s' /\ sound s'.
Proof.
  intros He Hs. destruct (endpoints _ He) as [Hfrom Hto]. unfold consider.
  destruct (emit_returns sorted
              (template ["Considering edge "; from edge; "-"; to edge; " with weight ";
                         string_of_Z (weight edge); "."]) (Some edge) s Hs)
    as (s1 & -> & Hs1 & _). simpl.
  destruct (built_forest _ _ Hs1) as [Hf1 Hk1].
  destruct (Hf1 _ (proj2 (Hk1 _) Hfrom)) as (n & r & Hc).
  destruct (find_spec _ _ _ _ Hc) as (d1 & Hfind1 & _). rewrite Hfind1. simpl.
  assert (Hb1 : built ids d1) by exact (built_find _ _ _ _ _ Hs1 Hfrom Hfind1).
  destruct (built_forest _ _ Hb1) as [Hfd1 Hkd1].
  destruct (Hfd1 _ (proj2 (Hkd1 _) Hto)) as (n' & r' & Hc').
  destruct (find_spec _ _ _ _ Hc') as (d2 & Hfind2 & _). rewrite Hfind2. simpl.
  assert (Hb2 : built ids d2) by exact (built_find _ _ _ _ _ Hb1 Hto Hfind2).
  destruct (negb (r =? r')%string).
  - destruct (built_forest _ _ Hb2) as [Hfd2 Hkd2].
    destruct (union_spec d2 (from edge) (to edge) Hfd2
                (proj2 (Hkd2 _) Hfrom) (proj2 (Hkd2 _) Hto))
      as (d3 & r3 & n3 & m3 & Hun & _). rewrite Hun. simpl.
    match goal with |- context [emit sorted ?desc ?e ?s2] =>
      destruct (emit_returns sorted desc e s2) as (s3 & -> & Hs3 & _) end.
    + unfold sound; simpl. exact (built_union _ _ _ _ _ Hb2 Hfrom Hto Hun).
    + eauto.
  - match goal with |- context [emit sorted ?desc ?e ?s2] =>
      destruct (emit_returns sorted desc e s2) as (s3 & -> & Hs3 & _) end.
    + exact Hb2.
    + eauto.
Qed.

Lemma forEdges_returns (sorted rest : list Edge) (s : state) :
  incl rest es -> sound s ->
  exists s', forEdges sorted rest s = Returned s' /\ sound s'.
Proof.
  revert s. induction rest as [|e rest IH]; intros s Hincl Hs; simpl; [eauto|].
  destruct (consider_returns sorted e s) as (s1 & -> & Hs1); auto.
  { apply Hincl. now left. }
  simpl. apply IH; [|assumption]. intros z Hz. apply Hincl. now right.
Qed.

Lemma kruskal_returns :
  exists trace, generateSteps graph = Returned trace /\ (1 <= List.length trace)%nat.
Proof.
  unfold generateSteps. rewrite graph_edges. simpl.
  match goal with |- context [emit ?sorted ?desc ?e ?s0] =>
    destruct (emit_returns sorted desc e s0) as (s1 & -> & Hs1 & Hl1) end.
  { apply built_make. }
  simpl.
  destruct (forEdges_returns (sortBy weight es) (sortBy weight es) s1) as (s2 & -> & Hs2).
  { intros e He. now apply sortBy_In in He. }
  { assumption. }
  simpl.
  match goal with |- context [emit ?sorted ?desc ?e s2] =>
    destruct (emit_returns sorted desc e s2 Hs2) as (s3 & -> & Hs3 & Hl3) end.
  simpl. eexists. split; [reflexivity | lia].
Qed.
End KruskalTermination.



(** *** Directed edge keys *)

(** An identifier without the character ['-']: the first ['-'] of a key
    then ends its first component. *)
Fixpoint dashFree (s : string) : bool :=
  match s with
  | EmptyString => true
  | String c s' => negb (Ascii.eqb c "-") && dashFree s'
  end.

Lemma key_unfold (a b : string) :
  getDirectedEdgeKey a b = (a ++ String "-" (String ">" b))%string.
Proof.
  unfold getDirectedEdgeKey, template. simpl. reflexivity.
Qed.

Lemma key_injective (a b c d : string) :
  dashFree a = true -> dashFree c = true ->
  getDirectedEdgeKey a b = getDirectedEdgeKey c d -> a = c /\ b = d.
Proof.
  rewrite !key_unfold. revert c.
  induction a as [|x a IH]; intros [|y c] Ha Hc H; simpl in *.
  - injection H as ->. auto.
  - injection H as <- _. rewrite Ascii.eqb_refl in Hc. discriminate.
  - injection H as -> _. rewrite Ascii.eqb_refl in Ha. discriminate.
  - injection H as -> H.
    apply andb_prop in Ha as [_ Ha]. apply andb_prop in Hc as [_ Hc].
    destruct (IH c Ha Hc H) as [-> ->]. auto.
Qed.

Lemma key_same_source (a b d : string) :
  getDirectedEdgeKey a b = getDirectedEdgeKey a d -> b = d.
Proof.
  rewrite !key_unfold. intros H.
  induction a as [|x a IH]; simpl in H.
  - now injection H.
  - injection H as H. auto.
Qed.

(** *** The [flows] and [capacities] records *)

Section FlowRecords.
Import FordFulkerson.

Variable es : list Edge.

Lemma initFlows_keys_from (l : list Edge) (r : record Z) (k : string) :
  In k (keys (fold_left (fun fl e =>
                 set (set fl (getDirectedEdgeKey (from e) (to e)) 0%Z)
                     (getDirectedEdgeKey (to e) (from e)) 0%Z) l r))
  <-> In k (keys r)
      \/ exists e, In e l /\ (k = getDirectedEdgeKey (from e) (to e)
                             \/ k = getDirectedEdgeKey (to e) (from e)).
Proof.
  revert r. induction l as [|e l IH]; intros r; simpl.
  - split; [auto | intros [H|(e & [] & _)]; auto].
  - rewrite IH, !keys_set. split.
    + intros [[->|[->|H]]|(e' & He' & H)]; eauto 6.
    + intros [H|(e' & [<-|He'] & H)]; [auto | | eauto].
      destruct H as [->| ->]; auto.
Qed.

Lemma initFlows_keys (k : string) :
  In k (keys (initFlows es))
  <-> exists e, In e es /\ (k = getDirectedEdgeKey (from e) (to e)
                           \/ k = getDirectedEdgeKey (to e) (from e)).
Proof.
  unfold initFlows. rewrite initFlows_keys_from. simpl. tauto.
Qed.

Lemma initCapacities_keys_from (l : list Edge) (r : record Z) (k : string) :
  In k (keys (fold_left (fun c e => set c (getDirectedEdgeKey (from e) (to e)) (weight e)) l r))
  <-> In k (keys r) \/ exists e, In e l /\ k = getDirectedEdgeKey (from e) (to e).
Proof.
  revert r. induction l as [|e l IH]; intros r; simpl.
  - split; [auto | intros [H|(e & [] & _)]; auto].
  - rewrite IH, keys_set. split.
    + intros [[->|H]|(e' & He' & H)]; eauto 6.
    + intros [H|(e' & [<-|He'] & H)]; [auto | subst; auto | eauto].
Qed.

Lemma initCapacities_keys (k : string) :
  In k (keys (initCapacities es))
  <-> exists e, In e es /\ k = getDirectedEdgeKey (from e) (to e).
Proof.
  unfold initCapacities. rewrite initCapacities_keys_from. simpl. tauto.
Qed.
End FlowRecords.



Lemma get_In_values {V : Type} (r : record V) (k : string) (v : V) :
  get r k = Some v -> In v (map snd r).
Proof.
  induction r as [|[k0 v0] r IH]; simpl; [discriminate|].
  destruct (k0 =? k)%string; [intros [= ->]; auto | auto].
Qed.

Lemma fold_add_In (l acc : list string) (x : string) :
  In x (fold_left add l acc) <-> In x l \/ In x acc.
Proof.
  revert acc. induction l as [|y l IH]; intros acc; simpl; [tauto|].
  rewrite IH. unfold add. destruct (has acc y) eqn:E.
  - apply has_In in E. intuition (subst; auto).
  - rewrite in_app_iff. simpl. intuition.
Qed.

Lemma fold_add_NoDup (l acc : list string) : NoDup acc -> NoDup (fold_left add l acc).
Proof.
  revert acc. induction l as [|y l IH]; intros acc H; simpl; [assumption|].
  apply IH, add_NoDup, H.
Qed.

(** *** The search for an augmenting path *)

Section SearchFacts.
Import FordFulkerson.

Variable graph : GraphData.
Variable capacities : record Z.
Variables startNode endNode : string.

(** Every node a search can reach. *)
Definition universe : list string :=
  startNode :: keys (adj graph) ++ List.concat (map snd (adj graph)).

Lemma universe_length : List.length universe = nodeBound graph.
Proof.
  unfold universe, nodeBound, Dijkstra.degreeSum, keys. simpl.
  rewrite length_app, length_map, length_concat, map_map. reflexivity.
Qed.

Lemma residualNeighbors_universe (u : string) :
  incl (residualNeighbors graph u) universe.
Proof.
  intros v Hv. unfold residualNeighbors in Hv. unfold universe. right.
  apply in_app_or in Hv as [Hv|Hv]; apply in_or_app.
  - right. destruct (get (adj graph) u) as [l|] eqn:E; [|contradiction].
    apply in_concat. exists l. split; [eapply get_In_values; eauto | assumption].
  - left. unfold keys. apply in_map_iff in Hv as ([k l] & <- & Hkl).
    apply filter_In in Hkl as [Hkl _]. apply in_map_iff. exists (k, l). auto.
Qed.

(** [chain par v n]: [n] parent links lead from [v] to the start node. *)
Inductive chain (par : record string) : string -> nat -> Prop :=
| chain_here : chain par startNode 0
| chain_next (v u : string) (n : nat) :
    v <> startNode -> get par v = Some u -> chain par u n -> chain par v (S n).

Lemma chain_extend (par : record string) (v u w : string) (n : nat) :
  get par v = None -> chain par w n -> chain (set par v u) w n.
Proof.
  intros Hv. induction 1 as [|w x n Hw Hx _ IH]; [constructor|].
  econstructor; [assumption | | exact IH].
  rewrite get_set_other; [assumption | congruence].
Qed.

Variable fl : record Z.

(** The search tree: the nodes seen are the dequeued ones followed by the
    queue, each non-start node seen has a parent seen before it, reached
    over an edge with residual capacity. *)
Definition tree (done : list string) (s : search) : Prop :=
  seen s = done ++ queue s
  /\ NoDup (seen s)
  /\ incl (seen s) universe
  /\ In startNode (seen s)
  /\ (forall v u, get (parent s) v = Some u ->
        In v (seen s) /\ v <> startNode /\ In u (seen s)
        /\ (0 < residual capacities fl u v)%Z
        /\ In v (residualNeighbors graph u))
  /\ (forall v, In v (seen s) ->
        exists n, (n < List.length (seen s))%nat /\ chain (parent s) v n).

Lemma scan_tree (u : string) (vs done : list string) (s : search) :
  In u done -> incl vs (residualNeighbors graph u) -> tree done s ->
  tree done (fst (scan capacities fl endNode u vs s)).
Proof.
  intros Hu. revert s. induction vs as [|v vs IH]; intros s Hvs Hs; simpl; [assumption|].
  assert (Hvs' : incl vs (residualNeighbors graph u)) by (intros z Hz; apply Hvs; now right).
  destruct (negb (has (seen s) v) && (residual capacities fl u v >? 0)%Z) eqn:E;
    [|apply IH; assumption].
  apply andb_prop in E as [Hnew Hres].
  apply negb_true_iff, has_false in Hnew.
  assert (Hres' : (0 < residual capacities fl u v)%Z) by lia.
  destruct Hs as (Hseen & Hnd & Hincl & Hstart & Hpar & Hchain).
  assert (Huseen : In u (seen s)) by (rewrite Hseen; apply in_or_app; auto).
  assert (Hadd : add (seen s) v = seen s ++ [v]).
  { unfold add. destruct (has (seen s) v) eqn:E; [|reflexivity].
    apply has_In in E. contradiction. }
  assert (Hfresh : get (parent s) v = None).
  { destruct (get (parent s) v) as [x|] eqn:E; [|reflexivity].
    destruct (Hpar _ _ E) as [H _]. contradiction. }
  assert (Hs' : tree done {| parent := set (parent s) v u;
                             queue := queue s ++ [v];
                             seen := add (seen s) v |}).
  { unfold tree; simpl. rewrite Hadd.
    split; [rewrite Hseen; now rewrite app_assoc|].
    split.
    { apply NoDup_app; [assumption | constructor; [intros [] | constructor] |].
      intros z Hz [<-|[]]. contradiction. }
    split.
    { intros z Hz. apply in_app_or in Hz as [Hz|[<-|[]]]; [auto|].
      apply residualNeighbors_universe with (u := u). apply Hvs. now left. }
    split; [apply in_or_app; auto|].
    split.
    { intros w x Hw. destruct (string_dec w v) as [->|Hne].
      - rewrite get_set_same in Hw. injection Hw as <-.
        split; [apply in_or_app; right; simpl; auto|].
        split; [intros ->; contradiction|].
        split; [apply in_or_app; auto|].
        split; [assumption | apply Hvs; now left].
      - rewrite get_set_other in Hw by assumption.
        destruct (Hpar _ _ Hw) as (H1 & H2 & H3 & H4 & H5).
        repeat split; auto; apply in_or_app; auto. }
    intros w Hw. rewrite length_app. simpl.
    apply in_app_or in Hw as [Hw|[<-|[]]].
    - destruct (Hchain _ Hw) as (n & Hn & Hc).
      exists n. split; [lia | now apply chain_extend].
    - destruct (Hchain _ Huseen) as (n & Hn & Hc).
      exists (S n). split; [lia|].
      econstructor; [intros ->; contradiction | apply get_set_same |].
      now apply chain_extend. }
  destruct (v =? endNode)%string; [exact Hs' | apply IH; assumption].
Qed.

Lemma bfs_tree (fuel : nat) (done : list string) (s : search) :
  tree done s ->
  (List.length universe <= fuel + List.length done)%nat ->
  exists s' done', bfs fuel graph capacities fl endNode s = Returned s' /\ tree done' s'.
Proof.
  revert done s. induction fuel as [|fuel IH]; intros done s Hs Hfuel.
  - destruct (queue s) as [|u q] eqn:Hq; simpl; rewrite Hq; [eauto|].
    destruct Hs as (Hseen & Hnd & Hincl & _).
    pose proof (NoDup_incl_length Hnd Hincl) as Hle.
    rewrite Hseen, Hq, length_app in Hle. simpl in *. lia.
  - simpl. destruct (queue s) as [|u q] eqn:Hq; [eauto|].
    assert (Hs1 : tree (done ++ [u]) {| parent := parent s; queue := q; seen := seen s |}).
    { destruct Hs as (Hseen & Hrest). unfold tree; simpl.
      split; [rewrite Hseen, Hq, <- app_assoc; reflexivity | exact Hrest]. }
    pose proof (scan_tree u (residualNeighbors graph u) (done ++ [u]) _
                  ltac:(apply in_or_app; right; simpl; auto)
                  (incl_refl _) Hs1) as Hs2.
    destruct (scan capacities fl endNode u (residualNeighbors graph u) _) as [s' found].
    simpl in Hs2. destruct found; [eauto|].
    apply (IH (done ++ [u])); [assumption|].
    rewrite length_app. simpl in *. lia.
Qed.

Lemma search_returns :
  exists found done,
    bfs (nodeBound graph) graph capacities fl endNode
        {| parent := []; queue := [startNode]; seen := add [] startNode |}
    = Returned found
    /\ tree done found.
Proof.
  apply (bfs_tree _ []).
  - unfold tree; simpl.
    split; [reflexivity|].
    split; [constructor; [intros [] | constructor]|].
    split; [intros z [<-|[]]; unfold universe; simpl; auto|].
    split; [auto|].
    split; [intros v u [=]|].
    intros v [<-|[]]. exists 0%nat. split; [lia | constructor].
  - rewrite universe_length. apply Nat.le_add_r.
Qed.

(** *** The path read back from the parent links *)

(** Each node of the list is the parent of the next, which is not the
    start node. *)
Inductive linked (par : record string) : list string -> Prop :=
| linked_one (a : string) : linked par [a]
| linked_cons (a b : string) (l : list string) :
    get par b = Some a -> b <> startNode -> linked par (b :: l) ->
    linked par (a :: b :: l).

Lemma reconstruct_linked (par : record string) (v : string) (n : nat) :
  chain par v n ->
  forall fuel acc, (n <= fuel)%nat -> linked par (v :: acc) ->
  exists rest,
    reconstruct fuel par startNode v acc = Returned (startNode :: rest)
    /\ linked par (startNode :: rest)
    /\ (List.length acc <= List.length rest)%nat
    /\ (v <> startNode -> (List.length acc < List.length rest)%nat).
Proof.
  induction 1 as [|v u n Hv Hu _ IH]; intros fuel acc Hfuel Hacc.
  - exists acc. destruct fuel; simpl; rewrite String.eqb_refl;
      (split; [reflexivity|]); (split; [assumption|]); (split; [lia | congruence]).
  - destruct fuel as [|fuel]; [lia|]. simpl.
    destruct (String.eqb_spec v startNode) as [?|_]; [contradiction|].
    rewrite Hu. simpl.
    destruct (IH fuel (v :: acc) ltac:(lia)) as (rest & -> & Hl & Hlen & _).
    { now constructor. }
    exists rest. simpl in Hlen. repeat split; auto; lia.
Qed.
End SearchFacts.



(** *** Augmenting along a path *)

(** The consecutive pairs of a path. *)
Fixpoint pathHops (l : list string) : list (string * string) :=
  match l with
  | a :: ((c :: _) as rest) => (a, c) :: pathHops rest
  | _ => []
  end.

Lemma pathHops_In (l : list string) (a c : string) :
  In (a, c) (pathHops l) -> In a l /\ In c l.
Proof.
  induction l as [|x l IH]; simpl; [contradiction|].
  destruct l as [|y l]; [contradiction|].
  intros [[= -> ->]|H]; [simpl; auto|].
  destruct (IH H). split; right; assumption.
Qed.

(** A sum over distinct nodes in which one term drops by [b]. *)
Lemma sum_one_term (g g' : string -> Z) (b : Z) (v1 : string) (U : list string) :
  NoDup U ->
  g' v1 = (g v1 - b)%Z -> (forall v, v <> v1 -> g' v = g v) ->
  fold_right (fun v acc => (g' v + acc)%Z) 0%Z U
  = (fold_right (fun v acc => (g v + acc)%Z) 0%Z U - (if in_dec string_dec v1 U then b else 0))%Z.
Proof.
  intros Hnd H1 Hother. induction Hnd as [|x U Hx Hnd IH]; simpl; [lia|].
  rewrite IH. destruct (string_dec x v1) as [->|Hne].
  - destruct (in_dec string_dec v1 U); [contradiction|]. rewrite H1. lia.
  - rewrite (Hother x Hne). destruct (in_dec string_dec v1 U); lia.
Qed.

Section AugmentFacts.
Import FordFulkerson.

Variable graph : GraphData.
Variable es : list Edge.
Variables startNode endNode : string.

(** The identifiers of the graph: those a search can reach and the
    endpoints of the edges. *)
Definition identifiers : list string :=
  universe graph startNode ++ flat_map (fun e => [from e; to e]) es.

Hypothesis ids_dashFree : forall i, In i identifiers -> dashFree i = true.

Let capacities : record Z := initCapacities es.

(** [flows] keeps the keys it was created with. *)
Definition sameKeys (fl : record Z) : Prop :=
  forall k, In k (keys fl) <-> In k (keys (initFlows es)).

Lemma endpoint_dashFree (e : Edge) :
  In e es -> dashFree (from e) = true /\ dashFree (to e) = true.
Proof.
  intros He. split; apply ids_dashFree; unfold identifiers;
    apply in_or_app; right; apply in_flat_map; exists e; simpl; auto.
Qed.

Lemma residual_present (fl : record Z) (u v : string) :
  sameKeys fl -> (0 < residual capacities fl u v)%Z ->
  In (getDirectedEdgeKey u v) (keys fl).
Proof.
  intros Hk Hres. unfold residual, orZero in Hres.
  destruct (get fl (getDirectedEdgeKey u v)) as [f|] eqn:Ef;
    [eapply get_Some_key; eauto|].
  destruct (get capacities (getDirectedEdgeKey u v)) as [c|] eqn:Ec; [|lia].
  apply get_Some_key in Ec. apply initCapacities_keys in Ec as (e & He & Hkey).
  apply Hk, initFlows_keys. eauto.
Qed.

Lemma reverse_present (fl : record Z) (u v : string) :
  sameKeys fl -> dashFree u = true ->
  In (getDirectedEdgeKey u v) (keys fl) -> In (getDirectedEdgeKey v u) (keys fl).
Proof.
  intros Hk Hu H. apply Hk, initFlows_keys in H as (e & He & [H|H]);
    destruct (endpoint_dashFree e He) as [Hf Ht].
  - destruct (key_injective _ _ _ _ Hu Hf H) as [-> ->].
    apply Hk, initFlows_keys. eauto.
  - destruct (key_injective _ _ _ _ Hu Ht H) as [-> ->].
    apply Hk, initFlows_keys. eauto.
Qed.

Lemma addTo_returns (fl : record Z) (k : string) (d : Z) :
  sameKeys fl -> In k (keys fl) ->
  exists f, get fl k = Some f /\ addTo fl k d = Returned (set fl k (f + d)%Z)
            /\ sameKeys (set fl k (f + d)%Z).
Proof.
  intros Hk Hin. destruct (key_get_Some _ _ Hin) as [f Hf].
  exists f. unfold addTo. rewrite Hf. simpl.
  split; [reflexivity|]. split; [reflexivity|].
  intros k'. rewrite (keys_set_present _ _ _ _ Hf). apply Hk.
Qed.

(** A hop of an augmenting path, as the search found it. *)
Definition goodHop (fl : record Z) (h : string * string) : Prop :=
  let (a, c) := h in
  c <> startNode /\ dashFree a = true /\ dashFree c = true
  /\ (0 < residual capacities fl a c)%Z
  /\ In c (residualNeighbors graph a).

Lemma linked_good (fl : record Z) (done : list string) (s : search) (l : list string) :
  tree graph capacities startNode fl done s ->
  linked startNode (parent s) l -> Forall (goodHop fl) (pathHops l).
Proof.
  intros (_ & _ & Hincl & _ & Hpar & _).
  induction 1 as [a | a c l Hc Hne _ IH]; simpl; [constructor|].
  constructor; [|exact IH].
  destruct (Hpar _ _ Hc) as (Hcs & _ & Has & Hres & Hnb).
  assert (Hid : forall z, In z (seen s) -> dashFree z = true).
  { intros z Hz. apply ids_dashFree. unfold identifiers.
    apply in_or_app. left. apply Hincl, Hz. }
  simpl. auto 6.
Qed.

(** Past the first node of a path, no hop touches the start node. *)
Lemma hops_tail_away (fl : record Z) (l : list string) :
  Forall (goodHop fl) (pathHops l) ->
  forall a c, In (a, c) (pathHops (tl l)) -> a <> startNode /\ c <> startNode.
Proof.
  induction l as [|x l IH]; simpl; [contradiction|].
  destruct l as [|y l]; [contradiction|].
  intros H a c Hin. inversion H as [|h hs Hxy Hrest]; subst.
  destruct l as [|z l]; [contradiction|].
  destruct Hin as [[= -> ->]|Hin].
  - inversion Hrest as [|h' hs' Hyz _]; subst.
    destruct Hxy as (Ha & _). destruct Hyz as (Hc & _). auto.
  - apply (IH Hrest). exact Hin.
Qed.

Lemma bottleneckOf_positive (fl : record Z) (l : list string) :
  Forall (goodHop fl) (pathHops l) ->
  forall b0 : option Z,
    (forall m, b0 = Some m -> (0 < m)%Z) ->
    pathHops l <> [] \/ b0 <> None ->
    exists b, bottleneckOf capacities fl l b0 = Some b /\ (0 < b)%Z
              /\ (forall m, b0 = Some m -> (b <= m)%Z)
              /\ Forall (fun h => (b <= residual capacities fl (fst h) (snd h))%Z) (pathHops l).
Proof.
  induction l as [|x l IH]; intros H b0 Hb0 Hne.
  - simpl in *. destruct Hne as [?|?]; [congruence|].
    destruct b0 as [m|]; [|congruence]. exists m.
    split; [reflexivity|]. split; [auto|]. split; [intros m0 [= <-]; lia | constructor].
  - destruct l as [|y l].
    + simpl in *. destruct Hne as [?|?]; [congruence|].
      destruct b0 as [m|]; [|congruence]. exists m.
      split; [reflexivity|]. split; [auto|]. split; [intros m0 [= <-]; lia | constructor].
    + change (pathHops (x :: y :: l)) with ((x, y) :: pathHops (y :: l)) in *.
      inversion H as [|h hs Hxy Hrest]; subst.
      destruct Hxy as (_ & _ & _ & Hres & _).
      change (bottleneckOf capacities fl (x :: y :: l) b0)
        with (bottleneckOf capacities fl (y :: l)
                (Some (match b0 with
                       | Some m => Z.min m (residual capacities fl x y)
                       | None => residual capacities fl x y
                       end))).
      destruct (IH Hrest
                  (Some (match b0 with
                         | Some m => Z.min m (residual capacities fl x y)
                         | None => residual capacities fl x y
                         end))) as (b & Hb & Hpos & Hle & Hall).
      * intros m [= <-]. destruct b0 as [m0|]; [specialize (Hb0 _ eq_refl); lia | lia].
      * right. discriminate.
      * exists b. split; [exact Hb|]. split; [exact Hpos|].
        specialize (Hle _ eq_refl).
        split.
        -- intros m ->. lia.
        -- constructor; [simpl; destruct b0; lia | exact Hall].
Qed.

Lemma augment_returns (b : Z) (l : list string) :
  forall fl, sameKeys fl ->
  Forall (fun h => In (getDirectedEdgeKey (fst h) (snd h)) (keys (initFlows es))
                   /\ In (getDirectedEdgeKey (snd h) (fst h)) (keys (initFlows es)))
         (pathHops l) ->
  exists fl', augment fl l b = Returned fl' /\ sameKeys fl'
              /\ forall k,
                   (forall a c, In (a, c) (pathHops l) ->
                      k <> getDirectedEdgeKey a c /\ k <> getDirectedEdgeKey c a) ->
                   get fl' k = get fl k.
Proof.
  induction l as [|x l IH]; intros fl Hk H.
  - exists fl. simpl. auto.
  - destruct l as [|y l].
    + exists fl. simpl. auto.
    + change (pathHops (x :: y :: l)) with ((x, y) :: pathHops (y :: l)) in *.
      inversion H as [|h hs [Hxy Hyx] Hrest]; subst. simpl fst in *. simpl snd in *.
      destruct (addTo_returns fl (getDirectedEdgeKey x y) b Hk (proj2 (Hk _) Hxy))
        as (f1 & Hf1 & Hadd1 & Hk1).
      destruct (addTo_returns _ (getDirectedEdgeKey y x) (- b)%Z Hk1 (proj2 (Hk1 _) Hyx))
        as (f2 & Hf2 & Hadd2 & Hk2).
      destruct (IH _ Hk2 Hrest) as (fl' & Haug & Hk' & Hframe).
      exists fl'.
      change (augment fl (x :: y :: l) b)
        with (fl1 <- addTo fl (getDirectedEdgeKey x y) b ;;
              fl2 <- addTo fl1 (getDirectedEdgeKey y x) (- b)%Z ;;
              augment fl2 (y :: l) b).
      rewrite Hadd1. simpl bind. rewrite Hadd2. simpl bind.
      split; [exact Haug|]. split; [exact Hk'|].
      intros k Hfar. rewrite Hframe.
      * destruct (Hfar x y (or_introl eq_refl)) as [H1 H2].
        rewrite !get_set_other by assumption. reflexivity.
      * intros a c Hin. apply Hfar. now right.
Qed.
End AugmentFacts.



Section FordFulkersonTermination.
Import FordFulkerson.

Variable graph : GraphData.
Variable es : list Edge.
Variables startNode endNode : string.

Hypothesis graph_edges : edges graph = Some es.
Hypothesis ids_dashFree :
  forall i, In i (identifiers graph es startNode) -> dashFree i = true.

Let capacities : record Z := initCapacities es.

(** The measure of the outer loop. *)
Definition measure (fl : record Z) : Z := sourceResidual graph capacities fl startNode.

Lemma measure_nonneg (fl : record Z) : (0 <= measure fl)%Z.
Proof.
  unfold measure, sourceResidual.
  induction (fold_left add (residualNeighbors graph startNode) []) as [|v U IH]; simpl; lia.
Qed.

Lemma start_dashFree : dashFree startNode = true.
Proof. apply ids_dashFree. unfold identifiers, universe. simpl. auto. Qed.

(** One round of the outer loop that finds a path: the path is read back,
    its bottleneck is positive, the flows are updated, and the measure drops
    by the bottleneck. *)
Lemma augmentation (fl : record Z) (done : list string) (found : search) :
  sameKeys es fl ->
  tree graph capacities startNode fl done found ->
  truthy (get (parent found) endNode) = true ->
  exists path b fl',
    reconstruct (List.length (seen found)) (parent found) startNode endNode []
    = Returned path
    /\ bottleneckOf capacities fl path None = Some b
    /\ augment fl path b = Returned fl'
    /\ sameKeys es fl' /\ (0 < b)%Z /\ measure fl' = (measure fl - b)%Z.
Proof.
  intros Hk Htree Htruthy.
  destruct (get (parent found) endNode) as [p|] eqn:Hp; [|discriminate].
  pose proof Htree as (_ & _ & _ & _ & Hpar & Hchain).
  destruct (Hpar _ _ Hp) as (Hend & Hne & _).
  destruct (Hchain _ Hend) as (n & Hn & Hc).
  destruct (reconstruct_linked startNode (parent found) endNode n Hc
              (List.length (seen found)) [] ltac:(lia) (linked_one _ _ _))
    as (rest & Hrec & Hlinked & _ & Hlen).
  specialize (Hlen Hne). destruct rest as [|v1 rest]; [simpl in Hlen; lia|].
  pose proof (linked_good graph es startNode ids_dashFree fl done found _ Htree Hlinked)
    as Hgood.
  destruct (bottleneckOf_positive graph es startNode fl _ Hgood None)
    as (b & Hb & Hpos & _ & Hall).
  { intros m [=]. }
  { left. discriminate. }
  (* the first hop *)
  change (pathHops (startNode :: v1 :: rest)) with ((startNode, v1) :: pathHops (v1 :: rest))
    in Hgood, Hall.
  inversion Hgood as [|h hs Hfirst Hgood']; subst.
  destruct Hfirst as (Hv1 & Hds & Hdv1 & Hres1 & Hnb1).
  inversion Hall as [|h hs Hb1 _]; subst. simpl in Hb1.
  pose proof (residual_present es fl _ _ Hk Hres1) as Hkey1.
  pose proof (reverse_present graph es startNode ids_dashFree fl _ _ Hk Hds Hkey1) as Hkey1'.
  destruct (addTo_returns es fl _ b Hk Hkey1) as (f1 & Hf1 & Hadd1 & Hk1).
  destruct (addTo_returns es _ _ (- b)%Z Hk1 (proj2 (Hk1 _) (proj1 (Hk _) Hkey1')))
    as (f2 & Hf2 & Hadd2 & Hk2).
  destruct (augment_returns es b (v1 :: rest) _ Hk2) as (fl' & Haug & Hk' & Hframe).
  { apply Forall_forall. intros [a c] Hin. simpl.
    rewrite Forall_forall in Hgood'.
    destruct (Hgood' _ Hin) as (_ & Ha & _ & Hres & _).
    pose proof (residual_present es fl _ _ Hk Hres) as H1.
    pose proof (reverse_present graph es startNode ids_dashFree fl _ _ Hk Ha H1) as H2.
    split; apply Hk; assumption. }
  exists (startNode :: v1 :: rest), b, fl'.
  split; [exact Hrec|]. split; [exact Hb|].
  split.
  { change (augment fl (startNode :: v1 :: rest) b)
      with (fl1 <- addTo fl (getDirectedEdgeKey startNode v1) b ;;
            fl2 <- addTo fl1 (getDirectedEdgeKey v1 startNode) (- b)%Z ;;
            augment fl2 (v1 :: rest) b).
    rewrite Hadd1. simpl bind. rewrite Hadd2. simpl bind. exact Haug. }
  split; [exact Hk'|]. split; [exact Hpos|].
  (* the flow out of the source *)
  assert (Hsrc : forall v,
             get fl' (getDirectedEdgeKey startNode v)
             = if string_dec v v1 then Some (f1 + b)%Z
               else get fl (getDirectedEdgeKey startNode v)).
  { intros v. rewrite Hframe.
    - rewrite get_set_other.
      + destruct (string_dec v v1) as [->|Hvne].
        * apply get_set_same.
        * apply get_set_other. intros Heq. apply key_same_source in Heq. contradiction.
      + intros Heq.
        destruct (key_injective _ _ _ _ start_dashFree Hdv1 Heq) as [<- _]. contradiction.
    - intros a c Hin.
      destruct (hops_tail_away graph es startNode fl (startNode :: v1 :: rest)
                  ltac:(change (pathHops (startNode :: v1 :: rest))
                          with ((startNode, v1) :: pathHops (v1 :: rest));
                        constructor; [simpl; auto 6 | exact Hgood'])
                  a c Hin) as [Hane Hcne].
      rewrite Forall_forall in Hgood'.
      destruct (Hgood' _ Hin) as (_ & Hda & Hdc & _).
      split; intros Heq.
      + destruct (key_injective _ _ _ _ start_dashFree Hda Heq) as [<- _]. contradiction.
      + destruct (key_injective _ _ _ _ start_dashFree Hdc Heq) as [<- _]. contradiction. }
  unfold measure, sourceResidual.
  rewrite (sum_one_term
             (fun v => Z.max 0 (residual capacities fl startNode v))
             (fun v => Z.max 0 (residual capacities fl' startNode v)) b v1).
  - destruct (in_dec string_dec v1 (fold_left add (residualNeighbors graph startNode) []))
      as [_|Hout]; [reflexivity|].
    exfalso. apply Hout. apply fold_add_In. auto.
  - apply fold_add_NoDup. constructor.
  - assert (Hr : residual capacities fl startNode v1
                 = (orZero capacities (getDirectedEdgeKey startNode v1) - f1)%Z).
    { unfold residual. f_equal. unfold orZero. now rewrite Hf1. }
    assert (Hr' : residual capacities fl' startNode v1
                  = (orZero capacities (getDirectedEdgeKey startNode v1) - (f1 + b))%Z).
    { unfold residual. f_equal. unfold orZero. rewrite (Hsrc v1).
      destruct (string_dec v1 v1); [reflexivity | contradiction]. }
    rewrite Hr'. fold capacities in Hres1, Hb1. rewrite Hr in *. lia.
  - intros v Hv. unfold residual. do 2 f_equal. unfold orZero. rewrite (Hsrc v).
    destruct (string_dec v v1); [contradiction | reflexivity].
Qed.

Lemma ford_fulkerson_loop_returns (fuel : nat) (s : state) :
  sameKeys es (fl s) -> (measure (fl s) <= Z.of_nat fuel)%Z ->
  exists s', loop fuel (nodeBound graph) graph capacities startNode endNode s = Returned s'
             /\ (List.length (steps s) <= List.length (steps s'))%nat.
Proof.
  revert s. induction fuel as [|fuel IH]; intros s Hk Hm;
    destruct (search_returns graph capacities startNode endNode (fl s))
      as (found & done & Hbfs & Htree);
    cbn [loop]; rewrite Hbfs; cbn [bind];
    destruct (truthy (get (parent found) endNode)) eqn:Htruthy; cbn [negb];
    try (eexists; split; [reflexivity | simpl; rewrite length_app; simpl; lia]);
    destruct (augmentation (fl s) done found Hk Htree Htruthy)
      as (path & b & fl' & Hrec & Hb & Haug & Hk' & Hpos & Hmeasure);
    pose proof (measure_nonneg fl') as Hnn.
  - lia.
  - rewrite Hrec. cbn [bind]. rewrite Hb. cbn [bind orThrow]. rewrite Haug. cbn [bind].
    match goal with |- context [loop fuel _ _ _ _ _ ?s1] =>
      destruct (IH s1) as (s' & Hs' & Hlen) end.
    + exact Hk'.
    + simpl. lia.
    + exists s'. split; [exact Hs'|].
      simpl in Hlen. rewrite !length_app in Hlen. simpl in Hlen. lia.
Qed.

Lemma ford_fulkerson_returns :
  exists s, run graph startNode endNode = Returned s
            /\ generateSteps graph startNode endNode = Returned (steps s)
            /\ (1 <= List.length (steps s))%nat.
Proof.
  unfold generateSteps, run, run_fuel. rewrite graph_edges. simpl.
  match goal with |- context [loop ?fuel _ _ _ _ _ ?s0] =>
    destruct (ford_fulkerson_loop_returns fuel s0) as (s' & Hs' & Hlen) end.
  - intros k. reflexivity.
  - simpl. fold capacities. fold (measure (initFlows es)).
    pose proof (measure_nonneg (initFlows es)). lia.
  - exists s'. fold capacities in Hs' |- *. rewrite Hs'. simpl.
    split; [reflexivity|]. split; [reflexivity|]. simpl in Hlen. lia.
Qed.
End FordFulkersonTermination.



(** A node with a numeric distance. *)
Definition measured (dist : record distance) (v : string) : Prop :=
  exists n, get dist v = Some (Num n).

Lemma measured_set (dist : record distance) (v w : string) (d : Z) :
  measured dist v -> measured (set dist w (Num d)) v.
Proof.
  intros [n Hn]. destruct (string_dec v w) as [->|Hne].
  - exists d. apply get_set_same.
  - exists n. now rewrite get_set_other.
Qed.

Lemma measured_set_same (dist : record distance) (w : string) (d : Z) :
  measured (set dist w (Num d)) w.
Proof. exists d. apply get_set_same. Qed.

Section UnweightedTermination.
Import ShortestPathUnweighted.

Variable graph : GraphData.
Hypothesis graph_closed : closed graph.

Definition layered (done : list string) (s : state) : Prop :=
  seen s = done ++ queue s /\ NoDup (seen s) /\ incl (seen s) (keys (adj graph))
  /\ forall v, In v (seen s) -> measured (dist s) v.

Lemma explore_layered (c : string) (nbs done : list string) (s : state) :
  In c (seen s) -> incl nbs (keys (adj graph)) -> layered done s ->
  exists s', explore c nbs s = Returned s' /\ layered done s'
             /\ (List.length (steps s) <= List.length (steps s'))%nat.
Proof.
  revert s. induction nbs as [|nb nbs IH]; intros s Hc Hn Hs; simpl.
  - exists s. auto.
  - assert (Hn' : incl nbs (keys (adj graph))) by (intros z Hz; apply Hn; now right).
    destruct (has (seen s) nb) eqn:E; [apply IH; assumption|].
    destruct Hs as (Hseen & Hnd & Hincl & Hdist).
    destruct (Hdist c Hc) as [n Hcn]. rewrite Hcn. cbn [bind].
    assert (Hadd : add (seen s) nb = seen s ++ [nb]) by (unfold add; now rewrite E).
    match goal with |- context [explore c nbs ?s1] =>
      destruct (IH s1) as (s' & Hs' & Hl' & Hlen) end.
    + simpl. rewrite Hadd. apply in_or_app. auto.
    + assumption.
    + unfold layered; simpl. rewrite Hadd.
      split; [rewrite Hseen; now rewrite app_assoc|].
      split.
      { pose proof (add_NoDup (seen s) nb Hnd) as H. now rewrite Hadd in H. }
      split.
      { intros z Hz. apply in_app_or in Hz as [Hz|[<-|[]]]; auto. apply Hn. now left. }
      intros v Hv. apply in_app_or in Hv as [Hv|[<-|[]]].
      * apply measured_set, Hdist, Hv.
      * apply measured_set_same.
    + exists s'. split; [exact Hs'|]. split; [exact Hl'|].
      simpl in Hlen. rewrite length_app in Hlen. simpl in Hlen. lia.
Qed.

Lemma unweighted_loop_returns (fuel : nat) (done : list string) (s : state) :
  layered done s ->
  (List.length (adj graph) < fuel + List.length done)%nat ->
  exists s', loop fuel graph s = Returned s'
             /\ (List.length (steps s) <= List.length (steps s'))%nat.
Proof.
  revert done s. induction fuel as [|fuel IH]; intros done s Hs Hfuel.
  - destruct Hs as (Hseen & Hnd & Hincl & _).
    pose proof (NoDup_incl_length Hnd Hincl) as Hle.
    rewrite Hseen, length_app in Hle. unfold keys in Hle. rewrite length_map in Hle.
    destruct (queue s) as [|c q] eqn:Hq; simpl.
    + rewrite Hq. eauto.
    + simpl in *. lia.
  - simpl. destruct (queue s) as [|c q] eqn:Hq; [eauto|].
    destruct Hs as (Hseen & Hnd & Hincl & Hdist).
    assert (Hcs : In c (seen s)).
    { rewrite Hseen, Hq. apply in_or_app. right. simpl; auto. }
    destruct (key_get_Some _ _ (Hincl _ Hcs)) as [nbs Hnbs]. rewrite Hnbs. cbn [bind orThrow].
    match goal with |- context [explore c nbs ?s1] =>
      destruct (explore_layered c nbs (done ++ [c]) s1) as (s2 & -> & Hs2 & Hl2) end.
    + exact Hcs.
    + eapply graph_closed; eauto.
    + unfold layered; simpl. rewrite <- app_assoc. simpl. rewrite <- Hq. auto.
    + cbn [bind]. destruct (IH _ _ Hs2) as (s' & Hs' & Hl').
      * rewrite length_app. simpl. lia.
      * exists s'. split; [assumption|].
        simpl in Hl2. rewrite length_app in Hl2. simpl in Hl2. lia.
Qed.

Lemma unweighted_returns (startNode : string) :
  In startNode (keys (adj graph)) ->
  exists trace, generateSteps graph startNode = Returned trace
                /\ (1 <= List.length trace)%nat.
Proof.
  intros Hstart. unfold generateSteps, generateSteps_fuel.
  destruct (unweighted_loop_returns (S (List.length (adj graph))) [] (start graph startNode))
    as (s' & -> & Hl).
  - unfold layered, start; simpl. split; [reflexivity|].
    split; [constructor; [intros [] | constructor]|].
    split; [intros z [<-|[]]; assumption|].
    intros v [<-|[]]. apply measured_set_same.
  - simpl. lia.
  - simpl. eexists. split; [reflexivity|].
    unfold finish. rewrite length_app. simpl. lia.
Qed.
End UnweightedTermination.



(** *** Priority queues and the adjacency still to explore *)

Lemma add_In (s : list string) (c k : string) : In k (add s c) <-> In k s \/ k = c.
Proof.
  unfold add. destruct (has s c) eqn:E.
  - apply has_In in E. intuition (subst; auto).
  - rewrite in_app_iff. simpl. intuition.
Qed.

Section QueueFacts.
Context {T : Type} `{ToString T}.

Lemma enqueue_length (q : PriorityQueue.t T) (e : T) (p : Z) :
  List.length (PriorityQueue.enqueue q e p) = S (List.length q).
Proof.
  unfold PriorityQueue.enqueue. rewrite sortBy_length, length_app. simpl. lia.
Qed.

Lemma enqueue_In (q : PriorityQueue.t T) (e : T) (p : Z) (it : PriorityQueue.item T) :
  In it (PriorityQueue.enqueue q e p)
  <-> In it q \/ it = {| PriorityQueue.element := e; PriorityQueue.priority := p |}.
Proof.
  unfold PriorityQueue.enqueue. rewrite sortBy_In, in_app_iff. simpl. intuition.
Qed.
End QueueFacts.

(** The total length of the adjacency lists of the keys not yet in [seen]:
    what the nodes still to finalize can add to the queue. *)
Definition unexplored (r : record (list string)) (seen : list string) : nat :=
  list_sum (map (fun kv => if has seen (fst kv) then 0%nat else List.length (snd kv)) r).

Lemma unexplored_nil (graph : GraphData) : unexplored (adj graph) [] = Dijkstra.degreeSum graph.
Proof. reflexivity. Qed.

Lemma unexplored_mono (r : record (list string)) (seen : list string) (c : string) :
  (unexplored r (add seen c) <= unexplored r seen)%nat.
Proof.
  unfold unexplored. induction r as [|[k l] r IH]; simpl; [lia|].
  destruct (has seen k) eqn:E.
  - apply has_In in E.
    assert (E' : has (add seen c) k = true) by (apply has_In, add_In; auto).
    rewrite E'. lia.
  - destruct (has (add seen c) k); lia.
Qed.

Lemma unexplored_add (r : record (list string)) (seen l : list string) (c : string) :
  has seen c = false -> get r c = Some l ->
  (unexplored r (add seen c) + List.length l <= unexplored r seen)%nat.
Proof.
  intros Hc. unfold unexplored. induction r as [|[k l'] r IH]; simpl; [discriminate|].
  destruct (String.eqb_spec k c) as [->|Hne].
  - intros [= ->]. rewrite Hc.
    assert (E : has (add seen c) c = true) by (apply has_In, add_In; auto).
    rewrite E. pose proof (unexplored_mono r seen c) as H. unfold unexplored in H. lia.
  - intros Hget. specialize (IH Hget).
    assert (E : has (add seen c) k = has seen k).
    { destruct (has seen k) eqn:E1.
      - apply has_In. apply add_In. left. now apply has_In.
      - apply has_false. rewrite add_In. apply has_false in E1. intuition. }
    rewrite E. destruct (has seen k); lia.
Qed.

(** *** Dijkstra *)

Section DijkstraTermination.
Import Dijkstra.

Variable graph : GraphData.
Variable es : list Edge.
Hypothesis graph_closed : closed graph.
Hypothesis graph_edges : edges graph = Some es.
(** Every adjacency is backed by an edge record. *)
Hypothesis graph_weighted : forall k l nb,
  get (adj graph) k = Some l -> In nb l -> exists e, findEdge es k nb = Some e.

(** The queued nodes are keys of [adj] with a numeric distance. *)
Definition ready (s : state) : Prop :=
  forall it, In it (pq s) ->
    In (PriorityQueue.element it) (keys (adj graph))
    /\ measured (dist s) (PriorityQueue.element it).

Lemma relax_returns (c : string) (l nbs : list string) (s : state) :
  get (adj graph) c = Some l -> incl nbs l ->
  ready s -> measured (dist s) c ->
  exists s', relax graph c nbs s = Returned s' /\ ready s' /\ seen s' = seen s
             /\ (List.length (pq s') <= List.length (pq s) + List.length nbs)%nat
             /\ (List.length (steps s) <= List.length (steps s'))%nat.
Proof.
  intros Hl. revert s. induction nbs as [|nb nbs IH]; intros s Hn Hs Hc; simpl.
  - exists s. split; [reflexivity|]. split; [exact Hs|]. split; [reflexivity|]. split; lia.
  - assert (Hn' : incl nbs l) by (intros z Hz; apply Hn; now right).
    destruct (has (seen s) nb).
    { destruct (IH s Hn' Hs Hc) as (s' & Hs' & Hr & Hseen & Hlen & Hst).
      exists s'. split; [exact Hs'|]. split; [exact Hr|]. split; [exact Hseen|]. split; lia. }
    rewrite graph_edges. cbn [bind orThrow].
    pose proof Hc as [n Hcn]. rewrite Hcn. cbn [bind].
    destruct (graph_weighted c l nb Hl (Hn nb (or_introl eq_refl))) as [e He].
    rewrite He. cbn [bind orThrow].
    destruct (improves (n + weight e) (get (dist s) nb)).
    + match goal with |- context [relax graph c nbs ?s1] =>
        destruct (IH s1 Hn') as (s' & Hs' & Hr & Hseen & Hlen & Hst) end.
      * intros it Hit. simpl in Hit. apply enqueue_In in Hit as [Hit| ->]; simpl.
        -- destruct (Hs it Hit). split; [assumption | now apply measured_set].
        -- split; [|apply measured_set_same].
           eapply graph_closed; [exact Hl | apply Hn; now left].
      * simpl. now apply measured_set.
      * exists s'. split; [exact Hs'|]. split; [exact Hr|]. split; [exact Hseen|].
        simpl in Hlen, Hst. rewrite enqueue_length in Hlen.
        rewrite length_app in Hst. simpl in Hst. split; lia.
    + destruct (IH s Hn' Hs Hc) as (s' & Hs' & Hr & Hseen & Hlen & Hst).
      exists s'. split; [exact Hs'|]. split; [exact Hr|]. split; [exact Hseen|]. split; lia.
Qed.

Lemma dijkstra_loop_returns (fuel : nat) (s : state) :
  ready s ->
  (List.length (pq s) + unexplored (adj graph) (seen s) <= fuel)%nat ->
  exists s', loop fuel graph s = Returned s'
             /\ (List.length (steps s) <= List.length (steps s'))%nat.
Proof.
  revert s. induction fuel as [|fuel IH]; intros s Hs Hfuel.
  - destruct (pq s) as [|it q] eqn:Hq; simpl; rewrite Hq; simpl; [eauto|].
    simpl in Hfuel. lia.
  - simpl. destruct (pq s) as [|it q] eqn:Hq; simpl; [eauto|].
    assert (Hit : In it (pq s)) by (rewrite Hq; simpl; auto).
    destruct (Hs it Hit) as [Hkey Hmeasured].
    destruct (has (seen s) (PriorityQueue.element it)) eqn:Hseen.
    + match goal with |- context [loop fuel graph ?s1] =>
        destruct (IH s1) as (s' & Hs' & Hst') end.
      * intros it' Hit'. simpl in *. apply Hs. rewrite Hq. now right.
      * simpl in *. lia.
      * exists s'. split; [exact Hs' | exact Hst'].
    + destruct (key_get_Some _ _ Hkey) as [l Hl]. rewrite Hl. cbn [bind orThrow].
      match goal with |- context [relax graph _ l ?s1] =>
        destruct (relax_returns (PriorityQueue.element it) l l s1 Hl (incl_refl _))
          as (s2 & -> & Hs2 & Hseen2 & Hlen2 & Hst2) end.
      * intros it' Hit'. simpl in *. apply Hs. rewrite Hq. now right.
      * exact Hmeasured.
      * cbn [bind]. destruct (IH s2 Hs2) as (s' & Hs' & Hst').
        -- rewrite Hseen2. simpl in Hlen2 |- *.
           pose proof (unexplored_add (adj graph) (seen s) l _ Hseen Hl).
           simpl in Hfuel. lia.
        -- exists s'. split; [exact Hs'|].
           simpl in Hst2. rewrite length_app in Hst2. simpl in Hst2. lia.
Qed.

Lemma dijkstra_returns (startNode : string) :
  In startNode (keys (adj graph)) ->
  exists trace, generateSteps graph startNode = Returned trace
                /\ (1 <= List.length trace)%nat.
Proof.
  intros Hstart. unfold generateSteps, generateSteps_fuel.
  destruct (dijkstra_loop_returns (S (degreeSum graph)) (start graph startNode))
    as (s' & -> & Hl).
  - intros it [<-|[]]. simpl. split; [assumption | apply measured_set_same].
  - simpl. rewrite unexplored_nil. lia.
  - simpl. eexists. split; [reflexivity|].
    unfold finish. rewrite length_app. simpl. lia.
Qed.
End DijkstraTermination.

(** *** Prim's *)

Section PrimsTermination.
Import Prims.

Variable graph : GraphData.
Variable es : list Edge.
Hypothesis graph_edges : edges graph = Some es.

Lemma enqueueEdges_returns (nodeId : string) (nbs : list string) (q : PriorityQueue.t Edge) :
  exists q', enqueueEdges graph nodeId nbs q = Returned q'
             /\ (List.length q' <= List.length q + List.length nbs)%nat.
Proof.
  revert q. induction nbs as [|nb nbs IH]; intros q; simpl.
  - exists q. split; [reflexivity | lia].
  - rewrite graph_edges. cbn [bind orThrow].
    destruct (findEdge es nodeId nb) as [e|].
    + destruct (IH (PriorityQueue.enqueue q e (weight e))) as (q' & -> & Hlen).
      exists q'. split; [reflexivity|]. rewrite enqueue_length in Hlen. lia.
    + destruct (IH q) as (q' & -> & Hlen). exists q'. split; [reflexivity | lia].
Qed.

Lemma addEdges_returns (nodeId : string) (s : state) :
  has (seen s) nodeId = false ->
  exists s', addEdges graph nodeId s = Returned s'
             /\ steps s' = steps s
             /\ (List.length (pq s') + unexplored (adj graph) (seen s')
                 <= List.length (pq s) + unexplored (adj graph) (seen s))%nat.
Proof.
  intros Hnew. unfold addEdges.
  destruct (get (adj graph) nodeId) as [l|] eqn:Hl.
  - destruct (enqueueEdges_returns nodeId l (pq s)) as (q' & -> & Hlen). cbn [bind].
    eexists. split; [reflexivity|]. split; [reflexivity|]. simpl.
    pose proof (unexplored_add (adj graph) (seen s) l nodeId Hnew Hl). lia.
  - destruct (enqueueEdges_returns nodeId [] (pq s)) as (q' & -> & Hlen). cbn [bind].
    eexists. split; [reflexivity|]. split; [reflexivity|]. simpl in *.
    pose proof (unexplored_mono (adj graph) (seen s) nodeId). lia.
Qed.

Lemma prims_loop_returns (fuel : nat) (s : state) :
  (List.length (pq s) + unexplored (adj graph) (seen s) <= fuel)%nat ->
  exists s', loop fuel graph s = Returned s'
             /\ (List.length (steps s) <= List.length (steps s'))%nat.
Proof.
  revert s. induction fuel as [|fuel IH]; intros s Hfuel.
  - destruct (pq s) as [|it q] eqn:Hq; simpl; rewrite Hq; simpl; [eauto|].
    simpl in Hfuel. lia.
  - simpl. destruct (pq s) as [|it q] eqn:Hq; simpl; [eauto|].
    destruct (negb (List.length (seen s) <? List.length (nodes graph))%nat); [eauto|].
    destruct (has (seen s) (from (PriorityQueue.element it))) eqn:Hfrom;
      destruct (has (seen s) (to (PriorityQueue.element it))) eqn:Hto; cbn [andb].
    + match goal with |- context [loop fuel graph ?s1] =>
        destruct (IH s1) as (s' & Hs' & Hst) end.
      * simpl in *. lia.
      * exists s'. split; [exact Hs'|].
        unfold push in Hst. simpl in Hst. rewrite !length_app in Hst. simpl in Hst. lia.
    + match goal with |- context [addEdges graph ?n ?s2] =>
        destruct (addEdges_returns n s2 Hto) as (s3 & -> & Hsteps & Hm) end.
      cbn [bind].
      match goal with |- context [loop fuel graph ?s4] =>
        destruct (IH s4) as (s' & Hs' & Hst) end.
      * unfold push in *. simpl in *. lia.
      * exists s'. split; [exact Hs'|].
        unfold push in Hst, Hsteps. simpl in Hst, Hsteps. rewrite Hsteps in Hst.
        rewrite !length_app in Hst. simpl in Hst. lia.
    + match goal with |- context [addEdges graph ?n ?s2] =>
        destruct (addEdges_returns n s2 Hfrom) as (s3 & -> & Hsteps & Hm) end.
      cbn [bind].
      match goal with |- context [loop fuel graph ?s4] =>
        destruct (IH s4) as (s' & Hs' & Hst) end.
      * unfold push in *. simpl in *. lia.
      * exists s'. split; [exact Hs'|].
        unfold push in Hst, Hsteps. simpl in Hst, Hsteps. rewrite Hsteps in Hst.
        rewrite !length_app in Hst. simpl in Hst. lia.
    + match goal with |- context [addEdges graph ?n ?s2] =>
        destruct (addEdges_returns n s2 Hfrom) as (s3 & -> & Hsteps & Hm) end.
      cbn [bind].
      match goal with |- context [loop fuel graph ?s4] =>
        destruct (IH s4) as (s' & Hs' & Hst) end.
      * unfold push in *. simpl in *. lia.
      * exists s'. split; [exact Hs'|].
        unfold push in Hst, Hsteps. simpl in Hst, Hsteps. rewrite Hsteps in Hst.
        rewrite !length_app in Hst. simpl in Hst. lia.
Qed.

Lemma prims_returns (startNode : string) :
  exists trace, generateSteps graph startNode = Returned trace
                /\ (1 <= List.length trace)%nat.
Proof.
  unfold generateSteps, generateSteps_fuel.
  match goal with |- context [addEdges graph startNode ?s0] =>
    destruct (addEdges_returns startNode s0 eq_refl) as (s1 & -> & Hsteps & Hm) end.
  cbn [bind].
  match goal with |- context [loop _ graph ?s2] =>
    destruct (prims_loop_returns (S (Dijkstra.degreeSum graph)) s2) as (s3 & -> & Hst) end.
  - unfold push, unexplored, Dijkstra.degreeSum in *. simpl in *. lia.
  - cbn [bind]. eexists. split; [reflexivity|]. rewrite length_app. simpl. lia.
Qed.
End PrimsTermination.

(** *** Well-formed graphs *)

Lemma get_In_pair {V : Type} (r : record V) (k : string) (v : V) :
  get r k = Some v -> In (k, v) r.
Proof.
  induction r as [|[k0 v0] r IH]; simpl; [discriminate|].
  destruct (String.eqb_spec k0 k) as [->|_]; [intros [= ->]; auto | auto].
Qed.

Definition nodeIds (graph : GraphData) : list string := map id (nodes graph).

(** The invariant of [GraphData] on [adj]: it has an entry for every node,
    and every identifier it mentions is a node. *)
Definition wellFormed (graph : GraphData) : bool :=
  forallb (has (keys (adj graph))) (nodeIds graph)
  && forallb (fun kv => has (nodeIds graph) (fst kv)
                        && forallb (has (nodeIds graph)) (snd kv)) (adj graph).

(** The same for a weighted graph: [edges] is present, its endpoints are
    nodes, every adjacency has its edge record, and no identifier contains
    ['-'], the separator of the flow keys [from->to]. *)
Definition weighted (graph : GraphData) : bool :=
  match edges graph with
  | Some es =>
      forallb (fun e => has (nodeIds graph) (from e) && has (nodeIds graph) (to e)) es
      && forallb (fun kv =>
                    forallb (fun nb => match findEdge es (fst kv) nb with
                                       | Some _ => true
                                       | None => false
                                       end) (snd kv)) (adj graph)
      && forallb dashFree (nodeIds graph)
  | None => false
  end.

(** The call returns a trace that is not empty. *)
Definition returns (run : outcome (list Step)) : Prop :=
  exists trace, run = Returned trace /\ (1 <= List.length trace)%nat.

Section WellFormedFacts.
Variable graph : GraphData.
Hypothesis graph_wellFormed : wellFormed graph = true.

Lemma wellFormed_total (i : string) : In i (nodeIds graph) -> In i (keys (adj graph)).
Proof.
  intros Hi. unfold wellFormed in graph_wellFormed.
  apply andb_prop in graph_wellFormed as [H _].
  rewrite forallb_forall in H. apply has_In, H, Hi.
Qed.

Lemma wellFormed_entry (k : string) (l : list string) :
  In (k, l) (adj graph) -> In k (nodeIds graph) /\ incl l (nodeIds graph).
Proof.
  intros Hkl. unfold wellFormed in graph_wellFormed.
  apply andb_prop in graph_wellFormed as [_ H].
  rewrite forallb_forall in H. specialize (H _ Hkl). simpl in H.
  apply andb_prop in H as [Hk Hl]. split; [now apply has_In|].
  rewrite forallb_forall in Hl. intros z Hz. apply has_In, Hl, Hz.
Qed.

Lemma wellFormed_closed : closed graph.
Proof.
  intros k l Hl z Hz. apply wellFormed_total.
  apply get_In_pair in Hl. destruct (wellFormed_entry _ _ Hl) as [_ H]. auto.
Qed.

Lemma wellFormed_universe (startNode : string) (i : string) :
  In startNode (nodeIds graph) -> In i (universe graph startNode) -> In i (nodeIds graph).
Proof.
  intros Hs [<-|Hi]; [assumption|].
  apply in_app_or in Hi as [Hi|Hi].
  - unfold keys in Hi. apply in_map_iff in Hi as ([k l] & <- & Hkl).
    destruct (wellFormed_entry _ _ Hkl); assumption.
  - apply in_concat in Hi as (l & Hl & Hi).
    apply in_map_iff in Hl as ([k l'] & <- & Hkl).
    destruct (wellFormed_entry _ _ Hkl) as [_ H]. auto.
Qed.
End WellFormedFacts.

(** C3, the part the code contradicts.  Two finite graphs that satisfy
    the invariant of [GraphData] (every id named in [adj] and [edges] is a
    node) make a generator throw instead of returning a trace: the BFS
    generator reads [graph.adj[currentNode]] without a default, and [adj]
    of [isolatedNode] has no entry for its only node; the Dijkstra
    generator reads [graph.edges!], and the sample graph of the BFS module
    has no [edges]. *)
Definition isolatedNode : GraphData :=
  {| nodes := [ {| id := "A"; x := 0; y := 0 |} ]; adj := [];
     edges := Some []; directed := None |}.




(** * Further properties of the code *)

(** ** The priority queue *)

Section SortOrder.
Context {A : Type} (key : A -> Z).

(** Sorted by key, smallest first. *)
Definition ascending (l : list A) : Prop :=
  StronglySorted (fun a b => (key a <= key b)%Z) l.

Lemma insert_Permutation (x : A) (l : list A) : Permutation (insert key x l) (x :: l).
Proof.
  induction l as [|y l IH]; simpl; [reflexivity|].
  destruct (key x <? key y)%Z; [reflexivity|].
  rewrite IH. apply perm_swap.
Qed.

Lemma insert_ascending (x : A) (l : list A) : ascending l -> ascending (insert key x l).
Proof.
  unfold ascending. induction 1 as [|y l Hl IH Hy]; simpl.
  - repeat constructor.
  - destruct (key x <? key y)%Z eqn:E.
    + apply Z.ltb_lt in E. constructor; [constructor; assumption|].
      constructor; [lia|]. eapply Forall_impl; [|exact Hy]. simpl. intros; lia.
    + apply Z.ltb_ge in E. constructor; [assumption|].
      eapply Permutation_Forall; [symmetry; apply insert_Permutation|].
      constructor; assumption.
Qed.

(** Where [insert] puts the new element: behind every element whose key
    is not larger, in front of the others. *)
Lemma insert_place (x : A) (l : list A) :
  ascending l ->
  exists before after,
    l = before ++ after /\ insert key x l = before ++ x :: after
    /\ Forall (fun a => (key a <= key x)%Z) before
    /\ Forall (fun a => (key x < key a)%Z) after.
Proof.
  unfold ascending. induction 1 as [|y l Hl IH Hy]; simpl.
  - exists [], []. repeat split; constructor.
  - destruct (key x <? key y)%Z eqn:E.
    + apply Z.ltb_lt in E. exists [], (y :: l). repeat split; [constructor|].
      constructor; [assumption|]. eapply Forall_impl; [|exact Hy]. simpl. intros; lia.
    + apply Z.ltb_ge in E. destruct IH as (before & after & -> & -> & Hb & Ha).
      exists (y :: before), after. repeat split; [|assumption].
      constructor; assumption.
Qed.

Lemma fold_insert_Permutation (l acc : list A) :
  Permutation (fold_left (fun acc x => insert key x acc) l acc) (acc ++ l).
Proof.
  revert acc. induction l as [|x l IH]; intros acc; simpl.
  - now rewrite app_nil_r.
  - rewrite IH, insert_Permutation. simpl. apply Permutation_middle.
Qed.

Lemma fold_insert_ascending (l acc : list A) :
  ascending acc -> ascending (fold_left (fun acc x => insert key x acc) l acc).
Proof.
  revert acc. induction l as [|x l IH]; intros acc Hacc; simpl; [assumption|].
  apply IH, insert_ascending, Hacc.
Qed.

Lemma sortBy_Permutation (l : list A) : Permutation (sortBy key l) l.
Proof. unfold sortBy. now rewrite fold_insert_Permutation. Qed.

Lemma sortBy_ascending (l : list A) : ascending (sortBy key l).
Proof. apply fold_insert_ascending. constructor. Qed.

(** Inserting at the end of an ascending list what is not smaller than
    its elements. *)
Lemma insert_last (x : A) (l : list A) :
  Forall (fun a => (key a <= key x)%Z) l -> insert key x l = l ++ [x].
Proof.
  induction 1 as [|y l Hy Hl IH]; simpl; [reflexivity|].
  destruct (key x <? key y)%Z eqn:E; [apply Z.ltb_lt in E; lia|].
  now rewrite IH.
Qed.

Lemma ascending_snoc (l : list A) (x : A) :
  ascending (l ++ [x]) -> ascending l /\ Forall (fun a => (key a <= key x)%Z) l.
Proof.
  unfold ascending. induction l as [|y l IH]; simpl; intros H.
  - split; constructor.
  - inversion H as [|? ? Hl Hy]; subst. destruct (IH Hl) as [Hs Hf].
    split.
    + constructor; [assumption|]. apply Forall_app in Hy. tauto.
    + constructor; [|assumption]. apply Forall_app in Hy as [_ Hx].
      now inversion Hx.
Qed.

(** The sort leaves an ascending array as it is: it is stable. *)
Lemma fold_insert_sorted (l acc : list A) :
  ascending (acc ++ l) -> fold_left (fun acc x => insert key x acc) l acc = acc ++ l.
Proof.
  revert acc. induction l as [|x l IH]; intros acc H; simpl.
  - now rewrite app_nil_r.
  - assert (H' : ascending ((acc ++ [x]) ++ l)) by now rewrite <- app_assoc.
    assert (Hx : ascending (acc ++ [x])).
    { clear - H'. unfold ascending in *. revert H'.
      generalize (acc ++ [x]) as m. induction m as [|y m IHm]; simpl; intros H.
      - constructor.
      - inversion H as [|? ? Hm Hy]; subst. constructor; [auto|].
        apply Forall_app in Hy. tauto. }
    apply ascending_snoc in Hx as [_ Hx].
    rewrite (insert_last _ _ Hx), IH by assumption. now rewrite <- app_assoc.
Qed.

Lemma sortBy_sorted (l : list A) : ascending l -> sortBy key l = l.
Proof. intros H. unfold sortBy. now rewrite fold_insert_sorted. Qed.

Lemma sortBy_snoc (l : list A) (x : A) :
  sortBy key (l ++ [x]) = insert key x (sortBy key l).
Proof. unfold sortBy. now rewrite fold_left_app. Qed.
End SortOrder.

Section QueueOrder.
Context {T : Type} `{ToString T}.
Import PriorityQueue.

(** The queues a [PriorityQueue] goes through. *)
Inductive grown : t T -> Prop :=
| grown_empty : grown empty
| grown_enqueue (q : t T) (e : T) (p : Z) : grown q -> grown (enqueue q e p)
| grown_dequeue (q q' : t T) (it : item T) :
    grown q -> dequeue q = Some (it, q') -> grown q'.

Lemma grown_ascending (q : t T) : grown q -> ascending priority q.
Proof.
  induction 1 as [|q e p _ _|q q' it _ IH Hd].
  - constructor.
  - apply sortBy_ascending.
  - destruct q as [|it' q]; [discriminate|]. injection Hd as <- <-.
    now inversion IH.
Qed.

(** Whatever array the queue holds, [enqueue] leaves it sorted by
    priority, smallest first, holding the items it held and the new one. *)
Theorem enqueue_sorts (q : t T) (e : T) (p : Z) :
  ascending priority (enqueue q e p)
  /\ Permutation (enqueue q e p) ({| element := e; priority := p |} :: q).
Proof.
  split; [apply sortBy_ascending|].
  unfold enqueue. rewrite sortBy_Permutation.
  apply Permutation_sym, Permutation_cons_append.
Qed.

(** First in, first out among equal priorities: in a queue built by
    [enqueue] and [dequeue], [enqueue] puts the new item behind every
    item whose priority is not larger and in front of the items of larger
    priority, and moves no other item. *)
Theorem enqueue_is_stable (q : t T) (e : T) (p : Z) :
  grown q ->
  exists before after,
    q = before ++ after
    /\ enqueue q e p = before ++ {| element := e; priority := p |} :: after
    /\ Forall (fun it => (priority it <= p)%Z) before
    /\ Forall (fun it => (p < priority it)%Z) after.
Proof.
  intros Hq. apply grown_ascending in Hq.
  unfold enqueue. rewrite sortBy_snoc, (sortBy_sorted _ _ Hq).
  apply (insert_place priority {| element := e; priority := p |} q Hq).
Qed.

(** [dequeue] on an empty queue returns [undefined]; on a queue built by
    [enqueue] and [dequeue] it removes the first item, whose priority is
    the least in the queue. *)
Theorem dequeue_least (q : t T) :
  grown q ->
  match dequeue q with
  | None => q = []
  | Some (it, rest) =>
      q = it :: rest /\ grown rest
      /\ Forall (fun other => (priority it <= priority other)%Z) rest
  end.
Proof.
  intros Hq. destruct q as [|it rest]; simpl; [reflexivity|].
  split; [reflexivity|]. split; [eapply grown_dequeue; eauto; reflexivity|].
  apply grown_ascending in Hq. now inversion Hq.
Qed.

End QueueOrder.

Lemma enqueue_is_stable_witness :
  let q := PriorityQueue.enqueue
             (PriorityQueue.enqueue
                (PriorityQueue.enqueue PriorityQueue.empty "a" 2) "b" 1) "c" 3 in
  exists before after,
    q = before ++ after
    /\ PriorityQueue.enqueue q "d" 2
       = before ++ {| PriorityQueue.element := "d"; PriorityQueue.priority := 2 |} :: after
    /\ Forall (fun it => (PriorityQueue.priority it <= 2)%Z) before
    /\ Forall (fun it => (2 < PriorityQueue.priority it)%Z) after.
Proof.
  apply enqueue_is_stable. repeat apply grown_enqueue. apply grown_empty.
Defined.

Lemma dequeue_least_witness :
  match PriorityQueue.dequeue
          (PriorityQueue.enqueue
             (PriorityQueue.enqueue
                (PriorityQueue.enqueue PriorityQueue.empty "a" 5) "b" 1) "c" 3) with
  | None => False
  | Some (it, rest) =>
      PriorityQueue.element it = "b"
      /\ Forall (fun other => (PriorityQueue.priority it <= PriorityQueue.priority other)%Z) rest
  end.
Proof.
  pose proof (dequeue_least
                (PriorityQueue.enqueue
                   (PriorityQueue.enqueue
                      (PriorityQueue.enqueue PriorityQueue.empty "a" 5) "b" 1) "c" 3)
                (grown_enqueue _ _ _ (grown_enqueue _ _ _ (grown_enqueue _ _ _ grown_empty))))
    as Hleast.
  simpl in *. destruct Hleast as (_ & _ & Hleast). split; [reflexivity | exact Hleast].
Defined.

(** ** The disjoint-set forest: construction, merging, compression *)

Section DisjointSetFacts.
Import DisjointSet.

Lemma get_make_element (elements : list string) (x : string) :
  In x elements -> get (make elements) x = Some x.
Proof.
  intros Hx.
  assert (Hk : In x (keys (make elements))).
  { unfold make. rewrite keys_make. auto. }
  destruct (key_get_Some _ _ Hk) as [y Hy]. rewrite Hy.
  destruct (get_make _ _ _ _ Hy) as [H | ->]; [discriminate | reflexivity].
Qed.

Lemma rootOf_inv (p : t) (n : nat) (x r r' : string) :
  climbs p n x r -> rootOf p x = Returned r' -> r' = r.
Proof. intros H H'. rewrite (rootOf_climbs _ _ _ _ H) in H'. congruence. Qed.

(** What [union] does to the roots: the root of [b] goes under the root
    of [a], every other root stays. *)
Lemma union_roots (p : t) (a b : string) :
  forest p -> In a (keys p) -> In b (keys p) ->
  exists p' ra rb na nb,
    union p a b = Returned p' /\ keys p' = keys p /\ forest p'
    /\ climbs p na a ra /\ climbs p nb b rb
    /\ forall y n r, climbs p n y r ->
         exists m, climbs p' m y (if string_dec r rb then ra else r).
Proof.
  intros Hf Ha Hb.
  destruct (Hf a Ha) as (na & ra & Hca).
  destruct (find_spec _ _ _ _ Hca) as (p1 & Hfind1 & Hk1 & Hkeep1).
  assert (Hf1 : forest p1) by (eapply keepsRoots_forest; eauto).
  assert (Hb1 : In b (keys p1)) by now rewrite Hk1.
  destruct (Hf b Hb) as (nb & rb & Hcb0).
  destruct (Hkeep1 _ _ _ Hcb0) as (nb1 & Hcb).
  destruct (find_spec _ _ _ _ Hcb) as (p2 & Hfind2 & Hk2 & Hkeep2).
  assert (Hf2 : forest p2) by (eapply keepsRoots_forest; eauto).
  destruct (Hkeep1 _ _ _ Hca) as (na1 & Hca1).
  destruct (Hkeep2 _ _ _ Hca1) as (na2 & Hca2).
  destruct (Hkeep2 _ _ _ Hcb) as (nb2 & Hcb2).
  unfold union. rewrite Hfind1. simpl. rewrite Hfind2. simpl.
  destruct (String.eqb_spec ra rb) as [->|Hne]; simpl.
  - exists p2, rb, rb, na, nb. repeat split; auto; [congruence|].
    intros y n r Hy. destruct (Hkeep1 _ _ _ Hy) as (m1 & Hy1).
    destruct (Hkeep2 _ _ _ Hy1) as (m2 & Hy2).
    exists m2. destruct (string_dec r rb); [subst|]; assumption.
  - pose proof (climbs_ends_at_root _ _ _ _ Hca2) as Hra.
    pose proof (climbs_ends_at_root _ _ _ _ Hcb2) as Hrb.
    pose proof (link_roots p2 ra rb Hra Hrb Hne) as Hlink.
    assert (Hk3 : keys (set p2 rb ra) = keys p2) by (eapply keys_set_present; eauto).
    exists (set p2 rb ra), ra, rb, na, nb. repeat split; auto.
    + congruence.
    + intros x Hx. rewrite Hk3 in Hx.
      destruct (Hf2 x Hx) as (k & r0 & Hc). destruct (Hlink _ _ _ Hc) as [k0 Hk0]. eauto.
    + intros y n r Hy. destruct (Hkeep1 _ _ _ Hy) as (m1 & Hy1).
      destruct (Hkeep2 _ _ _ Hy1) as (m2 & Hy2).
      apply (Hlink _ _ _ Hy2).
Qed.

(** What [find] does to the links: the ones it rewrites now point at the
    root it returns. *)
Lemma find_fuel_links (p : t) (n : nat) (x r : string) :
  climbs p n x r ->
  forall fuel p', find_fuel fuel p x = Returned (r, p') ->
  get p' x = Some r
  /\ forall y, get p' y = get p y \/ (get p' y = Some r /\ exists k, climbs p k y r).
Proof.
  induction 1 as [x Hx | n x y r Hx Hne H IH]; intros fuel p' Hfind;
    (destruct fuel as [|fuel]; [discriminate|]); simpl in Hfind; rewrite Hx in Hfind;
    simpl in Hfind.
  - rewrite String.eqb_refl in Hfind. injection Hfind as <-. auto.
  - destruct (String.eqb_spec y x) as [?|_]; [contradiction|].
    destruct (find_fuel fuel p y) as [[r1 p1]|] eqn:Hrec; [|discriminate].
    simpl in Hfind. injection Hfind as -> <-.
    destruct (IH fuel p1 Hrec) as [_ Hlinks].
    split; [apply get_set_same|].
    intros z. destruct (string_dec z x) as [->|Hz].
    + right. rewrite get_set_same. split; [reflexivity|].
      exists (S n). econstructor; eauto.
    + rewrite get_set_other by assumption. apply Hlinks.
Qed.
End DisjointSetFacts.







Section GetSetsFacts.
Import DisjointSet.

Lemma getSets_from_roots (p0 : t) (ks : list string) :
  forest p0 ->
  forall (p : t) (sets : record string),
  forest p -> keys p = keys p0 -> keepsRoots p0 p -> incl ks (keys p) ->
  (forall k r, get sets k = Some r -> exists n, climbs p0 n k r) ->
  exists sets' p',
    getSets_from ks p sets = Returned (sets', p')
    /\ keys p' = keys p0 /\ keepsRoots p0 p'
    /\ (forall k r, get sets' k = Some r -> exists n, climbs p0 n k r)
    /\ (forall k, In k (keys sets') <-> In k ks \/ In k (keys sets)).
Proof.
  intros Hforest. induction ks as [|k ks IH]; intros p sets Hf Hkeys Hkeep Hincl Hsets; simpl.
  - exists sets, p. repeat split; auto; tauto.
  - destruct (Hf k (Hincl k (or_introl eq_refl))) as (n & r & Hc).
    destruct (find_spec _ _ _ _ Hc) as (p1 & -> & Hk1 & Hkeep1). simpl.
    assert (Hk0 : In k (keys p0)) by (rewrite <- Hkeys; eapply climbs_key; eauto).
    assert (Hroot : exists m, climbs p0 m k r).
    { destruct (Hforest k Hk0) as (m & r0 & H0). destruct (Hkeep _ _ _ H0) as (m' & H0').
      destruct (climbs_fun _ _ _ _ _ _ Hc H0') as [_ ->]. eauto. }
    destruct (IH p1 (set sets k r)) as (sets' & p' & -> & Hk' & Hkeep' & Hsets' & Hin).
    + eapply keepsRoots_forest; eauto.
    + congruence.
    + eapply keepsRoots_trans; eauto.
    + intros z Hz. rewrite Hk1. apply Hincl. now right.
    + intros z rz. destruct (string_dec z k) as [->|Hz].
      * rewrite get_set_same. intros [= <-]. exact Hroot.
      * rewrite get_set_other by assumption. apply Hsets.
    + exists sets', p'. repeat split; auto.
      * intros H. apply Hin in H. rewrite keys_set in H. simpl. intuition.
      * intros H. apply Hin. rewrite keys_set. simpl in H. intuition.
Qed.

Lemma getSets_roots (p : t) :
  forest p ->
  exists sets p',
    getSets p = Returned (sets, p')
    /\ keys p' = keys p /\ keepsRoots p p'
    /\ (forall k r, get sets k = Some r -> exists n, climbs p n k r)
    /\ (forall k, In k (keys sets) <-> In k (keys p)).
Proof.
  intros Hf.
  destruct (getSets_from_roots p (keys p) Hf p [] Hf eq_refl (keepsRoots_refl p)
              (incl_refl _)) as (sets & p' & Hget & Hk & Hkeep & Hsets & Hin).
  - intros k r H. discriminate H.
  - exists sets, p'. repeat split; auto.
    + intros H. apply Hin in H. simpl in H. tauto.
    + intros H. apply Hin. auto.
Qed.
End GetSetsFacts.



(** ** Edge keys *)

Lemma ltb_total (a b : string) :
  (a <? b)%string = false -> (b <? a)%string = false -> a = b.
Proof.
  unfold String.ltb. rewrite (String.compare_antisym b a).
  destruct (String.compare a b) eqn:E; simpl; try discriminate.
  intros _ _. now apply String.compare_eq_iff.
Qed.

Lemma ltb_asym (a b : string) : (a <? b)%string = true -> (b <? a)%string = false.
Proof.
  unfold String.ltb. rewrite (String.compare_antisym b a).
  destruct (String.compare a b); simpl; congruence.
Qed.

Lemma undirected_key_unfold (a b : string) :
  join "-" [a; b] = (a ++ String "-" b)%string.
Proof. reflexivity. Qed.

Lemma undirected_key_injective (a b c d : string) :
  dashFree a = true -> dashFree c = true ->
  join "-" [a; b] = join "-" [c; d] -> a = c /\ b = d.
Proof.
  rewrite !undirected_key_unfold. revert c.
  induction a as [|x a IH]; intros [|y c] Ha Hc H; simpl in *.
  - injection H as ->. auto.
  - injection H as <- _. rewrite Ascii.eqb_refl in Hc. discriminate.
  - injection H as -> _. rewrite Ascii.eqb_refl in Ha. discriminate.
  - injection H as -> H.
    apply andb_prop in Ha as [_ Ha]. apply andb_prop in Hc as [_ Hc].
    destruct (IH c Ha Hc H) as [-> ->]. auto.
Qed.

(** The key of an undirected edge ignores its direction and its weight;
    and when no identifier holds a ['-'], two edges with the same key
    join the same two nodes. *)
Theorem edge_key_undirected (e e' : Edge) :
  getEdgeKey {| from := to e; to := from e; weight := weight e' |} = getEdgeKey e
  /\ (dashFree (from e) = true -> dashFree (to e) = true ->
      dashFree (from e') = true -> dashFree (to e') = true ->
      getEdgeKey e = getEdgeKey e' ->
      (from e = from e' /\ to e = to e') \/ (from e = to e' /\ to e = from e')).
Proof.
  split.
  - unfold getEdgeKey; simpl.
    destruct (to e <? from e)%string eqn:E1, (from e <? to e)%string eqn:E2;
      try reflexivity.
    + apply ltb_asym in E1. congruence.
    + now rewrite (ltb_total _ _ E1 E2).
  - intros Ha Hb Hc Hd. unfold getEdgeKey.
    destruct (to e <? from e)%string, (to e' <? from e')%string; intros H;
      apply undirected_key_injective in H; tauto.
Qed.

(** Directed keys [from->to] tell ordered pairs apart as long as the
    source identifiers hold no ['-']; with one they can collide. *)
Theorem directed_keys_distinct (a b c d : string) :
  (dashFree a = true -> dashFree c = true ->
   (getDirectedEdgeKey a b = getDirectedEdgeKey c d <-> a = c /\ b = d))
  /\ getDirectedEdgeKey "A" "B->C" = getDirectedEdgeKey "A->B" "C".
Proof.
  split; [|reflexivity].
  intros Ha Hc. split; [now apply key_injective | now intros [-> ->]].
Qed.

(** ** Playback: auto-advance *)

Section AutoAdvance.
Import GraphAnimation.
Variable length : Z.

Lemma autoAdvance_repeat (k : nat) (s : state) :
  (0 <= step s <= length - 1)%Z -> isPlaying s = true ->
  let s' := fold_left (react length) (repeat Timer k) s in
  step s' = Z.min (step s + Z.of_nat k) (length - 1)
  /\ isPlaying s' = (step s + Z.of_nat k <=? length - 1)%Z
  /\ speed s' = speed s.
Proof.
  revert s. induction k as [|k IH]; intros s Hs Hplay; cbn zeta.
  - cbn [repeat fold_left]. rewrite Hplay. change (Z.of_nat 0) with 0%Z.
    split; [lia|]. split; [|reflexivity].
    symmetry. apply Z.leb_le. lia.
  - cbn [repeat fold_left react].
    destruct (step s <? length - 1)%Z eqn:E.
    + assert (Hadv : autoAdvance length s
                     = {| step := step s + 1; isPlaying := true; speed := speed s |})
        by (unfold autoAdvance; now rewrite Hplay, E).
      rewrite Hadv. apply Z.ltb_lt in E.
      match goal with |- context [fold_left _ _ ?s1] =>
        destruct (IH s1) as (H1 & H2 & H3) end;
        [cbn [step]; lia | reflexivity|].
      cbn [step isPlaying speed] in H1, H2, H3. rewrite H1, H2, H3.
      split; [f_equal; lia|]. split; [f_equal; lia | reflexivity].
    + assert (Hadv : autoAdvance length s
                     = {| step := step s; isPlaying := false; speed := speed s |})
        by (unfold autoAdvance; now rewrite Hplay, E).
      rewrite Hadv. apply Z.ltb_ge in E.
      assert (Hstop : forall n s0, isPlaying s0 = false ->
                fold_left (react length) (repeat Timer n) s0 = s0).
      { induction n as [|n IHn]; intros s0 H0; simpl; [reflexivity|].
        unfold autoAdvance. rewrite H0. now apply IHn. }
      rewrite Hstop by reflexivity. cbn [step isPlaying speed].
      split; [lia|]. split; [|reflexivity].
      symmetry. apply Z.leb_gt. lia.
Qed.
End AutoAdvance.



(** ** Breadth-first search visits what can be reached *)

(** [v] can be reached from [s] along the adjacency lists. *)
Inductive reachable (graph : GraphData) (s : string) : string -> Prop :=
| reachable_start : reachable graph s s
| reachable_step (u v : string) (l : list string) :
    reachable graph s u -> get (adj graph) u = Some l -> In v l ->
    reachable graph s v.

Lemma finalStep_snoc (steps : list Step) (st : Step) : finalStep (steps ++ [st]) = Some st.
Proof.
  unfold finalStep. rewrite map_app. simpl. apply last_last.
Qed.

Lemma add_In_iff (s : list string) (x y : string) : In y (add s x) <-> y = x \/ In y s.
Proof.
  unfold add. destruct (has s x) eqn:E.
  - apply has_In in E. split; [auto | intros [->|H]; auto].
  - rewrite in_app_iff. simpl. intuition.
Qed.

Section BfsCorrect.
Import Bfs.

Variable graph : GraphData.
Variable startNode : string.

(** What holds of the traversal while [done] is the list of the nodes
    dequeued so far. *)
Record exploring (done : list string) (s : state) : Prop := {
  exploring_seen : seen s = done ++ queue s;
  exploring_NoDup : NoDup (seen s);
  exploring_start : In startNode (seen s);
  exploring_reachable : forall v, In v (seen s) -> reachable graph startNode v;
  exploring_steps :
    (List.length (steps s) + List.length (queue s) = 2 * List.length (seen s))%nat
}.

(** The successors of the nodes in [done] have all been seen. *)
Definition expanded (done : list string) (s : state) : Prop :=
  forall u l, In u done -> get (adj graph) u = Some l -> incl l (seen s).

Lemma explore_exploring (c : string) (nbs done : list string) (s : state) :
  (forall nb, In nb nbs -> reachable graph startNode nb) ->
  exploring done s ->
  exploring done (explore c nbs s)
  /\ incl (seen s) (seen (explore c nbs s))
  /\ incl nbs (seen (explore c nbs s)).
Proof.
  revert s. induction nbs as [|nb nbs IH]; intros s Hn Hs; simpl.
  - split; [assumption|]. split; [apply incl_refl | intros z []].
  - assert (Hn' : forall z, In z nbs -> reachable graph startNode z)
      by (intros z Hz; apply Hn; now right).
    destruct (has (seen s) nb) eqn:E.
    + destruct (IH s Hn' Hs) as (H1 & H2 & H3). split; [assumption|].
      split; [assumption|]. intros z [<-|Hz]; [|auto]. apply H2. now apply has_In.
    + destruct Hs as [Hseen Hnd Hst Hreach Hlen].
      match goal with |- context [explore c nbs ?s1] =>
        destruct (IH s1 Hn') as (H1 & H2 & H3) end.
      * assert (Hadd : add (seen s) nb = seen s ++ [nb]) by (unfold add; now rewrite E).
        constructor; simpl; rewrite ?Hadd.
        -- rewrite Hseen. now rewrite app_assoc.
        -- rewrite <- Hadd. now apply add_NoDup.
        -- apply in_or_app. now left.
        -- intros v Hv. apply in_app_or in Hv as [Hv|[<-|[]]]; [auto|].
           apply Hn. now left.
        -- rewrite !length_app. simpl. lia.
      * simpl in H2, H3. split; [assumption|].
        split.
        -- intros z Hz. apply H2. apply add_In_iff. now right.
        -- intros z [<-|Hz]; [|auto]. apply H2. apply add_In_iff. now left.
Qed.

Lemma loop_exploring (fuel : nat) (done : list string) (s s' : state) :
  exploring done s -> expanded done s ->
  loop fuel graph s = Returned s' ->
  exists done', exploring done' s' /\ expanded done' s' /\ queue s' = [].
Proof.
  revert done s. induction fuel as [|fuel IH]; intros done s Hs Hx Hloop; simpl in Hloop.
  - destruct (queue s) as [|c q] eqn:Hq; [|discriminate].
    injection Hloop as <-. eauto.
  - destruct (queue s) as [|c q] eqn:Hq; [injection Hloop as <-; eauto|].
    destruct (get (adj graph) c) as [nbs|] eqn:Hnbs; [|discriminate]. simpl in Hloop.
    destruct Hs as [Hseen Hnd Hst Hreach Hlen].
    assert (Hc : reachable graph startNode c).
    { apply Hreach. rewrite Hseen, Hq. apply in_or_app. right. now left. }
    match type of Hloop with context [explore c nbs ?s1] =>
      assert (Hs1 : exploring (done ++ [c]) s1);
      [| destruct (explore_exploring c nbs (done ++ [c]) s1) as (H1 & H2 & H3);
         [ | exact Hs1 | ] ]
    end.
    + constructor; simpl; auto.
      * rewrite <- app_assoc. simpl. now rewrite <- Hq.
      * rewrite length_app. simpl. rewrite Hq in Hlen. simpl in Hlen. lia.
    + intros nb Hnb. eapply reachable_step; eauto.
    + apply (IH _ _ H1); [|exact Hloop].
      intros u l Hu Hl. apply in_app_or in Hu as [Hu|[<-|[]]].
      * intros z Hz. apply H2. simpl. eapply Hx; eauto.
      * rewrite Hnbs in Hl. injection Hl as <-. exact H3.
Qed.
End BfsCorrect.

(** On a graph whose adjacency lists name keys of [adj] only, from a start
    node that is such a key, the BFS generator returns a trace whose final
    Step holds in [visited], each once, exactly the nodes that can be
    reached from the start node; a trace for [n] such nodes has [2n + 1]
    Steps: one to start, one for each node dequeued, one for each node
    discovered, one to finish. *)
Theorem bfs_visits_reachable (graph : GraphData) (startNode : string) :
  closed graph -> In startNode (keys (adj graph)) ->
  exists trace final seen,
    Bfs.generateSteps graph startNode = Returned trace
    /\ finalStep trace = Some final
    /\ visited final = Some seen
    /\ NoDup seen
    /\ (forall v, In v seen <-> reachable graph startNode v)
    /\ List.length trace = (2 * List.length seen + 1)%nat.
Proof.
  intros Hclosed Hstart.
  destruct (bfs_returns graph Hclosed startNode Hstart) as (trace & Htrace & _).
  unfold Bfs.generateSteps, Bfs.generateSteps_fuel in *.
  destruct (Bfs.loop _ graph (Bfs.start startNode)) as [s'|] eqn:Hloop; [|discriminate].
  simpl in Htrace. injection Htrace as <-.
  destruct (fun H1 H2 => loop_exploring graph startNode _ [] _ _ H1 H2 Hloop)
    as (done & [Hseen Hnd Hst Hreach Hlen] & Hx & Hq).
  - constructor; simpl; auto.
    + constructor; [intros [] | constructor].
    + intros v [<-|[]]. constructor.
  - intros u l [].
  - exists (Bfs.finish s'), (Bfs.snapshot [] (Bfs.seen s') None None
                               "Queue is empty. BFS traversal complete."), (Bfs.seen s').
    split; [reflexivity|]. split; [apply finalStep_snoc|]. split; [reflexivity|].
    split; [assumption|]. split.
    + intros v. split; [apply Hreach|].
      induction 1 as [|u v l _ IH Hl Hv]; [assumption|].
      rewrite Hq, app_nil_r in Hseen. eapply Hx; eauto. now rewrite <- Hseen.
    + unfold Bfs.finish. rewrite length_app. simpl. rewrite Hq in Hlen. simpl in Hlen. lia.
Qed.

Lemma bfs_visits_reachable_witness :
  exists trace final seen,
    Bfs.generateSteps Bfs.graphData "C" = Returned trace
    /\ finalStep trace = Some final
    /\ visited final = Some seen
    /\ NoDup seen
    /\ (forall v, In v seen <-> reachable Bfs.graphData "C" v)
    /\ List.length trace = (2 * List.length seen + 1)%nat.
Proof.
  apply bfs_visits_reachable.
  - intros k l Hl z Hz. simpl in Hl.
    repeat match type of Hl with
           | (if ?b then _ else _) = _ => destruct b; [injection Hl as <-; simpl in *; tauto|]
           end.
    discriminate.
  - simpl; tauto.
Defined.

(** ** The unweighted shortest-path generator computes hop distances *)

(** A path of [n] hops from [s] to [v] along the adjacency lists. *)
Inductive path (graph : GraphData) (s : string) : string -> nat -> Prop :=
| path_start : path graph s s 0
| path_step (u v : string) (l : list string) (n : nat) :
    path graph s u n -> get (adj graph) u = Some l -> In v l ->
    path graph s v (S n).

(** The number a [distances] record shows for a node. *)
Definition level (dist : record distance) (v : string) : Z :=
  match get dist v with
  | Some (Num n) => n
  | _ => (-1)%Z
  end.

Lemma StronglySorted_ext {A : Type} (f g : A -> Z) (l : list A) :
  (forall x, In x l -> f x = g x) ->
  StronglySorted (fun a b => (f a <= f b)%Z) l ->
  StronglySorted (fun a b => (g a <= g b)%Z) l.
Proof.
  intros Hfg H. induction H as [|a l Hl IH Ha]; constructor.
  - apply IH. intros x Hx. apply Hfg. now right.
  - rewrite Forall_forall in *. intros x Hx.
    rewrite <- (Hfg a (or_introl eq_refl)), <- (Hfg x (or_intror Hx)). auto.
Qed.

Lemma StronglySorted_snoc {A : Type} (f : A -> Z) (l : list A) (x : A) :
  StronglySorted (fun a b => (f a <= f b)%Z) l ->
  (forall a, In a l -> (f a <= f x)%Z) ->
  StronglySorted (fun a b => (f a <= f b)%Z) (l ++ [x]).
Proof.
  intros H Hx. induction H as [|a l Hl IH Ha]; simpl.
  - repeat constructor.
  - constructor.
    + apply IH. intros b Hb. apply Hx. now right.
    + apply Forall_app. split; [assumption|].
      constructor; [apply Hx; now left | constructor].
Qed.

Lemma get_initial_distances (ns : list Node) (d0 : record distance) (v : string) :
  get (fold_left (fun d node => set d (id node) Infinite) ns d0) v
  = if has (map id ns) v then Some Infinite else get d0 v.
Proof.
  revert d0. induction ns as [|n ns IH]; intros d0; simpl; [reflexivity|].
  rewrite IH. destruct (String.eqb_spec v (id n)) as [->|Hne]; simpl.
  - rewrite get_set_same. now destruct (has (map id ns) (id n)).
  - rewrite get_set_other by assumption. reflexivity.
Qed.

Section UnweightedCorrect.
Import ShortestPathUnweighted.

Variable graph : GraphData.
Variable startNode : string.

(** The distances before the traversal. *)
Let dist0 : record distance := dist (start graph startNode).

(** What holds while the neighbours of [c], dequeued at level [lc], are
    explored; [done] lists the nodes dequeued so far, [c] last. *)
Record exploringAt (c : string) (lc : Z) (done : list string) (s : state) : Prop := {
  at_seen : seen s = done ++ queue s;
  at_NoDup : NoDup (seen s);
  at_current : In c done /\ get (dist s) c = Some (Num lc);
  at_paths : forall v, In v (seen s) ->
               exists n, get (dist s) v = Some (Num (Z.of_nat n)) /\ path graph startNode v n;
  at_sorted : StronglySorted (fun a b => (level (dist s) a <= level (dist s) b)%Z) (queue s);
  at_range : forall q, In q (queue s) -> (lc <= level (dist s) q <= lc + 1)%Z;
  at_done : forall u, In u done -> (level (dist s) u <= lc)%Z;
  at_fresh : forall v, ~ In v (seen s) -> get (dist s) v = get dist0 v;
  at_expanded : forall u l w, In u done -> u <> c -> get (adj graph) u = Some l -> In w l ->
                  In w (seen s) /\ (level (dist s) w <= level (dist s) u + 1)%Z
}.

Lemma level_set_other (d : record distance) (v w : string) (x : distance) :
  v <> w -> level (set d w x) v = level d v.
Proof. intros H. unfold level. now rewrite get_set_other. Qed.

Lemma level_set_same (d : record distance) (w : string) (n : Z) :
  level (set d w (Num n)) w = n.
Proof. unfold level. now rewrite get_set_same. Qed.

Lemma explore_exploringAt (c : string) (lc : Z) (all nbs done : list string) (s s' : state) :
  get (adj graph) c = Some all -> incl nbs all ->
  exploringAt c lc done s ->
  explore c nbs s = Returned s' ->
  exploringAt c lc done s'
  /\ incl (seen s) (seen s')
  /\ (forall v, In v (seen s) -> get (dist s') v = get (dist s) v)
  /\ (forall w, In w nbs -> In w (seen s') /\ (level (dist s') w <= lc + 1)%Z).
Proof.
  intros Hall. revert s. induction nbs as [|nb nbs IH]; intros s Hn Hs Hex; simpl in Hex.
  - injection Hex as <-. split; [assumption|]. split; [apply incl_refl|].
    split; [auto | intros w []].
  - assert (Hn' : incl nbs all) by (intros z Hz; apply Hn; now right).
    destruct (has (seen s) nb) eqn:E.
    + destruct (IH s Hn' Hs Hex) as (H1 & H2 & H3 & H4).
      split; [assumption|]. split; [assumption|]. split; [assumption|].
      intros w [<-|Hw]; [|auto].
      apply has_In in E. split; [auto|].
      unfold level. rewrite (H3 _ E). fold (level (dist s) nb).
      destruct Hs as [Hseen _ [Hc Hlc] _ _ Hrange Hdone _ _].
      rewrite Hseen in E. apply in_app_or in E as [E|E].
      * specialize (Hdone _ E). lia.
      * specialize (Hrange _ E). lia.
    + pose proof Hs as [Hseen Hnd [Hc Hlc] Hpaths Hsorted Hrange Hdone Hfresh Hexp].
      rewrite Hlc in Hex. cbn [bind] in Hex.
      apply has_false in E.
      assert (Hadd : add (seen s) nb = seen s ++ [nb])
        by (unfold add; now rewrite (proj2 (has_false _ _) E)).
      assert (Hcs : In c (seen s)) by (rewrite Hseen; apply in_or_app; auto).
      assert (Hcnb : c <> nb) by (intros ->; contradiction).
      assert (Hold : forall v, In v (seen s) -> v <> nb) by (intros v Hv ->; contradiction).
      assert (Hlev : forall v, In v (seen s) ->
                level (set (dist s) nb (Num (lc + 1))) v = level (dist s) v)
        by (intros v Hv; apply level_set_other; auto).
      destruct (Hpaths c Hcs) as (nc & Hnc & Hpc).
      assert (Hlcn : lc = Z.of_nat nc) by congruence.
      match type of Hex with explore c nbs ?s1 = _ =>
        destruct (IH s1 Hn') as (H1 & H2 & H3 & H4); [|exact Hex|] end.
      * constructor; simpl; rewrite ?Hadd.
        -- rewrite Hseen. now rewrite app_assoc.
        -- rewrite <- Hadd. now apply add_NoDup.
        -- split; [assumption|]. now rewrite get_set_other.
        -- intros v Hv. apply in_app_or in Hv as [Hv|[<-|[]]].
           ++ rewrite get_set_other by auto. apply Hpaths, Hv.
           ++ exists (S nc). rewrite get_set_same. split.
              ** do 2 f_equal. lia.
              ** eapply path_step; eauto. apply Hn. now left.
        -- apply StronglySorted_snoc.
           ++ eapply StronglySorted_ext; [|exact Hsorted].
              intros x Hx. symmetry. apply Hlev. rewrite Hseen. apply in_or_app. auto.
           ++ intros a Ha. rewrite level_set_same.
              rewrite Hlev by (rewrite Hseen; apply in_or_app; auto).
              specialize (Hrange _ Ha). lia.
        -- intros q Hq. apply in_app_or in Hq as [Hq|[<-|[]]].
           ++ rewrite Hlev by (rewrite Hseen; apply in_or_app; auto). auto.
           ++ rewrite level_set_same. lia.
        -- intros u Hu. rewrite Hlev by (rewrite Hseen; apply in_or_app; auto). auto.
        -- intros v Hv. rewrite get_set_other.
           ++ apply Hfresh. intros Hv'. apply Hv. apply in_or_app. auto.
           ++ intros ->. apply Hv. apply in_or_app. right. now left.
        -- intros u l w Hu Huc Hl Hw. destruct (Hexp u l w Hu Huc Hl Hw) as [Hws Hwl].
           split; [apply in_or_app; auto|].
           rewrite !Hlev; auto. rewrite Hseen. apply in_or_app. auto.
      * simpl in H2, H3, H4. rewrite Hadd in *.
        split; [assumption|].
        split; [intros z Hz; apply H2; apply in_or_app; auto|].
        split.
        -- intros v Hv. rewrite H3 by (apply in_or_app; auto).
           apply get_set_other. auto.
        -- intros w [<-|Hw]; [|auto]. split; [apply H2, in_or_app; right; now left|].
           unfold level. rewrite H3 by (apply in_or_app; right; now left).
           rewrite get_set_same. lia.
Qed.

(** What holds between two iterations of the [while] loop. *)
Record leveled (done : list string) (s : state) : Prop := {
  lv_seen : seen s = done ++ queue s;
  lv_NoDup : NoDup (seen s);
  lv_start : In startNode (seen s) /\ get (dist s) startNode = Some (Num 0);
  lv_paths : forall v, In v (seen s) ->
               exists n, get (dist s) v = Some (Num (Z.of_nat n)) /\ path graph startNode v n;
  lv_sorted : StronglySorted (fun a b => (level (dist s) a <= level (dist s) b)%Z) (queue s);
  lv_range : forall a b, In a (queue s) -> In b (queue s) ->
               (level (dist s) b <= level (dist s) a + 1)%Z;
  lv_done : forall u q, In u done -> In q (queue s) -> (level (dist s) u <= level (dist s) q)%Z;
  lv_fresh : forall v, ~ In v (seen s) -> get (dist s) v = get dist0 v;
  lv_expanded : forall u l w, In u done -> get (adj graph) u = Some l -> In w l ->
                  In w (seen s) /\ (level (dist s) w <= level (dist s) u + 1)%Z
}.

Lemma loop_leveled (fuel : nat) (s' : state) :
  forall (done : list string) (s : state),
  leveled done s -> loop fuel graph s = Returned s' ->
  exists done', leveled done' s' /\ queue s' = [].
Proof.
  induction fuel as [|fuel IH]; intros done s Hs Hloop; simpl in Hloop.
  - destruct (queue s) as [|c q] eqn:Hq; [|discriminate].
    injection Hloop as <-. eauto.
  - destruct (queue s) as [|c q] eqn:Hq; [injection Hloop as <-; eauto|].
    destruct (get (adj graph) c) as [nbs|] eqn:Hnbs; [|discriminate].
    cbn [bind orThrow] in Hloop.
    match type of Hloop with context [explore c nbs ?s1] =>
      destruct (explore c nbs s1) as [s2|] eqn:Hex; [|discriminate] end.
    cbn [bind] in Hloop.
    destruct Hs as [Hseen Hnd [Hst Hst0] Hpaths Hsorted Hrange Hdone Hfresh Hexp].
    rewrite Hq in *.
    assert (Hcs : In c (seen s)) by (rewrite Hseen; apply in_or_app; right; now left).
    destruct (Hpaths c Hcs) as (nc & Hnc & Hpc).
    assert (Hlc : level (dist s) c = Z.of_nat nc) by (unfold level; now rewrite Hnc).
    inversion Hsorted as [|? ? Hsq Hhead]; subst.
    rewrite Forall_forall in Hhead.
    match type of Hex with explore c nbs ?s1 = _ =>
      destruct (fun H => explore_exploringAt c (Z.of_nat nc) nbs nbs (done ++ [c]) s1 s2 Hnbs
                           (incl_refl _) H Hex) as (H1 & H2 & H3 & H4) end.
    + constructor; simpl; auto.
      * rewrite <- app_assoc. exact Hseen.
      * split; [apply in_or_app; right; now left | exact Hnc].
      * intros x Hx. specialize (Hhead x Hx).
        specialize (Hrange c x (or_introl eq_refl) (or_intror Hx)). lia.
      * intros u Hu. apply in_app_or in Hu as [Hu|[<-|[]]]; [|lia].
        specialize (Hdone u c Hu (or_introl eq_refl)). lia.
      * intros u l w Hu Huc Hl Hw. apply in_app_or in Hu as [Hu|[<-|[]]]; [|congruence].
        eapply Hexp; eauto.
    + simpl in H2, H3.
      destruct H1 as [Hseen2 Hnd2 [Hc2 Hlc2] Hpaths2 Hsorted2 Hrange2 Hdone2 Hfresh2 Hexp2].
      apply (IH (done ++ [c]) s2); [|exact Hloop].
      constructor; auto.
      * split; [apply H2, Hst | now rewrite (H3 _ Hst)].
      * intros a b Ha Hb. pose proof (Hrange2 _ Ha). pose proof (Hrange2 _ Hb). lia.
      * intros u x Hu Hx. pose proof (Hdone2 _ Hu). pose proof (Hrange2 _ Hx). lia.
      * intros u l w Hu Hl Hw. destruct (string_dec u c) as [->|Huc].
        -- rewrite Hnbs in Hl. injection Hl as <-.
           destruct (H4 w Hw) as [Hws Hwl]. split; [assumption|].
           unfold level at 2. rewrite Hlc2. lia.
        -- eapply Hexp2; eauto.
Qed.

Lemma leveled_start : In startNode (keys (adj graph)) -> leveled [] (start graph startNode).
Proof.
  intros _. unfold start. constructor; simpl.
  - reflexivity.
  - constructor; [intros [] | constructor].
  - split; [now left | apply get_set_same].
  - intros v [<-|[]]. exists 0%nat. split; [apply get_set_same | constructor].
  - repeat constructor.
  - intros a b [<-|[]] [<-|[]]. lia.
  - intros u q [].
  - reflexivity.
  - intros u l w [].
Qed.
End UnweightedCorrect.



(** ** Kruskal's algorithm returns a spanning forest *)

(** [x] and [y] are joined by a chain of edges of [es], in any direction. *)
Inductive connected (es : list Edge) : string -> string -> Prop :=
| connected_refl (x : string) : connected es x x
| connected_edge (e : Edge) (x y : string) :
    In e es -> Reference.joins e x y -> connected es x y
| connected_trans (x y z : string) :
    connected es x y -> connected es y z -> connected es x z.

Lemma connected_sym (es : list Edge) (x y : string) :
  connected es x y -> connected es y x.
Proof.
  induction 1 as [x | e x y He Hj | x y z _ IH1 _ IH2].
  - constructor.
  - apply connected_edge with e; [assumption|]. unfold Reference.joins in *. tauto.
  - eapply connected_trans; eauto.
Qed.

Lemma connected_incl (es es' : list Edge) (x y : string) :
  incl es es' -> connected es x y -> connected es' x y.
Proof.
  intros Hincl. induction 1 as [x | e x y He Hj | x y z _ IH1 _ IH2].
  - constructor.
  - apply connected_edge with e; auto.
  - eapply connected_trans; eauto.
Qed.

(** What one more edge connects. *)
Lemma connected_snoc (pre : list Edge) (e : Edge) (x y : string) :
  connected (pre ++ [e]) x y
  <-> connected pre x y
      \/ (connected pre x (from e) /\ connected pre (to e) y)
      \/ (connected pre x (to e) /\ connected pre (from e) y).
Proof.
  split.
  - induction 1 as [x | e' x y He Hj | x y z _ IH1 _ IH2].
    + left. constructor.
    + apply in_app_or in He as [He|[<-|[]]].
      * left. eapply connected_edge; eauto.
      * destruct Hj as [[<- <-]|[<- <-]]; right; [left | right];
          split; constructor.
    + assert (S := connected_sym pre). assert (T := connected_trans pre).
      destruct IH1 as [H1|[[H1 H1']|[H1 H1']]], IH2 as [H2|[[H2 H2']|[H2 H2']]];
        eauto 8.
  - assert (Hpre : forall a b, connected pre a b -> connected (pre ++ [e]) a b)
      by (intros a b; apply connected_incl; intros z Hz; apply in_or_app; auto).
    assert (He : connected (pre ++ [e]) (from e) (to e)).
    { apply connected_edge with e; [apply in_or_app; right; now left|].
      left; auto. }
    intros [H|[[H1 H2]|[H1 H2]]].
    + auto.
    + eapply connected_trans; [apply Hpre, H1|].
      eapply connected_trans; [exact He | apply Hpre, H2].
    + eapply connected_trans; [apply Hpre, H1|].
      eapply connected_trans; [apply connected_sym, He | apply Hpre, H2].
Qed.

(** A list of edges none of which closes a cycle with the ones before it. *)
Inductive acyclic : list Edge -> Prop :=
| acyclic_nil : acyclic []
| acyclic_snoc (l : list Edge) (e : Edge) :
    acyclic l -> ~ connected l (from e) (to e) -> acyclic (l ++ [e]).

(** Two elements with the same root. *)
Definition together (p : DisjointSet.t) (x y : string) : Prop :=
  exists r n m, climbs p n x r /\ climbs p m y r.

Lemma together_keepsRoots (p q : DisjointSet.t) (x y : string) :
  forest p -> keepsRoots p q -> In x (keys p) -> In y (keys p) ->
  (together q x y <-> together p x y).
Proof.
  intros Hf Hkeep Hx Hy.
  destruct (Hf x Hx) as (nx & rx & Hcx). destruct (Hf y Hy) as (ny & ry & Hcy).
  destruct (Hkeep _ _ _ Hcx) as (mx & Hqx). destruct (Hkeep _ _ _ Hcy) as (my & Hqy).
  split; intros (r & n & m & H1 & H2).
  - destruct (climbs_fun _ _ _ _ _ _ H1 Hqx) as [_ ->].
    destruct (climbs_fun _ _ _ _ _ _ H2 Hqy) as [_ ->].
    exists ry, nx, ny. auto.
  - destruct (climbs_fun _ _ _ _ _ _ H1 Hcx) as [_ ->].
    destruct (climbs_fun _ _ _ _ _ _ H2 Hcy) as [_ ->].
    exists ry, mx, my. auto.
Qed.

Lemma together_union (p : DisjointSet.t) (a b x y : string) :
  forest p -> In a (keys p) -> In b (keys p) -> In x (keys p) -> In y (keys p) ->
  exists p',
    DisjointSet.union p a b = Returned p'
    /\ (together p' x y
        <-> together p x y
            \/ (together p x a /\ together p b y)
            \/ (together p x b /\ together p a y)).
Proof.
  intros Hf Ha Hb Hx Hy.
  destruct (union_roots p a b Hf Ha Hb)
    as (p' & ra & rb & na & nb & Hun & _ & _ & Hca & Hcb & Hmove).
  destruct (Hf x Hx) as (nx & rx & Hcx). destruct (Hf y Hy) as (ny & ry & Hcy).
  destruct (Hmove _ _ _ Hcx) as (mx & Hcx'). destruct (Hmove _ _ _ Hcy) as (my & Hcy').
  exists p'. split; [exact Hun|].
  assert (Hsame : forall u v ru rv nu nv, climbs p nu u ru -> climbs p nv v rv ->
            (together p u v <-> ru = rv)).
  { intros u v ru rv nu nv Hu Hv. split.
    - intros (r & n & m & H1 & H2).
      destruct (climbs_fun _ _ _ _ _ _ H1 Hu) as [_ ->].
      destruct (climbs_fun _ _ _ _ _ _ H2 Hv) as [_ ->]. reflexivity.
    - intros ->. exists rv, nu, nv. auto. }
  rewrite (Hsame _ _ _ _ _ _ Hcx Hcy), (Hsame _ _ _ _ _ _ Hcx Hca),
          (Hsame _ _ _ _ _ _ Hcb Hcy), (Hsame _ _ _ _ _ _ Hcx Hcb),
          (Hsame _ _ _ _ _ _ Hca Hcy).
  split.
  - intros (r & n & m & H1 & H2).
    destruct (climbs_fun _ _ _ _ _ _ H1 Hcx') as [_ ->].
    destruct (climbs_fun _ _ _ _ _ _ H2 Hcy') as [_ E].
    destruct (string_dec rx rb), (string_dec ry rb); subst; auto.
  - intros H.
    assert (E : (if string_dec rx rb then ra else rx) = (if string_dec ry rb then ra else ry)).
    { destruct (string_dec rx rb), (string_dec ry rb); subst;
        destruct H as [H|[[H1 H2]|[H1 H2]]]; congruence. }
    exists (if string_dec rx rb then ra else rx), mx, my. split; [assumption|].
    rewrite E. assumption.
Qed.

Section KruskalForest.
Import Kruskal.

Variable graph : GraphData.
Variable es : list Edge.
Hypothesis graph_edges : edges graph = Some es.
Hypothesis endpoints : forall e, In e es ->
  In (from e) (map id (nodes graph)) /\ In (to e) (map id (nodes graph)).

Let ids : list string := map id (nodes graph).

(** [q] groups the nodes as [p] does. *)
Definition sameSets (p q : DisjointSet.t) : Prop :=
  forall x y, In x ids -> In y ids -> (together q x y <-> together p x y).

Lemma sameSets_keepsRoots (p q : DisjointSet.t) :
  built ids p -> keepsRoots p q -> sameSets p q.
Proof.
  intros Hb Hkeep x y Hx Hy. destruct (built_forest _ _ Hb) as [Hf Hk].
  apply together_keepsRoots; auto; now apply Hk.
Qed.

Lemma find_keeps (p : DisjointSet.t) (i : string) :
  built ids p -> In i ids ->
  exists r p' n, DisjointSet.find p i = Returned (r, p') /\ built ids p'
                 /\ keepsRoots p p' /\ climbs p' n i r.
Proof.
  intros Hb Hi. destruct (built_forest _ _ Hb) as [Hf Hk].
  destruct (Hf i (proj2 (Hk i) Hi)) as (n & r & Hc).
  destruct (find_spec _ _ _ _ Hc) as (p' & Hfind & _ & Hkeep).
  destruct (Hkeep _ _ _ Hc) as (m & Hc').
  exists r, p', m. split; [exact Hfind|].
  split; [exact (built_find _ _ _ _ _ Hb Hi Hfind)|]. auto.
Qed.

Lemma together_roots (p : DisjointSet.t) (x y rx ry : string) (n m : nat) :
  climbs p n x rx -> climbs p m y ry -> (together p x y <-> rx = ry).
Proof.
  intros Hx Hy. split.
  - intros (r & n' & m' & H1 & H2).
    destruct (climbs_fun _ _ _ _ _ _ H1 Hx) as [_ ->].
    destruct (climbs_fun _ _ _ _ _ _ H2 Hy) as [_ ->]. reflexivity.
  - intros ->. exists ry, n, m. auto.
Qed.

Lemma emit_spec (sorted : list Edge) (desc : string) (edge : option Edge) (s : state) :
  built ids (dsu s) ->
  exists sets p',
    emit sorted desc edge s
    = Returned {| dsu := p'; mst := mst s;
                  steps := steps s ++ [snapshot sorted desc sets edge (mst s)] |}
    /\ built ids p' /\ sameSets (dsu s) p'
    /\ (forall x y, In x ids -> In y ids ->
          (get sets x = get sets y <-> together (dsu s) x y)).
Proof.
  intros Hb. destruct (built_forest _ _ Hb) as [Hf Hk]. unfold emit.
  destruct (getSets_roots _ Hf) as (sets & p' & Hget & _ & Hkeep & Hsets & Hin).
  rewrite Hget. cbn [bind]. exists sets, p'. split; [reflexivity|].
  split; [exact (built_getSets _ _ _ _ Hb Hget)|].
  split; [now apply sameSets_keepsRoots|].
  intros x y Hx Hy.
  destruct (key_get_Some sets x) as [rx Hrx]; [apply Hin, Hk, Hx|].
  destruct (key_get_Some sets y) as [ry Hry]; [apply Hin, Hk, Hy|].
  destruct (Hsets _ _ Hrx) as (nx & Hcx). destruct (Hsets _ _ Hry) as (ny & Hcy).
  rewrite Hrx, Hry. split.
  - intros [= ->]. exists ry, nx, ny. auto.
  - intros (r & n & m & H1 & H2).
    destruct (climbs_fun _ _ _ _ _ _ H1 Hcx) as [_ ->].
    destruct (climbs_fun _ _ _ _ _ _ H2 Hcy) as [_ ->]. reflexivity.
Qed.

(** What holds once the edges [pre] have been considered and the edges
    [acc] among them accepted. *)
Record growing (pre acc : list Edge) (s : state) : Prop := {
  growing_built : built ids (dsu s);
  growing_sets : forall x y, In x ids -> In y ids ->
                   (together (dsu s) x y <-> connected pre x y);
  growing_spans : forall x y, connected acc x y <-> connected pre x y;
  growing_acyclic : acyclic acc;
  growing_incl : incl acc pre;
  growing_mst : mst s = fold_left add (map getEdgeKey acc) [];
  growing_steps : List.length (steps s) = (1 + 2 * List.length pre)%nat
}.

Lemma fold_add_snoc (l : list string) (k : string) :
  fold_left add (l ++ [k]) [] = add (fold_left add l []) k.
Proof. now rewrite fold_left_app. Qed.

Lemma consider_growing (sorted pre acc : list Edge) (edge : Edge) (s : state) :
  In edge es -> growing pre acc s ->
  exists s' acc', consider sorted edge s = Returned s' /\ growing (pre ++ [edge]) acc' s'
    /\ (acc' = acc \/ acc' = acc ++ [edge]).
Proof.
  intros He [Hb Hsets Hspans Hacyc Hincl Hmst Hsteps].
  destruct (endpoints _ He) as [Hfrom Hto]. fold ids in Hfrom, Hto.
  unfold consider.
  match goal with |- context [emit sorted ?desc ?e s] =>
    destruct (emit_spec sorted desc e s Hb) as (sets1 & p1 & -> & Hb1 & Hsame1 & _) end.
  cbn [bind dsu mst steps].
  destruct (find_keeps p1 (from edge) Hb1 Hfrom) as (rf & d1 & nf & -> & Hbd1 & Hkeep1 & Hcf).
  cbn [bind].
  destruct (find_keeps d1 (to edge) Hbd1 Hto) as (rt & d2 & nt & -> & Hbd2 & Hkeep2 & Hct).
  cbn [bind].
  destruct (Hkeep2 _ _ _ Hcf) as (nf' & Hcf').
  assert (Hd2 : forall x y, In x ids -> In y ids ->
            (together d2 x y <-> connected pre x y)).
  { intros x y Hx Hy.
    rewrite (sameSets_keepsRoots _ _ Hbd1 Hkeep2 x y Hx Hy),
            (sameSets_keepsRoots _ _ Hb1 Hkeep1 x y Hx Hy), (Hsame1 x y Hx Hy).
    now apply Hsets. }
  assert (Hroots : rf = rt <-> connected pre (from edge) (to edge)).
  { rewrite <- Hd2 by assumption. symmetry. eapply together_roots; eauto. }
  assert (Hlen : forall st1 st2 : Step,
            List.length ((steps s ++ [st1]) ++ [st2])
            = (1 + 2 * List.length (pre ++ [edge]))%nat).
  { intros. rewrite !length_app. simpl. lia. }
  destruct (String.eqb_spec rf rt) as [Heq|Hne]; cbn [negb].
  - (* the edge would close a cycle *)
    apply Hroots in Heq.
    match goal with |- context [emit sorted ?desc ?e ?s2] =>
      destruct (emit_spec sorted desc e s2 Hbd2) as (sets3 & p3 & -> & Hb3 & Hsame3 & _) end.
    cbn [dsu mst steps] in *.
    assert (Hsame : forall x y, connected (pre ++ [edge]) x y <-> connected pre x y).
    { intros x y. rewrite connected_snoc. split; [|auto].
      intros [H|[[H1 H2]|[H1 H2]]]; [assumption| |].
      - eapply connected_trans; [exact H1|]. eapply connected_trans; [exact Heq | exact H2].
      - eapply connected_trans; [exact H1|].
        eapply connected_trans; [apply connected_sym, Heq | exact H2]. }
    eexists _, acc. split; [reflexivity|]. split; [|now left].
    constructor; cbn [dsu mst steps]; auto.
    + intros x y Hx Hy. rewrite (Hsame3 x y Hx Hy), Hsame. now apply Hd2.
    + intros x y. rewrite Hsame. apply Hspans.
    + intros z Hz. apply in_or_app. auto.
  - (* the edge joins two sets *)
    destruct (built_forest _ _ Hbd2) as [Hf2 Hk2].
    destruct (fun x y Hx Hy => together_union d2 (from edge) (to edge) x y Hf2
                (proj2 (Hk2 _) Hfrom) (proj2 (Hk2 _) Hto) (proj2 (Hk2 x) Hx) (proj2 (Hk2 y) Hy))
      with (x := from edge) (y := to edge) as (d3 & Hun & _); auto.
    rewrite Hun. cbn [bind].
    assert (Hbd3 : built ids d3) by exact (built_union _ _ _ _ _ Hbd2 Hfrom Hto Hun).
    match goal with |- context [emit sorted ?desc ?e ?s2] =>
      destruct (emit_spec sorted desc e s2 Hbd3) as (sets3 & p3 & -> & Hb3 & Hsame3 & _) end.
    cbn [dsu mst steps] in *.
    eexists _, (acc ++ [edge]). split; [reflexivity|]. split; [|now right].
    constructor; cbn [dsu mst steps]; auto.
    + intros x y Hx Hy. rewrite (Hsame3 x y Hx Hy).
      destruct (together_union d2 (from edge) (to edge) x y Hf2
                  (proj2 (Hk2 _) Hfrom) (proj2 (Hk2 _) Hto)
                  (proj2 (Hk2 x) Hx) (proj2 (Hk2 y) Hy)) as (d3' & Hun' & Hiff).
      rewrite Hun in Hun'. injection Hun' as <-.
      rewrite Hiff, connected_snoc, !Hd2 by assumption. reflexivity.
    + intros x y. rewrite !connected_snoc, !Hspans. reflexivity.
    + constructor; [assumption|]. rewrite Hspans, <- Hroots. assumption.
    + intros z Hz. apply in_app_or in Hz as [Hz|Hz]; apply in_or_app; auto.
    + rewrite map_app. simpl. rewrite fold_add_snoc. now rewrite Hmst.
Qed.

Lemma forEdges_growing (sorted rest pre acc : list Edge) (s : state) :
  incl rest es -> growing pre acc s ->
  exists s' acc', forEdges sorted rest s = Returned s' /\ growing (pre ++ rest) acc' s'.
Proof.
  revert pre acc s. induction rest as [|e rest IH]; intros pre acc s Hincl Hs; simpl.
  - exists s, acc. rewrite app_nil_r. auto.
  - destruct (consider_growing sorted pre acc e s) as (s1 & acc1 & -> & Hs1 & _); auto.
    { apply Hincl. now left. }
    cbn [bind]. destruct (IH (pre ++ [e]) acc1 s1) as (s' & acc' & Hs' & Hg); auto.
    { intros z Hz. apply Hincl. now right. }
    exists s', acc'. split; [assumption|]. now rewrite <- app_assoc in Hg.
Qed.

(** The final Step of the run. *)
Lemma kruskal_forest :
  exists trace final sets accepted,
    generateSteps graph = Returned trace
    /\ List.length trace = (2 * List.length es + 2)%nat
    /\ finalStep trace = Some final
    /\ nodeSets final = Some sets
    /\ mstEdges final = Some (fold_left add (map getEdgeKey accepted) [])
    /\ incl accepted es /\ acyclic accepted
    /\ (forall x y, connected accepted x y <-> connected es x y)
    /\ (forall x y, In x ids -> In y ids ->
          (get sets x = get sets y <-> connected es x y)).
Proof.
  unfold generateSteps. rewrite graph_edges. cbn [bind orThrow].
  set (sorted := sortBy weight es).
  assert (Hsorted : forall z, In z sorted <-> In z es) by (intros z; apply sortBy_In).
  assert (Hconn : forall x y, connected sorted x y <-> connected es x y).
  { intros x y. split; apply connected_incl; intros z Hz; now apply Hsorted. }
  match goal with |- context [emit sorted ?desc ?e ?s0] =>
    destruct (emit_spec sorted desc e s0) as (sets0 & p0 & -> & Hb0 & Hsame0 & _) end.
  { apply built_make. }
  cbn [bind].
  match goal with |- context [forEdges sorted sorted ?s1] =>
    destruct (forEdges_growing sorted sorted [] [] s1) as (s2 & acc & -> & Hg) end.
  { intros z Hz. now apply Hsorted. }
  { constructor; cbn [dsu mst steps]; auto.
    - intros x y Hx Hy. rewrite (Hsame0 x y Hx Hy). split.
      + intros (r & n & m & H1 & H2).
        assert (Hroot : forall z k rz, In z ids ->
                  climbs (DisjointSet.make ids) k z rz -> rz = z).
        { intros z k rz Hz Hc.
          assert (H0 : climbs (DisjointSet.make ids) 0 z z)
            by (constructor; now apply get_make_element).
          now destruct (climbs_fun _ _ _ _ _ _ Hc H0). }
        rewrite <- (Hroot _ _ _ Hx H1), <- (Hroot _ _ _ Hy H2). constructor.
      + intros H. assert (x = y).
        { clear - H. induction H as [x | e x y [] _ | x y z _ -> _ ->]; reflexivity. }
        subst y. exists x, 0%nat, 0%nat.
        split; constructor; now apply get_make_element.
    - reflexivity.
    - constructor.
    - apply incl_refl. }
  cbn [bind app] in *. destruct Hg as [Hb Hsets Hspans Hacyc Hincl Hmst Hsteps].
  match goal with |- context [emit sorted ?desc ?e s2] =>
    destruct (emit_spec sorted desc e s2 Hb) as (sets & p & -> & _ & _ & Hget) end.
  cbn [bind steps]. eexists _, _, sets, acc. split; [reflexivity|].
  split.
  { rewrite length_app, Hsteps. unfold sorted. rewrite sortBy_length. simpl. lia. }
  split; [apply finalStep_snoc|]. split; [reflexivity|].
  split; [simpl; now rewrite Hmst|].
  split; [intros z Hz; apply Hsorted, Hincl, Hz|].
  split; [assumption|].
  split; [intros x y; rewrite Hspans; apply Hconn|].
  intros x y Hx Hy. rewrite (Hget x y Hx Hy), (Hsets x y Hx Hy). apply Hconn.
Qed.
End KruskalForest.



(** ** Dijkstra's generator computes least costs *)

(** A walk from [s] along the adjacency lists, each hop at the weight of
    the edge record the generator looks up for it. *)
Inductive route (graph : GraphData) (es : list Edge) (s : string) : string -> Z -> Prop :=
| route_start : route graph es s s 0
| route_step (u v : string) (l : list string) (e : Edge) (c : Z) :
    route graph es s u c -> get (adj graph) u = Some l -> In v l ->
    findEdge es u v = Some e -> route graph es s v (c + weight e).

Section DijkstraCorrect.
Import Dijkstra.

Variable graph : GraphData.
Variable es : list Edge.
Variable startNode : string.
Hypothesis graph_edges : edges graph = Some es.
Hypothesis graph_nodes : forall k l, get (adj graph) k = Some l ->
  incl l (map id (nodes graph)).
Hypothesis nonnegative : forall e, In e es -> (0 <= weight e)%Z.

Let dist0 : record distance := dist (start graph startNode).

Lemma findEdge_In (a b : string) (e : Edge) : findEdge es a b = Some e -> In e es.
Proof. unfold findEdge. intros H. now apply find_some in H. Qed.

(** What holds of a state of the run; the neighbours of the nodes in
    [open], finalized last, may still be waiting for their relaxation. *)
Record settled (open : list string) (s : state) : Prop := {
  st_sound : forall v d, get (dist s) v = Some (Num d) ->
               route graph es startNode v d /\ (0 <= d)%Z;
  st_total : forall v, In v (map id (nodes graph)) -> get (dist s) v <> None;
  st_fresh : forall v, (exists d, get (dist s) v = Some (Num d))
                       \/ get (dist s) v = get dist0 v;
  st_entries : forall it, In it (pq s) ->
                 exists d, get (dist s) (PriorityQueue.element it) = Some (Num d)
                           /\ (d <= PriorityQueue.priority it)%Z;
  st_pending : forall v d, get (dist s) v = Some (Num d) -> ~ In v (seen s) ->
                 In {| PriorityQueue.element := v; PriorityQueue.priority := d |} (pq s);
  st_relaxed : forall u l v e du, In u (seen s) -> ~ In u open ->
                 get (dist s) u = Some (Num du) -> get (adj graph) u = Some l ->
                 In v l -> findEdge es u v = Some e ->
                 exists dv, get (dist s) v = Some (Num dv) /\ (dv <= du + weight e)%Z;
  st_below : forall u du it, In u (seen s) -> get (dist s) u = Some (Num du) ->
               In it (pq s) -> (du <= PriorityQueue.priority it)%Z;
  st_sorted : ascending PriorityQueue.priority (pq s);
  st_start : get (dist s) startNode = Some (Num 0);
  st_final : forall u, In u (seen s) -> exists du, get (dist s) u = Some (Num du)
}.

Lemma relax_settled (c : string) (du : Z) (all : list string) :
  get (adj graph) c = Some all ->
  forall (nbs : list string) (s s' : state),
  incl nbs all -> In c (seen s) -> get (dist s) c = Some (Num du) ->
  (forall u d, In u (seen s) -> get (dist s) u = Some (Num d) -> (d <= du)%Z) ->
  settled [c] s -> relax graph c nbs s = Returned s' ->
  settled [c] s' /\ seen s' = seen s
  /\ (forall v, In v (seen s) -> get (dist s') v = get (dist s) v)
  /\ (forall v d, get (dist s) v = Some (Num d) ->
        exists d', get (dist s') v = Some (Num d') /\ (d' <= d)%Z)
  /\ (forall v e, In v nbs -> findEdge es c v = Some e ->
        In v (seen s)
        \/ exists dv, get (dist s') v = Some (Num dv) /\ (dv <= du + weight e)%Z).
Proof.
  intros Hall. induction nbs as [|nb nbs IH]; intros s s' Hn Hc Hdu Hmax Hs Hrelax;
    simpl in Hrelax.
  - injection Hrelax as <-. split; [assumption|]. split; [reflexivity|].
    split; [auto|]. split; [eauto using Z.le_refl|]. intros v e [].
  - assert (Hn' : incl nbs all) by (intros z Hz; apply Hn; now right).
    destruct (has (seen s) nb) eqn:E.
    + destruct (IH s s' Hn' Hc Hdu Hmax Hs Hrelax) as (H1 & H2 & H3 & H4 & H5).
      split; [assumption|]. split; [assumption|]. split; [assumption|].
      split; [assumption|].
      intros v e [<-|Hv] He; [left; now apply has_In | eauto].
    + rewrite graph_edges in Hrelax. cbn [bind orThrow] in Hrelax.
      rewrite Hdu in Hrelax. cbn [bind] in Hrelax.
      destruct (findEdge es c nb) as [edge|] eqn:Hedge; [|discriminate].
      cbn [bind orThrow] in Hrelax.
      apply has_false in E.
      assert (Hcnb : c <> nb) by (intros ->; contradiction).
      assert (Hw : (0 <= weight edge)%Z) by (apply nonnegative; eapply findEdge_In; eauto).
      pose proof Hs as [Hsound Htotal Hfresh Hentries Hpending Hrelaxed Hbelow Hsorted
                          Hstart Hfinal].
      destruct (Hsound _ _ Hdu) as [Hrc Hdu0].
      assert (Hnbid : In nb (map id (nodes graph))).
      { eapply graph_nodes; [exact Hall | apply Hn; now left]. }
      destruct (improves (du + weight edge) (get (dist s) nb)) eqn:Himp.
      * (* the distance of [nb] improves *)
        assert (Hold : forall d, get (dist s) nb = Some (Num d) -> (du + weight edge < d)%Z).
        { intros d Hd. rewrite Hd in Himp. simpl in Himp. now apply Z.ltb_lt. }
        match type of Hrelax with relax graph c nbs ?s1 = _ =>
          destruct (IH s1 s' Hn') as (H1 & H2 & H3 & H4 & H5); [ | | | |exact Hrelax|] end.
        -- exact Hc.
        -- simpl. now rewrite get_set_other.
        -- simpl. intros u d Hu Hd.
           assert (Hunb : u <> nb) by (intros ->; contradiction).
           rewrite get_set_other in Hd by assumption. eauto.
        -- constructor; simpl.
           ++ intros v d. destruct (string_dec v nb) as [->|Hv].
              ** rewrite get_set_same. intros [= <-]. split; [|lia].
                 eapply route_step; eauto. apply Hn. now left.
              ** rewrite get_set_other by assumption. apply Hsound.
           ++ intros v Hv. destruct (string_dec v nb) as [->|Hne].
              ** rewrite get_set_same. discriminate.
              ** rewrite get_set_other by assumption. now apply Htotal.
           ++ intros v. destruct (string_dec v nb) as [->|Hne].
              ** left. rewrite get_set_same. eauto.
              ** rewrite get_set_other by assumption. apply Hfresh.
           ++ intros it Hit. apply enqueue_In in Hit as [Hit| ->]; simpl.
              ** destruct (Hentries it Hit) as (d & Hd & Hle).
                 destruct (string_dec (PriorityQueue.element it) nb) as [Heq|Hne].
                 --- rewrite Heq in *. rewrite get_set_same. eexists. split; [reflexivity|].
                     specialize (Hold _ Hd). lia.
                 --- rewrite get_set_other by assumption. eauto.
              ** rewrite get_set_same. eexists. split; [reflexivity | lia].
           ++ intros v d Hv Hseen. apply enqueue_In.
              destruct (string_dec v nb) as [->|Hne].
              ** rewrite get_set_same in Hv. injection Hv as <-. now right.
              ** rewrite get_set_other in Hv by assumption. left. now apply Hpending.
           ++ intros u l v e du' Hu Huc Hdu' Hl Hv He.
              assert (Hunb : u <> nb) by (intros ->; contradiction).
              rewrite get_set_other in Hdu' by assumption.
              destruct (Hrelaxed u l v e du' Hu Huc Hdu' Hl Hv He) as (dv & Hdv & Hle).
              destruct (string_dec v nb) as [->|Hne].
              ** rewrite get_set_same. eexists. split; [reflexivity|].
                 specialize (Hold _ Hdv). lia.
              ** rewrite get_set_other by assumption. eauto.
           ++ intros u du' it Hu Hdu' Hit.
              assert (Hunb : u <> nb) by (intros ->; contradiction).
              rewrite get_set_other in Hdu' by assumption.
              apply enqueue_In in Hit as [Hit| ->]; [eauto|]. simpl.
              specialize (Hmax _ _ Hu Hdu'). lia.
           ++ apply sortBy_ascending.
           ++ destruct (string_dec startNode nb) as [<-|Hne].
              ** specialize (Hold _ Hstart). lia.
              ** now rewrite get_set_other.
           ++ intros u Hu.
              assert (Hunb : u <> nb) by (intros ->; contradiction).
              rewrite get_set_other by assumption. now apply Hfinal.
        -- simpl in H2, H3, H4, H5.
           split; [assumption|]. split; [assumption|].
           split.
           { intros v Hv. rewrite H3 by assumption.
             apply get_set_other. intros ->. contradiction. }
           split.
           { intros v d Hd. destruct (string_dec v nb) as [->|Hne].
             - destruct (H4 nb (du + weight edge)%Z) as (d' & Hd' & Hle);
                 [apply get_set_same|].
               exists d'. split; [assumption|]. specialize (Hold _ Hd). lia.
             - apply H4. now rewrite get_set_other. }
           intros v e [<-|Hv] He; [|eauto].
           right. rewrite Hedge in He. injection He as <-.
           apply H4. apply get_set_same.
      * (* no improvement: the distance of [nb] is a number, not larger *)
        destruct (IH s s' Hn' Hc Hdu Hmax Hs Hrelax) as (H1 & H2 & H3 & H4 & H5).
        split; [assumption|]. split; [assumption|]. split; [assumption|].
        split; [assumption|].
        intros v e [<-|Hv] He; [|eauto].
        right. rewrite Hedge in He. injection He as <-.
        destruct (get (dist s) nb) as [[d|]|] eqn:Hd; simpl in Himp.
        -- apply Z.ltb_ge in Himp. destruct (H4 _ _ Hd) as (d' & Hd' & Hle).
           exists d'. split; [assumption | lia].
        -- discriminate.
        -- exfalso. now apply (Htotal nb).
Qed.

Lemma ascending_head {A : Type} (key : A -> Z) (x : A) (l : list A) :
  ascending key (x :: l) -> ascending key l /\ forall y, In y l -> (key x <= key y)%Z.
Proof.
  intros H. inversion H as [|? ? Hl Hx]; subst. split; [assumption|].
  now apply Forall_forall.
Qed.

Lemma loop_settled (fuel : nat) (s' : state) :
  forall s, settled [] s -> loop fuel graph s = Returned s' ->
  settled [] s' /\ pq s' = [].
Proof.
  induction fuel as [|fuel IH]; intros s Hs Hloop; simpl in Hloop.
  - destruct (pq s) as [|it q] eqn:Hq; simpl in Hloop; [|discriminate].
    injection Hloop as <-. auto.
  - destruct (pq s) as [|it q] eqn:Hq; simpl in Hloop; [injection Hloop as <-; auto|].
    pose proof Hs as [Hsound Htotal Hfresh Hentries Hpending Hrelaxed Hbelow Hsorted
                        Hstart Hfinal].
    rewrite Hq in *. destruct (ascending_head _ _ _ Hsorted) as [Hsq Hhead].
    set (c := PriorityQueue.element it) in *.
    destruct (has (seen s) c) eqn:E.
    + (* a stale entry: the node is finalized already *)
      apply has_In in E. apply (IH _) in Hloop; [assumption|].
      constructor; simpl; auto.
      * intros it' Hit'. apply Hentries. now right.
      * intros v d Hv Hseen. destruct (Hpending v d Hv Hseen) as [Heq|H]; [|assumption].
        exfalso. apply Hseen. unfold c in E. now rewrite Heq in E.
      * intros u du it' Hu Hdu Hit'. eapply Hbelow; eauto. now right.
    + apply has_false in E.
      destruct (get (adj graph) c) as [l|] eqn:Hl; [|discriminate].
      cbn [bind orThrow] in Hloop.
      match type of Hloop with context [relax graph c l ?s1] =>
        destruct (relax graph c l s1) as [s2|] eqn:Hrelax; [|discriminate] end.
      cbn [bind] in Hloop.
      destruct (Hentries it (or_introl eq_refl)) as (du & Hdu & Hle). fold c in Hdu.
      assert (Hp : PriorityQueue.priority it = du).
      { destruct (Hpending c du Hdu E) as [Heq|Hin].
        - now rewrite Heq.
        - specialize (Hhead _ Hin). simpl in Hhead. lia. }
      assert (Hseen1 : forall u, In u (add (seen s) c) <-> In u (seen s) \/ u = c)
        by (intros u; apply add_In).
      match type of Hrelax with relax graph c l ?s1 = _ =>
        destruct (relax_settled c du l Hl l s1 s2 (incl_refl _))
          as (H1 & H2 & H3 & H4 & H5); [ | | | |exact Hrelax|] end.
      * simpl. apply Hseen1. now right.
      * exact Hdu.
      * simpl. intros u d Hu Hd. apply Hseen1 in Hu as [Hu| ->].
        -- specialize (Hbelow u d it Hu Hd (or_introl eq_refl)). lia.
        -- rewrite Hdu in Hd. injection Hd as <-. lia.
      * constructor; simpl; auto.
        -- intros it' Hit'. apply Hentries. now right.
        -- intros v d Hv Hseen. rewrite Hseen1 in Hseen.
           assert (Hvs : ~ In v (seen s)) by tauto.
           destruct (Hpending v d Hv Hvs) as [Heq|H]; [|assumption].
           exfalso. apply Hseen. right. unfold c. now rewrite Heq.
        -- intros u l' v e du' Hu Huc. apply Hseen1 in Hu as [Hu| ->]; [|simpl in Huc; tauto].
           now apply Hrelaxed.
        -- intros u du' it' Hu Hdu' Hit'. apply Hseen1 in Hu as [Hu| ->].
           ++ eapply Hbelow; eauto. now right.
           ++ rewrite Hdu in Hdu'. injection Hdu' as <-. specialize (Hhead _ Hit'). lia.
        -- intros u Hu. apply Hseen1 in Hu as [Hu| ->]; eauto.
      * simpl in H2, H3, H4, H5.
        apply (IH _) in Hloop; [assumption|].
        destruct H1 as [Hsound2 Htotal2 Hfresh2 Hentries2 Hpending2 Hrelaxed2 Hbelow2
                          Hsorted2 Hstart2 Hfinal2].
        constructor; auto.
        intros u l' v e du' Hu _ Hdu' Hl' Hv He.
        destruct (string_dec u c) as [->|Huc];
          [|apply (Hrelaxed2 u l' v e du' Hu); auto; intros [H|[]]; congruence].
        rewrite Hl in Hl'. injection Hl' as <-.
        assert (Hcs : In c (add (seen s) c)) by (apply Hseen1; now right).
        rewrite (H3 c Hcs), Hdu in Hdu'. injection Hdu' as <-.
        destruct (H5 v e Hv He) as [Hvs|Hdv]; [|assumption].
        assert (Hw : (0 <= weight e)%Z) by (apply nonnegative; eapply findEdge_In; eauto).
        apply Hseen1 in Hvs as Hvs'.
        destruct Hvs' as [Hvs'| ->].
        -- destruct (Hfinal v Hvs') as (dv & Hdv).
           exists dv. rewrite (H3 v Hvs). split; [assumption|].
           specialize (Hbelow v dv it Hvs' Hdv (or_introl eq_refl)). lia.
        -- exists du. rewrite (H3 c Hcs). split; [assumption | lia].
Qed.

Lemma settled_start : settled [] (start graph startNode).
Proof.
  assert (Hget : forall v d, get (dist (start graph startNode)) v = Some (Num d) ->
            v = startNode /\ d = 0%Z).
  { unfold start; simpl. intros v d. destruct (string_dec v startNode) as [->|Hne].
    - rewrite get_set_same. intros [= <-]. auto.
    - rewrite get_set_other by assumption. rewrite get_initial_distances.
      destruct (has _ v); discriminate. }
  constructor.
  - intros v d Hv. destruct (Hget v d Hv) as [-> ->]. split; [constructor | lia].
  - unfold start; simpl. intros v Hv. destruct (string_dec v startNode) as [->|Hne].
    + rewrite get_set_same. discriminate.
    + rewrite get_set_other by assumption. rewrite get_initial_distances.
      apply has_In in Hv. rewrite Hv. discriminate.
  - auto.
  - simpl. intros it [<-|[]]. simpl. exists 0%Z. rewrite get_set_same. split; [reflexivity | lia].
  - intros v d Hv _. destruct (Hget v d Hv) as [-> ->]. simpl. now left.
  - simpl. intros u l v e du [].
  - simpl. intros u du it [].
  - simpl. repeat constructor.
  - simpl. apply get_set_same.
  - simpl. intros u [].
Qed.

(** At the end, no route is cheaper than the distance shown. *)
Lemma settled_least (s : state) :
  settled [] s -> pq s = [] ->
  forall v c, route graph es startNode v c ->
  exists d, get (dist s) v = Some (Num d) /\ (d <= c)%Z.
Proof.
  intros [Hsound Htotal Hfresh Hentries Hpending Hrelaxed Hbelow Hsorted Hstart Hfinal] Hq.
  assert (Hall : forall v d, get (dist s) v = Some (Num d) -> In v (seen s)).
  { intros v d Hv. destruct (in_dec string_dec v (seen s)) as [H|H]; [assumption|].
    specialize (Hpending v d Hv H). rewrite Hq in Hpending. destruct Hpending. }
  induction 1 as [|u v l e c _ (du & Hdu & Hle) Hl Hv He].
  - exists 0%Z. split; [assumption | lia].
  - destruct (Hrelaxed u l v e du (Hall _ _ Hdu) (fun H => H) Hdu Hl Hv He) as (dv & Hdv & Hle').
    exists dv. split; [assumption | lia].
Qed.
End DijkstraCorrect.

(** Every adjacency has its edge record. *)
Definition backed (graph : GraphData) (es : list Edge) : bool :=
  forallb (fun kv =>
             forallb (fun nb => match findEdge es (fst kv) nb with
                                | Some _ => true
                                | None => false
                                end) (snd kv)) (adj graph).

Lemma backed_findEdge (graph : GraphData) (es : list Edge) (k nb : string) (l : list string) :
  backed graph es = true -> get (adj graph) k = Some l -> In nb l ->
  exists e, findEdge es k nb = Some e.
Proof.
  intros Hb Hl Hnb. apply get_In_pair in Hl. unfold backed in Hb.
  rewrite forallb_forall in Hb. specialize (Hb _ Hl). simpl in Hb.
  rewrite forallb_forall in Hb. specialize (Hb _ Hnb).
  destruct (findEdge es k nb) as [e|]; [eauto | discriminate].
Qed.



(** ** Karger's contraction ends on a cut of the original graph *)

Section KargerCut.
Import Karger.

(** The weight of the edges of [es] with one end in [g1] and the other in
    [g2]. *)
Definition crossing (es : list Edge) (g1 g2 : list string) : Z :=
  fold_left (fun sum e =>
               if (has g1 (from e) && has g2 (to e)) || (has g2 (from e) && has g1 (to e))
               then (sum + weight e)%Z else sum) es 0%Z.

(** The final Step shows two supernodes that split the five nodes, and
    the value of the cut between them in the sample graph. *)
Definition endsOnCut (s1 : state) : bool :=
  match finish s1, Types.edges sample with
  | Returned s2, Some es =>
      match observe s2 with
      | Returned trace =>
          match finalStep trace with
          | Some final =>
              match Types.supernodes final with
              | Some [(u, gu); (v, gv)] =>
                  (List.length (gu ++ gv) =? List.length (Types.nodes sample))%nat
                  && forallb (has (gu ++ gv)) (map id (Types.nodes sample))
                  && has gu u && has gv v
                  && (description final
                      =? template ["Contraction complete. The cut has a value of ";
                                   string_of_Z (crossing es gu gv); "."])%string
              | _ => false
              end
          | None => false
          end
      | Failed _ => false
      end
  | _, _ => false
  end.
End KargerCut.

(** Whatever [Math.random] returns, in [0, 1), on each call, the Karger
    generator ends with two supernodes that hold each of the five nodes of
    the sample graph exactly once, each supernode holding the node it is
    named after, and the value its last Step reports is the total weight
    of the sample graph's edges between the two. *)
Theorem karger_ends_on_a_cut (random : nat -> Karger.draw) :
  (forall k, Karger.unitInterval (random k)) ->
  exists trace final es u gu v gv,
    Karger.generateSteps random = Returned trace
    /\ finalStep trace = Some final
    /\ edges Karger.graphData = Some es
    /\ supernodes final = Some [(u, gu); (v, gv)]
    /\ In u gu /\ In v gv
    /\ NoDup (gu ++ gv)
    /\ (forall n, In n (gu ++ gv) <-> In n (map id (nodes Karger.graphData)))
    /\ description final
       = template ["Contraction complete. The cut has a value of ";
                   string_of_Z (crossing es gu gv); "."].
Proof.
  intros Hrandom.
  destruct Karger.start as [s0|] eqn:Hstart; [|vm_compute in Hstart; discriminate].
  assert (Hall : allChoices (List.length (Karger.edges s0)) endsOnCut s0 = true).
  { vm_compute in Hstart. injection Hstart as <-. vm_compute. reflexivity. }
  destruct (allChoices_sound random endsOnCut Hrandom _ _ Hall) as (s1 & Hloop & Hp).
  unfold endsOnCut in Hp.
  destruct (Karger.finish s1) as [s2|] eqn:Hfin; [|discriminate].
  change (Types.edges Karger.sample) with (edges Karger.graphData) in Hp.
  destruct (edges Karger.graphData) as [es|] eqn:Hes; [|discriminate].
  destruct (Karger.observe s2) as [trace|] eqn:Hobs; [|discriminate].
  destruct (finalStep trace) as [final|] eqn:Hfinal; [|discriminate].
  destruct (supernodes final) as [[|[u gu] [|[v gv] [|]]]|] eqn:Hsuper; try discriminate.
  apply andb_prop in Hp as [Hp Hdesc]. apply andb_prop in Hp as [Hp Hv].
  apply andb_prop in Hp as [Hp Hu]. apply andb_prop in Hp as [Hlen Hall2].
  exists trace, final, es, u, gu, v, gv.
  assert (Hrun : Karger.run random = Returned s2).
  { unfold Karger.run. rewrite Hstart. simpl. rewrite Hloop. simpl. exact Hfin. }
  split; [unfold Karger.generateSteps; rewrite Hrun; exact Hobs|].
  split; [first [reflexivity | assumption]|].
  split; [first [reflexivity | assumption]|].
  split; [first [reflexivity | assumption]|].
  split; [now apply has_In|]. split; [now apply has_In|].
  apply Nat.eqb_eq in Hlen. rewrite forallb_forall in Hall2.
  assert (Hincl : incl (map id (nodes Karger.graphData)) (gu ++ gv)).
  { intros n Hn. apply has_In, Hall2, Hn. }
  assert (Hnd : NoDup (gu ++ gv)).
  { apply NoDup_incl_NoDup with (l := map id (nodes Karger.graphData)).
    - repeat constructor; simpl; intuition discriminate.
    - rewrite Hlen. change (nodes Karger.graphData) with (Types.nodes Karger.sample).
      rewrite length_map. apply Nat.le_refl.
    - exact Hincl. }
  split; [exact Hnd|]. split.
  - intros n. split; [|apply Hincl].
    intros Hn. apply NoDup_length_incl with (l := map id (nodes Karger.graphData)) in Hincl.
    + now apply Hincl.
    + repeat constructor; simpl; intuition discriminate.
    + rewrite Hlen. change (nodes Karger.graphData) with (Types.nodes Karger.sample).
      rewrite length_map. apply Nat.le_refl.
  - now apply String.eqb_eq.
Qed.

Lemma karger_ends_on_a_cut_witness :
  exists trace final es u gu v gv,
    Karger.generateSteps alwaysLast = Returned trace
    /\ finalStep trace = Some final
    /\ edges Karger.graphData = Some es
    /\ supernodes final = Some [(u, gu); (v, gv)]
    /\ In u gu /\ In v gv
    /\ NoDup (gu ++ gv)
    /\ (forall n, In n (gu ++ gv) <-> In n (map id (nodes Karger.graphData)))
    /\ description final
       = template ["Contraction complete. The cut has a value of ";
                   string_of_Z (crossing es gu gv); "."].
Proof.
  apply karger_ends_on_a_cut. intros k. unfold Karger.unitInterval, alwaysLast. simpl. lia.
Defined.

(** ** Ford-Fulkerson: feasible flows, maximum flow, minimum cut *)

(** *** Sums over lists *)

Definition sumOver {A : Type} (g : A -> Z) (l : list A) : Z :=
  fold_right (fun a acc => (g a + acc)%Z) 0%Z l.

Lemma sumOver_cons {A : Type} (g : A -> Z) (a : A) (l : list A) :
  sumOver g (a :: l) = (g a + sumOver g l)%Z.
Proof. reflexivity. Qed.

Lemma sumOver_app {A : Type} (g : A -> Z) (l l' : list A) :
  sumOver g (l ++ l') = (sumOver g l + sumOver g l')%Z.
Proof. induction l as [|a l IH]; simpl; [reflexivity|]. rewrite IH. lia. Qed.

Lemma sumOver_ext {A : Type} (g h : A -> Z) (l : list A) :
  (forall a, In a l -> g a = h a) -> sumOver g l = sumOver h l.
Proof.
  induction l as [|a l IH]; intros H; simpl; [reflexivity|].
  rewrite (H a (or_introl eq_refl)), IH; [reflexivity|]. intros b Hb. apply H. now right.
Qed.

Lemma sumOver_le {A : Type} (g h : A -> Z) (l : list A) :
  (forall a, In a l -> (g a <= h a)%Z) -> (sumOver g l <= sumOver h l)%Z.
Proof.
  induction l as [|a l IH]; intros H; simpl; [lia|].
  pose proof (H a (or_introl eq_refl)).
  assert (sumOver g l <= sumOver h l)%Z by (apply IH; intros b Hb; apply H; now right).
  lia.
Qed.

Lemma sumOver_plus {A : Type} (g h : A -> Z) (l : list A) :
  sumOver (fun a => (g a + h a)%Z) l = (sumOver g l + sumOver h l)%Z.
Proof. induction l as [|a l IH]; simpl; [reflexivity|]. rewrite IH. lia. Qed.

Lemma sumOver_scale {A : Type} (c : Z) (g : A -> Z) (l : list A) :
  sumOver (fun a => (c * g a)%Z) l = (c * sumOver g l)%Z.
Proof. induction l as [|a l IH]; simpl; [lia|]. rewrite IH. lia. Qed.

Lemma sumOver_zero {A : Type} (g : A -> Z) (l : list A) :
  (forall a, In a l -> g a = 0%Z) -> sumOver g l = 0%Z.
Proof.
  induction l as [|a l IH]; intros H; simpl; [reflexivity|].
  rewrite (H a (or_introl eq_refl)), IH; [reflexivity|]. intros b Hb. apply H. now right.
Qed.

Definition pair_dec (p q : string * string) : {p = q} + {p <> q}.
Proof. decide equality; apply string_dec. Defined.

Arguments pair_dec : simpl never.

(** How often the hop [p] occurs in [hops]. *)
Definition occurrences (hops : list (string * string)) (p : string * string) : Z :=
  Z.of_nat (count_occ pair_dec hops p).

Lemma occurrences_cons (h : string * string) (hops : list (string * string))
    (p : string * string) :
  occurrences (h :: hops) p
  = ((if pair_dec h p then 1 else 0) + occurrences hops p)%Z.
Proof.
  unfold occurrences. destruct (pair_dec h p) as [E|E].
  - rewrite (count_occ_cons_eq pair_dec hops E). lia.
  - rewrite (count_occ_cons_neq pair_dec hops E). lia.
Qed.

Lemma occurrences_nil (p : string * string) : occurrences [] p = 0%Z.
Proof. reflexivity. Qed.

Lemma sumOver_single (g : string * string -> Z) (h : string * string)
    (P : list (string * string)) :
  NoDup P -> In h P ->
  sumOver (fun p => if pair_dec h p then g p else 0%Z) P = g h.
Proof.
  induction 1 as [|q P Hq Hnd IH]; intros Hin; [contradiction|]. simpl.
  destruct Hin as [->|Hin].
  - destruct (pair_dec h h) as [_|?]; [|contradiction].
    rewrite sumOver_zero; [lia|]. intros a Ha.
    destruct (pair_dec h a) as [->|_]; [contradiction | reflexivity].
  - destruct (pair_dec h q) as [->|_]; [contradiction|]. now rewrite IH.
Qed.

(** A sum over distinct pairs, each weighted by its number of occurrences
    among the hops, is the sum over the hops. *)
Lemma sumOver_occurrences (g : string * string -> Z) (hops P : list (string * string)) :
  NoDup P -> incl hops P ->
  sumOver (fun p => (g p * occurrences hops p)%Z) P = sumOver g hops.
Proof.
  intros Hnd. induction hops as [|h hops IH]; intros Hincl.
  - simpl. apply sumOver_zero. intros a _. rewrite occurrences_nil. lia.
  - simpl. rewrite <- IH by (intros z Hz; apply Hincl; now right).
    rewrite <- (sumOver_single g h P Hnd (Hincl h (or_introl eq_refl))).
    rewrite <- sumOver_plus. apply sumOver_ext. intros p _.
    rewrite occurrences_cons. destruct (pair_dec h p); lia.
Qed.

Lemma sumOver_map {A B : Type} (f : A -> B) (g : B -> Z) (l : list A) :
  sumOver g (map f l) = sumOver (fun a => g (f a)) l.
Proof. induction l as [|a l IH]; simpl; [reflexivity|]. now rewrite IH. Qed.

Lemma sumOver_minus {A : Type} (g h : A -> Z) (l : list A) :
  sumOver (fun a => (g a - h a)%Z) l = (sumOver g l - sumOver h l)%Z.
Proof. induction l as [|a l IH]; simpl; [reflexivity|]. rewrite IH. lia. Qed.

Lemma occurrences_bounds (hops : list (string * string)) (p : string * string) :
  NoDup hops ->
  (occurrences hops p = 0%Z /\ ~ In p hops) \/ (occurrences hops p = 1%Z /\ In p hops).
Proof.
  intros Hnd. unfold occurrences.
  destruct (in_dec pair_dec p hops) as [Hin|Hout].
  - right. split; [|assumption].
    apply (proj1 (NoDup_count_occ' pair_dec hops) Hnd) in Hin. lia.
  - left. split; [|assumption].
    apply (count_occ_not_In pair_dec) in Hout. lia.
Qed.

(** *** What an augmentation does to the flows *)

Section FlowFacts.
Import FordFulkerson.

(** The flow the record holds for the ordered pair [(x, y)]. *)
Definition flowOn (fl : record Z) (x y : string) : Z := orZero fl (getDirectedEdgeKey x y).

Lemma addTo_flowOn (fl fl' : record Z) (u v : string) (d : Z) (x y : string) :
  dashFree u = true -> dashFree x = true ->
  addTo fl (getDirectedEdgeKey u v) d = Returned fl' ->
  flowOn fl' x y = (flowOn fl x y + (if pair_dec (u, v) (x, y) then d else 0))%Z.
Proof.
  intros Hu Hx Hadd. unfold addTo in Hadd.
  destruct (get fl (getDirectedEdgeKey u v)) as [f|] eqn:Hf; [|discriminate].
  simpl in Hadd. injection Hadd as <-. unfold flowOn, orZero.
  destruct (pair_dec (u, v) (x, y)) as [[= -> ->]|Hne].
  - now rewrite get_set_same, Hf.
  - rewrite get_set_other; [lia|].
    intros Heq. destruct (key_injective _ _ _ _ Hx Hu Heq) as [-> ->]. now apply Hne.
Qed.

(** Each hop [(u, v)] of the path adds [b] to the flow on [(u, v)] and
    takes [b] from the flow on [(v, u)]. *)
Lemma augment_flowOn (b : Z) (l : list string) :
  forall fl fl', (forall z, In z l -> dashFree z = true) ->
  augment fl l b = Returned fl' ->
  forall x y, dashFree x = true -> dashFree y = true ->
  flowOn fl' x y
  = (flowOn fl x y + b * occurrences (pathHops l) (x, y)
     - b * occurrences (pathHops l) (y, x))%Z.
Proof.
  induction l as [|u l IH]; intros fl fl' Hl Haug x y Hx Hy.
  - simpl in Haug. injection Haug as <-. simpl. rewrite !occurrences_nil. lia.
  - destruct l as [|v l].
    + simpl in Haug. injection Haug as <-. simpl. rewrite !occurrences_nil. lia.
    + change (augment fl (u :: v :: l) b)
        with (fl1 <- addTo fl (getDirectedEdgeKey u v) b ;;
              fl2 <- addTo fl1 (getDirectedEdgeKey v u) (- b)%Z ;;
              augment fl2 (v :: l) b) in Haug.
      destruct (addTo fl (getDirectedEdgeKey u v) b) as [fl1|] eqn:H1; [|discriminate].
      cbn [bind] in Haug.
      destruct (addTo fl1 (getDirectedEdgeKey v u) (- b)%Z) as [fl2|] eqn:H2; [|discriminate].
      cbn [bind] in Haug.
      assert (Hu : dashFree u = true) by (apply Hl; simpl; auto).
      assert (Hv : dashFree v = true) by (apply Hl; simpl; auto).
      rewrite (IH fl2 fl' (fun z Hz => Hl z (or_intror Hz)) Haug x y Hx Hy).
      rewrite (addTo_flowOn _ _ _ _ _ x y Hv Hx H2), (addTo_flowOn _ _ _ _ _ x y Hu Hx H1).
      change (pathHops (u :: v :: l)) with ((u, v) :: pathHops (v :: l)).
      rewrite !occurrences_cons.
      assert (E23 : (v, u) = (x, y) <-> (u, v) = (y, x))
        by (split; intros [= -> ->]; reflexivity).
      destruct (pair_dec (u, v) (x, y)) as [E1|E1], (pair_dec (v, u) (x, y)) as [E2|E2],
               (pair_dec (u, v) (y, x)) as [E3|E3];
        try (exfalso; tauto); ring.
Qed.
End FlowFacts.

(** *** The augmenting path *)

Section PathFacts.
Import FordFulkerson.
Variable startNode : string.

Lemma chain_depth (par : record string) (v : string) (n m : nat) :
  chain startNode par v n -> chain startNode par v m -> n = m.
Proof.
  intros H. revert m. induction H as [|v u n Hv Hu _ IH]; intros m Hm.
  - inversion Hm; [reflexivity | congruence].
  - inversion Hm as [|v' u' m' _ Hu' Hc']; subst; [congruence|].
    rewrite Hu in Hu'. injection Hu' as <-. f_equal. now apply IH.
Qed.

(** The [i]-th node of a path read from the parent links is [i] links
    away from the start node. *)
Lemma linked_depth (par : record string) (l : list string) :
  linked startNode par l ->
  forall n, (forall a, hd_error l = Some a -> chain startNode par a n) ->
  forall i x, nth_error l i = Some x -> chain startNode par x (n + i).
Proof.
  induction 1 as [a | a b l Hb Hne Hl IH]; intros n Hhd i x Hx.
  - destruct i as [|i]; simpl in Hx; [|destruct i; discriminate].
    injection Hx as <-. rewrite Nat.add_0_r. now apply Hhd.
  - destruct i as [|i]; simpl in Hx.
    + injection Hx as <-. rewrite Nat.add_0_r. now apply Hhd.
    + replace (n + S i)%nat with (S n + i)%nat by lia.
      apply (IH (S n)); [|exact Hx].
      intros b' [= <-]. econstructor; eauto.
Qed.

Lemma linked_NoDup (par : record string) (rest : list string) :
  linked startNode par (startNode :: rest) -> NoDup (startNode :: rest).
Proof.
  intros Hl. apply NoDup_nth_error. intros i j Hi Hij.
  destruct (nth_error (startNode :: rest) i) as [x|] eqn:Hx;
    [|apply nth_error_None in Hx; lia].
  symmetry in Hij.
  assert (Hhd : forall a, hd_error (startNode :: rest) = Some a -> chain startNode par a 0)
    by (intros a [= <-]; constructor).
  exact (chain_depth _ _ _ _ (linked_depth par _ Hl 0%nat Hhd i x Hx)
                             (linked_depth par _ Hl 0%nat Hhd j x Hij)).
Qed.

Lemma reconstruct_ends (par : record string) (fuel : nat) :
  forall v acc p, reconstruct fuel par startNode v acc = Returned p ->
  exists pre, p = pre ++ v :: acc.
Proof.
  induction fuel as [|fuel IH]; intros v acc p H; simpl in H.
  - destruct (v =? startNode)%string eqn:E; [|discriminate].
    apply String.eqb_eq in E. subst. injection H as <-. now exists [].
  - destruct (String.eqb_spec v startNode) as [->|Hne].
    + injection H as <-. now exists [].
    + destruct (get par v) as [u|]; [|discriminate]. simpl in H.
      destruct (IH _ _ _ H) as (pre & ->). exists (pre ++ [u]).
      now rewrite <- app_assoc.
Qed.

(** The hops of a path without repetition are pairwise different. *)
Lemma pathHops_NoDup (l : list string) : NoDup l -> NoDup (pathHops l).
Proof.
  induction l as [|a l IH]; intros H; [constructor|].
  destruct l as [|c l]; [constructor|].
  change (pathHops (a :: c :: l)) with ((a, c) :: pathHops (c :: l)).
  inversion H as [|? ? Ha Hnd]; subst. constructor; [|apply IH, Hnd].
  intros Hin. apply pathHops_In in Hin as [Hin _]. contradiction.
Qed.

(** Along a path, the hops that leave a set outnumber by one those that
    enter it when the path starts inside and ends outside: in general the
    difference telescopes. *)
Lemma last_default {A : Type} (x : A) (l : list A) (d d' : A) :
  last (x :: l) d = last (x :: l) d'.
Proof.
  revert x. induction l as [|y l IH]; intros x; [reflexivity|].
  change (last (x :: y :: l) d) with (last (y :: l) d).
  change (last (x :: y :: l) d') with (last (y :: l) d'). apply IH.
Qed.

Lemma pathHops_telescope (ind : string -> Z) (l : list string) (a : string) :
  sumOver (fun h => (ind (fst h) - ind (snd h))%Z) (pathHops (a :: l))
  = (ind a - ind (last (a :: l) a))%Z.
Proof.
  revert a. induction l as [|y l IH]; intros a.
  - simpl. lia.
  - change (pathHops (a :: y :: l)) with ((a, y) :: pathHops (y :: l)).
    rewrite sumOver_cons, IH.
    change (last (a :: y :: l) a) with (last (y :: l) a).
    rewrite (last_default y l a y). simpl fst. simpl snd. lia.
Qed.
End PathFacts.

(** *** Feasible flows and their value across a cut *)

(** The ordered pairs that carry flow: each edge, in both directions. *)
Definition flowPairs (es : list Edge) : list (string * string) :=
  nodup pair_dec (flat_map (fun e => [(from e, to e); (to e, from e)]) es).

Lemma flowPairs_In (es : list Edge) (x y : string) :
  In (x, y) (flowPairs es)
  <-> exists e, In e es /\ ((x, y) = (from e, to e) \/ (x, y) = (to e, from e)).
Proof.
  unfold flowPairs. rewrite nodup_In, in_flat_map. split.
  - intros (e & He & [H|[H|[]]]); eauto.
  - intros (e & He & [H|H]); exists e; (split; [assumption|]); simpl; auto.
Qed.

Section FlowInvariant.
Import FordFulkerson.

Variable graph : GraphData.
Variable es : list Edge.
Variables startNode endNode : string.
Hypothesis ids_dashFree :
  forall i, In i (identifiers graph es startNode) -> dashFree i = true.
Hypothesis nonnegative : forall e, In e es -> (0 <= weight e)%Z.

Let capacities : record Z := initCapacities es.

(** The capacity of the ordered pair [(x, y)]. *)
Definition capOn (x y : string) : Z := orZero (initCapacities es) (getDirectedEdgeKey x y).

(** The flow respects the capacities, and the flow on [(y, x)] is the
    opposite of the flow on [(x, y)]. *)
Record feasible (fl : record Z) : Prop := {
  feasible_keys : sameKeys es fl;
  feasible_capacity : forall x y, dashFree x = true -> dashFree y = true ->
                        (flowOn fl x y <= capOn x y)%Z;
  feasible_skew : forall x y, dashFree x = true -> dashFree y = true ->
                    (flowOn fl x y + flowOn fl y x = 0)%Z
}.

(** The flow that leaves the set [inS]. *)
Definition crossingFlow (inS : string -> bool) (fl : record Z) : Z :=
  sumOver (fun p => if inS (fst p) && negb (inS (snd p))
                    then flowOn fl (fst p) (snd p) else 0%Z) (flowPairs es).

(** Every set with the source and without the sink is left by the total
    flow. *)
Definition valued (fl : record Z) (total : Z) : Prop :=
  forall inS, inS startNode = true -> inS endNode = false -> crossingFlow inS fl = total.

Lemma pair_dashFree (x y : string) :
  In (x, y) (flowPairs es) -> dashFree x = true /\ dashFree y = true.
Proof.
  intros H. apply flowPairs_In in H as (e & He & [[= -> ->]|[= -> ->]]);
    destruct (endpoint_dashFree graph es startNode ids_dashFree e He); auto.
Qed.

Lemma key_flowPairs (fl : record Z) (a c : string) :
  sameKeys es fl -> dashFree a = true ->
  In (getDirectedEdgeKey a c) (keys fl) -> In (a, c) (flowPairs es).
Proof.
  intros Hk Ha Hin. apply Hk, initFlows_keys in Hin as (e & He & [H|H]);
    destruct (endpoint_dashFree graph es startNode ids_dashFree e He) as [Hf Ht];
    apply flowPairs_In; exists e; (split; [assumption|]).
  - destruct (key_injective _ _ _ _ Ha Hf H) as [-> ->]. auto.
  - destruct (key_injective _ _ _ _ Ha Ht H) as [-> ->]. auto.
Qed.

Lemma occurrences_swap (hops : list (string * string)) (x y : string) :
  occurrences hops (y, x) = occurrences (map (fun h => (snd h, fst h)) hops) (x, y).
Proof.
  induction hops as [|[u v] hops IH]; [reflexivity|].
  cbn [map fst snd]. rewrite !occurrences_cons, IH.
  destruct (pair_dec (u, v) (y, x)) as [E1|E1], (pair_dec (v, u) (x, y)) as [E2|E2];
    try reflexivity; exfalso.
  - apply E2. injection E1 as -> ->. reflexivity.
  - apply E1. injection E2 as -> ->. reflexivity.
Qed.

Lemma initial_feasible : feasible (initFlows es) /\ valued (initFlows es) 0.
Proof.
  assert (Hzero : forall x y, flowOn (initFlows es) x y = 0%Z).
  { intros x y. unfold flowOn, orZero, initFlows.
    generalize (getDirectedEdgeKey x y) as k. intros k.
    assert (H : forall l r, (forall v, get r k = Some v -> v = 0%Z) ->
              forall v, get (fold_left (fun fl e =>
                               set (set fl (getDirectedEdgeKey (from e) (to e)) 0%Z)
                                   (getDirectedEdgeKey (to e) (from e)) 0%Z) l r) k = Some v ->
              v = 0%Z).
    { induction l as [|e l IH]; intros r Hr v Hv; simpl in Hv; [auto|].
      apply (IH _) in Hv; [assumption|]. intros w Hw.
      destruct (string_dec k (getDirectedEdgeKey (to e) (from e))) as [->|Hne1].
      - rewrite get_set_same in Hw. congruence.
      - rewrite get_set_other in Hw by assumption.
        destruct (string_dec k (getDirectedEdgeKey (from e) (to e))) as [->|Hne2].
        + rewrite get_set_same in Hw. congruence.
        + rewrite get_set_other in Hw by assumption. auto. }
    destruct (get _ k) as [v|] eqn:Hv; [|reflexivity].
    apply (H es []); [intros w Hw; discriminate Hw | exact Hv]. }
  split.
  - constructor.
    + intros k. reflexivity.
    + intros x y _ _. rewrite Hzero. unfold capOn, orZero.
      destruct (get (initCapacities es) (getDirectedEdgeKey x y)) as [c|] eqn:Hc; [|lia].
      clear - Hc nonnegative. unfold initCapacities in Hc.
      assert (H : forall l r, (forall v, get r (getDirectedEdgeKey x y) = Some v -> (0 <= v)%Z) ->
                (forall e, In e l -> (0 <= weight e)%Z) ->
                forall v, get (fold_left (fun c e =>
                                 set c (getDirectedEdgeKey (from e) (to e)) (weight e)) l r)
                              (getDirectedEdgeKey x y) = Some v -> (0 <= v)%Z).
      { induction l as [|e l IH]; intros r Hr Hl v Hv; simpl in Hv; [auto|].
        apply (IH _) in Hv; [assumption| |intros e' He'; apply Hl; now right].
        intros w Hw.
        destruct (string_dec (getDirectedEdgeKey x y) (getDirectedEdgeKey (from e) (to e)))
          as [E|E].
        - rewrite E, get_set_same in Hw. injection Hw as <-. apply Hl. now left.
        - rewrite get_set_other in Hw by assumption. auto. }
      apply (H es []); [intros w Hw; discriminate Hw | exact nonnegative | exact Hc].
    + intros x y _ _. rewrite !Hzero. lia.
  - intros inS _ _. unfold crossingFlow. apply sumOver_zero. intros p _.
    rewrite Hzero. now destruct (inS (fst p) && negb (inS (snd p))).
Qed.

Lemma pathHops_nodes (l : list string) (z : string) :
  In z l -> (2 <= List.length l)%nat ->
  exists c, In (z, c) (pathHops l) \/ In (c, z) (pathHops l).
Proof.
  induction l as [|a l IH]; intros Hz Hlen; [contradiction|].
  destruct l as [|c l]; [simpl in Hlen; lia|].
  change (pathHops (a :: c :: l)) with ((a, c) :: pathHops (c :: l)).
  destruct Hz as [->|Hz].
  - exists c. left. now left.
  - destruct l as [|d l].
    + destruct Hz as [->|[]]. exists a. right. now left.
    + destruct (IH Hz) as (c' & [H|H]); [simpl; lia | |]; exists c'; [left | right]; now right.
Qed.

(** Pushing [b] units along a path from the source to the sink that
    visits no node twice, where [b] is at most the residual capacity of every
    hop, keeps the flow feasible and adds [b] to the flow that leaves every
    set with the source and without the sink. *)
Lemma push_feasible (fl fl' : record Z) (total b : Z) (rest : list string) :
  feasible fl -> valued fl total ->
  NoDup (startNode :: rest) -> last (startNode :: rest) startNode = endNode ->
  (forall z, In z (startNode :: rest) -> dashFree z = true) ->
  incl (pathHops (startNode :: rest)) (flowPairs es) ->
  incl (map (fun h => (snd h, fst h)) (pathHops (startNode :: rest))) (flowPairs es) ->
  Forall (fun h => (b <= residual capacities fl (fst h) (snd h))%Z)
         (pathHops (startNode :: rest)) ->
  (0 < b)%Z -> sameKeys es fl' ->
  (forall x y, dashFree x = true -> dashFree y = true ->
     flowOn fl' x y
     = (flowOn fl x y + b * occurrences (pathHops (startNode :: rest)) (x, y)
        - b * occurrences (pathHops (startNode :: rest)) (y, x))%Z) ->
  feasible fl' /\ valued fl' (total + b).
Proof.
  intros [Hk Hcap Hskew] Hval Hnd Hlast Hnodes HinP HinP' Hall Hpos Hk' Hformula.
  rewrite Forall_forall in Hall.
  set (hops := pathHops (startNode :: rest)) in *.
  pose proof (pathHops_NoDup _ Hnd) as Hndh. fold hops in Hndh.
  split.
  - constructor; [exact Hk'| |].
    + intros x y Hx Hy. rewrite (Hformula x y Hx Hy).
      specialize (Hcap x y Hx Hy).
      destruct (occurrences_bounds hops (x, y) Hndh) as [[-> _]|[-> Hin]],
               (occurrences_bounds hops (y, x) Hndh) as [[-> _]|[-> _]]; try lia.
      specialize (Hall _ Hin). simpl in Hall. unfold residual in Hall.
      fold (flowOn fl x y) in Hall. unfold capOn, capacities in *. lia.
    + intros x y Hx Hy. rewrite (Hformula x y Hx Hy), (Hformula y x Hy Hx).
      specialize (Hskew x y Hx Hy). lia.
  - intros inS Hs Ht. specialize (Hval inS Hs Ht). unfold crossingFlow in *.
    set (chi := fun p : string * string =>
                  if inS (fst p) && negb (inS (snd p)) then 1%Z else 0%Z).
    assert (Hsplit : forall f,
              sumOver (fun p => if inS (fst p) && negb (inS (snd p))
                                then flowOn f (fst p) (snd p) else 0%Z) (flowPairs es)
              = sumOver (fun p => (chi p * flowOn f (fst p) (snd p))%Z) (flowPairs es)).
    { intros f. apply sumOver_ext. intros q _. unfold chi.
      destruct (inS (fst q) && negb (inS (snd q))); lia. }
    rewrite Hsplit in *.
    set (back := map (fun h : string * string => (snd h, fst h)) hops) in *.
    assert (Hsum : sumOver (fun p => (chi p * flowOn fl' (fst p) (snd p))%Z) (flowPairs es)
                   = (sumOver (fun p => (chi p * flowOn fl (fst p) (snd p))%Z) (flowPairs es)
                      + b * sumOver (fun p => (chi p * occurrences hops p)%Z) (flowPairs es)
                      - b * sumOver (fun p => (chi p * occurrences back p)%Z) (flowPairs es))%Z).
    { rewrite <- (sumOver_scale b (fun p => (chi p * occurrences hops p)%Z)).
      rewrite <- (sumOver_scale b (fun p => (chi p * occurrences back p)%Z)).
      rewrite <- sumOver_plus, <- sumOver_minus. apply sumOver_ext.
      intros [x y] Hq. destruct (pair_dashFree _ _ Hq) as [Hx Hy]. simpl.
      unfold back. rewrite (Hformula x y Hx Hy), (occurrences_swap hops x y). ring. }
    rewrite Hsum, Hval.
    assert (HndP : NoDup (flowPairs es)) by apply NoDup_nodup.
    rewrite (sumOver_occurrences chi hops (flowPairs es) HndP HinP).
    rewrite (sumOver_occurrences chi back (flowPairs es) HndP HinP').
    unfold back. rewrite sumOver_map.
    assert (Hone : (sumOver chi hops
                    - sumOver (fun a => chi (snd a, fst a)) hops = 1)%Z).
    { rewrite <- sumOver_minus.
      rewrite (sumOver_ext _ (fun h => ((if inS (fst h) then 1 else 0)
                                        - (if inS (snd h) then 1 else 0))%Z)).
      - unfold hops. rewrite (pathHops_telescope (fun z => if inS z then 1%Z else 0%Z)).
        rewrite Hlast, Hs, Ht. reflexivity.
      - intros [u v] _. unfold chi. simpl. destruct (inS u), (inS v); reflexivity. }
    lia.
Qed.

(** The path of a search tree from the source to a node with a parent. *)
Lemma tree_path (fl : record Z) (done : list string) (found : search) (p : string) :
  tree graph capacities startNode fl done found ->
  get (parent found) endNode = Some p ->
  exists rest,
    reconstruct (List.length (seen found)) (parent found) startNode endNode []
    = Returned (startNode :: rest)
    /\ linked startNode (parent found) (startNode :: rest)
    /\ rest <> []
    /\ NoDup (startNode :: rest)
    /\ last (startNode :: rest) startNode = endNode
    /\ Forall (goodHop graph es startNode fl) (pathHops (startNode :: rest))
    /\ (forall z, In z (startNode :: rest) -> dashFree z = true).
Proof.
  intros Htree Hp.
  pose proof Htree as (_ & _ & Hincl & Hstart & Hpar & Hchain).
  destruct (Hpar _ _ Hp) as (Hend & Hne & _).
  destruct (Hchain _ Hend) as (n & Hn & Hc).
  destruct (reconstruct_linked startNode (parent found) endNode n Hc
              (List.length (seen found)) [] ltac:(lia) (linked_one _ _ _))
    as (rest & Hrec & Hlinked & _ & Hlen).
  specialize (Hlen Hne).
  exists rest. split; [exact Hrec|]. split; [exact Hlinked|].
  split; [destruct rest; [simpl in Hlen; lia | discriminate]|].
  split; [apply (linked_NoDup startNode _ _ Hlinked)|].
  split.
  { destruct (reconstruct_ends startNode _ _ _ _ _ Hrec) as (pre & Hpre).
    rewrite Hpre. apply last_last. }
  pose proof (linked_good graph es startNode ids_dashFree fl done found _ Htree Hlinked)
    as Hgood.
  split; [exact Hgood|].
  rewrite Forall_forall in Hgood.
  intros z Hz. destruct (pathHops_nodes _ z Hz) as (c & [H|H]).
  - simpl. simpl in Hlen. lia.
  - now destruct (Hgood _ H) as (_ & Ha & _).
  - now destruct (Hgood _ H) as (_ & _ & Hc' & _).
Qed.

(** The hops of such a path, in both directions, are pairs of the flow
    record. *)
Lemma goodHops_flowPairs (fl : record Z) (l : list string) :
  sameKeys es fl -> Forall (goodHop graph es startNode fl) (pathHops l) ->
  incl (pathHops l) (flowPairs es)
  /\ incl (map (fun h => (snd h, fst h)) (pathHops l)) (flowPairs es).
Proof.
  intros Hk Hgood. rewrite Forall_forall in Hgood. split.
  - intros [a c] Hin. destruct (Hgood _ Hin) as (_ & Ha & _ & Hres & _).
    apply (key_flowPairs fl); auto. eapply residual_present; eauto.
  - intros q Hq. apply in_map_iff in Hq as ([a c] & <- & Hin).
    destruct (Hgood _ Hin) as (_ & Ha & Hc' & Hres & _). simpl.
    apply (key_flowPairs fl); auto.
    eapply reverse_present; eauto. eapply residual_present; eauto.
Qed.

(** One augmentation keeps the flow feasible and adds the bottleneck to
    the flow that leaves every set with the source and without the sink. *)
Lemma augmentation_feasible (fl : record Z) (total : Z) (done : list string)
    (found : search) (path : list string) (b : Z) (fl' : record Z) :
  feasible fl -> valued fl total ->
  tree graph capacities startNode fl done found ->
  truthy (get (parent found) endNode) = true ->
  reconstruct (List.length (seen found)) (parent found) startNode endNode [] = Returned path ->
  bottleneckOf capacities fl path None = Some b ->
  augment fl path b = Returned fl' ->
  feasible fl' /\ valued fl' (total + b) /\ (0 < b)%Z.
Proof.
  intros Hf Hval Htree Htruthy Hrec Hb Haug.
  pose proof (feasible_keys _ Hf) as Hk.
  destruct (augmentation graph es startNode endNode ids_dashFree fl done found Hk Htree Htruthy)
    as (path0 & b0 & fl0 & Hrec0 & Hb0 & Haug0 & Hk' & Hpos & _).
  fold capacities in Hb0. rewrite Hrec in Hrec0. injection Hrec0 as <-.
  rewrite Hb in Hb0. injection Hb0 as <-. rewrite Haug in Haug0. injection Haug0 as <-.
  destruct (get (parent found) endNode) as [p|] eqn:Hp; [|discriminate].
  destruct (tree_path fl done found p Htree Hp)
    as (rest & Hrec1 & _ & Hrest & Hnd & Hlast & Hgood & Hnodes).
  rewrite Hrec in Hrec1. injection Hrec1 as ->.
  destruct (bottleneckOf_positive graph es startNode fl _ Hgood None)
    as (b1 & Hb1 & _ & _ & Hall).
  { intros m [=]. }
  { left. destruct rest; [congruence | discriminate]. }
  fold capacities in Hb1. rewrite Hb in Hb1. injection Hb1 as <-.
  destruct (goodHops_flowPairs fl _ Hk Hgood) as [HinP HinP'].
  destruct (push_feasible fl fl' total b rest Hf Hval Hnd Hlast Hnodes HinP HinP' Hall
              Hpos Hk' (augment_flowOn b _ fl fl' Hnodes Haug)) as [Hf' Hv'].
  auto.
Qed.
End FlowInvariant.

(** *** A search that finds no path ends on a closed set *)

Section SearchClosure.
Import FordFulkerson.

Variable graph : GraphData.
Variable capacities : record Z.
Variables startNode endNode : string.
Variable fl : record Z.

(** Every neighbour with residual capacity of a dequeued node has been
    seen, and every node seen but the start node has a parent. *)
Definition explored (done : list string) (s : search) : Prop :=
  (forall u v, In u done -> In v (residualNeighbors graph u) ->
     (0 < residual capacities fl u v)%Z -> In v (seen s))
  /\ (forall v, In v (seen s) -> v <> startNode -> get (parent s) v <> None).

Lemma scan_explored (u : string) (vs : list string) (s s' : search) (found : bool) :
  scan capacities fl endNode u vs s = (s', found) ->
  (forall v, In v (seen s) -> v <> startNode -> get (parent s) v <> None) ->
  incl (seen s) (seen s')
  /\ (forall v, In v (seen s') -> v <> startNode -> get (parent s') v <> None)
  /\ (found = true -> get (parent s') endNode <> None)
  /\ (found = false ->
      forall v, In v vs -> (0 < residual capacities fl u v)%Z -> In v (seen s')).
Proof.
  revert s. induction vs as [|v vs IH]; intros s Hscan Hpar; simpl in Hscan.
  - injection Hscan as <- <-.
    split; [apply incl_refl|]. split; [exact Hpar|].
    split; [discriminate | intros _ v []].
  - destruct (negb (has (seen s) v) && (residual capacities fl u v >? 0)%Z) eqn:E.
    + set (s1 := {| parent := set (parent s) v u; queue := queue s ++ [v];
                    seen := add (seen s) v |}) in *.
      assert (Hincl1 : incl (seen s) (seen s1)).
      { intros z Hz. simpl. apply add_In_iff. auto. }
      assert (Hpar1 : forall w, In w (seen s1) -> w <> startNode ->
                                get (parent s1) w <> None).
      { intros w Hw Hne. simpl in *. destruct (string_dec w v) as [->|Hwv].
        - rewrite get_set_same. discriminate.
        - rewrite get_set_other by assumption. apply Hpar; [|assumption].
          apply add_In_iff in Hw as [Hw|Hw]; [congruence | assumption]. }
      destruct (String.eqb_spec v endNode) as [Hv|Hv].
      * injection Hscan as <- <-.
        split; [exact Hincl1|]. split; [exact Hpar1|].
        split; [|discriminate].
        intros _. simpl. rewrite <- Hv, get_set_same. discriminate.
      * destruct (IH _ Hscan Hpar1) as (Hincl & Hpar' & Hfound & Hall).
        split; [intros z Hz; apply Hincl, Hincl1, Hz|].
        split; [exact Hpar'|]. split; [exact Hfound|].
        intros Hf w [<-|Hw] Hres; [|now apply Hall].
        apply Hincl. simpl. apply add_In_iff. auto.
    + destruct (IH _ Hscan Hpar) as (Hincl & Hpar' & Hfound & Hall).
      split; [exact Hincl|]. split; [exact Hpar'|]. split; [exact Hfound|].
      intros Hf w [<-|Hw] Hres; [|now apply Hall].
      apply Hincl. apply has_In.
      destruct (has (seen s) v); [reflexivity|].
      simpl in E. lia.
Qed.

Lemma bfs_explored (fuel : nat) (done : list string) (s s' : search) :
  tree graph capacities startNode fl done s -> explored done s ->
  bfs fuel graph capacities fl endNode s = Returned s' ->
  get (parent s') endNode = None ->
  exists done', tree graph capacities startNode fl done' s' /\ explored done' s'
                /\ queue s' = [].
Proof.
  revert done s. induction fuel as [|fuel IH]; intros done s Htree Hex Hbfs Hnone.
  - simpl in Hbfs. destruct (queue s) as [|u q] eqn:Hq; [|discriminate].
    injection Hbfs as <-. eauto.
  - simpl in Hbfs. destruct (queue s) as [|u q] eqn:Hq.
    { injection Hbfs as <-. eauto. }
    set (s0 := {| parent := parent s; queue := q; seen := seen s |}) in *.
    assert (Hs0 : tree graph capacities startNode fl (done ++ [u]) s0).
    { destruct Htree as (Hseen & Hrest). unfold tree; simpl.
      split; [rewrite Hseen, Hq, <- app_assoc; reflexivity | exact Hrest]. }
    pose proof (scan_tree graph capacities startNode endNode fl u
                  (residualNeighbors graph u) (done ++ [u]) s0
                  ltac:(apply in_or_app; right; simpl; auto)
                  (incl_refl _) Hs0) as Hs1.
    destruct Hex as [Hclosed Hpar].
    destruct (scan capacities fl endNode u (residualNeighbors graph u) s0)
      as [s1 found] eqn:Hscan.
    destruct (scan_explored _ _ _ _ _ Hscan Hpar) as (Hincl & Hpar1 & Hfound & Hall).
    simpl in Hs1. destruct found.
    + injection Hbfs as <-. exfalso. now apply Hfound.
    + apply (IH (done ++ [u]) s1 Hs1); [|assumption..].
      split; [|exact Hpar1].
      intros a v Ha Hv Hres. apply in_app_or in Ha as [Ha|[<-|[]]].
      * apply Hincl. simpl. eapply Hclosed; eauto.
      * now apply Hall.
Qed.

(** A search from the start node that leaves the end node without a
    parent has seen a set that holds the start node, not the end node, and
    every neighbour with residual capacity of each of its nodes. *)
Lemma search_closed (found : search) :
  startNode <> endNode ->
  bfs (nodeBound graph) graph capacities fl endNode
      {| parent := []; queue := [startNode]; seen := add [] startNode |}
  = Returned found ->
  get (parent found) endNode = None ->
  In startNode (seen found) /\ ~ In endNode (seen found)
  /\ forall u v, In u (seen found) -> In v (residualNeighbors graph u) ->
       (0 < residual capacities fl u v)%Z -> In v (seen found).
Proof.
  intros Hne Hbfs Hnone.
  assert (Htree0 : tree graph capacities startNode fl []
                     {| parent := []; queue := [startNode]; seen := add [] startNode |}).
  { unfold tree; simpl.
    split; [reflexivity|].
    split; [constructor; [intros [] | constructor]|].
    split; [intros z [<-|[]]; unfold universe; simpl; auto|].
    split; [auto|].
    split; [intros v u [=]|].
    intros v [<-|[]]. exists 0%nat. split; [lia | constructor]. }
  assert (Hex0 : explored [] {| parent := []; queue := [startNode];
                                seen := add [] startNode |}).
  { split; [intros u v [] | intros v [<-|[]] H; congruence]. }
  destruct (bfs_explored _ [] _ _ Htree0 Hex0 Hbfs Hnone)
    as (done & (Hseen & _ & _ & Hstart & _) & (Hclosed & Hpar) & Hq).
  rewrite Hq, app_nil_r in Hseen.
  split; [exact Hstart|]. split.
  - intros Hend. apply (Hpar _ Hend); congruence.
  - intros u v Hu. rewrite Hseen in Hu. eauto.
Qed.
End SearchClosure.

(** *** The capacity of a cut *)

Lemma cutValue_sum (es : list Edge) (side : list string) :
  MinCut.cutValue es side
  = sumOver (fun e => if has side (from e) && negb (has side (to e))
                      then weight e else 0%Z) es.
Proof.
  unfold MinCut.cutValue.
  assert (H : forall l acc,
            fold_left (fun acc edge =>
                         if has side (from edge) && negb (has side (to edge))
                         then (acc + weight edge)%Z else acc) l acc
            = (acc + sumOver (fun e => if has side (from e) && negb (has side (to e))
                                       then weight e else 0%Z) l)%Z).
  { induction l as [|e l IH]; intros acc; simpl; [lia|].
    rewrite IH. destruct (has side (from e) && negb (has side (to e))); lia. }
  rewrite H. lia.
Qed.

(** A sum over distinct pairs of the weights each pair collects is the
    sum of the weights. *)
Lemma sumOver_weighted {A : Type} (g : string * string -> Z) (f : A -> string * string)
    (w : A -> Z) (l : list A) (P : list (string * string)) :
  NoDup P -> incl (map f l) P ->
  sumOver (fun p => (g p * sumOver (fun e => if pair_dec (f e) p then w e else 0%Z) l)%Z) P
  = sumOver (fun e => (g (f e) * w e)%Z) l.
Proof.
  intros Hnd. induction l as [|e l IH]; intros Hincl.
  - simpl. apply sumOver_zero. intros p _. lia.
  - rewrite sumOver_cons, <- IH by (intros z Hz; apply Hincl; now right).
    rewrite <- (sumOver_single (fun p => (g p * w e)%Z) (f e) P Hnd
                  (Hincl _ (or_introl eq_refl))).
    rewrite <- sumOver_plus. apply sumOver_ext. intros p _.
    rewrite sumOver_cons. destruct (pair_dec (f e) p); lia.
Qed.

Fixpoint distinct (l : list (string * string)) : bool :=
  match l with
  | [] => true
  | p :: rest => (if in_dec pair_dec p rest then false else true) && distinct rest
  end.

Lemma distinct_NoDup (l : list (string * string)) : distinct l = true -> NoDup l.
Proof.
  induction l as [|p l IH]; simpl; intros H; [constructor|].
  apply andb_prop in H as [Hp Hl].
  constructor; [|auto]. destruct (in_dec pair_dec p l); [discriminate | assumption].
Qed.

(** The capacity of a pair is the weight of its edge, when no two edges
    join the same pair in the same direction. *)
Lemma capacity_weight (es : list Edge) (x y : string) :
  dashFree x = true ->
  (forall e, In e es -> dashFree (from e) = true) ->
  NoDup (map (fun e => (from e, to e)) es) ->
  FordFulkerson.orZero (FordFulkerson.initCapacities es) (getDirectedEdgeKey x y)
  = sumOver (fun e => if pair_dec (from e, to e) (x, y) then weight e else 0%Z) es.
Proof.
  intros Hx. induction es as [|e es IH] using rev_ind; intros Hd Hnd; [reflexivity|].
  unfold FordFulkerson.initCapacities. rewrite fold_left_app. simpl.
  fold (FordFulkerson.initCapacities es).
  rewrite sumOver_app, sumOver_cons. change (sumOver _ (@nil Edge)) with 0%Z.
  rewrite map_app in Hnd. simpl in Hnd.
  assert (Hd' : forall e0, In e0 es -> dashFree (from e0) = true)
    by (intros e0 H0; apply Hd, in_or_app; auto).
  pose proof (NoDup_remove_1 _ _ _ Hnd) as Hnd'. rewrite app_nil_r in Hnd'.
  pose proof (NoDup_remove_2 _ _ _ Hnd) as Hout. rewrite app_nil_r in Hout.
  unfold FordFulkerson.orZero in *.
  destruct (pair_dec (from e, to e) (x, y)) as [E|E].
  - rewrite sumOver_zero.
    + injection E as <- <-. rewrite get_set_same. lia.
    + intros e0 H0.
      destruct (pair_dec (from e0, to e0) (x, y)) as [E0|_]; [|reflexivity].
      exfalso. apply Hout. rewrite E, <- E0. apply in_map_iff. eauto.
  - rewrite get_set_other.
    + rewrite (IH Hd' Hnd'). lia.
    + intros Heq. apply E.
      destruct (key_injective _ _ _ _ Hx (Hd e ltac:(apply in_or_app; simpl; auto)) Heq)
        as [-> ->].
      reflexivity.
Qed.

(** *** The flow the generator ends with *)

(** The frame shows a feasible flow. *)
Definition shown (es : list Edge) (step : Step) : Prop :=
  exists f, flows step = Some f /\ feasible es f.

Section MaxFlow.
Import FordFulkerson.

Variable graph : GraphData.
Variable es : list Edge.
Variables startNode endNode : string.

Hypothesis graph_edges : edges graph = Some es.
Hypothesis ids_dashFree :
  forall i, In i (identifiers graph es startNode) -> dashFree i = true.
Hypothesis nonnegative : forall e, In e es -> (0 <= weight e)%Z.

Let capacities : record Z := initCapacities es.

Lemma loop_feasible (fuel : nat) (s s' : state) :
  feasible es (fl s) -> valued es startNode endNode (fl s) (totalFlow s) ->
  Forall (shown es) (steps s) ->
  loop fuel (nodeBound graph) graph capacities startNode endNode s = Returned s' ->
  feasible es (fl s') /\ valued es startNode endNode (fl s') (totalFlow s')
  /\ Forall (shown es) (steps s')
  /\ exists found,
       bfs (nodeBound graph) graph capacities (fl s') endNode
           {| parent := []; queue := [startNode]; seen := add [] startNode |}
       = Returned found
       /\ truthy (get (parent found) endNode) = false.
Proof.
  revert s. induction fuel as [|fuel IH]; intros s Hf Hv Hsteps Hloop;
    destruct (search_returns graph capacities startNode endNode (fl s))
      as (found & done & Hbfs & Htree);
    cbn [loop] in Hloop; rewrite Hbfs in Hloop; cbn [bind] in Hloop;
    destruct (truthy (get (parent found) endNode)) eqn:Htruthy; cbn [negb] in Hloop;
    try discriminate;
    try (injection Hloop as <-; cbn [fl totalFlow steps];
         split; [exact Hf|]; split; [exact Hv|]; split; [|eauto];
         apply Forall_app; split; [exact Hsteps|];
         constructor; [|constructor]; exists (fl s); split; [reflexivity | exact Hf]).
  destruct (augmentation graph es startNode endNode ids_dashFree (fl s) done found
              (feasible_keys _ _ Hf) Htree Htruthy)
    as (path & b & fl' & Hrec & Hb & Haug & _).
  fold capacities in Hb.
  destruct (augmentation_feasible graph es startNode endNode ids_dashFree
              (fl s) (totalFlow s) done found path b fl' Hf Hv Htree Htruthy Hrec Hb Haug)
    as (Hf' & Hv' & _).
  rewrite Hrec in Hloop. cbn [bind] in Hloop. rewrite Hb in Hloop.
  cbn [bind orThrow] in Hloop. rewrite Haug in Hloop. cbn [bind] in Hloop.
  apply IH in Hloop; [exact Hloop | exact Hf' | exact Hv' |].
  cbn [steps]. repeat (apply Forall_app; split); try exact Hsteps;
    (constructor; [|constructor]); eexists; (split; [reflexivity|]); assumption.
Qed.

Lemma run_feasible (s : state) :
  run graph startNode endNode = Returned s ->
  feasible es (fl s) /\ valued es startNode endNode (fl s) (totalFlow s)
  /\ Forall (shown es) (steps s)
  /\ exists found,
       bfs (nodeBound graph) graph capacities (fl s) endNode
           {| parent := []; queue := [startNode]; seen := add [] startNode |}
       = Returned found
       /\ truthy (get (parent found) endNode) = false.
Proof.
  unfold run, run_fuel. rewrite graph_edges. cbn [orThrow bind]. intros Hloop.
  destruct (initial_feasible es startNode endNode nonnegative)
    as [Hf Hv].
  apply loop_feasible in Hloop; [exact Hloop | exact Hf | exact Hv |].
  cbn [steps]. constructor; [|constructor]. exists (initFlows es). split; [reflexivity | exact Hf].
Qed.

(** The capacity that leaves a set is the value of the cut the min-cut
    module computes for it. *)
Lemma crossing_capacity (side : list string) :
  NoDup (map (fun e => (from e, to e)) es) ->
  sumOver (fun p => if has side (fst p) && negb (has side (snd p))
                    then capOn es (fst p) (snd p) else 0%Z) (flowPairs es)
  = MinCut.cutValue es side.
Proof.
  intros Hnd. rewrite cutValue_sum.
  set (chi := fun p : string * string =>
                if has side (fst p) && negb (has side (snd p)) then 1%Z else 0%Z).
  rewrite (sumOver_ext _ (fun p => (chi p * sumOver (fun e => if pair_dec (from e, to e) p
                                                             then weight e else 0%Z) es)%Z)).
  - rewrite (sumOver_weighted chi (fun e => (from e, to e)) weight es (flowPairs es)).
    + apply sumOver_ext. intros e _. unfold chi. simpl.
      destruct (has side (from e) && negb (has side (to e))); lia.
    + apply NoDup_nodup.
    + intros p Hp. apply in_map_iff in Hp as (e & <- & He).
      apply flowPairs_In. eauto.
  - intros [x y] Hp. simpl.
    destruct (pair_dashFree graph es startNode ids_dashFree _ _ Hp) as [Hx _].
    unfold capOn. rewrite (capacity_weight es x y Hx).
    + unfold chi. simpl. destruct (has side x && negb (has side y)); lia.
    + intros e He. apply (endpoint_dashFree graph es startNode ids_dashFree e He).
    + exact Hnd.
Qed.

(** No flow is larger than a cut. *)
Lemma flow_below_cut (f : record Z) (total : Z) (side : list string) :
  NoDup (map (fun e => (from e, to e)) es) ->
  feasible es f -> valued es startNode endNode f total ->
  has side startNode = true -> has side endNode = false ->
  (total <= MinCut.cutValue es side)%Z.
Proof.
  intros Hnd Hf Hv Hs Ht. rewrite <- (Hv (has side) Hs Ht), <- (crossing_capacity side Hnd).
  unfold crossingFlow. apply sumOver_le. intros [x y] Hp. simpl.
  destruct (pair_dashFree graph es startNode ids_dashFree _ _ Hp) as [Hx Hy].
  destruct (has side x && negb (has side y)); [|lia].
  apply (feasible_capacity _ _ Hf); assumption.
Qed.

Hypothesis ids_nonEmpty :
  forall i, In i (identifiers graph es startNode) -> i <> "".
Hypothesis pairs_distinct : NoDup (map (fun e => (from e, to e)) es).
Hypothesis edges_linked :
  forall e, In e es -> In (to e) (residualNeighbors graph (from e))
                       /\ In (from e) (residualNeighbors graph (to e)).
Hypothesis ends_differ : startNode <> endNode.

(** A set with the source and without the sink that no residual capacity
    leaves is a cut that the flow fills. *)
Lemma closed_cut (f : record Z) (total : Z) (side : list string) :
  feasible es f -> valued es startNode endNode f total ->
  In startNode side -> ~ In endNode side ->
  (forall u v, In u side -> In v (residualNeighbors graph u) ->
     (0 < residual capacities f u v)%Z -> In v side) ->
  MinCut.cutValue es side = total.
Proof.
  intros Hf Hv Hstart Hend Hclosed.
  rewrite <- (Hv (has side)) by (first [apply has_In, Hstart | apply has_false, Hend]).
  rewrite <- (crossing_capacity side pairs_distinct).
  unfold crossingFlow. apply sumOver_ext. intros [x y] Hp. simpl.
  destruct (has side x && negb (has side y)) eqn:E; [|reflexivity].
  apply andb_prop in E as [Hx Hy].
  apply has_In in Hx. apply negb_true_iff, has_false in Hy.
  destruct (pair_dashFree graph es startNode ids_dashFree _ _ Hp) as [Hdx Hdy].
  pose proof (feasible_capacity _ _ Hf x y Hdx Hdy) as Hcap.
  assert (Hnb : In y (residualNeighbors graph x)).
  { apply flowPairs_In in Hp as (e & He & [[= -> ->]|[= -> ->]]);
      apply (edges_linked e He). }
  assert (Hres : ~ (0 < residual capacities f x y)%Z).
  { intros Hres. apply Hy. eapply Hclosed; eauto. }
  unfold residual in Hres. fold (flowOn f x y) in Hres.
  unfold capOn, capacities in *. lia.
Qed.

(** The nodes the last search saw form a cut that the flow fills. *)
Lemma last_search_cut (s : state) :
  run graph startNode endNode = Returned s ->
  exists side, has side startNode = true /\ has side endNode = false
               /\ MinCut.cutValue es side = totalFlow s.
Proof.
  intros Hrun. destruct (run_feasible s Hrun) as (Hf & Hv & _ & found & Hbfs & Htruthy).
  destruct (search_returns graph capacities startNode endNode (fl s))
    as (found' & done & Hbfs' & Htree).
  rewrite Hbfs in Hbfs'. injection Hbfs' as <-.
  assert (Hnone : get (parent found) endNode = None).
  { destruct (get (parent found) endNode) as [p|] eqn:Hp; [|reflexivity].
    exfalso. destruct Htree as (_ & _ & Hincl & _ & Hpar & _).
    destruct (Hpar _ _ Hp) as (_ & _ & Hpseen & _).
    apply (ids_nonEmpty p).
    - unfold identifiers. apply in_or_app. left. apply Hincl, Hpseen.
    - simpl in Htruthy. apply negb_false_iff, String.eqb_eq in Htruthy. exact Htruthy. }
  destruct (search_closed graph capacities startNode endNode (fl s) found
              ends_differ Hbfs Hnone) as (Hstart & Hend & Hclosed).
  exists (seen found).
  split; [apply has_In, Hstart|]. split; [apply has_false, Hend|].
  apply (closed_cut _ _ _ Hf Hv Hstart Hend Hclosed).
Qed.
End MaxFlow.

Lemma loop_final (fuel searchFuel : nat) (graph : GraphData) (capacities : record Z)
    (startNode endNode : string) (s s' : FordFulkerson.state) :
  FordFulkerson.loop fuel searchFuel graph capacities startNode endNode s = Returned s' ->
  finalStep (FordFulkerson.steps s')
  = Some (FordFulkerson.snapshot
            "No more augmenting paths can be found. The flow is maximized."
            None (FordFulkerson.fl s') (FordFulkerson.totalFlow s')).
Proof.
  revert s. induction fuel as [|fuel IH]; intros s Hloop; cbn [FordFulkerson.loop] in Hloop;
    destruct (FordFulkerson.bfs searchFuel graph capacities (FordFulkerson.fl s) endNode _)
      as [found|]; try discriminate; cbn [bind] in Hloop;
    destruct (FordFulkerson.truthy (get (FordFulkerson.parent found) endNode));
    cbn [negb] in Hloop; try discriminate;
    try (injection Hloop as <-; cbn; apply finalStep_snoc).
  destruct (FordFulkerson.reconstruct _ _ _ _ _) as [path|]; [|discriminate].
  cbn [bind] in Hloop.
  destruct (FordFulkerson.bottleneckOf _ _ _ _) as [b|]; [|discriminate].
  cbn [bind orThrow] in Hloop.
  destruct (FordFulkerson.augment _ _ _) as [fl'|]; [|discriminate].
  cbn [bind] in Hloop. apply IH in Hloop. exact Hloop.
Qed.

(** The checks on a network: no identifier is empty or holds ['-'], no
    weight is negative, no two edges join the same pair of nodes in the same
    direction, the two ends of every edge are neighbours in [adj], and the
    source is not the sink. *)
Definition network (graph : GraphData) (es : list Edge) (startNode endNode : string)
    : bool :=
  forallb (fun i => dashFree i && negb (i =? "")%string) (identifiers graph es startNode)
  && forallb (fun e => (0 <=? weight e)%Z) es
  && distinct (map (fun e => (from e, to e)) es)
  && forallb (fun e => includes (residualNeighbors graph (from e)) (to e)
                       && includes (residualNeighbors graph (to e)) (from e)) es
  && negb (startNode =? endNode)%string.

Lemma includes_In (l : list string) (x : string) : includes l x = true -> In x l.
Proof.
  unfold includes. rewrite existsb_exists. intros (y & Hy & E).
  apply String.eqb_eq in E. now subst.
Qed.





(** ** The min-cut generator: its flow is maximum, its cut minimum *)

(** *** The search of the min-cut generator *)

Section MinCutSearch.
Import FordFulkerson.

Variable graph : GraphData.
Variable es : list Edge.
Variables startNode endNode : string.
Variable fl : record Z.
Hypothesis fl_keys : sameKeys es fl.
Hypothesis ends_differ : startNode <> endNode.

Let capacities : record Z := initCapacities es.

(** With every capacity key among the flow keys, the test without a
    default is the test of Ford-Fulkerson. *)
Lemma hasResidual_residual (u v : string) :
  MinCut.hasResidual capacities fl u v = (residual capacities fl u v >? 0)%Z.
Proof.
  unfold MinCut.hasResidual.
  destruct (get fl (getDirectedEdgeKey u v)) as [f|] eqn:Hf.
  - unfold residual, orZero. now rewrite Hf.
  - destruct (residual capacities fl u v >? 0)%Z eqn:E; [|reflexivity].
    exfalso. assert (Hpos : (0 < residual capacities fl u v)%Z) by lia.
    apply (residual_present es fl u v fl_keys) in Hpos.
    apply key_get_Some in Hpos as [f' Hf']. congruence.
Qed.

Lemma scan_same (u : string) (vs : list string) (s : search) :
  MinCutTrace.scan capacities fl endNode u vs s = scan capacities fl endNode u vs s.
Proof.
  revert s. induction vs as [|v vs IH]; intros s; simpl; [reflexivity|].
  rewrite hasResidual_residual.
  destruct (negb (has (seen s) v) && (residual capacities fl u v >? 0)%Z);
    [destruct (v =? endNode)%string|]; auto.
Qed.

(** A scan that does not find the end node has not seen it. *)
Lemma scan_avoids (u : string) (vs : list string) (s s' : search) :
  scan capacities fl endNode u vs s = (s', false) ->
  ~ In endNode (seen s) -> ~ In endNode (seen s').
Proof.
  revert s. induction vs as [|v vs IH]; intros s Hscan Hout; simpl in Hscan.
  - injection Hscan as <-. exact Hout.
  - destruct (negb (has (seen s) v) && (residual capacities fl u v >? 0)%Z);
      [|eapply IH; eauto].
    destruct (String.eqb_spec v endNode) as [Hv|Hv]; [discriminate|].
    apply (IH _ Hscan). simpl. intros Hin. apply add_In_iff in Hin as [Hin|Hin]; congruence.
Qed.

Lemma potentialNeighbors_incl (u : string) :
  incl (MinCut.potentialNeighbors graph u) (residualNeighbors graph u).
Proof.
  intros v Hv. unfold MinCut.potentialNeighbors in Hv.
  apply fold_add_In in Hv as [Hv|[]]. exact Hv.
Qed.

Lemma potentialNeighbors_In (u v : string) :
  In v (residualNeighbors graph u) -> In v (MinCut.potentialNeighbors graph u).
Proof. intros Hv. apply fold_add_In. auto. Qed.

(** The search returns; with the flag it has given the end node a
    parent, without it the nodes it has seen hold every neighbour with
    residual capacity of each of them, and not the end node. *)
Lemma minCut_bfs_spec (fuel : nat) (done : list string) (s : search) :
  tree graph capacities startNode fl done s ->
  explored graph capacities startNode fl done s ->
  ~ In endNode (seen s) ->
  (List.length (universe graph startNode) <= fuel + List.length done)%nat ->
  exists s' found done',
    MinCutTrace.bfs fuel graph capacities fl endNode s = Returned (s', found)
    /\ tree graph capacities startNode fl done' s'
    /\ (found = true -> get (parent s') endNode <> None)
    /\ (found = false ->
        explored graph capacities startNode fl done' s' /\ queue s' = []
        /\ ~ In endNode (seen s')).
Proof.
  revert done s. induction fuel as [|fuel IH]; intros done s Htree Hex Hout Hfuel.
  - destruct (queue s) as [|u q] eqn:Hq.
    + exists s, false, done. simpl. rewrite Hq.
      split; [reflexivity|]. split; [exact Htree|]. split; [discriminate | auto].
    + exfalso. destruct Htree as (Hseen & Hnd & Hincl & _).
      pose proof (NoDup_incl_length Hnd Hincl) as Hle.
      rewrite Hseen, Hq, length_app in Hle. simpl in *. lia.
  - simpl. destruct (queue s) as [|u q] eqn:Hq.
    { exists s, false, done.
      split; [reflexivity|]. split; [exact Htree|]. split; [discriminate | auto]. }
    set (s0 := {| parent := parent s; queue := q; seen := seen s |}) in *.
    rewrite scan_same.
    assert (Hs0 : tree graph capacities startNode fl (done ++ [u]) s0).
    { destruct Htree as (Hseen & Hrest). unfold tree; simpl.
      split; [rewrite Hseen, Hq, <- app_assoc; reflexivity | exact Hrest]. }
    pose proof (scan_tree graph capacities startNode endNode fl u
                  (MinCut.potentialNeighbors graph u) (done ++ [u]) s0
                  ltac:(apply in_or_app; right; simpl; auto)
                  (potentialNeighbors_incl u) Hs0) as Hs1.
    destruct Hex as [Hclosed Hpar].
    destruct (scan capacities fl endNode u (MinCut.potentialNeighbors graph u) s0)
      as [s1 found] eqn:Hscan.
    destruct (scan_explored capacities startNode endNode fl _ _ _ _ _ Hscan Hpar)
      as (Hincl & Hpar1 & Hfound & Hall).
    simpl in Hs1. destruct found.
    + exists s1, true, (done ++ [u]).
      split; [reflexivity|]. split; [exact Hs1|]. split; [auto | discriminate].
    + apply (IH (done ++ [u]) s1 Hs1).
      * split; [|exact Hpar1].
        intros a v Ha Hv Hres. apply in_app_or in Ha as [Ha|[<-|[]]].
        -- apply Hincl. simpl. eapply Hclosed; eauto.
        -- apply Hall; [reflexivity | apply potentialNeighbors_In, Hv | exact Hres].
      * apply (scan_avoids _ _ _ _ Hscan). exact Hout.
      * rewrite length_app. simpl in *. lia.
Qed.

Lemma minCut_search_spec :
  exists found pathFound done,
    MinCutTrace.bfs (nodeBound graph) graph capacities fl endNode
      {| parent := []; queue := [startNode]; seen := add [] startNode |}
    = Returned (found, pathFound)
    /\ tree graph capacities startNode fl done found
    /\ (pathFound = true -> get (parent found) endNode <> None)
    /\ (pathFound = false ->
        In startNode (seen found) /\ ~ In endNode (seen found)
        /\ forall u v, In u (seen found) -> In v (residualNeighbors graph u) ->
             (0 < residual capacities fl u v)%Z -> In v (seen found)).
Proof.
  destruct (minCut_bfs_spec (nodeBound graph) []
              {| parent := []; queue := [startNode]; seen := add [] startNode |})
    as (found & pathFound & done & Hbfs & Htree & Hyes & Hno).
  - unfold tree; simpl.
    split; [reflexivity|].
    split; [constructor; [intros [] | constructor]|].
    split; [intros z [<-|[]]; unfold universe; simpl; auto|].
    split; [auto|].
    split; [intros v u [=]|].
    intros v [<-|[]]. exists 0%nat. split; [lia | constructor].
  - split; [intros u v [] | intros v [<-|[]] H; congruence].
  - simpl. intros [H|[]]. congruence.
  - rewrite universe_length. apply Nat.le_add_r.
  - exists found, pathFound, done.
    split; [exact Hbfs|]. split; [exact Htree|]. split; [exact Hyes|].
    intros Hfalse. destruct (Hno Hfalse) as ((Hclosed & _) & Hq & Hout).
    destruct Htree as (Hseen & _ & _ & Hstart & _).
    rewrite Hq, app_nil_r in Hseen.
    split; [exact Hstart|]. split; [exact Hout|].
    intros u v Hu. rewrite Hseen in Hu. eauto.
Qed.
End MinCutSearch.

(** *** Walking the parent links back from the sink *)

Lemma pathHops_snoc (l : list string) (p c : string) :
  pathHops (l ++ [p; c]) = pathHops (l ++ [p]) ++ [(p, c)].
Proof.
  induction l as [|a l IH]; [reflexivity|].
  destruct l as [|x l]; [reflexivity|].
  change (pathHops ((a :: x :: l) ++ [p; c]))
    with ((a, x) :: pathHops ((x :: l) ++ [p; c])).
  rewrite IH. reflexivity.
Qed.

Lemma occurrences_app (l l' : list (string * string)) (p : string * string) :
  occurrences (l ++ l') p = (occurrences l p + occurrences l' p)%Z.
Proof. unfold occurrences. rewrite count_occ_app. lia. Qed.

Section MinCutWalk.
Import FordFulkerson.

Variable graph : GraphData.
Variable es : list Edge.
Variables startNode endNode : string.
Hypothesis ids_dashFree :
  forall i, In i (identifiers graph es startNode) -> dashFree i = true.

Let capacities : record Z := initCapacities es.

Lemma linked_snoc_inv (par : record string) (l : list string) (p c : string) :
  linked startNode par (l ++ [p; c]) ->
  get par c = Some p /\ c <> startNode /\ linked startNode par (l ++ [p]).
Proof.
  induction l as [|a l IH]; intros H.
  - inversion H; subst. repeat split; auto. constructor.
  - destruct l as [|x l].
    + simpl in *. inversion H as [|? ? ? Ha Hne Hrest]; subst.
      destruct (IH Hrest) as (H1 & H2 & _). repeat split; auto.
      constructor; auto. constructor.
    + simpl in *. inversion H as [|? ? ? Ha Hne Hrest]; subst.
      destruct (IH Hrest) as (H1 & H2 & H3). repeat split; auto.
      constructor; auto.
Qed.

Lemma linked_seen (fl : record Z) (done : list string) (s : search) (l : list string) :
  tree graph capacities startNode fl done s ->
  linked startNode (parent s) l -> (2 <= List.length l)%nat -> incl l (seen s).
Proof.
  intros (_ & _ & _ & _ & Hpar & _).
  induction 1 as [a | a c l Hc Hne Hrest IH]; intros Hlen z Hz; [simpl in Hlen; lia|].
  destruct (Hpar _ _ Hc) as (Hcs & _ & Has & _).
  destruct Hz as [<-|Hz]; [exact Has|].
  destruct l as [|d l].
  - destruct Hz as [<-|[]]. exact Hcs.
  - apply IH; [simpl; lia | exact Hz].
Qed.

(** The bottleneck the walk computes is positive and at most the
    residual capacity of every link. *)
Lemma bottleneck_walk (fl : record Z) (par : record string) :
  sameKeys es fl ->
  forall l c b0 fuel,
    linked startNode par (l ++ [c]) -> hd c l = startNode ->
    Forall (goodHop graph es startNode fl) (pathHops (l ++ [c])) ->
    (List.length l <= fuel)%nat ->
    (forall m, b0 = Some m -> (0 < m)%Z) -> l <> [] \/ b0 <> None ->
    exists b,
      MinCutTrace.bottleneck fuel capacities fl par startNode c b0 = Returned (Some b)
      /\ (0 < b)%Z /\ (forall m, b0 = Some m -> (b <= m)%Z)
      /\ Forall (fun h => (b <= residual capacities fl (fst h) (snd h))%Z)
                (pathHops (l ++ [c])).
Proof.
  intros Hk. induction l as [|p l IH] using rev_ind;
    intros c b0 fuel Hlinked Hhd Hgood Hfuel Hb0 Hne.
  - simpl in Hhd. subst c. destruct Hne as [?|Hne]; [congruence|].
    destruct b0 as [m|]; [|congruence]. exists m.
    destruct fuel; simpl; rewrite String.eqb_refl;
      (split; [reflexivity|]); (split; [auto|]);
      (split; [intros ? [= <-]; lia | constructor]).
  - rewrite <- app_assoc in Hlinked, Hgood |- *. simpl in Hlinked, Hgood |- *.
    destruct (linked_snoc_inv _ _ _ _ Hlinked) as (Hp & Hc & Hlinked').
    rewrite pathHops_snoc in Hgood |- *.
    apply Forall_app in Hgood as [Hgood' Hlast].
    apply Forall_inv in Hlast. simpl in Hlast.
    destruct Hlast as (_ & Hdp & Hdc & Hres & _). fold capacities in Hres.
    pose proof (residual_present es fl _ _ Hk Hres) as Hkey.
    apply key_get_Some in Hkey as [f Hf].
    assert (Hr : (FordFulkerson.orZero capacities (getDirectedEdgeKey p c) - f)%Z
                 = residual capacities fl p c).
    { unfold residual. f_equal. unfold orZero. now rewrite Hf. }
    rewrite length_app in Hfuel. simpl in Hfuel.
    destruct fuel as [|fuel]; [lia|]. simpl.
    destruct (String.eqb_spec c startNode) as [?|_]; [contradiction|].
    rewrite Hp. cbn [orThrow bind]. rewrite Hf. cbn [orThrow bind]. rewrite Hr.
    destruct (IH p (Some (match b0 with
                          | Some m => Z.min m (residual capacities fl p c)
                          | None => residual capacities fl p c
                          end)) fuel Hlinked')
      as (b & Hb & Hpos & Hle & Hall).
    + destruct l as [|a l]; simpl in *; auto.
    + exact Hgood'.
    + lia.
    + intros m [= <-]. destruct b0 as [m0|]; [specialize (Hb0 _ eq_refl); lia | lia].
    + right. discriminate.
    + exists b. split; [exact Hb|]. split; [exact Hpos|].
      specialize (Hle _ eq_refl). split.
      * intros m ->. lia.
      * apply Forall_app. split; [exact Hall|].
        constructor; [simpl; destruct b0; lia | constructor].
Qed.

(** The update the walk makes: each link [(p, c)] gains [b], its reverse
    loses [b]. *)
Lemma augment_walk (par : record string) (b : Z) :
  forall l c fl fuel,
    linked startNode par (l ++ [c]) -> hd c l = startNode ->
    sameKeys es fl ->
    Forall (fun h => In (getDirectedEdgeKey (fst h) (snd h)) (keys (initFlows es))
                     /\ In (getDirectedEdgeKey (snd h) (fst h)) (keys (initFlows es)))
           (pathHops (l ++ [c])) ->
    (forall z, In z (l ++ [c]) -> dashFree z = true) ->
    (List.length l <= fuel)%nat ->
    exists fl',
      MinCutTrace.augment fuel fl par startNode c b = Returned fl'
      /\ sameKeys es fl'
      /\ forall x y, dashFree x = true -> dashFree y = true ->
           flowOn fl' x y
           = (flowOn fl x y + b * occurrences (pathHops (l ++ [c])) (x, y)
              - b * occurrences (pathHops (l ++ [c])) (y, x))%Z.
Proof.
  induction l as [|p l IH] using rev_ind; intros c fl fuel Hlinked Hhd Hk Hkeys Hdash Hfuel.
  - simpl in Hhd. subst c. exists fl.
    destruct fuel; simpl; rewrite String.eqb_refl;
      (split; [reflexivity|]); (split; [exact Hk|]);
      intros x y _ _; rewrite !occurrences_nil; lia.
  - rewrite <- app_assoc in Hlinked, Hkeys, Hdash |- *. simpl in Hlinked, Hkeys, Hdash |- *.
    destruct (linked_snoc_inv _ _ _ _ Hlinked) as (Hp & Hc & Hlinked').
    rewrite pathHops_snoc in Hkeys |- *.
    apply Forall_app in Hkeys as [Hkeys' Hlast].
    apply Forall_inv in Hlast. simpl in Hlast. destruct Hlast as [Hpc Hcp].
    assert (Hdp : dashFree p = true) by (apply Hdash, in_or_app; simpl; auto).
    assert (Hdc : dashFree c = true) by (apply Hdash, in_or_app; simpl; auto).
    rewrite length_app in Hfuel. simpl in Hfuel.
    destruct fuel as [|fuel]; [lia|]. simpl.
    destruct (String.eqb_spec c startNode) as [?|_]; [contradiction|].
    rewrite Hp. cbn [orThrow bind].
    destruct (addTo_returns es fl (getDirectedEdgeKey p c) b Hk (proj2 (Hk _) Hpc))
      as (f1 & Hf1 & Hadd1 & Hk1).
    destruct (addTo_returns es _ (getDirectedEdgeKey c p) (- b)%Z Hk1 (proj2 (Hk1 _) Hcp))
      as (f2 & Hf2 & Hadd2 & Hk2).
    rewrite Hadd1. cbn [bind]. rewrite Hadd2. cbn [bind].
    destruct (IH p (set (set fl (getDirectedEdgeKey p c) (f1 + b)%Z)
                        (getDirectedEdgeKey c p) (f2 + - b)%Z) fuel Hlinked')
      as (fl' & Haug & Hk' & Hformula).
    + destruct l as [|a l]; simpl in *; auto.
    + exact Hk2.
    + exact Hkeys'.
    + intros z Hz. apply Hdash. apply in_app_or in Hz as [Hz|[<-|[]]];
        apply in_or_app; simpl; auto.
    + lia.
    + exists fl'. split; [exact Haug|]. split; [exact Hk'|].
      intros x y Hx Hy. rewrite (Hformula x y Hx Hy).
      rewrite (addTo_flowOn _ _ c p (- b)%Z x y Hdc Hx Hadd2).
      rewrite (addTo_flowOn _ _ p c b x y Hdp Hx Hadd1).
      rewrite !occurrences_app, !occurrences_cons, !occurrences_nil.
      destruct (pair_dec (p, c) (x, y)) as [E1|E1], (pair_dec (c, p) (x, y)) as [E2|E2],
               (pair_dec (p, c) (y, x)) as [E3|E3];
        try ring; exfalso;
        first [ apply E3; injection E2 as -> ->; reflexivity
              | apply E2; injection E3 as -> ->; reflexivity ].
Qed.

(** One round of the loop of the min-cut generator that finds a path. *)
Lemma minCut_augmentation (fl : record Z) (total : Z) (done : list string) (found : search) :
  feasible es fl -> valued es startNode endNode fl total ->
  tree graph capacities startNode fl done found ->
  get (parent found) endNode <> None ->
  exists b fl',
    MinCutTrace.bottleneck (List.length (seen found)) capacities fl (parent found)
      startNode endNode None = Returned (Some b)
    /\ MinCutTrace.augment (List.length (seen found)) fl (parent found)
         startNode endNode b = Returned fl'
    /\ (0 < b)%Z /\ feasible es fl' /\ valued es startNode endNode fl' (total + b).
Proof.
  intros Hf Hv Htree Hsome.
  pose proof (feasible_keys _ _ Hf) as Hk.
  destruct (get (parent found) endNode) as [p|] eqn:Hp; [clear Hsome | congruence].
  destruct (tree_path graph es startNode endNode ids_dashFree fl done found p Htree Hp)
    as (rest & _ & Hlinked & Hrest & Hnd & Hlast & Hgood & Hnodes).
  destruct (exists_last (l := startNode :: rest) ltac:(discriminate)) as (l & c & Hsplit).
  assert (Hc : c = endNode).
  { rewrite Hsplit, last_last in Hlast. exact Hlast. }
  subst c.
  assert (Hhd : hd endNode l = startNode).
  { destruct l as [|a l]; simpl in Hsplit.
    - injection Hsplit as _ ->. contradiction.
    - now injection Hsplit as <- _. }
  assert (Hlen : (List.length l <= List.length (seen found))%nat).
  { assert (Hincl : incl (startNode :: rest) (seen found)).
    { apply (linked_seen fl done found _ Htree Hlinked).
      destruct rest; [contradiction | simpl; lia]. }
    pose proof (NoDup_incl_length Hnd Hincl) as Hle.
    rewrite Hsplit, length_app in Hle. simpl in Hle. lia. }
  rewrite Hsplit in Hlinked, Hgood, Hnodes.
  destruct (bottleneck_walk fl (parent found) Hk l endNode None _ Hlinked Hhd Hgood Hlen)
    as (b & Hb & Hpos & _ & Hall).
  { intros m [=]. }
  { left. intros ->. simpl in Hsplit. injection Hsplit as _ ->. contradiction. }
  rewrite <- Hsplit in Hgood.
  destruct (goodHops_flowPairs graph es startNode ids_dashFree fl _ Hk Hgood)
    as [HinP HinP'].
  rewrite Hsplit in Hgood.
  assert (Hkeys : Forall (fun h => In (getDirectedEdgeKey (fst h) (snd h)) (keys (initFlows es))
                                  /\ In (getDirectedEdgeKey (snd h) (fst h))
                                        (keys (initFlows es)))
                         (pathHops (l ++ [endNode]))).
  { rewrite Forall_forall in Hgood |- *. intros [a c] Hin. simpl.
    destruct (Hgood _ Hin) as (_ & Ha & _ & Hres & _).
    pose proof (residual_present es fl _ _ Hk Hres) as H1.
    pose proof (reverse_present graph es startNode ids_dashFree fl _ _ Hk Ha H1) as H2.
    split; apply Hk; assumption. }
  destruct (augment_walk (parent found) b l endNode fl (List.length (seen found))
              Hlinked Hhd Hk Hkeys Hnodes Hlen)
    as (fl' & Haug & Hk' & Hformula).
  exists b, fl'. split; [exact Hb|]. split; [exact Haug|]. split; [exact Hpos|].
  rewrite <- Hsplit in Hall, Hformula, Hnodes.
  apply (push_feasible graph es startNode endNode ids_dashFree fl fl' total b rest
           Hf Hv Hnd Hlast Hnodes HinP HinP' Hall Hpos Hk' Hformula).
Qed.
End MinCutWalk.

(** *** The loop of phase 1 and the search of phase 2 *)

Section MinCutLoop.
Import FordFulkerson.

Variable graph : GraphData.
Variable es : list Edge.
Variables startNode endNode : string.
Hypothesis ids_dashFree :
  forall i, In i (identifiers graph es startNode) -> dashFree i = true.
Hypothesis pairs_distinct : NoDup (map (fun e => (from e, to e)) es).
Hypothesis ends_differ : startNode <> endNode.

Let capacities : record Z := initCapacities es.

(** No residual capacity leaves the set. *)
Definition residualClosed (f : record Z) (side : list string) : Prop :=
  forall u v, In u side -> In v (residualNeighbors graph u) ->
    (0 < residual capacities f u v)%Z -> In v side.

(** The loop returns before the flow exceeds the capacity that leaves the
    source; it ends on a feasible flow without an augmenting path. *)
Lemma minCut_loop_spec (fuel : nat) (s : MinCutTrace.state) :
  feasible es (MinCutTrace.fl s) ->
  valued es startNode endNode (MinCutTrace.fl s) (MinCutTrace.totalFlow s) ->
  (MinCut.cutValue es (add [] startNode) - MinCutTrace.totalFlow s <= Z.of_nat fuel)%Z ->
  exists s',
    MinCutTrace.loop fuel (nodeBound graph) graph capacities startNode endNode s
    = Returned s'
    /\ feasible es (MinCutTrace.fl s')
    /\ valued es startNode endNode (MinCutTrace.fl s') (MinCutTrace.totalFlow s')
    /\ exists side, In startNode side /\ ~ In endNode side
                    /\ residualClosed (MinCutTrace.fl s') side.
Proof.
  revert s. induction fuel as [|fuel IH]; intros s Hf Hv Hfuel;
    destruct (minCut_search_spec graph es startNode endNode (MinCutTrace.fl s)
                (feasible_keys _ _ Hf) ends_differ)
      as (found & pathFound & done & Hbfs & Htree & Hyes & Hno);
    cbn [MinCutTrace.loop]; fold capacities in Hbfs; rewrite Hbfs; cbn [bind];
    destruct pathFound; cbn [negb];
    try (exists s; split; [reflexivity|]; split; [exact Hf|]; split; [exact Hv|];
         exists (seen found); apply Hno; reflexivity);
    destruct (minCut_augmentation graph es startNode endNode ids_dashFree
                (MinCutTrace.fl s) (MinCutTrace.totalFlow s) done found Hf Hv Htree
                (Hyes eq_refl))
      as (b & fl' & Hb & Haug & Hpos & Hf' & Hv');
    pose proof (flow_below_cut graph es startNode endNode ids_dashFree fl' _
                  (add [] startNode) pairs_distinct Hf' Hv'
                  ltac:(simpl; now rewrite String.eqb_refl)
                  ltac:(simpl; destruct (String.eqb_spec endNode startNode);
                        [congruence | reflexivity])) as Hbound.
  - lia.
  - fold capacities in Hb. rewrite Hb. cbn [bind orThrow]. rewrite Haug. cbn [bind].
    apply IH; cbn [MinCutTrace.fl MinCutTrace.totalFlow]; [exact Hf' | exact Hv' | lia].
Qed.

(** Phase 2 on a flow without an augmenting path. *)
Variable f : record Z.
Hypothesis f_keys : sameKeys es f.
Variable bound : list string.
Hypothesis bound_closed : residualClosed f bound.

Record reached (done queue sSet : list string) : Prop := {
  reached_split : sSet = done ++ queue;
  reached_NoDup : NoDup sSet;
  reached_universe : incl sSet (universe graph startNode);
  reached_bound : incl sSet bound;
  reached_closed : forall u v, In u done -> In v (residualNeighbors graph u) ->
                     (0 < residual capacities f u v)%Z -> In v sSet
}.

Lemma grow_reached (u : string) (done : list string) (vs queue sSet : list string) :
  In u bound -> incl vs (residualNeighbors graph u) ->
  sSet = done ++ queue -> NoDup sSet -> incl sSet (universe graph startNode) ->
  incl sSet bound ->
  let r := MinCut.grow capacities f u vs queue sSet in
  snd r = done ++ fst r /\ NoDup (snd r) /\ incl (snd r) (universe graph startNode)
  /\ incl (snd r) bound /\ incl sSet (snd r)
  /\ forall v, In v vs -> (0 < residual capacities f u v)%Z -> In v (snd r).
Proof.
  intros Hu. revert queue sSet.
  induction vs as [|v vs IH]; intros queue sSet Hvs Hsplit Hnd Huni Hbound; simpl.
  - split; [exact Hsplit|]. split; [exact Hnd|]. split; [exact Huni|].
    split; [exact Hbound|]. split; [apply incl_refl | intros v []].
  - assert (Hvs' : incl vs (residualNeighbors graph u))
      by (intros z Hz; apply Hvs; now right).
    rewrite (hasResidual_residual es f f_keys).
    destruct (negb (has sSet v) && (residual (initCapacities es) f u v >? 0)%Z) eqn:E.
    + apply andb_prop in E as [Hnew Hres].
      apply negb_true_iff, has_false in Hnew.
      assert (Hres' : (0 < residual capacities f u v)%Z) by (unfold capacities; lia).
      assert (Hadd : add sSet v = sSet ++ [v]).
      { unfold add. destruct (has sSet v) eqn:E; [|reflexivity].
        apply has_In in E. contradiction. }
      rewrite Hadd.
      destruct (IH (queue ++ [v]) (sSet ++ [v]) Hvs') as (H1 & H2 & H3 & H4 & H5 & H6).
      * rewrite Hsplit. now rewrite app_assoc.
      * apply NoDup_app; [assumption | constructor; [intros [] | constructor] |].
        intros z Hz [<-|[]]. contradiction.
      * intros z Hz. apply in_app_or in Hz as [Hz|[<-|[]]]; [auto|].
        apply (residualNeighbors_universe graph startNode u). apply Hvs. now left.
      * intros z Hz. apply in_app_or in Hz as [Hz|[<-|[]]]; [auto|].
        apply (bound_closed u v Hu); [apply Hvs; now left | exact Hres'].
      * split; [exact H1|]. split; [exact H2|]. split; [exact H3|]. split; [exact H4|].
        split; [intros z Hz; apply H5, in_or_app; auto|].
        intros w [<-|Hw] Hw'; [apply H5, in_or_app; simpl; auto | now apply H6].
    + destruct (IH queue sSet Hvs' Hsplit Hnd Huni Hbound) as (H1 & H2 & H3 & H4 & H5 & H6).
      split; [exact H1|]. split; [exact H2|]. split; [exact H3|]. split; [exact H4|].
      split; [exact H5|].
      intros w [<-|Hw] Hw'; [|now apply H6].
      apply H5, has_In. destruct (has sSet v); [reflexivity|].
      simpl in E. unfold capacities in Hw'. lia.
Qed.

Lemma reach_reached (fuel : nat) (done queue sSet : list string) :
  reached done queue sSet ->
  (List.length (universe graph startNode) <= fuel + List.length done)%nat ->
  exists sset,
    MinCut.reach fuel graph capacities f queue sSet = Returned sset
    /\ NoDup sset /\ incl sSet sset /\ incl sset bound /\ residualClosed f sset.
Proof.
  revert done queue sSet. induction fuel as [|fuel IH]; intros done queue sSet Hr Hfuel.
  - destruct queue as [|u q].
    + exists sSet. simpl. destruct Hr as [Hsplit Hnd Huni Hbound Hclosed].
      rewrite app_nil_r in Hsplit. subst done.
      split; [reflexivity|]. split; [exact Hnd|]. split; [apply incl_refl|].
      split; [exact Hbound | exact Hclosed].
    + exfalso. destruct Hr as [Hsplit Hnd Huni _ _].
      pose proof (NoDup_incl_length Hnd Huni) as Hle.
      rewrite Hsplit, length_app in Hle. simpl in *. lia.
  - destruct queue as [|u q].
    + exists sSet. simpl. destruct Hr as [Hsplit Hnd Huni Hbound Hclosed].
      rewrite app_nil_r in Hsplit. subst done.
      split; [reflexivity|]. split; [exact Hnd|]. split; [apply incl_refl|].
      split; [exact Hbound | exact Hclosed].
    + destruct Hr as [Hsplit Hnd Huni Hbound Hclosed]. simpl.
      assert (Hu : In u bound).
      { apply Hbound. rewrite Hsplit. apply in_or_app. simpl. auto. }
      destruct (grow_reached u (done ++ [u]) (MinCut.potentialNeighbors graph u) q sSet Hu
                  (potentialNeighbors_incl graph u)
                  ltac:(rewrite Hsplit, <- app_assoc; reflexivity) Hnd Huni Hbound)
        as (H1 & H2 & H3 & H4 & H5 & H6).
      destruct (MinCut.grow capacities f u (MinCut.potentialNeighbors graph u) q sSet)
        as [q' sset'] eqn:Hgrow.
      simpl in H1, H2, H3, H4, H5, H6.
      destruct (IH (done ++ [u]) q' sset') as (sset & Hreach & Hnd' & Hincl & Hb & Hc).
      * constructor; auto.
        intros a v Ha Hv Hres. apply in_app_or in Ha as [Ha|[<-|[]]].
        -- apply H5. eapply Hclosed; eauto.
        -- apply H6; [apply potentialNeighbors_In, Hv | exact Hres].
      * rewrite length_app. simpl in *. lia.
      * exists sset. split; [exact Hreach|]. split; [exact Hnd'|].
        split; [intros z Hz; apply Hincl, H5, Hz|]. split; [exact Hb | exact Hc].
Qed.

(** The S-set: it holds the source, lies within every set that no
    residual capacity leaves, and no residual capacity leaves it. *)
Lemma sSet_reached :
  In startNode bound ->
  exists sset,
    MinCut.sSet graph capacities f startNode = Returned sset
    /\ In startNode sset /\ incl sset bound /\ residualClosed f sset.
Proof.
  intros Hstart. unfold MinCut.sSet.
  destruct (reach_reached (nodeBound graph) [] [startNode] (add [] startNode))
    as (sset & Hreach & _ & Hincl & Hb & Hc).
  - constructor; simpl.
    + reflexivity.
    + constructor; [intros [] | constructor].
    + intros z [<-|[]]. unfold universe. simpl. auto.
    + intros z [<-|[]]. exact Hstart.
    + intros u v [].
  - rewrite universe_length. apply Nat.le_add_r.
  - exists sset. split; [exact Hreach|].
    split; [apply Hincl; simpl; auto|]. split; [exact Hb | exact Hc].
Qed.
End MinCutLoop.



Lemma network_facts (graph : GraphData) (es : list Edge) (startNode endNode : string) :
  network graph es startNode endNode = true ->
  (forall i, In i (identifiers graph es startNode) -> dashFree i = true)
  /\ (forall i, In i (identifiers graph es startNode) -> i <> "")
  /\ (forall e, In e es -> (0 <= weight e)%Z)
  /\ NoDup (map (fun e => (from e, to e)) es)
  /\ (forall e, In e es -> In (to e) (residualNeighbors graph (from e))
                           /\ In (from e) (residualNeighbors graph (to e)))
  /\ startNode <> endNode.
Proof.
  intros Hnet. unfold network in Hnet.
  apply andb_prop in Hnet as [Hnet Hends].
  apply andb_prop in Hnet as [Hnet Hlinked].
  apply andb_prop in Hnet as [Hnet Hdistinct].
  apply andb_prop in Hnet as [Hids Hw].
  rewrite forallb_forall in Hids, Hw, Hlinked.
  split; [intros i Hi; specialize (Hids i Hi); now apply andb_prop in Hids as [? _]|].
  split.
  { intros i Hi. specialize (Hids i Hi). apply andb_prop in Hids as [_ H].
    apply negb_true_iff, String.eqb_neq in H. exact H. }
  split; [intros e He; specialize (Hw e He); lia|].
  split; [apply distinct_NoDup, Hdistinct|].
  split.
  { intros e He. specialize (Hlinked e He). apply andb_prop in Hlinked as [H1 H2].
    split; apply includes_In; assumption. }
  apply negb_true_iff, String.eqb_neq in Hends. exact Hends.
Qed.



(** ** Cycle detection: what the colour search reports *)

Lemma indexOf_nonneg_In (l : list string) (x : string) :
  In x l -> (0 <= CycleDetection.indexOf l x)%Z.
Proof.
  induction l as [|y l IH]; intros H; [contradiction|]. simpl.
  destruct (String.eqb_spec y x) as [_|Hne]; [lia|].
  destruct H as [?|H]; [contradiction|]. specialize (IH H).
  destruct (CycleDetection.indexOf l x <? 0)%Z eqn:E; lia.
Qed.

(** In an array that holds [x], [slice(indexOf(x))] is the part from the
    first [x] on. *)
Lemma slice_indexOf (l : list string) (x : string) :
  In x l ->
  exists pre post, l = pre ++ x :: post /\ ~ In x pre
                   /\ CycleDetection.slice l (CycleDetection.indexOf l x) = x :: post.
Proof.
  induction l as [|y l IH]; intros H; [contradiction|].
  unfold CycleDetection.slice. simpl.
  destruct (String.eqb_spec y x) as [->|Hne].
  - exists [], l. simpl. auto.
  - destruct H as [?|H]; [contradiction|].
    destruct (IH H) as (pre & post & Hl & Hpre & Hslice).
    pose proof (indexOf_nonneg_In l x H) as Hpos.
    unfold CycleDetection.slice in Hslice.
    destruct (CycleDetection.indexOf l x <? 0)%Z eqn:E; [lia|].
    exists (y :: pre), post. split; [simpl; now rewrite Hl|].
    split; [intros [?|?]; contradiction|].
    destruct (CycleDetection.indexOf l x + 1 <? 0)%Z eqn:E'; [lia|].
    replace (Z.to_nat (CycleDetection.indexOf l x + 1))
      with (S (Z.to_nat (CycleDetection.indexOf l x))) by lia.
    simpl. exact Hslice.
Qed.

Section Chains.
Variable graph : GraphData.

(** [v] is in the adjacency list of [u]. *)
Definition arc (u v : string) : Prop :=
  match get (adj graph) u with
  | Some nbs => In v nbs
  | None => False
  end.

(** Each node of the list has the next one in its adjacency list. *)
Fixpoint chained (l : list string) : Prop :=
  match l with
  | a :: ((b :: _) as rest) => arc a b /\ chained rest
  | _ => True
  end.

(** A directed cycle, as the list of its nodes: a closed walk. *)
Definition closedWalk (c : list string) : Prop :=
  c <> [] /\ chained c /\ arc (last c "") (hd "" c).

Lemma chained_snoc (l : list string) (b : string) :
  chained l -> (l = [] \/ arc (last l "") b) -> chained (l ++ [b]).
Proof.
  induction l as [|a l IH]; intros Hl Hlast; [exact I|].
  destruct l as [|c l].
  - simpl. destruct Hlast as [?|Hlast]; [discriminate|]. simpl in Hlast. auto.
  - destruct Hl as [Hac Hl]. split; [exact Hac|].
    apply IH; [exact Hl|]. right.
    destruct Hlast as [?|Hlast]; [discriminate | exact Hlast].
Qed.

Lemma chained_suffix (pre l : list string) : chained (pre ++ l) -> chained l.
Proof.
  induction pre as [|a pre IH]; intros H; [exact H|].
  apply IH. destruct (pre ++ l) as [|c r] eqn:E.
  - exact I.
  - simpl in H. rewrite E in H. apply H.
Qed.

Lemma chained_removelast (l : list string) : chained l -> chained (removelast l).
Proof.
  induction l as [|a l IH]; intros H; [exact I|].
  destruct l as [|b l]; [exact I|].
  destruct H as [Hab H]. specialize (IH H).
  destruct l as [|c l]; [exact I|].
  split; [exact Hab | exact IH].
Qed.

(** The order in which nodes were finished: every node of the adjacency
    list of a finished node that is a node of the graph was finished
    before it. *)
Inductive finished (nodeIds : list string) : list string -> Prop :=
| finished_nil : finished nodeIds []
| finished_cons (b : string) (fin : list string) :
    finished nodeIds fin -> ~ In b fin ->
    (forall v, arc b v -> In v nodeIds -> In v fin) ->
    finished nodeIds (b :: fin).

Fixpoint rank (fin : list string) (x : string) : nat :=
  match fin with
  | [] => 0
  | b :: rest => if (b =? x)%string then List.length rest else rank rest x
  end.

Lemma rank_bound (fin : list string) (x : string) :
  In x fin -> (rank fin x < List.length fin)%nat.
Proof.
  induction fin as [|b fin IH]; intros H; [contradiction|]. simpl.
  destruct (String.eqb_spec b x) as [_|Hne]; [lia|].
  destruct H as [?|H]; [contradiction|]. specialize (IH H). lia.
Qed.

(** Along an arc between finished nodes the rank drops. *)
Lemma finished_rank (nodeIds fin : list string) (x v : string) :
  finished nodeIds fin -> In x fin -> arc x v -> In v nodeIds ->
  In v fin /\ (rank fin v < rank fin x)%nat.
Proof.
  induction 1 as [|b fin Hs IH Hb Hsucc]; intros Hx Harc Hv; [contradiction|].
  simpl. destruct (String.eqb_spec b x) as [->|Hne].
  - specialize (Hsucc v Harc Hv). split; [now right|].
    destruct (String.eqb_spec x v) as [->|_]; [contradiction|].
    now apply rank_bound.
  - destruct Hx as [?|Hx]; [contradiction|].
    destruct (IH Hx Harc Hv) as [Hin Hlt]. split; [now right|].
    destruct (String.eqb_spec b v) as [->|_]; [contradiction | exact Hlt].
Qed.

Lemma chained_rank (nodeIds fin : list string) (a : string) (l : list string) :
  finished nodeIds fin -> chained (a :: l) ->
  (forall v, In v (a :: l) -> In v fin /\ In v nodeIds) ->
  (rank fin (last (a :: l) "") <= rank fin a)%nat.
Proof.
  intros Hs. revert a. induction l as [|b l IH]; intros a Hc Hall; [simpl; lia|].
  destruct Hc as [Hab Hc].
  assert (Hb : In b fin /\ In b nodeIds) by (apply Hall; simpl; auto).
  assert (Ha : In a fin /\ In a nodeIds) by (apply Hall; simpl; auto).
  destruct (finished_rank _ _ _ _ Hs (proj1 Ha) Hab (proj2 Hb)) as [_ Hlt].
  specialize (IH b Hc ltac:(intros v Hv; apply Hall; now right)).
  change (last (a :: b :: l) "") with (last (b :: l) ""). lia.
Qed.

(** Finished nodes lie on no cycle of nodes of the graph. *)
Lemma finished_acyclic (nodeIds fin : list string) (c : list string) :
  finished nodeIds fin -> closedWalk c ->
  (forall v, In v c -> In v fin /\ In v nodeIds) -> False.
Proof.
  intros Hs (Hne & Hc & Hback) Hall.
  destruct c as [|a l]; [congruence|].
  pose proof (chained_rank _ _ a l Hs Hc Hall) as Hle.
  simpl hd in Hback.
  assert (Hlast : In (last (a :: l) "") (a :: l)).
  { destruct (exists_last (l := a :: l) ltac:(discriminate)) as (l' & z & E).
    rewrite E, last_last. apply in_or_app. simpl. auto. }
  destruct (finished_rank _ _ _ _ Hs (proj1 (Hall _ Hlast)) Hback
              (proj2 (Hall a (or_introl eq_refl)))) as [_ Hlt].
  lia.
Qed.
End Chains.

(** The number of white entries. *)
Definition whiteCount (cs : record CycleDetection.color) : nat :=
  List.length (filter (fun kv => match snd kv with
                                 | CycleDetection.white => true
                                 | _ => false
                                 end) cs).

Lemma whiteCount_set_white (cs : record CycleDetection.color) (u : string)
    (c : CycleDetection.color) :
  get cs u = Some CycleDetection.white -> c <> CycleDetection.white ->
  S (whiteCount (set cs u c)) = whiteCount cs.
Proof.
  unfold whiteCount. induction cs as [|[k v] cs IH]; intros Hu Hc; [discriminate|].
  simpl in *. destruct (String.eqb_spec k u) as [->|Hne].
  - injection Hu as ->. simpl. destruct c; [congruence | reflexivity..].
  - simpl. destruct v; simpl; rewrite IH; auto.
Qed.

Lemma whiteCount_set_other (cs : record CycleDetection.color) (u : string)
    (c c' : CycleDetection.color) :
  get cs u = Some c -> c <> CycleDetection.white -> c' <> CycleDetection.white ->
  whiteCount (set cs u c') = whiteCount cs.
Proof.
  unfold whiteCount. induction cs as [|[k v] cs IH]; intros Hu Hc Hc'; [discriminate|].
  simpl in *. destruct (String.eqb_spec k u) as [->|Hne].
  - injection Hu as ->. simpl. destruct c, c'; congruence.
  - simpl. destruct v; simpl; rewrite IH; auto.
Qed.

Section CycleSearch.
Import CycleDetection.

Variable graph : GraphData.
Hypothesis nodes_adj : forall n, In n (nodeIds graph) -> get (adj graph) n <> None.

(** A Step that reports no cycle. *)
Definition quiet (st : ColorStep) : Prop := highlightedCycle st = None.

(** The state of a search that has found no cycle: the gray nodes are the
    path, which follows the adjacency lists; the black nodes are the
    finished ones. *)
Record inv (fin : list string) (s : state) : Prop := {
  inv_nodes : forall v, get (colors s) v <> None <-> In v (nodeIds graph);
  inv_gray : forall v, get (colors s) v = Some gray <-> In v (path s);
  inv_black : forall v, get (colors s) v = Some black <-> In v fin;
  inv_NoDup : NoDup (path s);
  inv_chained : chained graph (path s);
  inv_finished : finished graph (nodeIds graph) fin;
  inv_quiet : Forall quiet (steps s);
  inv_found : cycleFound s = false
}.

(** The state of a search that has just found a cycle: its last Step, and
    no other, shows a cycle, which is one of the graph. *)
Definition found (s : state) : Prop :=
  cycleFound s = true
  /\ exists pre st c,
       steps s = pre ++ [st] /\ Forall quiet pre
       /\ highlightedCycle st = Some c
       /\ closedWalk graph c /\ NoDup c
       /\ (forall v, In v c -> In v (nodeIds graph)).

Lemma createStep_inv (fin : list string) (s : state) (desc : string)
    (current nb : option string) :
  inv fin s -> inv fin (createStep s desc current nb None).
Proof.
  intros [H1 H2 H3 H4 H5 H6 H7 H8]. constructor; simpl; auto.
  apply Forall_app. split; [exact H7|]. constructor; [reflexivity | constructor].
Qed.

Lemma last_app_cons (pre post : list string) (v : string) :
  last (pre ++ v :: post) "" = last (v :: post) "".
Proof.
  induction pre as [|a pre IH]; [reflexivity|].
  simpl app. rewrite <- IH. destruct (pre ++ v :: post) eqn:E; [|reflexivity].
  destruct pre; discriminate.
Qed.

(** The loop over the adjacency list of [u], given that the nested calls
    behave. *)
Lemma each_spec (call : string -> state -> outcome state) (u : string) (bound : nat) :
  (forall v s fin,
     inv fin s -> get (colors s) v = Some white -> chained graph (path s ++ [v]) ->
     (whiteCount (colors s) <= bound)%nat ->
     exists s', call v s = Returned s'
       /\ ((exists fin', inv fin' s' /\ path s' = path s /\ incl fin fin' /\ In v fin'
                         /\ (whiteCount (colors s') <= whiteCount (colors s))%nat)
           \/ found s')) ->
  forall vs s fin,
    inv fin s -> path s <> [] -> last (path s) "" = u ->
    (forall v, In v vs -> arc graph u v) ->
    (whiteCount (colors s) <= bound)%nat ->
    exists s' returned,
      each call u vs s = Returned (s', returned)
      /\ ((returned = false
           /\ exists fin', inv fin' s' /\ path s' = path s /\ incl fin fin'
                /\ (forall v, In v vs -> In v (nodeIds graph) -> In v fin')
                /\ (whiteCount (colors s') <= whiteCount (colors s))%nat)
          \/ (returned = true /\ found s')).
Proof.
  intros Hcall. induction vs as [|v vs IH]; intros s fin Hinv Hpath Hlast Harcs Hcount.
  - exists s, false. split; [reflexivity|]. left. split; [reflexivity|].
    exists fin. split; [exact Hinv|]. split; [reflexivity|]. split; [apply incl_refl|].
    split; [intros v [] | lia].
  - simpl. rewrite (inv_found _ _ Hinv).
    set (s1 := createStep s (template ["Exploring neighbor "; v; " of "; u; "."])
                 (Some u) (Some v) None).
    assert (Hinv1 : inv fin s1) by (apply createStep_inv, Hinv).
    assert (Harc : arc graph u v) by (apply Harcs; now left).
    assert (Hrest : forall w, In w vs -> arc graph u w) by (intros w Hw; apply Harcs; now right).
    destruct (get (colors s) v) as [[| |]|] eqn:Hv.
    + (* white: the nested call *)
      destruct (Hcall v s1 fin Hinv1 Hv) as (s2 & Hs2 & [Hok|Hfound]).
      * apply chained_snoc; [apply (inv_chained _ _ Hinv)|]. right.
        simpl. now rewrite Hlast.
      * exact Hcount.
      * destruct Hok as (fin2 & Hinv2 & Hpath2 & Hincl2 & Hv2 & Hcount2).
        rewrite Hs2. cbn [bind]. rewrite (inv_found _ _ Hinv2).
        destruct (IH s2 fin2 Hinv2) as (s3 & returned & Hs3 & Hres).
        -- now rewrite Hpath2.
        -- now rewrite Hpath2.
        -- exact Hrest.
        -- simpl in Hcount2. lia.
        -- exists s3, returned. split; [exact Hs3|].
           destruct Hres as [(Hr & fin3 & Hinv3 & Hpath3 & Hincl3 & Hall3 & Hcount3)|Hres];
             [left | right; exact Hres].
           split; [exact Hr|]. exists fin3. split; [exact Hinv3|].
           split; [now rewrite Hpath3, Hpath2|].
           split; [intros z Hz; apply Hincl3, Hincl2, Hz|].
           split; [|simpl in Hcount2; lia].
           intros w [<-|Hw] Hnode; [apply Hincl3, Hv2 | now apply Hall3].
      * rewrite Hs2. cbn [bind]. destruct Hfound as [Hcf Hrest'].
        rewrite Hcf. exists s2, true. split; [reflexivity|]. right.
        split; [reflexivity|]. split; assumption.
    + (* gray: a cycle *)
      exists (detect u v s1), true. split; [reflexivity|]. right.
      split; [reflexivity|]. split; [reflexivity|].
      apply (inv_gray _ _ Hinv) in Hv.
      destruct (slice_indexOf _ _ Hv) as (pre & post & Hsplit & Hpre & Hslice).
      exists (steps s1), {| dataStructure := path s; visited := [];
                            currentNode := Some u; neighbor := Some v;
                            description :=
                              template ["Cycle detected! Neighbor "; v; " is already Gray."];
                            nodeColors := colors s; highlightedPath := path s;
                            highlightedCycle :=
                              Some (slice (path s) (indexOf (path s) v)) |},
             (v :: post).
      split; [reflexivity|]. split; [apply (inv_quiet _ _ Hinv1)|].
      split; [simpl; now rewrite Hslice|].
      pose proof (inv_chained _ _ Hinv) as Hch. pose proof (inv_NoDup _ _ Hinv) as Hnd.
      rewrite Hsplit in Hch, Hnd, Hlast.
      split.
      { split; [discriminate|]. split; [apply (chained_suffix graph pre), Hch|].
        rewrite <- (last_app_cons pre post v), Hlast. exact Harc. }
      split; [apply (NoDup_app_remove_l _ _ Hnd)|].
      intros w Hw. apply (inv_nodes _ _ Hinv).
      assert (Hg : get (colors s) w = Some gray).
      { apply (inv_gray _ _ Hinv). rewrite Hsplit. apply in_or_app. now right. }
      congruence.
    + (* black *)
      destruct (IH s1 fin Hinv1 Hpath Hlast Hrest Hcount) as (s3 & returned & Hs3 & Hres).
      exists s3, returned. split; [exact Hs3|].
      destruct Hres as [(Hr & fin3 & Hinv3 & Hpath3 & Hincl3 & Hall3 & Hcount3)|Hres];
        [left | right; exact Hres].
      split; [exact Hr|]. exists fin3. split; [exact Hinv3|].
      split; [exact Hpath3|]. split; [exact Hincl3|]. split; [|exact Hcount3].
      intros w [<-|Hw] Hnode; [|now apply Hall3].
      apply Hincl3, (inv_black _ _ Hinv), Hv.
    + (* not a node *)
      destruct (IH s1 fin Hinv1 Hpath Hlast Hrest Hcount) as (s3 & returned & Hs3 & Hres).
      exists s3, returned. split; [exact Hs3|].
      destruct Hres as [(Hr & fin3 & Hinv3 & Hpath3 & Hincl3 & Hall3 & Hcount3)|Hres];
        [left | right; exact Hres].
      split; [exact Hr|]. exists fin3. split; [exact Hinv3|].
      split; [exact Hpath3|]. split; [exact Hincl3|]. split; [|exact Hcount3].
      intros w [<-|Hw] Hnode; [|now apply Hall3].
      exfalso. apply (inv_nodes _ _ Hinv) in Hnode. congruence.
Qed.

Lemma removelast_snoc (l : list string) (u : string) : removelast (l ++ [u]) = l.
Proof. apply removelast_last. Qed.

(** A call of [dfs] on a white node returns: either it has finished the
    node and found no cycle, or it has found one. *)
Lemma dfs_spec (fuel : nat) :
  forall u s fin,
    inv fin s -> get (colors s) u = Some white -> chained graph (path s ++ [u]) ->
    (whiteCount (colors s) <= fuel)%nat ->
    exists s', dfs fuel graph u s = Returned s'
      /\ ((exists fin', inv fin' s' /\ path s' = path s /\ incl fin fin' /\ In u fin'
                        /\ (whiteCount (colors s') <= whiteCount (colors s))%nat)
          \/ found s').
Proof.
  induction fuel as [|fuel IH]; intros u s fin Hinv Hu Hch Hcount.
  { exfalso. pose proof (whiteCount_set_white (colors s) u gray Hu ltac:(discriminate)). lia. }
  simpl. rewrite (inv_found _ _ Hinv).
  assert (Hnode : In u (nodeIds graph)) by (apply (inv_nodes _ _ Hinv); congruence).
  destruct (get (adj graph) u) as [nbs|] eqn:Hadj; [|exfalso; now apply (nodes_adj u)].
  cbn [orThrow bind].
  assert (Hfresh : ~ In u (path s)).
  { intros H. apply (inv_gray _ _ Hinv) in H. congruence. }
  assert (Hwhite : ~ In u fin).
  { intros H. apply (inv_black _ _ Hinv) in H. congruence. }
  pose proof (whiteCount_set_white (colors s) u gray Hu ltac:(discriminate)) as Hdrop.
  assert (Hinv1 : inv fin (enter u s)).
  { destruct Hinv as [H1 H2 H3 H4 H5 H6 H7 H8]. constructor; simpl.
    - intros v. destruct (string_dec v u) as [->|Hne].
      + rewrite get_set_same. split; [auto | discriminate].
      + rewrite get_set_other by assumption. apply H1.
    - intros v. rewrite in_app_iff. simpl. destruct (string_dec v u) as [->|Hne].
      + rewrite get_set_same. split; auto.
      + rewrite get_set_other by assumption. rewrite H2.
        split; [auto | intros [?|[?|[]]]; [assumption | congruence]].
    - intros v. destruct (string_dec v u) as [->|Hne].
      + rewrite get_set_same. split; [discriminate | contradiction].
      + rewrite get_set_other by assumption. apply H3.
    - apply NoDup_app; [assumption | constructor; [intros [] | constructor] |].
      intros z Hz [<-|[]]. contradiction.
    - exact Hch.
    - exact H6.
    - apply Forall_app. split; [exact H7|]. constructor; [reflexivity | constructor].
    - exact H8. }
  destruct (each_spec (dfs fuel graph) u fuel IH nbs (enter u s) fin Hinv1)
    as (s2 & returned & Hs2 & Hres).
  - simpl. destruct (path s); discriminate.
  - simpl. apply last_last.
  - intros v Hv. unfold arc. now rewrite Hadj.
  - simpl. lia.
  - rewrite Hs2. cbn [bind].
    destruct Hres as [(-> & fin2 & Hinv2 & Hpath2 & Hincl2 & Hall2 & Hcount2)
                     |(-> & Hfound)].
    2:{ exists s2. split; [reflexivity | right; exact Hfound]. }
    exists (leave u s2). split; [reflexivity|]. left.
    simpl in Hpath2, Hcount2.
    assert (Hgray : get (colors s2) u = Some gray).
    { apply (inv_gray _ _ Hinv2). rewrite Hpath2. apply in_or_app. simpl. auto. }
    exists (u :: fin2).
    split.
    { destruct Hinv2 as [H1 H2 H3 H4 H5 H6 H7 H8]. constructor; simpl.
      - intros v. destruct (string_dec v u) as [->|Hne].
        + rewrite get_set_same. split; [auto | discriminate].
        + rewrite get_set_other by assumption. apply H1.
      - intros v. rewrite Hpath2, removelast_snoc. destruct (string_dec v u) as [->|Hne].
        + rewrite get_set_same. split; [discriminate | contradiction].
        + rewrite get_set_other by assumption. rewrite H2, Hpath2, in_app_iff. simpl.
          split; [intros [?|[?|[]]]; [assumption | congruence] | auto].
      - intros v. destruct (string_dec v u) as [->|Hne].
        + rewrite get_set_same. split; auto.
        + rewrite get_set_other by assumption. rewrite H3.
          split; [auto | intros [?|?]; [congruence | assumption]].
      - rewrite Hpath2, removelast_snoc. apply (inv_NoDup _ _ Hinv).
      - apply chained_removelast, H5.
      - constructor; [exact H6 | |].
        + intros H. apply H3 in H. congruence.
        + intros v Harc Hv. apply Hall2; [|exact Hv].
          unfold arc in Harc. now rewrite Hadj in Harc.
      - apply Forall_app. split; [exact H7|]. constructor; [reflexivity | constructor].
      - exact H8. }
    split; [simpl; now rewrite Hpath2, removelast_snoc|].
    split; [intros z Hz; right; apply Hincl2, Hz|].
    split; [now left|].
    simpl. rewrite (whiteCount_set_other _ _ _ _ Hgray) by discriminate. lia.
Qed.

Lemma roots_found (fuel : nat) (ns : list Node) (s : state) :
  cycleFound s = true -> roots fuel graph ns s = Returned s.
Proof.
  intros Hs. induction ns as [|node ns IH]; [reflexivity|]. simpl.
  rewrite Hs. simpl. destruct (get (colors s) (id node)) as [[| |]|]; exact IH.
Qed.

(** The loop over the nodes of the graph. *)
Lemma roots_spec (fuel : nat) :
  forall ns s fin,
    inv fin s -> path s = [] -> incl ns (nodes graph) ->
    (whiteCount (colors s) <= fuel)%nat ->
    exists s', roots fuel graph ns s = Returned s'
      /\ ((exists fin', inv fin' s' /\ path s' = [] /\ incl fin fin'
                        /\ (forall n, In n ns -> In (id n) fin'))
          \/ found s').
Proof.
  induction ns as [|node ns IH]; intros s fin Hinv Hpath Hns Hcount.
  - exists s. split; [reflexivity|]. left. exists fin.
    split; [exact Hinv|]. split; [exact Hpath|]. split; [apply incl_refl | intros n []].
  - simpl. assert (Hns' : incl ns (nodes graph)) by (intros z Hz; apply Hns; now right).
    assert (Hnode : In (id node) (nodeIds graph)).
    { unfold nodeIds. apply in_map, Hns. now left. }
    destruct (get (colors s) (id node)) as [[| |]|] eqn:Hc.
    + assert (Hsame : {| colors := colors s; path := []; cycleFound := cycleFound s;
                         steps := steps s |} = s).
      { destruct s; simpl in *. now subst. }
      rewrite Hsame, (inv_found _ _ Hinv). cbn [negb].
      destruct (dfs_spec fuel (id node) s fin Hinv Hc) as (s1 & Hs1 & [Hok|Hfound]).
      * rewrite Hpath. exact I.
      * exact Hcount.
      * destruct Hok as (fin1 & Hinv1 & Hpath1 & Hincl1 & Hin1 & Hcount1).
        rewrite Hs1. cbn [bind].
        destruct (IH s1 fin1 Hinv1) as (s2 & Hs2 & Hres).
        -- now rewrite Hpath1.
        -- exact Hns'.
        -- lia.
        -- exists s2. split; [exact Hs2|].
           destruct Hres as [(fin2 & Hinv2 & Hpath2 & Hincl2 & Hall2)|Hres];
             [left | right; exact Hres].
           exists fin2. split; [exact Hinv2|]. split; [exact Hpath2|].
           split; [intros z Hz; apply Hincl2, Hincl1, Hz|].
           intros n [<-|Hn]; [apply Hincl2, Hin1 | now apply Hall2].
      * rewrite Hs1. cbn [bind]. rewrite (roots_found fuel ns s1 (proj1 Hfound)).
        exists s1. split; [reflexivity | right; exact Hfound].
    + exfalso. apply (inv_gray _ _ Hinv) in Hc. now rewrite Hpath in Hc.
    + destruct (IH s fin Hinv Hpath Hns' Hcount) as (s2 & Hs2 & Hres).
      exists s2. split; [exact Hs2|].
      destruct Hres as [(fin2 & Hinv2 & Hpath2 & Hincl2 & Hall2)|Hres];
        [left | right; exact Hres].
      exists fin2. split; [exact Hinv2|]. split; [exact Hpath2|]. split; [exact Hincl2|].
      intros n [<-|Hn]; [|now apply Hall2].
      apply Hincl2, (inv_black _ _ Hinv), Hc.
    + exfalso. apply (inv_nodes _ _ Hinv) in Hnode. congruence.
Qed.
End CycleSearch.

Lemma initial_colors (ns : list Node) (acc : record CycleDetection.color) (v : string) :
  (forall w c, get acc w = Some c -> c = CycleDetection.white) ->
  (forall c, get (fold_left (fun cs node => set cs (id node) CycleDetection.white) ns acc) v
             = Some c -> c = CycleDetection.white)
  /\ (get (fold_left (fun cs node => set cs (id node) CycleDetection.white) ns acc) v <> None
      <-> get acc v <> None \/ In v (map id ns)).
Proof.
  revert acc. induction ns as [|n ns IH]; intros acc Hacc; simpl.
  - split; [apply Hacc | tauto].
  - destruct (IH (set acc (id n) CycleDetection.white)) as [H1 H2].
    + intros w c. destruct (string_dec w (id n)) as [->|Hne].
      * rewrite get_set_same. congruence.
      * rewrite get_set_other by assumption. apply Hacc.
    + split; [exact H1|]. rewrite H2.
      destruct (string_dec v (id n)) as [->|Hne].
      * rewrite get_set_same. split; [auto | intros _; left; discriminate].
      * rewrite get_set_other by assumption.
        split; [intros [?|?]; auto | intros [?|[?|?]]; auto; congruence].
Qed.



(** ** Counting walks: the matrices shown count the walks *)

(** The entry [m[i][j]], 0 where there is none. *)
Definition entry (m : list (list Z)) (i j : nat) : Z := nth j (nth i m []) 0%Z.

(** A [V] by [V] matrix. *)
Definition square (V : nat) (m : list (list Z)) : Prop :=
  List.length m = V /\ Forall (fun row => List.length row = V) m.

Lemma setAt_length {A : Type} (l : list A) (i : nat) (v : A) :
  List.length (CountWalks.setAt l i v) = List.length l.
Proof.
  revert i. induction l as [|a l IH]; intros [|i]; simpl; auto.
Qed.

Lemma setAt_nth {A : Type} (l : list A) (i k : nat) (v d : A) :
  (i < List.length l)%nat ->
  nth k (CountWalks.setAt l i v) d = if (k =? i)%nat then v else nth k l d.
Proof.
  revert i k. induction l as [|a l IH]; intros [|i] [|k] Hi; simpl in *; try lia; auto.
  apply IH. lia.
Qed.

Lemma setAt_In {A : Type} (l : list A) (i : nat) (v x : A) :
  In x (CountWalks.setAt l i v) -> x = v \/ In x l.
Proof.
  revert i. induction l as [|a l IH]; intros [|i]; simpl; [tauto.. | |].
  - intros [<-|H]; auto.
  - intros [<-|H]; auto. destruct (IH _ H); auto.
Qed.

Section Products.
Variable V : nat.

Lemma square_row (m : list (list Z)) (i : nat) :
  square V m -> (i < V)%nat ->
  exists row, nth_error m i = Some row /\ List.length row = V /\ nth i m [] = row.
Proof.
  intros [Hlen Hrows] Hi.
  destruct (nth_error m i) as [row|] eqn:E.
  - exists row. split; [reflexivity|]. split.
    + rewrite Forall_forall in Hrows. apply Hrows. eapply nth_error_In; eauto.
    + now apply nth_error_nth.
  - apply nth_error_None in E. lia.
Qed.

Lemma dot_spec (m2 : list (list Z)) (row : list Z) (j : nat) :
  square V m2 -> List.length row = V -> (j < V)%nat ->
  forall ks sum, (forall k, In k ks -> (k < V)%nat) ->
    CountWalks.dot ks row m2 j sum
    = Returned (sum + sumOver (fun k => nth k row 0 * entry m2 k j) ks)%Z.
Proof.
  intros Hm2 Hrow Hj. induction ks as [|k ks IH]; intros sum Hks; simpl.
  - f_equal. lia.
  - assert (Hk : (k < V)%nat) by (apply Hks; now left).
    destruct (square_row m2 k Hm2 Hk) as (r2 & Hr2 & Hlen2 & Hnth2).
    rewrite Hr2. cbn [orThrow bind].
    destruct (nth_error row k) as [a|] eqn:Ha;
      [|apply nth_error_None in Ha; lia].
    destruct (nth_error r2 j) as [b|] eqn:Hb;
      [|apply nth_error_None in Hb; lia].
    cbn [orThrow bind]. rewrite IH by (intros k' Hk'; apply Hks; now right).
    f_equal. unfold entry. rewrite Hnth2.
    rewrite (nth_error_nth _ _ _ Ha), (nth_error_nth _ _ _ Hb). lia.
Qed.

Lemma cells_spec (m2 : list (list Z)) (row : list Z) :
  square V m2 -> List.length row = V ->
  forall js, (forall j, In j js -> (j < V)%nat) ->
    CountWalks.cells js (seq 0 V) row m2
    = Returned (map (fun j => sumOver (fun k => nth k row 0 * entry m2 k j)%Z (seq 0 V)) js).
Proof.
  intros Hm2 Hrow. induction js as [|j js IH]; intros Hjs; simpl; [reflexivity|].
  rewrite (dot_spec m2 row j Hm2 Hrow) by
    (first [apply Hjs; now left | intros k Hk; apply in_seq in Hk; lia]).
  cbn [bind]. rewrite IH by (intros j' Hj'; apply Hjs; now right).
  reflexivity.
Qed.

Lemma rows_spec (m2 : list (list Z)) :
  square V m2 -> (0 < V)%nat ->
  forall m1, Forall (fun row => List.length row = V) m1 ->
    CountWalks.rows m1 (seq 0 V) m2
    = Returned (map (fun row =>
                       map (fun j => sumOver (fun k => nth k row 0 * entry m2 k j)%Z (seq 0 V))
                           (seq 0 V)) m1).
Proof.
  intros Hm2 HV. induction m1 as [|row m1 IH]; intros Hm1; simpl; [reflexivity|].
  apply Forall_cons_iff in Hm1 as [Hrow Hrest].
  destruct (square_row m2 0 Hm2 HV) as (first & Hfirst & Hlen & _).
  assert (Hhd : hd_error m2 = Some first) by (destruct m2; [discriminate | exact Hfirst]).
  rewrite Hhd. cbn [orThrow bind]. rewrite Hlen.
  rewrite (cells_spec m2 row Hm2 Hrow) by (intros j Hj; apply in_seq in Hj; lia).
  cbn [bind]. rewrite (IH Hrest). reflexivity.
Qed.

(** The product of two [V] by [V] matrices. *)
Lemma multiplyMatrices_spec (m1 m2 : list (list Z)) :
  square V m1 -> square V m2 ->
  exists m, CountWalks.multiplyMatrices m1 m2 = Returned m /\ square V m
            /\ forall i j, (i < V)%nat -> (j < V)%nat ->
                 entry m i j = sumOver (fun k => entry m1 i k * entry m2 k j)%Z (seq 0 V).
Proof.
  intros Hm1 Hm2. pose proof Hm1 as [Hlen1 Hrows1].
  destruct m1 as [|first rest] eqn:Em1.
  { simpl in Hlen1. subst V. exists []. split; [reflexivity|]. split; [exact Hm1|].
    intros i j Hi. lia. }
  assert (HV : (0 < V)%nat) by (simpl in Hlen1; lia).
  unfold CountWalks.multiplyMatrices.
  assert (Hfirst : List.length first = V) by (apply Forall_inv in Hrows1; exact Hrows1).
  rewrite Hfirst, (rows_spec m2 Hm2 HV _ Hrows1).
  eexists. split; [reflexivity|]. split.
  - split; [rewrite length_map; exact Hlen1|].
    apply Forall_forall. intros row Hrow. apply in_map_iff in Hrow as (r & <- & _).
    now rewrite length_map, length_seq.
  - intros i j Hi Hj. unfold entry at 1.
    rewrite <- Em1 in *.
    rewrite (nth_indep _ [] (map (fun j0 => sumOver (fun k => nth k [] 0 * entry m2 k j0)%Z
                                                (seq 0 V)) (seq 0 V)))
      by (rewrite length_map; lia).
    rewrite (map_nth (fun row => map (fun j0 => sumOver (fun k => nth k row 0 * entry m2 k j0)%Z
                                                        (seq 0 V)) (seq 0 V)) m1 [] i).
    rewrite (nth_indep _ 0%Z (sumOver (fun k => nth k (nth i m1 []) 0 * entry m2 k 0%nat)%Z
                                     (seq 0 V)))
      by (rewrite length_map, length_seq; lia).
    rewrite (map_nth (fun j0 => sumOver (fun k => nth k (nth i m1 []) 0 * entry m2 k j0)%Z
                                        (seq 0 V)) (seq 0 V) 0%nat j).
    rewrite seq_nth by lia. reflexivity.
Qed.
End Products.

(** *** The adjacency matrix *)

(** Some edge record goes from the node of index [i] to the node of
    index [j]. *)
Definition linkedBy (es : list Edge) (i j : nat) : bool :=
  existsb (fun e => match get CountWalks.nodeIndexMap (from e),
                          get CountWalks.nodeIndexMap (to e) with
                    | Some a, Some b => (a =? i)%nat && (b =? j)%nat
                    | _, _ => false
                    end) es.

(** Every edge starts at a node the index map knows, with an index
    below [V], and ends at a node the map does not know or of index below
    [V]. *)
Definition indexed (V : nat) (es : list Edge) : bool :=
  forallb (fun e => match get CountWalks.nodeIndexMap (from e) with
                    | Some i => (i <? V)%nat
                    | None => false
                    end
                    && match get CountWalks.nodeIndexMap (to e) with
                       | Some j => (j <? V)%nat
                       | None => true
                       end) es.

Lemma markAll_spec (V : nat) (es : list Edge) :
  indexed V es = true ->
  forall m, square V m ->
    exists m', CountWalks.markAll m es = Returned m' /\ square V m'
               /\ forall i j, (i < V)%nat -> (j < V)%nat ->
                    entry m' i j = if linkedBy es i j then 1%Z else entry m i j.
Proof.
  induction es as [|e es IH]; intros Hes m Hm.
  - exists m. simpl. auto.
  - unfold indexed in Hes. cbn [forallb] in Hes. fold (indexed V es) in Hes.
    apply andb_prop in Hes as [He Hes]. apply andb_prop in He as [Hf Ht].
    cbn [CountWalks.markAll]. unfold CountWalks.mark.
    unfold linkedBy. cbn [existsb]. fold (linkedBy es).
    destruct (get CountWalks.nodeIndexMap (from e)) as [a|]; [|discriminate].
    apply Nat.ltb_lt in Hf.
    destruct (square_row V m a Hm Hf) as (row & Hrow & Hlen & Hnth).
    rewrite Hrow. cbn [orThrow bind].
    destruct (get CountWalks.nodeIndexMap (to e)) as [b|].
    + apply Nat.ltb_lt in Ht. rewrite Hlen.
      destruct (Nat.ltb_spec b V) as [_|?]; [|lia]. cbn [bind].
      destruct (IH Hes (CountWalks.setAt m a (CountWalks.setAt row b 1%Z)))
        as (m' & Hm' & Hsq & Hentry).
      * destruct Hm as [Hl Hrows]. split; [now rewrite setAt_length|].
        apply Forall_forall. intros r Hr. apply setAt_In in Hr as [->|Hr].
        -- now rewrite setAt_length.
        -- rewrite Forall_forall in Hrows. now apply Hrows.
      * exists m'. split; [exact Hm'|]. split; [exact Hsq|].
        intros i j Hi Hj. rewrite (Hentry i j Hi Hj). cbv beta iota.
        fold (linkedBy es i j).
        destruct (linkedBy es i j); [now rewrite orb_true_r|]. rewrite orb_false_r.
        unfold entry. rewrite setAt_nth by (destruct Hm; lia).
        destruct (Nat.eqb_spec i a) as [->|Hia].
        -- rewrite Nat.eqb_refl. cbn [andb]. rewrite setAt_nth by lia.
           destruct (Nat.eqb_spec j b) as [->|Hjb].
           ++ now rewrite Nat.eqb_refl.
           ++ destruct (Nat.eqb_spec b j); [congruence|]. now rewrite Hnth.
        -- destruct (Nat.eqb_spec a i); [congruence | reflexivity].
    + destruct (IH Hes m Hm) as (m' & Hm' & Hsq & Hentry).
      exists m'. split; [exact Hm'|]. split; [exact Hsq|].
      intros i j Hi Hj. rewrite (Hentry i j Hi Hj). cbv beta iota.
      fold (linkedBy es i j). reflexivity.
Qed.

Lemma zeros_square (V : nat) : square V (repeat (repeat 0%Z V) V).
Proof.
  split; [apply repeat_length|]. apply Forall_forall. intros row Hrow.
  apply repeat_spec in Hrow. subst. apply repeat_length.
Qed.

Lemma zeros_entry (V i j : nat) : entry (repeat (repeat 0%Z V) V) i j = 0%Z.
Proof.
  unfold entry.
  assert (Hrow : forall (n : nat) (l : list Z), (forall x, In x l -> x = 0%Z) -> nth n l 0%Z = 0%Z).
  { intros n l Hl. destruct (nth_in_or_default n l 0%Z) as [H|H]; auto. }
  apply Hrow.
  destruct (nth_in_or_default i (repeat (repeat 0%Z V) V) []) as [H|H];
    [|rewrite H; intros x []].
  apply repeat_spec in H. rewrite H. intros x Hx. now apply repeat_spec in Hx.
Qed.

(** *** Walks *)

Lemma NoDup_flat_map {A B : Type} (f : A -> list B) (l : list A) :
  NoDup l -> (forall a, In a l -> NoDup (f a)) ->
  (forall a a' b, In a l -> In a' l -> In b (f a) -> In b (f a') -> a = a') ->
  NoDup (flat_map f l).
Proof.
  induction 1 as [|a l Ha Hnd IH]; intros Hf Hinj; simpl; [constructor|].
  apply NoDup_app.
  - apply Hf. now left.
  - apply IH; [intros x Hx; apply Hf; now right|].
    intros x x' b Hx Hx'. apply Hinj; now right.
  - intros b Hb Hb'. apply in_flat_map in Hb' as (a' & Ha' & Hb').
    assert (a = a') by (apply (Hinj a a' b); simpl; auto).
    subst. contradiction.
Qed.

Lemma sumOver_indicator (V m0 : nat) (f : nat -> Z) :
  (m0 < V)%nat ->
  sumOver (fun m => (if (m0 =? m)%nat then 1 else 0) * f m)%Z (seq 0 V) = f m0.
Proof.
  intros Hm.
  assert (H : forall l, NoDup l ->
            sumOver (fun m => (if (m0 =? m)%nat then 1 else 0) * f m)%Z l
            = if in_dec Nat.eq_dec m0 l then f m0 else 0%Z).
  { induction 1 as [|a l Ha Hnd IH]; [reflexivity|].
    rewrite sumOver_cons, IH. simpl.
    destruct (Nat.eq_dec a m0) as [->|Hne].
    - rewrite Nat.eqb_refl. destruct (in_dec Nat.eq_dec m0 l); [contradiction | lia].
    - destruct (Nat.eqb_spec m0 a); [congruence|].
      destruct (in_dec Nat.eq_dec m0 l); lia. }
  rewrite (H _ (seq_NoDup V 0)).
  destruct (in_dec Nat.eq_dec m0 (seq 0 V)) as [_|Hout]; [reflexivity|].
  exfalso. apply Hout, in_seq. lia.
Qed.

Section Walks.
Variable V : nat.
Variable link : nat -> nat -> bool.

(** Each node of the list is linked to the next. *)
Fixpoint stepping (w : list nat) : Prop :=
  match w with
  | a :: ((b :: _) as rest) => link a b = true /\ stepping rest
  | _ => True
  end.

(** A walk with [k] edges from [i] to [j], as the list of its nodes. *)
Definition walk (k i j : nat) (w : list nat) : Prop :=
  List.length w = S k /\ hd 0%nat w = i /\ last w 0%nat = j
  /\ (forall v, In v w -> (v < V)%nat) /\ stepping w.

Lemma stepping_snoc (w : list nat) (v : nat) :
  w <> [] -> (stepping (w ++ [v]) <-> stepping w /\ link (last w 0%nat) v = true).
Proof.
  induction w as [|a w IH]; intros Hne; [congruence|].
  destruct w as [|b w].
  - simpl. tauto.
  - change (stepping ((a :: b :: w) ++ [v]))
      with (link a b = true /\ stepping ((b :: w) ++ [v])).
    rewrite IH by discriminate.
    change (stepping (a :: b :: w)) with (link a b = true /\ stepping (b :: w)).
    change (last (a :: b :: w) 0%nat) with (last (b :: w) 0%nat). tauto.
Qed.

(** The walks of [k] edges from [i]: those of [k - 1] edges, each
    extended by every node its last node is linked to. *)
Definition extend (w : list nat) : list (list nat) :=
  map (fun v => w ++ [v]) (filter (link (last w 0%nat)) (seq 0 V)).

Fixpoint walksFrom (k i : nat) : list (list nat) :=
  match k with
  | O => [[i]]
  | S k' => flat_map extend (walksFrom k' i)
  end.

Definition ending (j : nat) (ws : list (list nat)) : list (list nat) :=
  filter (fun w => (last w 0 =? j)%nat) ws.

Lemma walksFrom_spec (k i : nat) (w : list nat) :
  (i < V)%nat ->
  In w (walksFrom k i)
  <-> List.length w = S k /\ hd 0%nat w = i
      /\ (forall v, In v w -> (v < V)%nat) /\ stepping w.
Proof.
  intros Hi. revert w. induction k as [|k IH]; intros w.
  - simpl. split.
    + intros [<-|[]]. simpl. repeat split; auto. intros v [<-|[]]. exact Hi.
    + intros (Hlen & Hhd & _). destruct w as [|a [|b w]]; try discriminate.
      simpl in Hhd. subst. now left.
  - simpl. rewrite in_flat_map. split.
    + intros (w' & Hw' & Hw). apply IH in Hw' as (Hlen & Hhd & Hall & Hstep).
      unfold extend in Hw. apply in_map_iff in Hw as (v & <- & Hv).
      apply filter_In in Hv as [Hv Hlink]. apply in_seq in Hv.
      assert (Hne : w' <> []) by (destruct w'; discriminate).
      split; [rewrite length_app; simpl; lia|].
      split; [destruct w'; [congruence | exact Hhd]|].
      split.
      * intros x Hx. apply in_app_or in Hx as [Hx|[<-|[]]]; [auto | lia].
      * apply stepping_snoc; auto.
    + intros (Hlen & Hhd & Hall & Hstep).
      destruct (exists_last (l := w) ltac:(destruct w; discriminate)) as (w' & v & ->).
      rewrite length_app in Hlen. simpl in Hlen.
      assert (Hne : w' <> []) by (destruct w'; [simpl in Hlen; lia | discriminate]).
      apply stepping_snoc in Hstep as [Hstep Hlink]; [|exact Hne].
      exists w'. split.
      * apply IH. split; [lia|]. split; [destruct w'; [congruence | exact Hhd]|].
        split; [intros x Hx; apply Hall, in_or_app; auto | exact Hstep].
      * unfold extend. apply in_map_iff. exists v. split; [reflexivity|].
        apply filter_In. split; [|exact Hlink].
        apply in_seq. specialize (Hall v ltac:(apply in_or_app; simpl; auto)). lia.
Qed.

Lemma walksFrom_NoDup (k i : nat) : NoDup (walksFrom k i).
Proof.
  induction k as [|k IH]; simpl.
  - constructor; [intros [] | constructor].
  - apply NoDup_flat_map; [exact IH | |].
    + intros w _. unfold extend.
      assert (H : forall l, NoDup l -> NoDup (map (fun v => w ++ [v]) l)).
      { induction 1 as [|a l Ha Hnd IHl]; simpl; constructor; [|exact IHl].
        intros Hin. apply in_map_iff in Hin as (b & E & Hb).
        apply app_inj_tail in E as [_ ->]. contradiction. }
      apply H, NoDup_filter, seq_NoDup.
    + intros w w' b _ _ Hb Hb'. unfold extend in *.
      apply in_map_iff in Hb as (v & <- & _). apply in_map_iff in Hb' as (v' & E & _).
      now apply app_inj_tail in E.
Qed.

(** The walks of [k] edges from [i] to [j]. *)
Lemma ending_spec (k i j : nat) (w : list nat) :
  (i < V)%nat -> (In w (ending j (walksFrom k i)) <-> walk k i j w).
Proof.
  intros Hi. unfold ending, walk. rewrite filter_In, (walksFrom_spec k i w Hi), Nat.eqb_eq.
  tauto.
Qed.

Lemma ending_NoDup (k i j : nat) : NoDup (ending j (walksFrom k i)).
Proof. apply NoDup_filter, walksFrom_NoDup. Qed.

Lemma last_snoc (w : list nat) (v : nat) : last (w ++ [v]) 0%nat = v.
Proof. apply last_last. Qed.

Lemma ending_extend (j : nat) (w : list nat) :
  (j < V)%nat ->
  Z.of_nat (List.length (ending j (extend w)))
  = if link (last w 0%nat) j then 1%Z else 0%Z.
Proof.
  intros Hj. unfold ending, extend.
  assert (H : forall l, NoDup l ->
            List.length (filter (fun w0 => (last w0 0 =? j)%nat)
                           (map (fun v => w ++ [v]) (filter (link (last w 0%nat)) l)))
            = if in_dec Nat.eq_dec j l then (if link (last w 0%nat) j then 1%nat else 0%nat)
              else 0%nat).
  { induction 1 as [|a l Ha Hnd IH]; [reflexivity|]. simpl filter at 2.
    destruct (link (last w 0%nat) a) eqn:Ea; simpl.
    - rewrite last_snoc. destruct (Nat.eqb_spec a j) as [->|Hne].
      + simpl. rewrite IH. destruct (in_dec Nat.eq_dec j l); [contradiction|].
        rewrite Ea. destruct (Nat.eq_dec j j); [reflexivity | congruence].
      + rewrite IH. destruct (Nat.eq_dec a j); [congruence|].
        destruct (in_dec Nat.eq_dec j l); reflexivity.
    - rewrite IH. destruct (Nat.eq_dec a j) as [->|Hne].
      + destruct (in_dec Nat.eq_dec j l); [contradiction|]. now rewrite Ea.
      + destruct (in_dec Nat.eq_dec j l); reflexivity. }
  rewrite (H _ (seq_NoDup V 0)).
  destruct (in_dec Nat.eq_dec j (seq 0 V)) as [_|Hout].
  - destruct (link (last w 0%nat) j); reflexivity.
  - exfalso. apply Hout, in_seq. lia.
Qed.

(** Grouping the walks by their last node. *)
Lemma sum_by_last (f : nat -> Z) (ws : list (list nat)) :
  (forall w, In w ws -> (last w 0 < V)%nat) ->
  sumOver (fun w => f (last w 0%nat)) ws
  = sumOver (fun m => Z.of_nat (List.length (ending m ws)) * f m)%Z (seq 0 V).
Proof.
  induction ws as [|w ws IH]; intros Hws.
  - simpl. symmetry. apply sumOver_zero. intros m _. reflexivity.
  - rewrite sumOver_cons, IH by (intros x Hx; apply Hws; now right).
    rewrite <- (sumOver_indicator V (last w 0%nat) f) by (apply Hws; now left).
    rewrite <- sumOver_plus. apply sumOver_ext. intros m _.
    unfold ending. simpl. destruct (Nat.eqb_spec (last w 0%nat) m);
      cbn [List.length]; rewrite ?Nat2Z.inj_succ; ring.
Qed.

(** One more edge: the counts are multiplied by the adjacency matrix. *)
Lemma ending_step (k i j : nat) :
  (i < V)%nat -> (j < V)%nat ->
  Z.of_nat (List.length (ending j (walksFrom (S k) i)))
  = sumOver (fun m => Z.of_nat (List.length (ending m (walksFrom k i)))
                      * (if link m j then 1 else 0))%Z (seq 0 V).
Proof.
  intros Hi Hj.
  rewrite <- (sum_by_last (fun m => if link m j then 1%Z else 0%Z)).
  - simpl walksFrom. generalize (walksFrom k i) as ws. intros ws.
    induction ws as [|w ws IH]; [reflexivity|].
    simpl flat_map. unfold ending in *. rewrite filter_app, length_app, Nat2Z.inj_add.
    rewrite IH, sumOver_cons. f_equal. apply (ending_extend j w Hj).
  - intros w Hw. apply (walksFrom_spec k i w Hi) in Hw as (Hlen & _ & Hall & _).
    apply Hall. destruct (exists_last (l := w) ltac:(destruct w; discriminate))
      as (w' & v & ->).
    rewrite last_last. apply in_or_app. simpl. auto.
Qed.
End Walks.

(** The number of walks of [k] edges from [i] to [j]. *)
Definition walkCount (V : nat) (link : nat -> nat -> bool) (k i j : nat) : Z :=
  Z.of_nat (List.length (ending j (walksFrom V link k i))).

Lemma walkCount_one (V : nat) (link : nat -> nat -> bool) (i j : nat) :
  (i < V)%nat -> (j < V)%nat ->
  walkCount V link 1 i j = if link i j then 1%Z else 0%Z.
Proof.
  intros Hi Hj. unfold walkCount. rewrite (ending_step V link 0 i j Hi Hj).
  rewrite (sumOver_ext _ (fun m => (if (i =? m)%nat then 1 else 0)
                                   * (if link m j then 1 else 0))%Z).
  - apply (sumOver_indicator V i (fun m => if link m j then 1%Z else 0%Z) Hi).
  - intros m _. unfold ending. simpl. destruct (i =? m)%nat; reflexivity.
Qed.

(** One multiplication by the adjacency matrix counts the walks with one
    more edge. *)
Lemma multiply_counts (V : nat) (link : nat -> nat -> bool) (k : nat)
    (current adjMatrix : list (list Z)) :
  square V current -> square V adjMatrix ->
  (forall i j, (i < V)%nat -> (j < V)%nat ->
     entry adjMatrix i j = if link i j then 1%Z else 0%Z) ->
  (forall i j, (i < V)%nat -> (j < V)%nat -> entry current i j = walkCount V link k i j) ->
  exists next, CountWalks.multiplyMatrices current adjMatrix = Returned next
    /\ square V next
    /\ forall i j, (i < V)%nat -> (j < V)%nat -> entry next i j = walkCount V link (S k) i j.
Proof.
  intros Hc Ha Hadj Hcount.
  destruct (multiplyMatrices_spec V current adjMatrix Hc Ha) as (next & Hnext & Hsq & Hentry).
  exists next. split; [exact Hnext|]. split; [exact Hsq|].
  intros i j Hi Hj. rewrite (Hentry i j Hi Hj). unfold walkCount at 1.
  rewrite (ending_step V link k i j Hi Hj). apply sumOver_ext.
  intros m Hm. apply in_seq in Hm.
  rewrite (Hcount i m Hi) by lia. rewrite (Hadj m j) by lia. reflexivity.
Qed.

(** The matrices shown count the walks: on a graph whose edges the index
    map covers, the generator returns four Steps, and entry [(i, j)] of the
    matrix of Step [k] is the number of walks with [k] edges from the node
    of index [i] to the node of index [j]. *)
Theorem matrices_count_walks (graph : GraphData) (es : list Edge) :
  edges graph = Some es ->
  indexed (List.length (nodes graph)) es = true ->
  exists trace,
    CountWalks.generateSteps graph = Returned trace
    /\ List.length trace = 4%nat
    /\ forall k step, nth_error trace k = Some step ->
       forall i j, (i < List.length (nodes graph))%nat ->
                   (j < List.length (nodes graph))%nat ->
       exists ws, NoDup ws
         /\ (forall w, In w ws
                       <-> walk (List.length (nodes graph)) (linkedBy es) (S k) i j w)
         /\ entry (CountWalks.distanceMatrix step) i j = Z.of_nat (List.length ws).
Proof.
  intros Hes Hidx. set (V := List.length (nodes graph)) in *.
  unfold CountWalks.generateSteps. rewrite Hes. cbn [orThrow bind]. fold V.
  destruct (markAll_spec V es Hidx _ (zeros_square V)) as (A & HA & Hsq & Hentry).
  rewrite HA. cbn [bind].
  assert (Hadj : forall i j, (i < V)%nat -> (j < V)%nat ->
                   entry A i j = if linkedBy es i j then 1%Z else 0%Z).
  { intros i j Hi Hj. rewrite (Hentry i j Hi Hj), zeros_entry. reflexivity. }
  assert (H1 : forall i j, (i < V)%nat -> (j < V)%nat ->
                 entry A i j = walkCount V (linkedBy es) 1 i j).
  { intros i j Hi Hj. rewrite walkCount_one by assumption. now apply Hadj. }
  destruct (multiply_counts V (linkedBy es) 1 A A Hsq Hsq Hadj H1) as (A2 & HA2 & Hsq2 & H2).
  destruct (multiply_counts V (linkedBy es) 2 A2 A Hsq2 Hsq Hadj H2) as (A3 & HA3 & Hsq3 & H3).
  destruct (multiply_counts V (linkedBy es) 3 A3 A Hsq3 Hsq Hadj H3) as (A4 & HA4 & Hsq4 & H4).
  cbn [CountWalks.powers]. rewrite HA2. cbn [bind]. rewrite HA3. cbn [bind].
  rewrite HA4. cbn [bind app].
  eexists. split; [reflexivity|]. split; [reflexivity|].
  intros k step Hk i j Hi Hj.
  exists (ending j (walksFrom V (linkedBy es) (S k) i)).
  split; [apply ending_NoDup|]. split; [intros w; now apply ending_spec|].
  destruct k as [|[|[|[|k]]]]; simpl in Hk;
    [| | | | destruct k; discriminate];
    injection Hk as <-; simpl; [apply H1 | apply H2 | apply H3 | apply H4]; assumption.
Qed.

Lemma matrices_count_walks_witness :
  exists trace,
    CountWalks.generateSteps CountWalks.graphData = Returned trace
    /\ List.length trace = 4%nat
    /\ forall k step, nth_error trace k = Some step ->
       forall i j, (i < 3)%nat -> (j < 3)%nat ->
       exists ws, NoDup ws
         /\ (forall w, In w ws
                       <-> walk 3 (linkedBy [ {| from := "A"; to := "B"; weight := 1 |};
                                              {| from := "A"; to := "C"; weight := 1 |};
                                              {| from := "B"; to := "C"; weight := 1 |};
                                              {| from := "C"; to := "A"; weight := 1 |} ])
                                (S k) i j w)
         /\ entry (CountWalks.distanceMatrix step) i j = Z.of_nat (List.length ws).
Proof.
  apply (matrices_count_walks CountWalks.graphData); reflexivity.
Defined.

(** The index map covers the sample graph only: an edge that starts at a
    node it does not know, or at a node whose index is not below the number
    of nodes, makes the generator throw (as long as no edge before it ends
    past the matrix). *)
Theorem count_walks_throws (graph : GraphData) (es : list Edge) :
  edges graph = Some es ->
  forallb (fun e => match get CountWalks.nodeIndexMap (to e) with
                    | Some j => (j <? List.length (nodes graph))%nat
                    | None => true
                    end) es = true ->
  existsb (fun e => match get CountWalks.nodeIndexMap (from e) with
                    | Some i => negb (i <? List.length (nodes graph))%nat
                    | None => true
                    end) es = true ->
  CountWalks.generateSteps graph = Failed TypeError.
Proof.
  intros Hes Hto Hfrom. set (V := List.length (nodes graph)) in *.
  unfold CountWalks.generateSteps. rewrite Hes. cbn [orThrow bind]. fold V.
  assert (H : forall m, square V m -> CountWalks.markAll m es = Failed TypeError).
  { clear Hes. induction es as [|e es IH]; intros m Hm; [discriminate|].
    cbn [forallb existsb] in Hto, Hfrom. apply andb_prop in Hto as [Hte Hto].
    cbn [CountWalks.markAll]. unfold CountWalks.mark.
    destruct (get CountWalks.nodeIndexMap (from e)) as [a|]; [|reflexivity].
    destruct (Nat.ltb_spec a V) as [Ha|Ha].
    - simpl in Hfrom.
      destruct (square_row V m a Hm Ha) as (row & Hrow & Hlen & Hnth).
      rewrite Hrow. cbn [orThrow bind].
      destruct (get CountWalks.nodeIndexMap (to e)) as [b|].
      + rewrite Hlen, Hte. cbn [bind]. apply (IH Hto Hfrom).
        destruct Hm as [Hl Hrows]. split; [now rewrite setAt_length|].
        apply Forall_forall. intros r Hr. apply setAt_In in Hr as [->|Hr].
        * now rewrite setAt_length.
        * rewrite Forall_forall in Hrows. now apply Hrows.
      + cbn [bind]. apply (IH Hto Hfrom m Hm).
    - destruct (nth_error m a) eqn:E; [|reflexivity].
      exfalso.
      assert (Hlt : (a < List.length m)%nat) by (apply nth_error_Some; congruence).
      destruct Hm as [Hl _]. lia. }
  rewrite (H _ (zeros_square V)). reflexivity.
Qed.

Lemma count_walks_throws_witness :
  CountWalks.generateSteps
    {| nodes := [ {| id := "A"; x := 0; y := 0 |}; {| id := "D"; x := 1; y := 1 |} ];
       adj := [ ("A", ["D"]); ("D", []) ];
       edges := Some [ {| from := "D"; to := "A"; weight := 1 |} ];
       directed := Some true |}
  = Failed TypeError.
Proof.
  apply (count_walks_throws _ [ {| from := "D"; to := "A"; weight := 1 |} ]); reflexivity.
Defined.

(** ** Prim's algorithm: the tree it grows *)

(** The endpoints of connected nodes: two distinct connected nodes are
    both ends of edges of the list. *)
Lemma connected_ends (l : list Edge) (x y : string) :
  connected l x y ->
  x = y \/ ((exists e, In e l /\ (from e = x \/ to e = x))
            /\ (exists e, In e l /\ (from e = y \/ to e = y))).
Proof.
  induction 1 as [x | e x y He Hj | x y z _ IH1 _ IH2].
  - now left.
  - right. unfold Reference.joins in Hj. split; exists e; (split; [exact He|]); tauto.
  - destruct IH1 as [->|[Hx Hy]]; [exact IH2|].
    destruct IH2 as [<-|[_ Hz]]; [right; auto | right; auto].
Qed.

Lemma findEdge_joins (es : list Edge) (a b : string) (e : Edge) :
  findEdge es a b = Some e -> In e es /\ Reference.joins e a b.
Proof.
  unfold findEdge. intros H. apply find_some in H as [Hin Hc]. split; [exact Hin|].
  unfold Reference.joins.
  apply orb_prop in Hc as [Hc|Hc]; apply andb_prop in Hc as [H1 H2];
    apply String.eqb_eq in H1, H2; auto.
Qed.

(** The nodes Prim's algorithm can reach: over adjacencies that have an
    edge record. *)
Inductive spanned (graph : GraphData) (es : list Edge) (s : string) : string -> Prop :=
| spanned_start : spanned graph es s s
| spanned_step (u v : string) (l : list string) (e : Edge) :
    spanned graph es s u -> get (adj graph) u = Some l -> In v l ->
    findEdge es u v = Some e -> spanned graph es s v.

Section PrimsTree.
Import Prims.

Variable graph : GraphData.
Variable es : list Edge.
Variable startNode : string.
Hypothesis graph_edges : edges graph = Some es.
Hypothesis graph_wellFormed : wellFormed graph = true.
Hypothesis start_node : In startNode (nodeIds graph).

(** The queue after [addEdges]: the old items and one item for each
    neighbour with an edge record. *)
Lemma enqueueEdges_spec (nodeId : string) (nbs : list string) (q q' : PriorityQueue.t Edge) :
  enqueueEdges graph nodeId nbs q = Returned q' ->
  forall it, In it q' <->
    In it q \/ exists nb, In nb nbs
                          /\ findEdge es nodeId nb = Some (PriorityQueue.element it)
                          /\ PriorityQueue.priority it = weight (PriorityQueue.element it).
Proof.
  revert q. induction nbs as [|nb nbs IH]; intros q Hq it; simpl in Hq.
  - injection Hq as <-. split; [auto | intros [?|(nb & [] & _)]; assumption].
  - rewrite graph_edges in Hq. cbn [orThrow bind] in Hq.
    destruct (findEdge es nodeId nb) as [e|] eqn:He.
    + rewrite (IH _ Hq it), enqueue_In. split.
      * intros [[H| ->]|(nb' & Hnb' & H)]; [auto | |].
        -- right. exists nb. simpl. auto.
        -- right. exists nb'. simpl. tauto.
      * intros [H|(nb' & [<-|Hnb'] & Hf & Hp)]; [auto | |].
        -- left. right. destruct it as [el pr]. simpl in *. congruence.
        -- right. exists nb'. auto.
    + rewrite (IH _ Hq it). split.
      * intros [H|(nb' & Hnb' & H)]; [auto|]. right. exists nb'. simpl. tauto.
      * intros [H|(nb' & [<-|Hnb'] & Hf & Hp)]; [auto | congruence |].
        right. exists nb'. auto.
Qed.

Lemma enqueueEdges_ascending (nodeId : string) (nbs : list string)
    (q q' : PriorityQueue.t Edge) :
  ascending PriorityQueue.priority q ->
  enqueueEdges graph nodeId nbs q = Returned q' ->
  ascending PriorityQueue.priority q'.
Proof.
  revert q. induction nbs as [|nb nbs IH]; intros q Hq Henq; simpl in Henq.
  - now injection Henq as <-.
  - rewrite graph_edges in Henq. cbn [orThrow bind] in Henq.
    destruct (findEdge es nodeId nb) as [e|]; [|eauto].
    apply (IH _ (sortBy_ascending _ _) Henq).
Qed.

Lemma snoc_split {A : Type} (l pre post : list A) (x e : A) :
  l ++ [x] = pre ++ e :: post ->
  (post = [] /\ pre = l /\ e = x) \/ exists post', post = post' ++ [x] /\ l = pre ++ e :: post'.
Proof.
  intros H. destruct (exists_last (l := e :: post) ltac:(discriminate)) as (m & z & Hm).
  rewrite Hm, app_assoc in H. apply app_inj_tail in H as [-> ->].
  destruct post as [|p post].
  - left. destruct m; [|destruct m; discriminate]. injection Hm as ->.
    rewrite app_nil_r. auto.
  - right. destruct (exists_last (l := p :: post) ltac:(discriminate)) as (m' & z' & Hm').
    rewrite Hm' in Hm. change (e :: m' ++ [z']) with ((e :: m') ++ [z']) in Hm.
    apply app_inj_tail in Hm as [<- <-]. exists m'. rewrite Hm'. auto.
Qed.

(** The tree grown so far. *)
Record growingTree (accepted : list Edge) (s : state) : Prop := {
  gt_NoDup : NoDup (seen s);
  gt_start : In startNode (seen s);
  gt_sound : forall v, In v (seen s) -> spanned graph es startNode v;
  gt_nodes : incl (seen s) (nodeIds graph);
  gt_mst : mst s = fold_left add (map getEdgeKey accepted) [];
  gt_incl : incl accepted es;
  gt_acyclic : acyclic accepted;
  gt_ends : forall e, In e accepted -> In (from e) (seen s) /\ In (to e) (seen s);
  gt_conn : forall v, In v (seen s) -> connected accepted startNode v;
  gt_size : S (List.length accepted) = List.length (seen s);
  gt_pq : forall it, In it (pq s) ->
            exists u nb l, In u (seen s) /\ get (adj graph) u = Some l /\ In nb l
                           /\ findEdge es u nb = Some (PriorityQueue.element it);
  gt_frontier : forall u l nb e,
      In u (seen s) -> get (adj graph) u = Some l -> In nb l -> findEdge es u nb = Some e ->
      In nb (seen s) \/ exists it, In it (pq s) /\ PriorityQueue.element it = e;
  gt_sorted : ascending PriorityQueue.priority (pq s);
  gt_weights : forall it, In it (pq s) ->
                 PriorityQueue.priority it = weight (PriorityQueue.element it);
  gt_greedy : forall pre e post u nb l e',
      accepted = pre ++ e :: post ->
      connected pre startNode u -> ~ connected pre startNode nb ->
      get (adj graph) u = Some l -> In nb l -> findEdge es u nb = Some e' ->
      (weight e <= weight e')%Z;
  gt_crossing : forall pre e post,
      accepted = pre ++ e :: post ->
      exists u nb, Reference.joins e u nb /\ connected pre startNode u
                   /\ ~ connected pre startNode nb
}.

Lemma push_growingTree (accepted : list Edge) (st : Step) (s : state) :
  growingTree accepted s -> growingTree accepted (push st s).
Proof. intros []. constructor; assumption. Qed.

Lemma addEdges_spec (nodeId : string) (s s' : state) :
  addEdges graph nodeId s = Returned s' ->
  seen s' = add (seen s) nodeId /\ mst s' = mst s /\ steps s' = steps s
  /\ (ascending PriorityQueue.priority (pq s) -> ascending PriorityQueue.priority (pq s'))
  /\ forall it, In it (pq s') <->
       In it (pq s)
       \/ exists l nb, get (adj graph) nodeId = Some l /\ In nb l
                       /\ findEdge es nodeId nb = Some (PriorityQueue.element it)
                       /\ PriorityQueue.priority it = weight (PriorityQueue.element it).
Proof.
  unfold addEdges. intros H.
  destruct (enqueueEdges graph nodeId _ (pq s)) as [q'|] eqn:Hq; [|discriminate].
  cbn [bind] in H. injection H as <-. simpl.
  split; [reflexivity|]. split; [reflexivity|]. split; [reflexivity|].
  split; [intros Hs; apply (enqueueEdges_ascending _ _ _ _ Hs Hq)|].
  intros it. rewrite (enqueueEdges_spec _ _ _ _ Hq it).
  destruct (get (adj graph) nodeId) as [l|].
  - split; (intros [H|H]; [now left | right]).
    + destruct H as (nb & H1 & H2 & H3). exists l, nb. auto.
    + destruct H as (l' & nb & [= <-] & H1 & H2 & H3). exists nb. auto.
  - split; (intros [H|H]; [now left | right]).
    + destruct H as (nb & [] & _).
    + destruct H as (l' & nb & [=] & _).
Qed.

(** Accepting the edge at the head of the queue, which joins the seen
    node [u] to the new node [nb]. *)
Lemma accept_growingTree (accepted : list Edge) (s s3 : state)
    (it : PriorityQueue.item Edge) (q' : PriorityQueue.t Edge)
    (u nb : string) (l : list string) (steps1 : list Step) :
  growingTree accepted s -> pq s = it :: q' ->
  In u (seen s) -> ~ In nb (seen s) ->
  get (adj graph) u = Some l -> In nb l ->
  findEdge es u nb = Some (PriorityQueue.element it) ->
  addEdges graph nb {| pq := q'; seen := seen s;
                       mst := add (mst s) (getEdgeKey (PriorityQueue.element it));
                       steps := steps1 |} = Returned s3 ->
  growingTree (accepted ++ [PriorityQueue.element it]) s3.
Proof.
  intros [H1 H2 H3 H4 H5 H6 H7 H8 H9 H10 H11 H12 H13 H14 H15 H16]
         Hq Hu Hnb Hl Hin Hfind Hadd.
  assert (Hin_seen : forall v, connected accepted startNode v -> In v (seen s)).
  { intros v Hc. destruct (connected_ends _ _ _ Hc) as [<-|[_ (e1 & He1 & Hy)]]; [exact H2|].
    destruct (H8 _ He1) as [Hf1 Ht1]. destruct Hy as [<-|<-]; assumption. }
  destruct (addEdges_spec _ _ _ Hadd) as (Hseen & Hmst & _ & Hsorted & Hpq).
  simpl in Hseen, Hmst, Hsorted, Hpq.
  rewrite Hq in H13. destruct (ascending_head _ _ _ H13) as [Hq' Hhead].
  destruct (findEdge_joins _ _ _ _ Hfind) as [He Hjoins].
  assert (Hseen' : seen s3 = seen s ++ [nb]).
  { rewrite Hseen. unfold add. destruct (has (seen s) nb) eqn:E; [|reflexivity].
    apply has_In in E. contradiction. }
  assert (Hold : incl (seen s) (seen s3)) by (rewrite Hseen'; intros z Hz; apply in_or_app; auto).
  assert (Hnew : In nb (seen s3)) by (rewrite Hseen'; apply in_or_app; simpl; auto).
  assert (Hne : u <> nb) by congruence.
  constructor.
  - rewrite Hseen'. apply NoDup_app; [assumption | constructor; [intros [] | constructor] |].
    intros z Hz [<-|[]]. contradiction.
  - apply Hold, H2.
  - intros v Hv. rewrite Hseen' in Hv. apply in_app_or in Hv as [Hv|[<-|[]]]; [auto|].
    eapply spanned_step; eauto.
  - intros v Hv. rewrite Hseen' in Hv. apply in_app_or in Hv as [Hv|[<-|[]]]; [auto|].
    apply get_In_pair in Hl.
    destruct (wellFormed_entry graph graph_wellFormed _ _ Hl) as [_ Hincl]. auto.
  - rewrite Hmst, H5, map_app. simpl. now rewrite fold_add_snoc.
  - intros e Hin'. apply in_app_or in Hin' as [Hin'|[<-|[]]]; auto.
  - constructor; [exact H7|]. intros Hc.
    destruct (connected_ends _ _ _ Hc) as [Heq|[(e1 & He1 & Hx) (e2 & He2 & Hy)]].
    + unfold Reference.joins in Hjoins. destruct Hjoins as [[? ?]|[? ?]]; congruence.
    + destruct (H8 _ He1) as [Hf1 Ht1]. destruct (H8 _ He2) as [Hf2 Ht2].
      unfold Reference.joins in Hjoins.
      destruct Hjoins as [[Hf Ht]|[Hf Ht]]; destruct Hx as [Hx|Hx], Hy as [Hy|Hy];
        apply Hnb; congruence.
  - intros e Hin'. apply in_app_or in Hin' as [Hin'|[<-|[]]].
    + destruct (H8 _ Hin'). auto.
    + unfold Reference.joins in Hjoins. destruct Hjoins as [[-> ->]|[-> ->]]; auto.
  - intros v Hv. rewrite Hseen' in Hv. apply in_app_or in Hv as [Hv|[<-|[]]].
    + apply connected_incl with accepted; [intros z Hz; apply in_or_app; auto | auto].
    + apply connected_trans with u.
      * apply connected_incl with accepted; [intros z Hz; apply in_or_app; auto | auto].
      * apply connected_edge with (PriorityQueue.element it);
          [apply in_or_app; simpl; auto | exact Hjoins].
  - rewrite Hseen', !length_app. simpl. lia.
  - intros it' Hit'. apply Hpq in Hit' as [Hit'|(l' & nb' & Hl' & Hnb' & Hf' & _)].
    + destruct (H11 it') as (u' & nb' & l' & Hu' & Hl' & Hnb' & Hf').
      { rewrite Hq. now right. }
      exists u', nb', l'. auto.
    + exists nb, nb', l'. auto.
  - intros u' l' nb' e' Hu' Hl' Hnb' Hf'.
    rewrite Hseen' in Hu'. apply in_app_or in Hu' as [Hu'|[<-|[]]].
    + destruct (H12 u' l' nb' e' Hu' Hl' Hnb' Hf') as [Hs|(it' & Hit' & He')].
      * left. auto.
      * rewrite Hq in Hit'. destruct Hit' as [<-|Hit'].
        -- (* the accepted edge itself: [nb'] is one of its ends *)
           left. destruct (findEdge_joins _ _ _ _ Hf') as [_ Hj'].
           rewrite <- He' in Hj'. unfold Reference.joins in Hjoins, Hj'.
           destruct Hjoins as [[Hf Ht]|[Hf Ht]], Hj' as [[Hf2 Ht2]|[Hf2 Ht2]];
             first [apply Hold; congruence | replace nb' with nb by congruence; exact Hnew
                   | replace nb' with u by congruence; apply Hold, Hu].
        -- right. exists it'. split; [apply Hpq; now left | exact He'].
    + right.
      exists {| PriorityQueue.element := e'; PriorityQueue.priority := weight e' |}.
      split; [|reflexivity]. apply Hpq. right. exists l', nb'. simpl. auto.
  - apply Hsorted, Hq'.
  - intros it' Hit'. apply Hpq in Hit' as [Hit'|(l' & nb' & _ & _ & _ & Hp)]; [|exact Hp].
    apply H14. rewrite Hq. now right.
  - intros pre e post u' nb' l' e' Hsplit Hcu Hcnb Hl' Hnb' Hf'.
    apply snoc_split in Hsplit as [(-> & -> & ->)|(post' & -> & Hacc)];
      [|eapply H15; eauto].
    pose proof (Hin_seen _ Hcu) as Hu'.
    destruct (H12 u' l' nb' e' Hu' Hl' Hnb' Hf') as [Hs|(it' & Hit' & <-)].
    + exfalso. apply Hcnb, H9, Hs.
    + rewrite <- (H14 it' Hit'), <- (H14 it ltac:(rewrite Hq; now left)).
      rewrite Hq in Hit'. destruct Hit' as [<-|Hit']; [lia | now apply Hhead].
  - intros pre e post Hsplit.
    apply snoc_split in Hsplit as [(-> & -> & ->)|(post' & -> & Hacc)];
      [|eapply H16; eauto].
    exists u, nb. split; [exact Hjoins|]. split; [apply H9, Hu|].
    intros Hc. apply Hnb, Hin_seen, Hc.
Qed.

(** The loop keeps the tree, and stops on an empty queue or when it has
    seen as many nodes as the graph has. *)
Lemma loop_growingTree (fuel : nat) :
  forall accepted s s',
    growingTree accepted s -> loop fuel graph s = Returned s' ->
    exists accepted', growingTree accepted' s'
      /\ (pq s' = [] \/ (List.length (nodes graph) <= List.length (seen s'))%nat).
Proof.
  induction fuel as [|fuel IH]; intros accepted s s' Hgt Hloop.
  - simpl in Hloop. destruct (pq s) as [|it q'] eqn:Hq; simpl in Hloop.
    + injection Hloop as <-. eauto.
    + destruct (Nat.ltb_spec (List.length (seen s)) (List.length (nodes graph)));
        simpl in Hloop; [discriminate|].
      injection Hloop as <-. eauto.
  - simpl in Hloop. destruct (pq s) as [|it q'] eqn:Hq; simpl in Hloop.
    { injection Hloop as <-. eauto. }
    destruct (Nat.ltb_spec (List.length (seen s)) (List.length (nodes graph)));
      simpl in Hloop; [|injection Hloop as <-; eauto].
    destruct (gt_pq _ _ Hgt it ltac:(rewrite Hq; now left))
      as (u & nb & l & Hu & Hl & Hnb & Hfind).
    destruct (findEdge_joins _ _ _ _ Hfind) as [He Hjoins].
    destruct (has (seen s) (from (PriorityQueue.element it))) eqn:Hfrom;
      destruct (has (seen s) (to (PriorityQueue.element it))) eqn:Hto;
      cbn [andb] in Hloop.
    + (* both ends seen: the edge is discarded *)
      apply IH with (accepted := accepted) in Hloop; [exact Hloop|].
      apply push_growingTree, push_growingTree.
      destruct Hgt as [H1 H2 H3 H4 H5 H6 H7 H8 H9 H10 H11 H12 H13 H14 H15 H16].
      rewrite Hq in H13. destruct (ascending_head _ _ _ H13) as [Hq' _].
      constructor; simpl; try assumption.
      * intros it' Hit'. apply H11. rewrite Hq. now right.
      * intros u' l' nb' e' Hu' Hl' Hnb' Hf'.
        destruct (H12 u' l' nb' e' Hu' Hl' Hnb' Hf') as [Hs|(it' & Hit' & He')];
          [now left|].
        rewrite Hq in Hit'. destruct Hit' as [<-|Hit'].
        -- left. destruct (findEdge_joins _ _ _ _ Hf') as [_ Hj'].
           rewrite <- He' in Hj'. apply has_In in Hfrom, Hto.
           unfold Reference.joins in Hj'. destruct Hj' as [[_ <-]|[<- _]]; assumption.
        -- right. eauto.
      * intros it' Hit'. apply H14. rewrite Hq. now right.
    + (* the new node is [to] *)
      apply has_In in Hfrom. apply has_false in Hto.
      assert (Hends : from (PriorityQueue.element it) = u /\ to (PriorityQueue.element it) = nb).
      { unfold Reference.joins in Hjoins. destruct Hjoins as [?|[_ Ht]]; [assumption|].
        exfalso. apply Hto. now rewrite Ht. }
      destruct Hends as [Hf Ht].
      match type of Hloop with context [addEdges graph ?n ?s2] =>
        destruct (addEdges graph n s2) as [s3|] eqn:Hadd; [|discriminate] end.
      cbn [bind] in Hloop.
      apply IH with (accepted := accepted ++ [PriorityQueue.element it]) in Hloop;
        [exact Hloop|].
      apply push_growingTree. rewrite Ht in Hadd, Hto.
      eapply accept_growingTree; eauto.
    + (* the new node is [from] *)
      apply has_false in Hfrom.
      assert (Hends : from (PriorityQueue.element it) = nb /\ to (PriorityQueue.element it) = u).
      { unfold Reference.joins in Hjoins. destruct Hjoins as [[Hf _]|?]; [|assumption].
        exfalso. apply Hfrom. now rewrite Hf. }
      destruct Hends as [Hf Ht].
      match type of Hloop with context [addEdges graph ?n ?s2] =>
        destruct (addEdges graph n s2) as [s3|] eqn:Hadd; [|discriminate] end.
      cbn [bind] in Hloop.
      apply IH with (accepted := accepted ++ [PriorityQueue.element it]) in Hloop;
        [exact Hloop|].
      apply push_growingTree. rewrite Hf in Hadd, Hfrom.
      eapply accept_growingTree; eauto.
    + (* neither end seen: the queue holds no such edge *)
      exfalso. apply has_false in Hfrom, Hto.
      unfold Reference.joins in Hjoins. destruct Hjoins as [[Hf _]|[_ Ht]].
      * apply Hfrom. now rewrite Hf.
      * apply Hto. now rewrite Ht.
Qed.
End PrimsTree.

Section PrimsRun.
Variable graph : GraphData.
Variable es : list Edge.
Variable startNode : string.
Hypothesis graph_edges : edges graph = Some es.
Hypothesis graph_wellFormed : wellFormed graph = true.
Hypothesis start_node : In startNode (nodeIds graph).

(** The run returns, with a tree in its last state, on an empty queue or
    with as many nodes seen as the graph has. *)
Lemma prims_run :
  exists s accepted,
    Prims.generateSteps graph startNode
    = Returned (Prims.steps s ++
                [Prims.snapshot "Algorithm complete. Minimum Spanning Tree found."
                   None None [] (Prims.seen s) (Prims.mst s)])
    /\ growingTree graph es startNode accepted s
    /\ (Prims.pq s = [] \/ (List.length (nodes graph) <= List.length (Prims.seen s))%nat).
Proof.
  unfold Prims.generateSteps, Prims.generateSteps_fuel.
  match goal with |- context [Prims.addEdges graph startNode ?s0] =>
    destruct (addEdges_returns graph es graph_edges startNode s0 eq_refl)
      as (s1 & Hadd & Hsteps & Hm)
  end.
  rewrite Hadd. cbn [bind].
  destruct (addEdges_spec graph es graph_edges _ _ _ Hadd)
    as (Hseen & Hmst & _ & Hsorted & Hpq).
  simpl in Hseen, Hmst, Hsorted, Hpq.
  match goal with |- context [Prims.loop _ graph ?s2] =>
    destruct (prims_loop_returns graph es graph_edges (S (Dijkstra.degreeSum graph)) s2)
      as (s3 & Hloop & _); [|rewrite Hloop; cbn [bind];
                              assert (Hgt : growingTree graph es startNode [] s2)]
  end.
  - unfold Prims.push, unexplored, Dijkstra.degreeSum in *. simpl in *. lia.
  - apply push_growingTree. constructor.
    + rewrite Hseen. constructor; [intros [] | constructor].
    + rewrite Hseen. now left.
    + rewrite Hseen. intros v [<-|[]]. constructor.
    + rewrite Hseen. intros v [<-|[]]. exact start_node.
    + rewrite Hmst. reflexivity.
    + intros e [].
    + constructor.
    + intros e [].
    + rewrite Hseen. intros v [<-|[]]. constructor.
    + rewrite Hseen. reflexivity.
    + intros it Hit. apply Hpq in Hit as [[]|(l & nb & Hl & Hnb & Hf & _)].
      exists startNode, nb, l. rewrite Hseen. simpl. auto.
    + rewrite Hseen. intros u l nb e [<-|[]] Hl Hnb Hf. right.
      exists {| PriorityQueue.element := e; PriorityQueue.priority := weight e |}.
      split; [|reflexivity]. apply Hpq. right. exists l, nb. simpl. auto.
    + apply Hsorted. constructor.
    + intros it Hit. apply Hpq in Hit as [[]|(l & nb & _ & _ & _ & Hp)]. exact Hp.
    + intros pre e post u nb l e' Hsplit. destruct pre; discriminate.
    + intros pre e post Hsplit. destruct pre; discriminate.
  - destruct (loop_growingTree graph es startNode graph_edges graph_wellFormed
                (S (Dijkstra.degreeSum graph)) [] _ s3 Hgt Hloop)
      as (accepted & Hgt3 & Hexit).
    exists s3, accepted. auto.
Qed.
End PrimsRun.

(** Prim's generator grows a spanning tree: on a well-formed graph with
    edges, from a start node of the graph, the edges it accepts are edges of
    the graph, none closes a cycle with those accepted before it, there is
    one less than visited nodes, they connect every visited node to the
    start node, and the visited nodes are exactly those the start node
    reaches over adjacencies that have an edge record. *)
Theorem prims_spanning_tree (graph : GraphData) (es : list Edge) (startNode : string) :
  edges graph = Some es ->
  wellFormed graph = true ->
  has (nodeIds graph) startNode = true ->
  exists trace final seen accepted,
    Prims.generateSteps graph startNode = Returned trace
    /\ finalStep trace = Some final
    /\ visited final = Some seen
    /\ mstEdges final = Some (fold_left add (map getEdgeKey accepted) [])
    /\ incl accepted es /\ acyclic accepted
    /\ NoDup seen /\ S (List.length accepted) = List.length seen
    /\ (forall v, In v seen <-> spanned graph es startNode v)
    /\ (forall v, In v seen -> connected accepted startNode v).
Proof.
  intros Hes Hwf Hstart. apply has_In in Hstart.
  destruct (prims_run graph es startNode Hes Hwf Hstart) as (s3 & accepted & Hgen & Hgt3 & Hexit).
  eexists. eexists. exists (Prims.seen s3), accepted.
  split; [exact Hgen|]. split; [apply finalStep_snoc|]. split; [reflexivity|].
  split; [simpl; now rewrite (gt_mst _ _ _ _ _ Hgt3)|].
  split; [apply (gt_incl _ _ _ _ _ Hgt3)|]. split; [apply (gt_acyclic _ _ _ _ _ Hgt3)|].
  split; [apply (gt_NoDup _ _ _ _ _ Hgt3)|]. split; [apply (gt_size _ _ _ _ _ Hgt3)|].
  split; [|apply (gt_conn _ _ _ _ _ Hgt3)].
  intros v. split; [apply (gt_sound _ _ _ _ _ Hgt3)|].
  destruct Hexit as [Hempty|Hfull].
  - induction 1 as [|u w l e _ IHu Hl Hw Hf]; [apply (gt_start _ _ _ _ _ Hgt3)|].
    destruct (gt_frontier _ _ _ _ _ Hgt3 u l w e IHu Hl Hw Hf) as [H|(it & Hit & _)];
      [exact H|].
    rewrite Hempty in Hit. contradiction.
  - intros Hv.
    assert (Hnode : In v (nodeIds graph)).
    { induction Hv as [|u w l e _ _ Hl Hw _]; [exact Hstart|].
      apply get_In_pair in Hl.
      destruct (wellFormed_entry graph Hwf _ _ Hl) as [_ Hincl]. auto. }
    assert (Hlen : (List.length (nodeIds graph) <= List.length (Prims.seen s3))%nat)
      by (unfold nodeIds; rewrite length_map; exact Hfull).
    exact (NoDup_length_incl (gt_NoDup _ _ _ _ _ Hgt3) Hlen (gt_nodes _ _ _ _ _ Hgt3)
             v Hnode).
Qed.

Lemma prims_spanning_tree_witness :
  exists trace final seen accepted,
    Prims.generateSteps mstSample "A" = Returned trace
    /\ finalStep trace = Some final
    /\ visited final = Some seen
    /\ mstEdges final = Some (fold_left add (map getEdgeKey accepted) [])
    /\ incl accepted [ {| from := "A"; to := "B"; weight := 3 |};
                       {| from := "A"; to := "C"; weight := 2 |};
                       {| from := "B"; to := "C"; weight := 1 |};
                       {| from := "B"; to := "D"; weight := 6 |};
                       {| from := "C"; to := "E"; weight := 8 |};
                       {| from := "D"; to := "F"; weight := 4 |};
                       {| from := "E"; to := "F"; weight := 5 |} ]
    /\ acyclic accepted
    /\ NoDup seen /\ S (List.length accepted) = List.length seen
    /\ (forall v, In v seen
                  <-> spanned mstSample
                        [ {| from := "A"; to := "B"; weight := 3 |};
                          {| from := "A"; to := "C"; weight := 2 |};
                          {| from := "B"; to := "C"; weight := 1 |};
                          {| from := "B"; to := "D"; weight := 6 |};
                          {| from := "C"; to := "E"; weight := 8 |};
                          {| from := "D"; to := "F"; weight := 4 |};
                          {| from := "E"; to := "F"; weight := 5 |} ] "A" v)
    /\ (forall v, In v seen -> connected accepted "A" v).
Proof.
  apply (prims_spanning_tree mstSample); reflexivity.
Defined.

(** Prim's greedy choice: every edge the generator accepts joins the
    tree grown by the edges accepted before it to a node outside that tree,
    and no adjacency of the graph that leaves that tree has an edge record of
    smaller weight. *)
Theorem prims_accepts_lightest (graph : GraphData) (es : list Edge) (startNode : string) :
  edges graph = Some es ->
  wellFormed graph = true ->
  has (nodeIds graph) startNode = true ->
  exists trace final accepted,
    Prims.generateSteps graph startNode = Returned trace
    /\ finalStep trace = Some final
    /\ mstEdges final = Some (fold_left add (map getEdgeKey accepted) [])
    /\ forall pre e post, accepted = pre ++ e :: post ->
         (exists u nb, Reference.joins e u nb /\ connected pre startNode u
                       /\ ~ connected pre startNode nb)
         /\ forall u nb l e',
              connected pre startNode u -> ~ connected pre startNode nb ->
              get (adj graph) u = Some l -> In nb l -> findEdge es u nb = Some e' ->
              (weight e <= weight e')%Z.
Proof.
  intros Hes Hwf Hstart. apply has_In in Hstart.
  destruct (prims_run graph es startNode Hes Hwf Hstart) as (s3 & accepted & Hgen & Hgt3 & _).
  eexists. eexists. exists accepted.
  split; [exact Hgen|]. split; [apply finalStep_snoc|].
  split; [simpl; now rewrite (gt_mst _ _ _ _ _ Hgt3)|].
  intros pre e post Hsplit. split.
  - apply (gt_crossing _ _ _ _ _ Hgt3 pre e post Hsplit).
  - intros u nb l e'. apply (gt_greedy _ _ _ _ _ Hgt3 pre e post u nb l e' Hsplit).
Qed.

Lemma prims_accepts_lightest_witness :
  exists trace final accepted,
    Prims.generateSteps mstSample "A" = Returned trace
    /\ finalStep trace = Some final
    /\ mstEdges final = Some (fold_left add (map getEdgeKey accepted) [])
    /\ forall pre e post, accepted = pre ++ e :: post ->
         (exists u nb, Reference.joins e u nb /\ connected pre "A" u
                       /\ ~ connected pre "A" nb)
         /\ forall u nb l e',
              connected pre "A" u -> ~ connected pre "A" nb ->
              get (adj mstSample) u = Some l -> In nb l ->
              findEdge [ {| from := "A"; to := "B"; weight := 3 |};
                         {| from := "A"; to := "C"; weight := 2 |};
                         {| from := "B"; to := "C"; weight := 1 |};
                         {| from := "B"; to := "D"; weight := 6 |};
                         {| from := "C"; to := "E"; weight := 8 |};
                         {| from := "D"; to := "F"; weight := 4 |};
                         {| from := "E"; to := "F"; weight := 5 |} ] u nb = Some e' ->
              (weight e <= weight e')%Z.
Proof.
  apply (prims_accepts_lightest mstSample); reflexivity.
Defined.

Section KruskalGreedy.
Import Kruskal.

Variable graph : GraphData.
Variable es : list Edge.
Hypothesis graph_edges : edges graph = Some es.
Hypothesis endpoints : forall e, In e es ->
  In (from e) (map id (nodes graph)) /\ In (to e) (map id (nodes graph)).

(** Every edge of [acc] is among the lightest edges of the graph that join
    two nodes which the edges accepted before it leave apart. *)
Definition lightestFirst (acc : list Edge) : Prop :=
  forall before e after, acc = before ++ e :: after ->
  forall e', In e' es -> ~ connected before (from e') (to e') ->
  (weight e <= weight e')%Z.

Lemma forEdges_lightestFirst (sorted rest pre acc : list Edge) (s : state) :
  incl rest es -> (forall e, In e es -> In e pre \/ In e rest) ->
  ascending weight rest ->
  growing graph pre acc s -> lightestFirst acc ->
  exists s' acc', forEdges sorted rest s = Returned s'
                  /\ growing graph (pre ++ rest) acc' s' /\ lightestFirst acc'.
Proof.
  revert pre acc s.
  induction rest as [|e rest IH]; intros pre acc s Hincl Hall Hasc Hs Hlight; simpl.
  - exists s, acc. rewrite app_nil_r. auto.
  - destruct (consider_growing graph es endpoints sorted pre acc e s)
      as (s1 & acc1 & -> & Hs1 & Hacc1); auto.
    { apply Hincl. now left. }
    cbn [bind]. inversion Hasc as [|? ? Hasc' Hle]; subst.
    destruct (IH (pre ++ [e]) acc1 s1) as (s' & acc' & Hs' & Hg & Hl); auto.
    { intros z Hz. apply Hincl. now right. }
    { intros z Hz. destruct (Hall z Hz) as [H|[<-|H]]; [left|left|right; exact H];
        apply in_or_app; simpl; auto. }
    { destruct Hacc1 as [->| ->]; [assumption|].
      intros before x after Heq e' He' Hapart.
      apply snoc_split in Heq as [(_ & -> & ->)|(after' & _ & Heq)].
      - destruct (Hall e' He') as [Hpre|[<-|Hrest]].
        + exfalso. apply Hapart, (growing_spans _ _ _ _ Hs).
          apply connected_edge with (e := e'); [assumption|]. left. auto.
        + lia.
        + rewrite Forall_forall in Hle. now apply Hle.
      - exact (Hlight _ _ _ Heq e' He' Hapart). }
    exists s', acc'. split; [assumption|]. now rewrite <- app_assoc in Hg.
Qed.

Lemma kruskal_lightestFirst :
  exists trace final accepted,
    generateSteps graph = Returned trace
    /\ finalStep trace = Some final
    /\ mstEdges final = Some (fold_left add (map getEdgeKey accepted) [])
    /\ incl accepted es /\ acyclic accepted /\ lightestFirst accepted.
Proof.
  pose (ids := map id (nodes graph)).
  unfold generateSteps. rewrite graph_edges. cbn [bind orThrow].
  set (sorted := sortBy weight es).
  assert (Hsorted : forall z, In z sorted <-> In z es) by (intros z; apply sortBy_In).
  match goal with |- context [emit sorted ?desc ?e ?s0] =>
    destruct (emit_spec graph sorted desc e s0) as (sets0 & p0 & -> & Hb0 & Hsame0 & _) end.
  { apply built_make. }
  cbn [bind].
  match goal with |- context [forEdges sorted sorted ?s1] =>
    destruct (forEdges_lightestFirst sorted sorted [] [] s1) as (s2 & acc & -> & Hg & Hl) end.
  { intros z Hz. now apply Hsorted. }
  { intros z Hz. right. now apply Hsorted. }
  { apply sortBy_ascending. }
  { constructor; cbn [dsu mst steps]; auto.
    - intros x y Hx Hy. rewrite (Hsame0 x y Hx Hy). split.
      + intros (r & n & m & H1 & H2).
        assert (Hroot : forall z k rz, In z ids ->
                  climbs (DisjointSet.make ids) k z rz -> rz = z).
        { intros z k rz Hz Hc.
          assert (H0 : climbs (DisjointSet.make ids) 0 z z)
            by (constructor; now apply get_make_element).
          now destruct (climbs_fun _ _ _ _ _ _ Hc H0). }
        rewrite <- (Hroot _ _ _ Hx H1), <- (Hroot _ _ _ Hy H2). constructor.
      + intros H. assert (x = y).
        { clear - H. induction H as [x | e x y [] _ | x y z _ -> _ ->]; reflexivity. }
        subst y. exists x, 0%nat, 0%nat.
        split; constructor; now apply get_make_element.
    - reflexivity.
    - constructor.
    - apply incl_refl. }
  { intros before e after Heq. destruct before; discriminate. }
  cbn [bind app] in *. destruct Hg as [Hb Hsets Hspans Hacyc Hincl Hmst Hsteps].
  match goal with |- context [emit sorted ?desc ?e s2] =>
    destruct (emit_spec graph sorted desc e s2 Hb) as (sets & p & -> & _ & _ & Hget) end.
  cbn [bind steps]. eexists _, _, acc. split; [reflexivity|].
  split; [apply finalStep_snoc|].
  split; [simpl; now rewrite Hmst|].
  split; [intros z Hz; apply Hsorted, Hincl, Hz|].
  split; assumption.
Qed.
End KruskalGreedy.

Lemma acyclic_split (before after : list Edge) (e : Edge) :
  acyclic (before ++ e :: after) -> ~ connected before (from e) (to e).
Proof.
  remember (before ++ e :: after) as l eqn:Heq. intros Hacyc. revert after Heq.
  induction Hacyc as [|l x Hacyc IH Hx]; intros after Heq.
  - destruct before; discriminate.
  - apply snoc_split in Heq as [(_ & -> & ->)|(after' & _ & ->)]; [assumption|].
    now apply (IH after').
Qed.



(** ** The Eulerian path check *)

(** The neighbours of [u] along a walk, one for each time the walk enters
    or leaves [u]. *)
Fixpoint hopsAt (walk : list string) (u : string) : list string :=
  match walk with
  | [] => []
  | a :: rest =>
      match rest with
      | [] => []
      | b :: _ => (if a =? u then [b] else []) ++ (if b =? u then [a] else [])
                  ++ hopsAt rest u
      end
  end.

(** The walk takes every adjacency of the graph once, in one direction or
    the other: the adjacency list of each node is a rearrangement of the
    node's neighbours along the walk. *)
Definition takesEveryEdgeOnce (graph : GraphData) (walk : list string) : Prop :=
  forall n, In n (nodes graph) ->
    exists l, get (adj graph) (id n) = Some l /\ Permutation l (hopsAt walk (id n)).

(** A walk enters and leaves every node equally often, its two ends apart. *)
Lemma hopsAt_parity (a : string) (rest : list string) (u : string) :
  Nat.even (List.length (hopsAt (a :: rest) u))
  = negb (xorb (a =? u) (List.last rest a =? u)).
Proof.
  revert a. induction rest as [|b rest IH]; intros a.
  - simpl. now destruct (a =? u).
  - change (hopsAt (a :: b :: rest) u)
      with ((if a =? u then [b] else []) ++ (if b =? u then [a] else [])
            ++ hopsAt (b :: rest) u).
    assert (Hlast : List.last (b :: rest) a = List.last rest b).
    { destruct rest as [|c rest]; [reflexivity|].
      change (List.last (b :: c :: rest) a) with (List.last (c :: rest) a).
      clear. revert c. induction rest as [|c' rest IH]; intros c; [reflexivity|].
      change (List.last (c :: c' :: rest) a) with (List.last (c' :: rest) a).
      change (List.last (c :: c' :: rest) b) with (List.last (c' :: rest) b).
      apply IH. }
    rewrite Hlast, !length_app.
    assert (Hodd : forall k, Nat.even (S k) = negb (Nat.even k)).
    { intros k. now rewrite Nat.even_succ, <- Nat.negb_even. }
    specialize (IH b).
    destruct (a =? u), (b =? u); cbn [List.length Nat.add];
      rewrite ?Hodd, IH; destruct (List.last rest b =? u); reflexivity.
Qed.

Section EulerianCheck.
Import EulerianPath.

Variable graph : GraphData.

(** The degrees counted are lengths of adjacency lists of nodes. *)
Lemma countDegrees_spec (ns : list Node) (degrees degrees' : record Z) :
  countDegrees graph ns degrees = Returned degrees' ->
  forall k d, get degrees' k = Some d ->
    get degrees k = Some d
    \/ exists n l, In n ns /\ id n = k /\ get (adj graph) k = Some l
                   /\ d = Z.of_nat (List.length l).
Proof.
  revert degrees. induction ns as [|n ns IH]; intros degrees Hrun k d Hget.
  - injection Hrun as <-. now left.
  - simpl in Hrun. destruct (get (adj graph) (id n)) as [l|] eqn:Hadj; [|discriminate].
    cbn [orThrow bind] in Hrun.
    destruct (IH _ Hrun k d Hget) as [Hold|(m & l' & Hm & Hk & Hl & Hd)].
    + destruct (string_dec k (id n)) as [->|Hne].
      * rewrite get_set_same in Hold. injection Hold as <-.
        right. exists n, l. simpl. auto.
      * rewrite get_set_other in Hold by assumption. now left.
    + right. exists m, l'. simpl. auto.
Qed.

Lemma trace_hops (degrees : record Z) (i n : nat) (hops : list Step) :
  trace degrees i n = Returned hops -> List.length hops = n.
Proof.
  revert i hops. induction n as [|n IH]; intros i hops Hrun; simpl in Hrun.
  - now injection Hrun as <-.
  - destruct (nth_error path (i - 1)); [|discriminate].
    destruct (nth_error path i); [|discriminate]. cbn [orThrow bind] in Hrun.
    destruct (trace degrees (S i) n) as [rest|] eqn:Hrest; [|discriminate].
    injection Hrun as <-. simpl. f_equal. eauto.
Qed.

(** When every adjacency list has even length, no node counts as odd. *)
Lemma even_degrees_none_odd (degrees : record Z) :
  countDegrees graph (nodes graph) [] = Returned degrees ->
  (forall n, In n (nodes graph) -> forall l, get (adj graph) (id n) = Some l ->
     Nat.even (List.length l) = true) ->
  filter (odd degrees) (keys degrees) = [].
Proof.
  intros Hrun Heven.
  assert (Hall : forall k, In k (keys degrees) -> odd degrees k = false).
  { intros k Hk. destruct (key_get_Some _ _ Hk) as [d Hd]. unfold odd. rewrite Hd.
    destruct (countDegrees_spec _ _ _ Hrun k d Hd) as [Hnil|(n & l & Hn & <- & Hl & ->)];
      [discriminate|].
    specialize (Heven n Hn l Hl). apply Nat.even_spec in Heven as [h ->].
    replace (Z.of_nat (2 * h)) with (Z.of_nat h * 2)%Z by lia.
    now rewrite Z.rem_mul. }
  induction (keys degrees) as [|k ks IH]; [reflexivity|]. simpl.
  rewrite Hall by now left. apply IH. intros k' Hk'. apply Hall. now right.
Qed.

(** The last Step carries a path only after the branch for two odd nodes. *)
Lemma path_shown (steps : list Step) (final : Step) (trail : list string) :
  generateSteps graph = Returned steps -> finalStep steps = Some final ->
  highlightedPath final = Some trail ->
  exists degrees,
    countDegrees graph (nodes graph) [] = Returned degrees
    /\ List.length (filter (odd degrees) (keys degrees)) = 2%nat
    /\ List.length steps = 9%nat
    /\ final = createStep "Path complete! Every edge was visited exactly once."
                          None (Some path) degrees (Some "2").
Proof.
  unfold generateSteps. intros Hrun Hfinal Htrail.
  destruct (countDegrees graph (nodes graph) []) as [degrees|] eqn:Hdeg; [|discriminate].
  cbn [bind] in Hrun. exists degrees. split; [reflexivity|].
  destruct (List.length (filter (odd degrees) (keys degrees)) =? 0)%nat eqn:E0.
  { injection Hrun as <-. injection Hfinal as <-. discriminate. }
  destruct (List.length (filter (odd degrees) (keys degrees)) =? 2)%nat eqn:E2.
  - apply Nat.eqb_eq in E2. split; [assumption|].
    destruct (trace degrees 1 (List.length path - 1)) as [hops|] eqn:Hhops; [|discriminate].
    cbn [bind] in Hrun. injection Hrun as <-. apply trace_hops in Hhops.
    match type of Hfinal with finalStep (?a :: ?b :: hops ++ [?f]) = _ =>
      change (finalStep ((a :: b :: hops) ++ [f]) = Some final) in Hfinal end.
    rewrite finalStep_snoc in Hfinal. injection Hfinal as <-.
    split; [|reflexivity]. cbn [List.length]. rewrite length_app, Hhops. reflexivity.
  - injection Hrun as <-. injection Hfinal as <-. discriminate.
Qed.
End EulerianCheck.

(** The path that the Eulerian generator announces is not Eulerian.  When
    the last Step of a trace carries a path, it is the Step that says
    ["Path complete! Every edge was visited exactly once."], shown for a
    graph with exactly two nodes of odd degree; the path is the one written
    out in the source, whatever the graph; and it does not take every
    adjacency of the graph once: it ends where it starts, which only a
    graph without nodes of odd degree allows. *)
Theorem eulerian_path_shown_is_not_eulerian
  (graph : GraphData) (steps : list Step) (final : Step) (trail : list string) :
  EulerianPath.generateSteps graph = Returned steps ->
  finalStep steps = Some final ->
  highlightedPath final = Some trail ->
  description final = "Path complete! Every edge was visited exactly once."
  /\ List.length steps = 9%nat
  /\ trail = ["A"; "D"; "B"; "E"; "C"; "B"; "A"]
  /\ ~ takesEveryEdgeOnce graph trail.
Proof.
  intros Hrun Hfinal Htrail.
  destruct (path_shown graph steps final trail Hrun Hfinal Htrail)
    as (degrees & Hdeg & Htwo & Hlen & ->).
  injection Htrail as <-. split; [reflexivity|]. split; [assumption|].
  split; [reflexivity|]. intros Hall.
  rewrite (even_degrees_none_odd graph degrees Hdeg) in Htwo; [discriminate|].
  intros n Hn l Hl. destruct (Hall n Hn) as (l' & Hl' & Hperm).
  rewrite Hl in Hl'. injection Hl' as <-.
  rewrite (Permutation_length Hperm). unfold EulerianPath.path.
  rewrite hopsAt_parity. cbn [List.last]. now rewrite xorb_nilpotent.
Qed.

Lemma eulerian_path_shown_is_not_eulerian_witness :
  exists steps final trail,
    EulerianPath.generateSteps EulerianPath.graphData = Returned steps
    /\ finalStep steps = Some final
    /\ highlightedPath final = Some trail
    /\ ~ takesEveryEdgeOnce EulerianPath.graphData trail.
Proof.
  eexists _, _, _. split; [reflexivity|]. split; [reflexivity|]. split; [reflexivity|].
  exact (proj2 (proj2 (proj2
    (eulerian_path_shown_is_not_eulerian EulerianPath.graphData _ _ _
       eq_refl eq_refl eq_refl)))).
Defined.

(** ** Dinic's algorithm *)

Section DinicLevels.
Import Dinic.

Variable ids : list string.
Variables capacities fl : record Z.
Variable startNode : string.

(** What the level search keeps; [done] are the nodes taken from the
    queue. *)
Record levelSearch (done : list string) (levels : record Z) (queue : list string) : Prop := {
  lsearch_NoDup : NoDup (done ++ queue);
  lsearch_keys : forall k, In k (keys levels) <-> In k (done ++ queue);
  lsearch_incl : incl (done ++ queue) (startNode :: ids);
  lsearch_start : get levels startNode = Some 0%Z;
  lsearch_parent : forall v lv, get levels v = Some lv -> v <> startNode ->
    exists u, get levels u = Some (lv - 1)%Z /\ In v ids
              /\ positive (residual capacities fl u v) = true;
  lsearch_nonneg : forall v lv, get levels v = Some lv -> (0 <= lv)%Z;
  lsearch_closed : forall u v, In u done -> In v ids ->
    positive (residual capacities fl u v) = true -> In v (keys levels)
}.

Lemma grow_spec (done : list string) (u : string) (vs : list string) :
  forall levels q, levelSearch done levels (u :: q) -> incl vs ids ->
  exists levels' q',
    grow capacities fl u vs levels q = Returned (levels', q')
    /\ levelSearch done levels' (u :: q')
    /\ (forall k, In k (keys levels) -> In k (keys levels'))
    /\ (forall v, In v vs -> positive (residual capacities fl u v) = true ->
          In v (keys levels')).
Proof.
  induction vs as [|v vs IH]; intros levels q Hlv Hincl.
  - exists levels, q. split; [reflexivity|]. split; [assumption|].
    split; [auto|]. intros v [].
  - assert (Hvs : incl vs ids) by (intros z Hz; apply Hincl; now right).
    assert (Hv : In v ids) by (apply Hincl; now left).
    cbn [grow].
    destruct (negb (has (keys levels) v) && positive (residual capacities fl u v)) eqn:E.
    + apply andb_prop in E as [Hnew Hpos].
      apply negb_true_iff, has_false in Hnew.
      destruct Hlv as [Hnd Hkeys Hin Hstart Hpar Hnn Hcl].
      assert (Hu : In u (keys levels)).
      { apply Hkeys, in_or_app. right. now left. }
      destruct (key_get_Some _ _ Hu) as [lu Hlu]. rewrite Hlu. cbn [orThrow bind].
      assert (Hother : forall k l, get levels k = Some l ->
                get (set levels v (lu + 1)%Z) k = Some l).
      { intros k l Hk. rewrite get_set_other; [assumption|].
        intros ->. apply Hnew. eapply get_Some_key; eauto. }
      destruct (IH (set levels v (lu + 1)%Z) (q ++ [v])) as (levels' & q' & Hrun & Hlv' & Hmono & Hseen);
        [|assumption|].
      { assert (Heq : done ++ u :: q ++ [v] = (done ++ u :: q) ++ [v]).
        { now rewrite <- app_assoc. }
        constructor.
        - rewrite Heq. eapply Permutation_NoDup; [apply Permutation_cons_append|].
          constructor; [|assumption]. intros H. apply Hnew, Hkeys, H.
        - intros k. rewrite keys_set, Heq, in_app_iff, Hkeys. simpl. intuition.
        - rewrite Heq. intros z Hz. apply in_app_or in Hz as [Hz|[<-|[]]];
            [now apply Hin | now right].
        - now apply Hother.
        - intros w lw Hw Hne. destruct (string_dec w v) as [->|Hwv].
          + rewrite get_set_same in Hw. injection Hw as <-.
            exists u. split; [|split; assumption].
            replace (lu + 1 - 1)%Z with lu by lia. now apply Hother.
          + rewrite get_set_other in Hw by assumption.
            destruct (Hpar w lw Hw Hne) as (p & Hp & Hwi & Hres).
            exists p. split; [now apply Hother|]. split; assumption.
        - intros w lw Hw. destruct (string_dec w v) as [->|Hwv].
          + rewrite get_set_same in Hw. injection Hw as <-.
            specialize (Hnn u lu Hlu). lia.
          + rewrite get_set_other in Hw by assumption. eauto.
        - intros a c Ha Hc Hres. apply keys_set. right. eauto. }
      exists levels', q'. split; [exact Hrun|]. split; [exact Hlv'|].
      split.
      * intros k Hk. apply Hmono, keys_set. now right.
      * intros w [<-|Hw] Hres; [|now apply Hseen].
        apply Hmono, keys_set. now left.
    + destruct (IH levels q Hlv Hvs) as (levels' & q' & Hrun & Hlv' & Hmono & Hseen).
      exists levels', q'. split; [exact Hrun|]. split; [exact Hlv'|].
      split; [exact Hmono|].
      intros w [<-|Hw] Hres; [|now apply Hseen].
      rewrite Hres, andb_true_r in E. apply negb_false_iff, has_In in E.
      apply Hmono, E.
Qed.

Lemma bfs_spec (fuel : nat) :
  forall done levels queue, levelSearch done levels queue ->
  (S (List.length ids) <= fuel + List.length done)%nat ->
  exists levels' done',
    bfs fuel ids capacities fl levels queue = Returned levels'
    /\ levelSearch done' levels' [].
Proof.
  induction fuel as [|fuel IH]; intros done levels queue Hlv Hfuel;
    (destruct queue as [|u q]; [exists levels, done; split; [reflexivity | assumption]|]);
    assert (Hlen : (List.length (done ++ u :: q) <= S (List.length ids))%nat)
      by (apply (NoDup_incl_length (lsearch_NoDup _ _ _ Hlv) (lsearch_incl _ _ _ Hlv)));
    rewrite length_app in Hlen; simpl in Hlen; [lia|].
  cbn [bfs].
  destruct (grow_spec done u ids levels q Hlv (incl_refl _))
    as (levels' & q' & -> & Hlv' & _ & Hseen).
  cbn [bind fst snd]. apply (IH (done ++ [u])).
  - destruct Hlv' as [Hnd Hkeys Hin Hstart Hpar Hnn Hcl].
    assert (Heq : (done ++ [u]) ++ q' = done ++ u :: q') by now rewrite <- app_assoc.
    constructor; rewrite ?Heq; auto.
    intros a c Ha Hc Hres. apply in_app_or in Ha as [Ha|[<-|[]]]; eauto.
  - rewrite length_app. simpl. lia.
Qed.

(** The levels a phase starts from. *)
Lemma levels_built :
  exists levels done,
    bfs (S (List.length ids)) ids capacities fl (set [] startNode 0%Z) [startNode]
    = Returned levels
    /\ levelSearch done levels [].
Proof.
  apply (bfs_spec _ []); [|simpl; lia].
  constructor; simpl.
  - constructor; [intros []|constructor].
  - intros k. split; intros [H|[]]; left; exact H.
  - intros z [<-|[]]. now left.
  - now rewrite String.eqb_refl.
  - intros v lv Hv Hne. destruct (String.eqb_spec startNode v); [congruence|discriminate].
  - intros v lv Hv. destruct (startNode =? v); [injection Hv as <-; lia | discriminate].
  - intros u v [].
Qed.
End DinicLevels.

(** A graph without nodes and adjacencies: the searches of Dinic's
    algorithm read the edges and the node ids only. *)
Definition edgesOnly : GraphData :=
  {| nodes := []; adj := []; edges := None; directed := None |}.

Lemma flowPairs_sym (es : list Edge) (x y : string) :
  In (x, y) (flowPairs es) -> In (y, x) (flowPairs es).
Proof.
  rewrite !flowPairs_In. intros (e & He & [[= -> ->]|[= -> ->]]); exists e; auto.
Qed.

Lemma last_same {A : Type} (a d d' : A) (l : list A) :
  last (a :: l) d = last (a :: l) d'.
Proof.
  revert a. induction l as [|c l IH]; intros a; [reflexivity|].
  change (last (a :: c :: l) d) with (last (c :: l) d).
  change (last (a :: c :: l) d') with (last (c :: l) d'). apply IH.
Qed.

Lemma level_below_max (levels : record Z) (v : string) (lv : Z) :
  get levels v = Some lv -> (lv <= fold_right Z.max 0 (map snd levels))%Z.
Proof.
  induction levels as [|[k l] levels IH]; simpl; [discriminate|].
  destruct (k =? v); [intros [= ->]; lia|]. intros H. specialize (IH H). lia.
Qed.

Section DinicSearch.
Import Dinic.

Variable es : list Edge.
Variable ids : list string.
Variables startNode endNode : string.
Variable levels : record Z.

Hypothesis source_dashFree : dashFree startNode = true.
Hypothesis ends_dashFree :
  forall e, In e es -> dashFree (from e) = true /\ dashFree (to e) = true.

Let capacities : record Z := FordFulkerson.initCapacities es.

Lemma edgesOnly_dashFree :
  forall i, In i (identifiers edgesOnly es startNode) -> dashFree i = true.
Proof.
  intros i [<-|Hi]; [assumption|]. simpl in Hi.
  apply in_flat_map in Hi as (e & He & [<-|[<-|[]]]); now apply ends_dashFree.
Qed.

(** [pushed] is no negative number. *)
Definition nonNegative (n : num) : Prop :=
  match n with
  | Fin z => (0 <= z)%Z
  | _ => True
  end.

(** [pushed] lets flow through. *)
Definition able (n : num) : Prop :=
  match n with
  | Fin z => (0 < z)%Z
  | Infinity => True
  | NaN => False
  end.

Definition within (b : Z) (n : num) : Prop :=
  match n with
  | Fin z => (b <= z)%Z
  | Infinity => True
  | NaN => False
  end.

(** [u] has a path to the sink that climbs one level per hop along
    residual capacity. *)
Inductive descends (fl : record Z) : string -> Prop :=
| descends_end : descends fl endNode
| descends_hop (u v : string) :
    In v ids -> offLevel levels u v = false ->
    positive (residual capacities fl u v) = true ->
    descends fl v -> descends fl u.

(** [b] units went from [u] at level [lu] to the sink along [u :: rest]. *)
Record pushedAlong (fl fl' : record Z) (u : string) (lu b : Z) (rest : list string)
  : Prop := {
  pa_last : last (u :: rest) u = endNode;
  pa_levels : forall i z, nth_error (u :: rest) i = Some z ->
                get levels z = Some (lu + Z.of_nat i)%Z;
  pa_dashFree : forall z, In z rest -> dashFree z = true;
  pa_pairs : incl (pathHops (u :: rest)) (flowPairs es);
  pa_room : Forall (fun h => (b <= FordFulkerson.residual capacities fl (fst h) (snd h))%Z)
                   (pathHops (u :: rest));
  pa_keys : sameKeys es fl';
  pa_flow : forall x y, dashFree x = true -> dashFree y = true ->
              flowOn fl' x y
              = (flowOn fl x y + b * occurrences (pathHops (u :: rest)) (x, y)
                 - b * occurrences (pathHops (u :: rest)) (y, x))%Z
}.

(** What a call of [dfs] on [u] gives: nothing, the flows untouched, or
    a path to the sink with the flow pushed along it. *)
Definition searched (fl : record Z) (u : string) (lu : Z) (pushed : num)
    (res : num * record Z) : Prop :=
  (truthy (fst res) = false /\ positive (fst res) = false /\ snd res = fl
   /\ (able pushed -> ~ descends fl u))
  \/ (exists b rest, fst res = Fin b /\ (0 < b)%Z /\ within b pushed
                     /\ pushedAlong fl (snd res) u lu b rest).

Lemma residual_Fin (fl : record Z) (u v : string) (z : Z) :
  residual capacities fl u v = Fin z ->
  In (getDirectedEdgeKey u v) (keys fl)
  /\ FordFulkerson.residual capacities fl u v = z.
Proof.
  unfold residual, FordFulkerson.residual.
  destruct (get fl (getDirectedEdgeKey u v)) as [f|] eqn:Hf; [|discriminate].
  intros [= <-]. split; [eapply get_Some_key; eauto|].
  unfold FordFulkerson.orZero at 2. now rewrite Hf.
Qed.

Lemma residual_room (fl : record Z) (u v : string) (z : Z) :
  feasible es fl -> dashFree u = true ->
  residual capacities fl u v = Fin z ->
  In (u, v) (flowPairs es) /\ dashFree v = true /\ (0 <= z)%Z.
Proof.
  intros Hf Hu Hr. destruct (residual_Fin _ _ _ _ Hr) as [Hkey Hz].
  assert (Hp : In (u, v) (flowPairs es)).
  { apply (key_flowPairs edgesOnly es startNode edgesOnly_dashFree fl);
      [apply (feasible_keys _ _ Hf) | assumption | assumption]. }
  destruct (pair_dashFree edgesOnly es startNode edgesOnly_dashFree _ _ Hp) as [_ Hv].
  split; [assumption|]. split; [assumption|].
  pose proof (feasible_capacity _ _ Hf u v Hu Hv) as Hcap.
  unfold FordFulkerson.residual in Hz. fold (flowOn fl u v) in Hz.
  unfold capOn in Hcap. unfold capacities in Hz. lia.
Qed.

Section Each.
Variable call : string -> num -> record Z -> outcome (num * record Z).
Variable u : string.
Variable lu : Z.
Variable pushed : num.

Hypothesis u_level : get levels u = Some lu.
Hypothesis u_inner : u <> endNode.
Hypothesis pushed_sound : nonNegative pushed.
Hypothesis pushed_nonzero : isZero pushed = false.
Hypothesis u_dashFree : able pushed -> dashFree u = true.
Hypothesis call_spec :
  forall v pushed' fl, feasible es fl -> get levels v = Some (lu + 1)%Z ->
    nonNegative pushed' -> (pushed' = Infinity -> v <> endNode) ->
    (able pushed' -> dashFree v = true) ->
    exists res, call v pushed' fl = Returned res /\ searched fl v (lu + 1) pushed' res.

Lemma each_searched (fl : record Z) (vs : list string) :
  feasible es fl ->
  exists res,
    each call capacities levels u pushed vs fl = Returned res
    /\ ((truthy (fst res) = false /\ positive (fst res) = false /\ snd res = fl
         /\ (able pushed -> forall v, In v vs -> offLevel levels u v = false ->
               positive (residual capacities fl u v) = true -> ~ descends fl v))
        \/ (exists b rest, fst res = Fin b /\ (0 < b)%Z /\ within b pushed
                           /\ pushedAlong fl (snd res) u lu b rest)).
Proof.
  intros Hf. induction vs as [|v vs IH].
  - eexists. split; [reflexivity|]. left. simpl. repeat split. intros _ v [].
  - cbn [each].
    destruct (offLevel levels u v || isZero (residual capacities fl u v)) eqn:Eskip.
    + destruct IH as (res & Hres & [(H1 & H2 & H3 & H4)|Hok]); exists res;
        (split; [exact Hres|]); [left | right; exact Hok].
      repeat (split; [assumption|]). intros Hable w Hw Hoff Hpos. destruct Hw as [Hw|Hw]; [subst w|eauto].
      rewrite Hoff in Eskip. simpl in Eskip.
      destruct (residual capacities fl u v) as [z| |]; try discriminate.
      simpl in *. lia.
    + apply orb_false_iff in Eskip as [Hoff Hnz].
      assert (Hlv : get levels v = Some (lu + 1)%Z).
      { unfold offLevel in Hoff. rewrite u_level in Hoff.
        destruct (get levels v) as [lv|]; [|discriminate].
        apply negb_false_iff, Z.eqb_eq in Hoff. now subst. }
      remember (residual capacities fl u v) as r eqn:Er. symmetry in Er.
      assert (Hcases : (min pushed r = NaN /\ (able pushed -> positive r = false))
                       \/ (able pushed /\ exists z, r = Fin z /\ (0 < z)%Z
                           /\ In (u, v) (flowPairs es) /\ dashFree v = true
                           /\ exists p, min pushed r = Fin p /\ (0 < p <= z)%Z
                                        /\ within p pushed)).
      { pose proof pushed_sound as Hs. pose proof pushed_nonzero as Hn.
        pose proof u_dashFree as Hd.
        destruct r as [z| |].
        - destruct pushed as [p| |] eqn:Ep; simpl in Hs, Hn, Hd.
          + right. assert (Hp : (0 < p)%Z) by lia.
            destruct (residual_room fl u v z Hf (Hd Hp) Er) as (Hin & Hv & Hz).
            simpl in Hnz. split; [exact Hp|]. exists z. split; [reflexivity|].
            repeat (split; [assumption || lia|]).
            exists (Z.min p z). simpl. split; [reflexivity|]. lia.
          + right. destruct (residual_room fl u v z Hf (Hd I) Er) as (Hin & Hv & Hz).
            simpl in Hnz. split; [exact I|]. exists z. split; [reflexivity|].
            repeat (split; [assumption || lia|]).
            exists z. simpl. split; [reflexivity|]. lia.
          + left. split; [reflexivity|]. intros [].
        - exfalso. unfold residual in Er.
          destruct (get fl (getDirectedEdgeKey u v)); discriminate.
        - left. split; [now destruct pushed|]. reflexivity. }
      destruct Hcases as [[Hmin Hweak]|(Hable & z & Hr & Hz & Hpair & Hv & p & Hmin & Hp & Hwp)].
      * destruct (call_spec v (min pushed r) fl Hf Hlv) as (res1 & Hcall & Hres1);
          try (rewrite Hmin; simpl; solve [exact I | discriminate | intros []]).
        rewrite Hcall. cbn [bind].
        destruct Hres1 as [(T1 & P1 & F1 & _)|(b & rest & _ & _ & Hw & _)];
          [|rewrite Hmin in Hw; destruct Hw].
        rewrite P1, F1.
        destruct IH as (res & Hres & [(H1 & H2 & H3 & H4)|Hok]); exists res;
          (split; [exact Hres|]); [left | right; exact Hok].
        repeat (split; [assumption|]). intros Ha w Hw Hoff' Hpos. destruct Hw as [Hw|Hw]; [subst w|eauto].
        rewrite Er, (Hweak Ha) in Hpos. discriminate.
      * destruct (call_spec v (min pushed r) fl Hf Hlv) as (res1 & Hcall & Hres1);
          try (rewrite Hmin; simpl; solve [lia | discriminate | intros _; assumption]).
        rewrite Hcall. cbn [bind].
        destruct Hres1 as [(T1 & P1 & F1 & Hno)|(b & rest & Hb & Hbpos & Hw & Hpa)].
        -- rewrite P1, F1.
           destruct IH as (res & Hres & [(H1 & H2 & H3 & H4)|Hok]); exists res;
             (split; [exact Hres|]); [left | right; exact Hok].
           repeat (split; [assumption|]). intros Ha w Hw Hoff' Hpos. destruct Hw as [Hw|Hw]; [subst w|eauto].
           apply Hno. rewrite Hmin. simpl. lia.
        -- rewrite Hb. cbn [positive]. rewrite Hmin in Hw. simpl in Hw.
           replace (b >? 0)%Z with true by (symmetry; apply Z.gtb_lt; lia).
           destruct Hpa as [Hlast Hlevels Hdash Hpairs Hroom Hkeys Hflow].
           assert (Hu : dashFree u = true) by exact (u_dashFree Hable).
           rewrite Hr in Er. destruct (residual_Fin _ _ _ _ Er) as [Hkey Hres].
           assert (Hkey1 : In (getDirectedEdgeKey u v) (keys (snd res1))).
           { apply Hkeys. apply (feasible_keys _ _ Hf). exact Hkey. }
           destruct (addTo_returns es (snd res1) _ b Hkeys Hkey1) as (f1 & _ & Hadd1 & Hkeys1).
           unfold raise. rewrite Hadd1. cbn [bind].
           assert (Hkey2 : In (getDirectedEdgeKey v u) (keys (set (snd res1) (getDirectedEdgeKey u v) (f1 + b)%Z))).
           { apply Hkeys1, initFlows_keys. apply flowPairs_sym, flowPairs_In in Hpair
               as (e & He & [[= -> ->]|[= -> ->]]); eauto. }
           destruct (addTo_returns es _ _ (- b)%Z Hkeys1 Hkey2) as (f2 & _ & Hadd2 & Hkeys2).
           unfold lower. rewrite Hadd2. cbn [bind].
           eexists. split; [reflexivity|]. right. exists b, (v :: rest). cbn [fst snd].
           split; [reflexivity|]. split; [assumption|].
           split; [destruct pushed; simpl in *; lia || exact I|].
           constructor;
             try change (pathHops (u :: v :: rest)) with ((u, v) :: pathHops (v :: rest)).
           ++ change (last (u :: v :: rest) u) with (last (v :: rest) u).
              now rewrite (last_same v u v).
           ++ intros [|i] w Hw'; simpl in Hw'.
              ** injection Hw' as <-. rewrite u_level. f_equal. lia.
              ** rewrite (Hlevels i w Hw'). f_equal. lia.
           ++ intros w [<-|Hw']; auto.
           ++ intros h [<-|Hh]; auto.
           ++ constructor; [simpl; unfold capacities in *; lia | exact Hroom].
           ++ exact Hkeys2.
           ++ intros x y Hx Hy.
              rewrite (addTo_flowOn _ _ v u (- b)%Z x y Hv Hx Hadd2).
              rewrite (addTo_flowOn _ _ u v b x y Hu Hx Hadd1).
              rewrite (Hflow x y Hx Hy), !occurrences_cons.
              destruct (pair_dec (v, u) (x, y)) as [E1|E1],
                       (pair_dec (u, v) (x, y)) as [E2|E2],
                       (pair_dec (u, v) (y, x)) as [E3|E3];
                try ring; exfalso;
                first [ apply E3; injection E1 as -> ->; reflexivity
                      | apply E1; injection E3 as -> ->; reflexivity ].
Qed.
End Each.

Lemma dfs_searched (fuel : nat) :
  forall u lu pushed fl,
    feasible es fl -> get levels u = Some lu ->
    (fold_right Z.max 0 (map snd levels) - lu < Z.of_nat fuel)%Z ->
    nonNegative pushed -> (pushed = Infinity -> u <> endNode) ->
    (able pushed -> dashFree u = true) ->
    exists res, dfs fuel ids capacities levels endNode u pushed fl = Returned res
                /\ searched fl u lu pushed res.
Proof.
  induction fuel as [|fuel IH]; intros u lu pushed fl Hf Hlu Hfuel Hsound Hinf Hdash;
    pose proof (level_below_max _ _ _ Hlu) as Hmax; [lia|].
  cbn [dfs]. destruct (isZero pushed || (u =? endNode)%string) eqn:Estop.
  - eexists. split; [reflexivity|]. unfold searched. cbn [fst snd].
    destruct pushed as [p| |]; simpl in *.
    + destruct (Z.eqb_spec p 0) as [->|Hp].
      * left. simpl. repeat split. lia.
      * simpl in Estop. apply String.eqb_eq in Estop. right. exists p, [].
        split; [reflexivity|]. split; [lia|]. split; [lia|].
        constructor; simpl.
        -- exact Estop.
        -- intros [|i] z Hz; simpl in Hz; [|destruct i; discriminate].
           injection Hz as <-. rewrite Hlu. f_equal. lia.
        -- intros z [].
        -- intros h [].
        -- constructor.
        -- apply (feasible_keys _ _ Hf).
        -- intros x y _ _. unfold occurrences. simpl. ring.
    + apply String.eqb_eq in Estop. now destruct (Hinf eq_refl).
    + left. repeat split. intros [].
  - apply orb_false_iff in Estop as [Hnz Hne]. apply String.eqb_neq in Hne.
    destruct (each_searched (dfs fuel ids capacities levels endNode) u lu pushed
                Hlu Hne Hsound Hnz Hdash) with (fl := fl) (vs := ids)
      as (res & Hres & [(H1 & H2 & H3 & H4)|Hok]).
    + intros v pushed' fl' Hf' Hlv Hs' Hi' Hd'. apply (IH v (lu + 1)%Z); auto. lia.
    + exact Hf.
    + exists res. split; [exact Hres|]. left. repeat (split; [assumption|]).
      intros Hable Hdesc. inversion Hdesc as [Hend|u' v Hv Hoff Hpos Hv' Hu']; [congruence|].
      subst u'. exact (H4 Hable v Hv Hoff Hpos Hv').
    + exists res. split; [exact Hres|]. right. exact Hok.
Qed.
End DinicSearch.

Lemma climbing_NoDup (levels : record Z) (lu : Z) (l : list string) :
  (forall i z, nth_error l i = Some z -> get levels z = Some (lu + Z.of_nat i)%Z) ->
  NoDup l.
Proof.
  intros Hlv. apply NoDup_nth_error. intros i j Hi Heq.
  destruct (nth_error l i) as [z|] eqn:Hz; [|apply nth_error_None in Hz; lia].
  symmetry in Heq. pose proof (Hlv i z Hz) as H1. pose proof (Hlv j z Heq) as H2.
  rewrite H1 in H2. injection H2 as H2. lia.
Qed.

Section DinicPhases.
Import Dinic.

Variable es : list Edge.
Variable ids : list string.
Variables startNode endNode : string.

Hypothesis source_dashFree : dashFree startNode = true.
Hypothesis ends_dashFree :
  forall e, In e es -> dashFree (from e) = true /\ dashFree (to e) = true.
Hypothesis nonnegative : forall e, In e es -> (0 <= weight e)%Z.
Hypothesis pairs_distinct : NoDup (map (fun e => (from e, to e)) es).
Hypothesis ends_nodes : forall e, In e es -> In (from e) ids /\ In (to e) ids.
Hypothesis ends_differ : startNode <> endNode.

Let capacities : record Z := FordFulkerson.initCapacities es.
Let dashes := edgesOnly_dashFree es startNode source_dashFree ends_dashFree.

(** The capacity out of the source bounds every flow. *)
Lemma flow_below_source (f : record Z) (total : Z) :
  feasible es f -> valued es startNode endNode f total ->
  (total <= MinCut.cutValue es (add [] startNode))%Z.
Proof.
  intros Hf Hv.
  apply (flow_below_cut edgesOnly es startNode endNode dashes f total _ pairs_distinct Hf Hv).
  - apply has_In, add_In. now right.
  - apply has_false. intros H. apply add_In in H as [[]|H]. now apply ends_differ.
Qed.

(** The sink has a level only if the source has a path to it up the
    levels. *)
Lemma levels_descend (f : record Z) (done : list string) (levels : record Z) :
  levelSearch ids capacities f startNode done levels [] ->
  forall n v lv, get levels v = Some lv -> Z.to_nat lv = n ->
    descends es ids endNode levels f v -> descends es ids endNode levels f startNode.
Proof.
  intros [_ _ _ Hstart Hpar Hnn _]. induction n as [|n IH]; intros v lv Hv Hn Hd;
    (destruct (string_dec v startNode) as [->|Hne]; [exact Hd|]);
    destruct (Hpar v lv Hv Hne) as (u & Hu & Hvi & Hres);
    pose proof (Hnn u _ Hu) as Hu0; [lia|].
  apply (IH u (lv - 1)%Z Hu); [lia|].
  apply (descends_hop es ids endNode levels f u v Hvi); [|exact Hres | exact Hd].
  unfold offLevel. rewrite Hv, Hu. apply negb_false_iff, Z.eqb_eq. lia.
Qed.

(** The levelSearch nodes of a phase that misses the sink are a cut that the
    flow fills. *)
Lemma levels_cut (f : record Z) (total : Z) (done : list string) (levels : record Z) :
  levelSearch ids capacities f startNode done levels [] ->
  has (keys levels) endNode = false ->
  feasible es f -> valued es startNode endNode f total ->
  has (keys levels) startNode = true
  /\ MinCut.cutValue es (keys levels) = total.
Proof.
  intros [_ Hkeys _ Hstart _ _ Hclosed] Hend Hf Hv.
  assert (Hs : has (keys levels) startNode = true).
  { apply has_In. eapply get_Some_key; eauto. }
  split; [exact Hs|].
  rewrite <- (Hv (has (keys levels)) Hs Hend).
  rewrite <- (crossing_capacity edgesOnly es startNode dashes _ pairs_distinct).
  unfold crossingFlow. apply sumOver_ext. intros [x y] Hp. simpl.
  destruct (has (keys levels) x && negb (has (keys levels) y)) eqn:E; [|reflexivity].
  apply andb_prop in E as [Hx Hy].
  apply has_In in Hx. apply negb_true_iff, has_false in Hy.
  destruct (pair_dashFree edgesOnly es startNode dashes _ _ Hp) as [Hdx Hdy].
  pose proof (feasible_capacity _ _ Hf x y Hdx Hdy) as Hcap.
  assert (Hyi : In y ids).
  { apply flowPairs_In in Hp as (e & He & [[= -> ->]|[= -> ->]]); apply (ends_nodes e He). }
  assert (Hkey : In (getDirectedEdgeKey x y) (keys f)).
  { apply (feasible_keys _ _ Hf), initFlows_keys.
    apply flowPairs_In in Hp as (e & He & [[= -> ->]|[= -> ->]]); eauto. }
  destruct (key_get_Some _ _ Hkey) as [fv Hfv].
  assert (Hres : positive (residual capacities f x y) = false).
  { destruct (positive (residual capacities f x y)) eqn:Hpos; [|reflexivity].
    exfalso. apply Hy. apply (Hclosed x y); [|assumption|assumption].
    apply Hkeys in Hx. now rewrite app_nil_r in Hx. }
  unfold residual in Hres. rewrite Hfv in Hres. cbn [positive] in Hres.
  assert (Hflow : flowOn f x y = fv).
  { unfold flowOn, FordFulkerson.orZero. now rewrite Hfv. }
  rewrite Hflow in *. unfold capOn in *. unfold capacities in Hres.
  destruct (Z.gtb_spec (FordFulkerson.orZero (FordFulkerson.initCapacities es)
                          (getDirectedEdgeKey x y) - fv) 0); [discriminate | lia].
Qed.

Lemma max_nonneg (l : list Z) : (0 <= fold_right Z.max 0 l)%Z.
Proof. induction l; simpl; lia. Qed.

(** One search from the source: nothing, or a path with the flow pushed
    along it. *)
Lemma dfs_from_source (levels : record Z) (f : record Z) (total : Z) :
  get levels startNode = Some 0%Z ->
  feasible es f -> valued es startNode endNode f total ->
  exists res,
    dfs (depth levels) ids capacities levels endNode startNode Infinity f = Returned res
    /\ ((truthy (fst res) = false /\ snd res = f
         /\ ~ descends es ids endNode levels f startNode)
        \/ (exists b, fst res = Fin b /\ (0 < b)%Z /\ feasible es (snd res)
                      /\ valued es startNode endNode (snd res) (total + b)
                      /\ (total + b <= MinCut.cutValue es (add [] startNode))%Z)).
Proof.
  intros Hstart Hf Hv.
  destruct (dfs_searched es ids startNode endNode levels source_dashFree ends_dashFree
              (depth levels) startNode 0%Z Infinity f Hf Hstart)
    as (res & Hres & Hsearched).
  { unfold depth. pose proof (max_nonneg (map snd levels)). lia. }
  { exact I. }
  { intros _. exact ends_differ. }
  { intros _. exact source_dashFree. }
  exists res. split; [exact Hres|].
  destruct Hsearched as [(T & _ & Hsame & Hno)|(b & rest & Hb & Hbpos & _ & Hpa)].
  - left. split; [exact T|]. split; [exact Hsame|]. exact (Hno I).
  - right. exists b. split; [exact Hb|]. split; [exact Hbpos|].
    destruct Hpa as [Hlast Hlevels Hdash Hpairs Hroom Hkeys Hflow].
    destruct (push_feasible edgesOnly es startNode endNode dashes f (snd res)
                total b rest Hf Hv) as [Hf' Hv'].
    + exact (climbing_NoDup levels 0%Z _ Hlevels).
    + exact Hlast.
    + intros z [<-|Hz]; [exact source_dashFree | exact (Hdash z Hz)].
    + exact Hpairs.
    + intros h Hh. apply in_map_iff in Hh as ([x y] & <- & Hh). simpl.
      apply flowPairs_sym, Hpairs, Hh.
    + exact Hroom.
    + exact Hbpos.
    + exact Hkeys.
    + exact Hflow.
    + split; [exact Hf'|]. split; [exact Hv'|]. exact (flow_below_source _ _ Hf' Hv').
Qed.

(** The paths of one phase. *)
Lemma blocking_spec (levels : record Z) (fuel : nat) :
  get levels startNode = Some 0%Z ->
  forall s total,
    feasible es (fl s) -> totalFlow s = Fin total ->
    valued es startNode endNode (fl s) total ->
    (MinCut.cutValue es (add [] startNode) - total <= Z.of_nat fuel)%Z ->
    Forall (shown es) (steps s) ->
    exists s' total',
      blocking fuel ids capacities levels startNode endNode s = Returned s'
      /\ feasible es (fl s') /\ totalFlow s' = Fin total'
      /\ valued es startNode endNode (fl s') total'
      /\ (total <= total')%Z
      /\ (descends es ids endNode levels (fl s) startNode -> (total < total')%Z)
      /\ phase s' = phase s
      /\ Forall (shown es) (steps s').
Proof.
  intros Hstart.
  assert (Hstop : forall fuel s total res,
            feasible es (fl s) -> totalFlow s = Fin total ->
            valued es startNode endNode (fl s) total ->
            Forall (shown es) (steps s) ->
            dfs (depth levels) ids capacities levels endNode startNode Infinity (fl s)
            = Returned res ->
            truthy (fst res) = false -> snd res = fl s ->
            ~ descends es ids endNode levels (fl s) startNode ->
            exists s' total',
              blocking fuel ids capacities levels startNode endNode s = Returned s'
              /\ feasible es (fl s') /\ totalFlow s' = Fin total'
              /\ valued es startNode endNode (fl s') total'
              /\ (total <= total')%Z
              /\ (descends es ids endNode levels (fl s) startNode -> (total < total')%Z)
              /\ phase s' = phase s
              /\ Forall (shown es) (steps s')).
  { intros fuel0 s total res Hf Htotal Hv Hsteps Hres T Hsame Hno.
    exists {| fl := snd res; totalFlow := totalFlow s; phase := phase s;
              steps := steps s |}, total.
    split; [destruct fuel0; cbn [blocking]; rewrite Hres; cbn [bind]; now rewrite T|].
    cbn [fl totalFlow phase steps]. rewrite Hsame.
    split; [assumption|]. split; [assumption|]. split; [assumption|].
    split; [lia|]. split; [intros Hd; now destruct (Hno Hd)|].
    split; [reflexivity | assumption]. }
  induction fuel as [|fuel IH]; intros s total Hf Htotal Hv Hfuel Hsteps;
    destruct (dfs_from_source levels (fl s) total Hstart Hf Hv)
      as (res & Hres & [(T & Hsame & Hno)|(b & Hb & Hbpos & Hf' & Hv' & Hcut)]);
    try (eapply Hstop; eassumption); [lia|].
  cbn [blocking]. rewrite Hres. cbn [bind]. rewrite Hb. cbn [truthy].
  replace (negb (b =? 0)%Z) with true by (symmetry; apply negb_true_iff, Z.eqb_neq; lia).
  rewrite Htotal. cbn [plus].
  match goal with |- context [blocking fuel _ _ _ _ _ ?s1] =>
    destruct (IH s1 (total + b)%Z) as (s' & total' & Hrun & H1 & H2 & H3 & H4 & _ & H6 & H7) end.
  - exact Hf'.
  - reflexivity.
  - exact Hv'.
  - lia.
  - cbn [steps]. apply Forall_app. split; [assumption|]. constructor; [|constructor].
    exists (snd res). split; [reflexivity | assumption].
  - exists s', total'. split; [exact Hrun|].
    split; [assumption|]. split; [assumption|]. split; [assumption|].
    split; [lia|]. split; [intros _; lia|]. split; assumption.
Qed.

(** The phases end with a flow and a cut of the same value. *)
Lemma phases_spec (pathFuel fuel : nat) :
  forall s total,
    feasible es (fl s) -> totalFlow s = Fin total ->
    valued es startNode endNode (fl s) total ->
    (MinCut.cutValue es (add [] startNode) - total <= Z.of_nat fuel)%Z ->
    (MinCut.cutValue es (add [] startNode) <= Z.of_nat pathFuel)%Z ->
    (0 <= total)%Z ->
    Forall (shown es) (steps s) ->
    exists s' total' levels done,
      phases fuel pathFuel ids capacities startNode endNode s = Returned s'
      /\ feasible es (fl s') /\ totalFlow s' = Fin total'
      /\ valued es startNode endNode (fl s') total'
      /\ Forall (shown es) (steps s')
      /\ finalStep (steps s')
         = Some (createStep "Sink is not reachable. Algorithm complete."
                            (phase s' - 1)%Z (fl s') (Fin total'))
      /\ levelSearch ids capacities (fl s') startNode done levels []
      /\ has (keys levels) endNode = false.
Proof.
  assert (Hshown : forall s built, feasible es (fl s) -> Forall (shown es) (steps s) ->
            flows built = Some (fl s) -> Forall (shown es) (steps s ++ [built])).
  { intros s built Hf Hsteps Hb. apply Forall_app. split; [assumption|].
    constructor; [|constructor]. exists (fl s). split; assumption. }
  induction fuel as [|fuel IH]; intros s total Hf Htotal Hv Hfuel Hpath Hpos Hsteps;
    cbn [phases];
    destruct (levels_built ids capacities (fl s) startNode) as (levels & done & Hbfs & Hlv);
    rewrite Hbfs; cbn [bind];
    destruct (has (keys levels) endNode) eqn:Hend; cbn [negb].
  - exfalso.
    assert (Hd : descends es ids endNode levels (fl s) startNode).
    { apply has_In, key_get_Some in Hend as [lt Hlt].
      apply (levels_descend (fl s) done levels Hlv _ endNode lt Hlt eq_refl).
      constructor. }
    destruct (dfs_from_source levels (fl s) total (lsearch_start _ _ _ _ _ _ _ Hlv) Hf Hv)
      as (res & Hres & [(_ & _ & Hno)|(b & _ & Hbpos & _ & _ & Hcut)]);
      [now apply Hno | lia].
  - eexists _, total, levels, done. split; [reflexivity|]. cbn [fl totalFlow phase steps].
    split; [assumption|]. split; [assumption|]. split; [assumption|].
    split; [now apply Hshown|].
    split; [rewrite Htotal; apply finalStep_snoc|]. split; assumption.
  - assert (Hd : descends es ids endNode levels (fl s) startNode).
    { apply has_In, key_get_Some in Hend as [lt Hlt].
      apply (levels_descend (fl s) done levels Hlv _ endNode lt Hlt eq_refl).
      constructor. }
    match goal with |- context [steps s ++ [?built]] =>
      destruct (blocking_spec levels pathFuel (lsearch_start _ _ _ _ _ _ _ Hlv)
                  {| fl := fl s; totalFlow := totalFlow s; phase := phase s;
                     steps := steps s ++ [built] |} total)
        as (s1 & total1 & Hrun & Hf1 & Ht1 & Hv1 & Hle & Hlt & Hph & Hsteps1) end.
    + exact Hf.
    + exact Htotal.
    + exact Hv.
    + lia.
    + cbn [steps]. now apply Hshown.
    + cbn [fl totalFlow phase steps] in *. specialize (Hlt Hd).
      pose proof (flow_below_source _ _ Hf1 Hv1) as Hcut.
      rewrite Hrun. cbn [bind].
      match goal with |- context [phases fuel _ _ _ _ _ ?s2] =>
        destruct (IH s2 total1) as (s' & total' & levels' & done' & Hrun' & Hrest) end;
        cbn [fl totalFlow phase steps]; try assumption; try lia.
      exists s', total', levels', done'. split; [exact Hrun' | exact Hrest].
  - eexists _, total, levels, done. split; [reflexivity|]. cbn [fl totalFlow phase steps].
    split; [assumption|]. split; [assumption|]. split; [assumption|].
    split; [now apply Hshown|].
    split; [rewrite Htotal; apply finalStep_snoc|]. split; assumption.
Qed.
End DinicPhases.

(** The checks on a network for Dinic's algorithm: the source and the
    ends of the edges hold no ['-'], no weight is negative, no two edges
    join the same pair of nodes in the same direction, the ends of every
    edge are nodes of the graph, and the source is not the sink. *)
Definition leveledNetwork (graph : GraphData) (es : list Edge)
    (startNode endNode : string) : bool :=
  dashFree startNode
  && forallb (fun e => dashFree (from e) && dashFree (to e)) es
  && forallb (fun e => (0 <=? weight e)%Z) es
  && distinct (map (fun e => (from e, to e)) es)
  && forallb (fun e => includes (map id (nodes graph)) (from e)
                       && includes (map id (nodes graph)) (to e)) es
  && negb (startNode =? endNode)%string.

Lemma leveledNetwork_facts (graph : GraphData) (es : list Edge)
    (startNode endNode : string) :
  leveledNetwork graph es startNode endNode = true ->
  dashFree startNode = true
  /\ (forall e, In e es -> dashFree (from e) = true /\ dashFree (to e) = true)
  /\ (forall e, In e es -> (0 <= weight e)%Z)
  /\ NoDup (map (fun e => (from e, to e)) es)
  /\ (forall e, In e es -> In (from e) (map id (nodes graph))
                           /\ In (to e) (map id (nodes graph)))
  /\ startNode <> endNode.
Proof.
  unfold leveledNetwork. intros Hnet.
  apply andb_prop in Hnet as [Hnet Hends].
  apply andb_prop in Hnet as [Hnet Hnodes].
  apply andb_prop in Hnet as [Hnet Hdistinct].
  apply andb_prop in Hnet as [Hnet Hw].
  apply andb_prop in Hnet as [Hstart Hdash].
  rewrite forallb_forall in Hdash, Hw, Hnodes.
  split; [exact Hstart|].
  split; [intros e He; apply andb_prop, Hdash, He|].
  split; [intros e He; specialize (Hw e He); lia|].
  split; [apply distinct_NoDup, Hdistinct|].
  split; [|apply negb_true_iff, String.eqb_neq in Hends; exact Hends].
  intros e He. specialize (Hnodes e He). apply andb_prop in Hnodes as [H1 H2].
  split; apply includes_In; assumption.
Qed.

(** The run of Dinic's algorithm on a network. *)
Lemma dinic_run (graph : GraphData) (es : list Edge) (startNode endNode : string) :
  edges graph = Some es ->
  leveledNetwork graph es startNode endNode = true ->
  exists s total side,
    Dinic.run graph startNode endNode = Returned s
    /\ feasible es (Dinic.fl s)
    /\ valued es startNode endNode (Dinic.fl s) total
    /\ Forall (shown es) (Dinic.steps s)
    /\ finalStep (Dinic.steps s)
       = Some (Dinic.createStep "Sink is not reachable. Algorithm complete."
                 (Dinic.phase s - 1)%Z (Dinic.fl s) (Dinic.Fin total))
    /\ has side startNode = true /\ has side endNode = false
    /\ MinCut.cutValue es side = total.
Proof.
  intros Hes Hnet.
  destruct (leveledNetwork_facts graph es startNode endNode Hnet)
    as (Hstart & Hdash & Hnn & Hdistinct & Hnodes & Hends).
  destruct (initial_feasible es startNode endNode Hnn) as [Hf0 Hv0].
  unfold Dinic.run, Dinic.run_fuel. rewrite Hes. cbn [orThrow bind].
  destruct (phases_spec es (map id (nodes graph)) startNode endNode Hstart Hdash
              Hdistinct Hends
              (Z.to_nat (MinCut.cutValue es (add [] startNode)))
              (Z.to_nat (MinCut.cutValue es (add [] startNode)))
              {| Dinic.fl := FordFulkerson.initFlows es; Dinic.totalFlow := Dinic.Fin 0;
                 Dinic.phase := 1; Dinic.steps := [] |} 0%Z)
    as (s & total & levels & done & Hrun & Hf & Ht & Hv & Hsteps & Hfinal & Hlv & Hend);
    cbn [Dinic.fl Dinic.totalFlow Dinic.steps]; try assumption; try reflexivity;
    try lia; try constructor.
  destruct (levels_cut es (map id (nodes graph)) startNode endNode Hstart Hdash
              Hdistinct Hnodes (Dinic.fl s) total done levels Hlv Hend Hf Hv)
    as [Hs Hcut].
  exists s, total, (keys levels). split; [exact Hrun|].
  repeat (split; [assumption|]). assumption.
Qed.





(** ** The colours of the final frames *)

Lemma getEdgeKey_swap (a b : string) (w w' : Z) :
  getEdgeKey {| from := b; to := a; weight := w |}
  = getEdgeKey {| from := a; to := b; weight := w' |}.
Proof.
  unfold getEdgeKey; simpl.
  destruct (a <? b)%string eqn:E1, (b <? a)%string eqn:E2; try reflexivity.
  - apply ltb_asym in E1. congruence.
  - now rewrite (ltb_total _ _ E1 E2).
Qed.

(** With identifiers without ['-'], the key of an edge is the key of the
    pair [(a, b)] exactly when the edge joins [a] and [b]. *)
Lemma getEdgeKey_joins (e : Edge) (a b : string) (w : Z) :
  dashFree (from e) = true -> dashFree (to e) = true ->
  dashFree a = true -> dashFree b = true ->
  (getEdgeKey e = getEdgeKey {| from := a; to := b; weight := w |}
   <-> Reference.joins e a b).
Proof.
  intros Hf Ht Ha Hb. split.
  - unfold getEdgeKey, Reference.joins. simpl.
    destruct (to e <? from e)%string, (b <? a)%string; intros H;
      apply undirected_key_injective in H; tauto.
  - destruct e as [x y we]. unfold Reference.joins. simpl in *.
    intros [[-> ->]|[-> ->]].
    + unfold getEdgeKey. reflexivity.
    + apply getEdgeKey_swap.
Qed.

Lemma pathPairs_cons (x : string) (l : list string) (p : string * string) :
  In p (Render.pathPairs l) -> In p (Render.pathPairs (x :: l)).
Proof.
  destruct l as [|y l]; [intros []|]. intros H.
  change (Render.pathPairs (x :: y :: l)) with ((x, y) :: Render.pathPairs (y :: l)).
  now right.
Qed.

(** The flattened ends of a list of edges hold every edge as a pair of
    neighbours. *)
Lemma pathPairs_flat (l : list Edge) (e : Edge) :
  In e l -> In (from e, to e) (Render.pathPairs (flat_map (fun e => [from e; to e]) l)).
Proof.
  induction l as [|e' l IH]; [intros []|]. intros [->|He].
  - simpl. now left.
  - change (flat_map (fun e => [from e; to e]) (e' :: l))
      with (from e' :: to e' :: flat_map (fun e => [from e; to e]) l).
    apply pathPairs_cons, pathPairs_cons, IH, He.
Qed.

Lemma matches_found (a b : string) (pairs : list (string * string)) :
  In (a, b) pairs ->
  existsb (Render.matches a b) pairs = true /\ existsb (Render.matches b a) pairs = true.
Proof.
  intros H. split; apply existsb_exists; exists (a, b); (split; [exact H|]);
    unfold Render.matches; simpl; rewrite !String.eqb_refl; simpl;
    [reflexivity | apply orb_true_r].
Qed.

(** The last Step of a Kruskal trace. *)
Lemma kruskal_final_snapshot (graph : GraphData) (trace : list Step) (final : Step) :
  Kruskal.generateSteps graph = Returned trace -> finalStep trace = Some final ->
  exists sorted sets mst,
    final = Kruskal.snapshot sorted "Finished. Minimum Spanning Tree is complete."
              sets None mst.
Proof.
  unfold Kruskal.generateSteps. intros Hrun Hfinal.
  destruct (edges graph) as [es|]; [|discriminate]. cbn [orThrow bind] in Hrun.
  destruct (Kruskal.emit _ _ _ _) as [s0|]; [|discriminate]. cbn [bind] in Hrun.
  destruct (Kruskal.forEdges _ _ _) as [s1|]; [|discriminate]. cbn [bind] in Hrun.
  unfold Kruskal.emit in Hrun.
  destruct (DisjointSet.getSets (Kruskal.dsu s1)) as [[sets d]|]; [|discriminate].
  cbn [bind Kruskal.steps] in Hrun. injection Hrun as <-.
  rewrite finalStep_snoc in Hfinal. injection Hfinal as <-. eauto.
Qed.




